(** * eix configuration store: delayed substitution in [eixrc.cc]

    A shallow embedding of [EixRc] (src/eixrc/eixrc.cc): the directive
    scanner [find_next_delayed], the recursive resolver
    [resolve_delayed_recurse], the layering done by [read_undelayed],
    the driver [read] with its final [%%{] pass, the truth predicate
    [istrue] and the redundancy flag parser [getRedundantFlags],
    followed by the properties of these functions.

    Strings are [string]; the class's base [map<string,string>] is a
    [gmap string string]; [set<string>] is a [gset string]. *)

From Stdlib Require Import Ascii String ZArith NArith Lia.
From stdpp Require Import gmap strings list fin_maps.

Open Scope string_scope.

(** ** [std::string] and C string primitives *)

Module Str.

(** [s[i]]: for [i = s.size()] the standard gives the terminating NUL;
    the callers below never index past [s.size()]. *)
Definition at_ (s : string) (i : nat) : ascii :=
  default Ascii.zero (String.get i s).

(** [s.find(pat, pos)], with [None] for [npos]. *)
Definition find (s pat : string) (pos : nat) : option nat :=
  String.index pos pat s.

(** [s.substr(pos, n)] and [s.substr(pos)]; [n] is clipped to the end as in
    C++. *)
Definition substr (s : string) (pos n : nat) : string :=
  String.substring pos n s.

Definition substr_from (s : string) (pos : nat) : string :=
  String.substring pos (String.length s - pos) s.

(** [s.erase(pos, n)]. *)
Definition erase (s : string) (pos n : nat) : string :=
  substr s 0 pos ++ substr_from s (pos + n).

(** [s.replace(pos, n, r)]. *)
Definition replace (s : string) (pos n : nat) (r : string) : string :=
  substr s 0 pos ++ r ++ substr_from s (pos + n).

(** [s.c_str()] read as a C string: it ends at the first NUL. *)
Fixpoint c_str (s : string) : string :=
  match s with
  | EmptyString => EmptyString
  | String c s' =>
      if Ascii.eqb c Ascii.zero then EmptyString else String c (c_str s')
  end.

(** [tolower] in the C locale. *)
Definition tolower (c : ascii) : ascii :=
  if (Ascii.leb "A" c && Ascii.leb c "Z")%bool
  then ascii_of_nat (nat_of_ascii c + 32)
  else c.

(** [strcasecmp] on C strings: the difference of the first pair of
    characters that differ after [tolower], 0 when there is none. *)
Fixpoint strcasecmp (s1 s2 : string) : Z :=
  match s1, s2 with
  | EmptyString, EmptyString => 0
  | EmptyString, String c2 _ => 0 - Z.of_nat (nat_of_ascii (tolower c2))
  | String c1 _, EmptyString => Z.of_nat (nat_of_ascii (tolower c1))
  | String c1 r1, String c2 r2 =>
      let d := (Z.of_nat (nat_of_ascii (tolower c1))
                - Z.of_nat (nat_of_ascii (tolower c2)))%Z in
      if (d =? 0)%Z then strcasecmp r1 r2 else d
  end.

End Str.

(** ** The directive scanner *)

Inductive DelayedType :=
| DelayedNotFound
| DelayedVariable
| DelayedIf
| DelayedNotif
| DelayedElse
| DelayedFi.

Global Instance DelayedType_eq_dec : EqDecision DelayedType.
Proof. solve_decision. Defined.

(** The test that rejects the first character of a name:
    [(c != '*') && (c != '_') && ((c < 'A') || (c > 'Z')) &&
     ((c < 'a') || (c > 'z'))]. *)
Definition not_name_start (c : ascii) : bool :=
  (negb (Ascii.eqb c "*") && negb (Ascii.eqb c "_")
   && (Ascii.ltb c "A" || Ascii.ltb "Z" c)
   && (Ascii.ltb c "a" || Ascii.ltb "z" c))%bool.

(** The test that ends the name loop:
    [(c != '_') && ((c < '0') || (c > '9')) && ((c < 'A') || (c > 'Z')) &&
     ((c < 'a') || (c > 'z'))]. *)
Definition not_name_char (c : ascii) : bool :=
  (negb (Ascii.eqb c "_")
   && (Ascii.ltb c "0" || Ascii.ltb "9" c)
   && (Ascii.ltb c "A" || Ascii.ltb "Z" c)
   && (Ascii.ltb c "a" || Ascii.ltb "z" c))%bool.

(** The loop [for(;;) { c = str[i++]; if (not a name character) break; }],
    run on the characters of [str] from index [i] on; it returns the last
    [c] read and [i] after the last increment.  Reading at [str.size()]
    gives NUL, which ends the loop. *)
Fixpoint name_loop (rest : string) (i : nat) : ascii * nat :=
  match rest with
  | EmptyString => (Ascii.zero, S i)
  | String c rest' =>
      if not_name_char c then (c, S i) else name_loop rest' (S i)
  end.

(** What the body of the scanner's loop does with the occurrence of [%{]
    at [pos] once it is known not to follow a [%]: [None] stands for
    [continue], [Some (type, i - pos)] for the return. *)
Definition delayed_at (str : string) (pos : nat) : option (DelayedType * nat) :=
  let i := pos + 2 in
  let c := Str.at_ str i in
  let i := S i in
  if Ascii.eqb c "}" then Some (DelayedFi, i - pos)
  else
    let '(type, c, i) :=
      if Ascii.eqb c "?" then (DelayedIf, Str.at_ str i, S i)
      else if Ascii.eqb c "!" then (DelayedNotif, Str.at_ str i, S i)
      else (DelayedVariable, c, i) in
    if not_name_start c then None
    else
      let '(c, i) := name_loop (Str.substr_from str i) i in
      if negb (Ascii.eqb c "}") then None
      else
        if (Str.strcasecmp (Str.c_str (Str.substr str (pos + 2) (i - pos - 3)))
                           "else" =? 0)%Z
        then Some (DelayedElse, i - pos)
        else Some (type, i - pos).

(** [find_next_delayed(str, &pos, &length)]: the result is the type with the
    new values of [*posref] and [*length].  On [DelayedNotFound] the source
    sets [*posref = npos] and leaves [*length] alone; no caller reads either
    afterwards, the model returns 0 for both.  Every [continue] moves [pos]
    two characters on, so [fuel] larger than the string's length is never
    used up (lemma [find_next_delayed_loop_fuel]). *)
Fixpoint find_next_delayed_loop (fuel : nat) (str : string) (pos : nat)
  : DelayedType * nat * nat :=
  match fuel with
  | 0 => (DelayedNotFound, 0, 0)
  | S fuel =>
      match Str.find str "%{" pos with
      | None => (DelayedNotFound, 0, 0)
      | Some pos =>
          if ((0 <? pos)%nat && Ascii.eqb (Str.at_ str (pos - 1)) "%")%bool
          then find_next_delayed_loop fuel str (pos + 2)
          else
            match delayed_at str pos with
            | None => find_next_delayed_loop fuel str (pos + 2)
            | Some (type, length) => (type, pos, length)
            end
      end
  end.

Definition find_next_delayed (str : string) (pos : nat)
  : DelayedType * nat * nat :=
  find_next_delayed_loop (S (String.length str)) str pos.

(** ** The configuration object *)

(** [EixRcOption::type]. *)
Inductive OptionType := BOOLEAN | STRING | INTEGER | LOCAL.

Global Instance OptionType_eq_dec : EqDecision OptionType.
Proof. solve_decision. Defined.

Record EixRcOption := {
  type : OptionType;
  key : string;
  value : string;
  local_value : string;
  description : string;
}.

(** The constructor [EixRcOption(t, name, val, desc)]: a [LOCAL] option
    stores [val] as its local value, the others store it as the default
    with the description. *)
Definition mkOption (t : OptionType) (name val desc : string) : EixRcOption :=
  if decide (t = LOCAL)
  then {| type := t; key := name; value := ""; local_value := val;
          description := "" |}
  else {| type := t; key := name; value := val; local_value := "";
          description := desc |}.

(** [EixRc]: the inherited [map<string,string>] is [this]; [defaults] is the
    vector of options and [varprefix] the member that [%{*name}] prepends. *)
Record EixRc := {
  this : gmap string string;
  defaults : list EixRcOption;
  varprefix : string;
  m_eprefix : string;
  m_eprefixconf : string;
}.

(** The map entry [this->operator[](k)] as an rvalue; a missing key reads
    as the empty string that [operator[]] would insert. *)
Definition get (rc : EixRc) (k : string) : string :=
  default "" (this rc !! k).

Definition with_this (rc : EixRc) (m : gmap string string) : EixRc :=
  {| this := m; defaults := defaults rc; varprefix := varprefix rc;
     m_eprefix := m_eprefix rc; m_eprefixconf := m_eprefixconf rc |}.

(** The assignment [this->operator[](k) = v]. *)
Definition set (rc : EixRc) (k v : string) : EixRc :=
  with_this rc (<[k := v]> (this rc)).

(** The side effect of evaluating [this->operator[](k)]: a missing key is
    inserted with an empty value. *)
Definition touch (rc : EixRc) (k : string) : EixRc :=
  set rc k (get rc k).

(** [EixRc::istrue]. *)
Definition istrue (s : string) : bool :=
  if (Str.strcasecmp s "true" =? 0)%Z then true
  else if (Str.strcasecmp s "1" =? 0)%Z then true
  else if (Str.strcasecmp s "yes" =? 0)%Z then true
  else if (Str.strcasecmp s "y" =? 0)%Z then true
  else if (Str.strcasecmp s "on" =? 0)%Z then true
  else false.

(** ** The delayed resolver *)

(** The object together with the two sets that [resolve_delayed_recurse]
    takes by reference. *)
Record Frame := {
  rc : EixRc;
  visited : gset string;
  has_reference : gset string;
}.

(** What a call produces: the returned pointer is the address of the map entry of [key], so the
    frame after the call stands for it; [Null errtext errvar] is the [NULL]
    return with the two out-parameters; [Thrown] is a [std::out_of_range]
    leaving the function; [NoFuel] means the model's fuel ran out. *)
Inductive Outcome :=
| Returned (f : Frame)
| Null (errtext errvar : string)
| Thrown
| NoFuel.

(** What the search for the matching [%{}] produces: the edited value at
    [break], an error text, the [std::out_of_range] that [erase] throws for
    a position beyond the end, or no fuel left. *)
Inductive Skipped :=
| Matched (v : string)
| SkipError (errtext : string)
| OutOfRange
| SkipNoFuel.

(** [count++] on [unsigned int]. *)
Definition count_incr (count : N) : N := ((count + 1) mod 2 ^ 32)%N.

(** The inner loop [for(;; skippos += length)] of
    [resolve_delayed_recurse]; [delpos = None] is [string::npos].  The
    increment [skippos += length] of each [continue] is applied where the
    next round is started, so [length] is not carried along. *)
Fixpoint skip_loop (fuel : nat) (result : bool) (v : string)
    (skippos : nat) (delpos : option nat) (gotelse : bool) (count : N)
  : Skipped :=
  match fuel with
  | 0 => SkipNoFuel
  | S fuel =>
      let '(type, skippos, length) := find_next_delayed v skippos in
      match type with
      | DelayedFi =>
          if negb (count =? 0)%N
          then skip_loop fuel result v (skippos + length) delpos
                         gotelse (count - 1)%N
          else
            match delpos with
            | None => Matched (Str.erase v skippos length)
            | Some d => Matched (Str.erase v d ((skippos + length) - d))
            end
      | DelayedElse =>
          if negb (count =? 0)%N
          then skip_loop fuel result v (skippos + length) delpos
                         gotelse count
          else if gotelse then SkipError "double ELSE"
          else if result
          then skip_loop fuel result (Str.erase v skippos length)
                         (skippos + 0) (Some skippos) true count
          else
            match delpos with
            | None => OutOfRange
            | Some d =>
                skip_loop fuel result
                          (Str.erase v d ((skippos + length) - d))
                          (d + 0) None true count
            end
      | DelayedIf | DelayedNotif =>
          skip_loop fuel result v (skippos + length) delpos
                    gotelse (count_incr count)
      | DelayedNotFound => SkipError "IF without FI"
      | DelayedVariable =>
          skip_loop fuel result v (skippos + length) delpos
                    gotelse count
      end
  end.

(** One round of the outer [for(;;)]: either the loop goes on with a new
    [pos] and frame, or the function returns. *)
Inductive Round :=
| Again (pos : nat) (f : Frame)
| Done (o : Outcome).

Definition with_rc (f : Frame) (r : EixRc) : Frame :=
  {| rc := r; visited := visited f; has_reference := has_reference f |}.

Definition with_visited (f : Frame) (v : gset string) : Frame :=
  {| rc := rc f; visited := v; has_reference := has_reference f |}.

Definition with_has_reference (f : Frame) (h : gset string) : Frame :=
  {| rc := rc f; visited := visited f; has_reference := h |}.

(** The body of the outer loop for [key] at [pos].  [recurse] is the
    recursive call; [fuel] bounds the inner loop.  The pointees of [value] and [s] are
    read from the map after the call, since both point into it. *)
Definition resolve_delayed_round (recurse : string -> Frame -> Outcome)
    (fuel : nat) (key : string) (pos : nat) (f : Frame) : Round :=
  let v := get (rc f) key in
  let '(type, pos, length) := find_next_delayed v pos in
  match type with
  | DelayedNotFound =>
      Done (Returned (with_has_reference f (has_reference f ∖ {[key]})))
  | DelayedFi => Done (Null "FI without IF" key)
  | DelayedElse => Done (Null "ELSE without IF" key)
  | DelayedVariable | DelayedIf | DelayedNotif =>
      let will_test :=
        bool_decide (type = DelayedIf) || bool_decide (type = DelayedNotif) in
      let varpos := if will_test then S (pos + 2) else pos + 2 in
      let varlength := if will_test then length - 3 - 1 else length - 3 in
      if decide (key ∈ visited f) then Done (Null "self-reference" key)
      else
        let name :=
          if Ascii.eqb (Str.at_ v varpos) "*"
          then varprefix (rc f) ++ Str.substr v (S varpos) (varlength - 1)
          else Str.substr v varpos varlength in
        match recurse name (with_visited f ({[key]} ∪ visited f)) with
        | Returned f1 =>
            let f1 := with_visited f1 (visited f1 ∖ {[key]}) in
            let s := get (rc f1) name in
            let v := get (rc f1) key in
            if negb will_test then
              let f2 := with_rc f1 (set (rc f1) key (Str.replace v pos length s)) in
              Again (pos + String.length (get (rc f2) name)) f2
            else
              let result :=
                if istrue (Str.c_str s) then bool_decide (type = DelayedIf)
                else bool_decide (type = DelayedNotif) in
              let skipped :=
                if result
                then skip_loop fuel result (Str.erase v pos length)
                               pos None false 0%N
                else skip_loop fuel result v (pos + length)
                               (Some pos) false 0%N in
              match skipped with
              | Matched v' => Again pos (with_rc f1 (set (rc f1) key v'))
              | SkipError errtext => Done (Null errtext key)
              | OutOfRange => Done Thrown
              | SkipNoFuel => Done NoFuel
              end
        | Null errtext errvar => Done (Null errtext errvar)
        | Thrown => Done Thrown
        | NoFuel => Done NoFuel
        end
  end.

(** The outer [for(;;)]. *)
Fixpoint resolve_delayed_loop (fuel : nat) (round : nat -> Frame -> Round)
    (pos : nat) (f : Frame) : Outcome :=
  match fuel with
  | 0 => NoFuel
  | S fuel =>
      match round pos f with
      | Again pos f => resolve_delayed_loop fuel round pos f
      | Done o => o
      end
  end.

(** [EixRc::resolve_delayed_recurse]. *)
Fixpoint resolve_delayed_recurse (fuel : nat) (key : string) (f : Frame)
  : Outcome :=
  match fuel with
  | 0 => NoFuel
  | S fuel =>
      let f := with_rc f (touch (rc f) key) in
      if decide (key ∈ has_reference f)
      then resolve_delayed_loop fuel
             (resolve_delayed_round (resolve_delayed_recurse fuel) fuel key)
             0 f
      else Returned f
  end.

(** ** Layering: [read_undelayed] and [join_delayed] *)

(** What the process sees from outside: the environment behind [getenv] and
    the files behind [VarsReader::read]. *)
Record World := {
  environ : gmap string string;
  files : string -> option (gmap string string -> gmap string string);
}.

Definition getenv (w : World) (name : string) : option string :=
  environ w !! name.

(** Modelled from the spec: the file overlay reader [VarsReader] (declared in
    varsreader.h, which is not among the sources).  With [INTO_MAP] and
    [useMap(&tempmap)] a read yields a flat overlay, which may depend on the
    variables already in the map ([SUBST_VARS]), and merges it on top of the
    map; a missing file changes nothing. *)
Definition VarsReader_read (w : World) (path : string)
    (tempmap : gmap string string) : gmap string string :=
  match files w path with
  | Some overlay => overlay tempmap ∪ tempmap
  | None => tempmap
  end.

Definition EIX_USERRC : string := "/.eixrc".
Definition SYSCONFDIR : string := "/etc".
Definition EIX_SYSTEMRC : string := SYSCONFDIR ++ "/eixrc".

Definition with_defaults (r : EixRc) (d : list EixRcOption) : EixRc :=
  {| this := this r; defaults := d; varprefix := varprefix r;
     m_eprefix := m_eprefix r; m_eprefixconf := m_eprefixconf r |}.

Definition with_local_value (o : EixRcOption) (v : string) : EixRcOption :=
  {| type := type o; key := key o; value := value o; local_value := v;
     description := description o |}.

(** The first loop of [read_undelayed]:
    [tempmap[defaults[i].key] = defaults[i].value]. *)
Definition defaults_tempmap (d : list EixRcOption) : gmap string string :=
  foldl (fun m o => <[key o := value o]> m) ∅ d.

(** The loop "override with ENV": every key of [tempmap] that is set in the
    environment takes the environment's value. *)
Definition override_with_env (w : World) (tempmap : gmap string string)
  : gmap string string :=
  map_imap (fun k v => Some (default v (getenv w k))) tempmap.

(** [tempmap] as it stands before the loop "Set new values as default", with
    the warning printed when [HOME] is not set. *)
Definition layered_tempmap (w : World) (r : EixRc)
  : gmap string string * list string :=
  let tempmap := defaults_tempmap (defaults r) in
  let tempmap := VarsReader_read w (m_eprefixconf r ++ EIX_SYSTEMRC) tempmap in
  let '(tempmap, warnings) :=
    match getenv w "HOME" with
    | None => (tempmap, ["No $HOME found in environment."])
    | Some home => (VarsReader_read w (home ++ EIX_USERRC) tempmap, [])
    end in
  (override_with_env w tempmap, warnings).

(** The loop "Set new values as default and for printing with --dump":
    [it->local_value = tempmap[it->key]; this[it->key] = it->local_value]. *)
Definition set_new_values (tempmap : gmap string string) (r : EixRc) : EixRc :=
  let d := (fun o => with_local_value o (default "" (tempmap !! key o)))
             <$> defaults r in
  with_defaults
    (foldl (fun r o => set r (key o) (local_value o)) r d) d.

(** [EixRc::join_delayed]. *)
Definition join_delayed (w : World) (k : string)
    (st : EixRc * gset string) (tempmap : gmap string string)
  : EixRc * gset string :=
  let '(r, default_keys) := st in
  if decide (k ∈ default_keys) then st
  else
    let val :=
      match tempmap !! k with
      | Some v => v
      | None => default "" (getenv w k)
      end in
    let r := with_defaults r (defaults r ++ [mkOption LOCAL k val ""]) in
    (set r k val, {[k]} ∪ default_keys).

(** What the loops that join the references end in.  [JoinDangling]:
    [defaults.push_back] has moved the options to another block while
    [str], a reference to [defaults[i].local_value], still points into the
    old one; the next [find_next_delayed(str, ...)] reads through it, and
    what the program does from there on is not defined. *)
Inductive Joined (A : Type) : Type :=
| JoinDone (a : A)
| JoinDangling
| JoinNoFuel.

Arguments JoinDone {A} a.
Arguments JoinDangling {A}.
Arguments JoinNoFuel {A}.

Section Layering.

(** The two prefixes come from a header that is not among the sources. *)
Variables EIX_VARS_PREFIX DIFF_EIX_VARS_PREFIX : string.

(** [full n]: a vector that holds [n] options has no room for one more, so
    that [push_back] moves them.  This is so when [n] is the capacity, which
    the library chooses. *)
Variable full : nat -> bool.

(** Whether a reference into [defaults] outlives [join_delayed(key, ...)]:
    it does when the key is known, so that nothing is appended, and when
    there is room for the option that is appended. *)
Definition keeps_references (key : string) (st : EixRc * gset string) : bool :=
  bool_decide (key ∈ st.2) || negb (full (length (defaults st.1))).

(** The calls of [join_delayed] at a directive that refers to a key; [pos]
    is where the name begins and [length] is what is left of the directive.
    With the state comes whether [str] still refers to an option. *)
Definition join_names (w : World) (tempmap : gmap string string)
    (str : string) (pos length : nat) (st : EixRc * gset string)
  : EixRc * gset string * bool :=
  if Ascii.eqb (Str.at_ str pos) "*" then
    let s := Str.substr str (pos + 1) (length - 2) in
    let st1 := join_delayed w (EIX_VARS_PREFIX ++ s) st tempmap in
    (join_delayed w (DIFF_EIX_VARS_PREFIX ++ s) st1 tempmap,
     keeps_references (EIX_VARS_PREFIX ++ s) st
     && keeps_references (DIFF_EIX_VARS_PREFIX ++ s) st1)
  else
    let s := Str.substr str pos (length - 1) in
    (join_delayed w s st tempmap, keeps_references s st).

(** The loop [for(;; pos += length)] over [str = defaults[i].local_value]
    in [read_undelayed]; [k] is [defaults[i].key].  [str] is a reference:
    it is read at the top of every round, also of the round that follows a
    [push_back]. *)
Fixpoint join_scan (fuel : nat) (w : World) (tempmap : gmap string string)
    (k str : string) (pos : nat)
    (st : EixRc * gset string) (has_reference : gset string)
  : Joined (EixRc * gset string * gset string) :=
  match fuel with
  | 0 => JoinNoFuel
  | S fuel =>
      let '(type, pos, length) := find_next_delayed str pos in
      match type with
      | DelayedNotFound => JoinDone (st, has_reference)
      | DelayedElse | DelayedFi =>
          join_scan fuel w tempmap k str (pos + length) st has_reference
      | DelayedVariable | DelayedIf | DelayedNotif =>
          let skip := if bool_decide (type = DelayedVariable) then 2 else 3 in
          let pos := pos + skip in
          let length := length - skip in
          let has_reference := {[k]} ∪ has_reference in
          let '(st, valid) := join_names w tempmap str pos length st in
          if valid
          then join_scan fuel w tempmap k str (pos + length) st has_reference
          else JoinDangling
      end
  end.

(** The loop [for(i = 0; i < defaults.size(); ++i)] that joins the delayed
    references; [defaults] grows while it runs. *)
Fixpoint join_loop (fuel : nat) (w : World) (tempmap : gmap string string)
    (i : nat) (st : EixRc * gset string) (has_reference : gset string)
  : Joined (EixRc * gset string) :=
  match fuel with
  | 0 => JoinNoFuel
  | S fuel =>
      match defaults (fst st) !! i with
      | None => JoinDone (fst st, has_reference)
      | Some o =>
          match join_scan (S (String.length (local_value o))) w tempmap
                  (key o) (local_value o) 0 st has_reference with
          | JoinDone (st, has_reference) =>
              join_loop fuel w tempmap (S i) st has_reference
          | JoinDangling => JoinDangling
          | JoinNoFuel => JoinNoFuel
          end
      end
  end.

(** [EixRc::read_undelayed]: the object, [has_reference] and the warnings
    printed. *)
Definition read_undelayed (fuel : nat) (w : World) (r : EixRc)
    (has_reference : gset string)
  : Joined (EixRc * gset string * list string) :=
  let default_keys : gset string := list_to_set (key <$> defaults r) in
  let '(tempmap, warnings) := layered_tempmap w r in
  let r := set_new_values tempmap r in
  match join_loop fuel w tempmap 0 (r, default_keys) has_reference with
  | JoinDone (r, has_reference) => JoinDone (r, has_reference, warnings)
  | JoinDangling => JoinDangling
  | JoinNoFuel => JoinNoFuel
  end.

(** The loop of [read] that lets [%%{] expand to [%{] in one value. *)
Fixpoint unescape_loop (fuel : nat) (str : string) (pos : nat) : string :=
  match fuel with
  | 0 => str
  | S fuel =>
      match Str.find str "%%{" pos with
      | None => str
      | Some pos => unescape_loop fuel (Str.erase str pos 1) (pos + 2)
      end
  end.

Definition unescape (str : string) : string :=
  unescape_loop (String.length str) str 0.

(** What [read] ends in: the object, with the warnings printed; [exit(2)]
    after the message on [cerr]; an exception; a read through the dangling
    reference of [read_undelayed]; or no fuel left. *)
Inductive ReadResult :=
| ReadDone (r : EixRc) (warnings : list string)
| Exit2 (cerr : string)
| ReadThrown
| ReadDangling
| ReadNoFuel.

(** The loop of [read] that resolves [defaults[i].key] for every [i], each
    with a fresh [visited]. *)
Fixpoint resolve_all (fuel : nat) (keys : list string) (r : EixRc)
    (has_ref : gset string) : Outcome :=
  match keys with
  | [] => Returned {| rc := r; visited := ∅; has_reference := has_ref |}
  | k :: keys =>
      match resolve_delayed_recurse fuel k
              {| rc := r; visited := ∅; has_reference := has_ref |} with
      | Returned f => resolve_all fuel keys (rc f) (has_reference f)
      | o => o
      end
  end.

(** [EixRc::read]. *)
Definition read (fuel : nat) (w : World) (r : EixRc) : ReadResult :=
  let eprefix := getenv w "EPREFIX" in
  let m_eprefix := default "" eprefix in
  let m_eprefixconf :=
    match getenv w "PORTAGE_CONFIGROOT" with
    | Some configroot => m_eprefix ++ configroot
    | None => m_eprefix
    end in
  let r := {| this := this r; defaults := defaults r;
              varprefix := varprefix r; m_eprefix := m_eprefix;
              m_eprefixconf := m_eprefixconf |} in
  match read_undelayed fuel w r ∅ with
  | JoinNoFuel => ReadNoFuel
  | JoinDangling => ReadDangling
  | JoinDone (r, has_reference, warnings) =>
      match resolve_all fuel (key <$> defaults r) r has_reference with
      | Returned f =>
          let r := with_this (rc f) (unescape <$> this (rc f)) in
          let r := touch r "EPREFIX" in
          let m_eprefix := get r "EPREFIX" in
          let r := touch r "PORTAGE_CONFIGROOT" in
          ReadDone {| this := this r; defaults := defaults r;
                      varprefix := varprefix r; m_eprefix := m_eprefix;
                      m_eprefixconf := get r "PORTAGE_CONFIGROOT" ++ m_eprefix |}
                   warnings
      | Null errtext errvar =>
          Exit2 ("fatal config error: " ++ errtext
                 ++ " in delayed substitution of " ++ errvar
                 ++ String (ascii_of_nat 10) "")
      | Thrown => ReadThrown
      | NoFuel => ReadNoFuel
      end
  end.

End Layering.

(** ** The redundancy flags *)

(** [Keywords::Redundant] is an unsigned bit mask; [x |= t] is [N.lor] and
    [x &= ~t] is [N.ldiff], whatever the width. *)
Definition Redundant := N.

Record RedAtom := {
  red : Redundant;
  all : Redundant;
  spc : Redundant;
  ins : Redundant;
  only : Redundant;
  oins : Redundant;
}.

(** [RedPair] is [std::pair<RedAtom, RedAtom>]: [fst] is [first], [snd] is
    [second]. *)
Definition RedPair : Type := RedAtom * RedAtom.

(** [EixRc::getRedundantFlagAtom]; [s = None] is the [NULL] pointer. *)
Definition getRedundantFlagAtom (s : option string) (t : Redundant)
    (r : RedAtom) : bool * RedAtom :=
  let r := {| red := red r; all := all r; spc := spc r; ins := ins r;
              only := N.ldiff (only r) t; oins := oins r |} in
  match s with
  | None =>
      (true, {| red := N.ldiff (red r) t; all := all r; spc := spc r;
                ins := ins r; only := only r; oins := oins r |})
  | Some s =>
      let '(s, r) :=
        match s with
        | String "+" s' =>
            (s', {| red := red r; all := all r; spc := spc r; ins := ins r;
                    only := N.lor (only r) t; oins := N.lor (oins r) t |})
        | String "-" s' =>
            (s', {| red := red r; all := all r; spc := spc r; ins := ins r;
                    only := N.lor (only r) t; oins := N.ldiff (oins r) t |})
        | _ => (s, r)
        end in
      if ((Str.strcasecmp s "no" =? 0) || (Str.strcasecmp s "false" =? 0))%Z
      then (true, {| red := N.ldiff (red r) t; all := all r; spc := spc r;
                     ins := ins r; only := only r; oins := oins r |})
      else if (Str.strcasecmp s "some" =? 0)%Z
      then (true, {| red := N.lor (red r) t; all := N.ldiff (all r) t;
                     spc := N.ldiff (spc r) t; ins := ins r;
                     only := only r; oins := oins r |})
      else if (Str.strcasecmp s "some-installed" =? 0)%Z
      then (true, {| red := N.lor (red r) t; all := N.ldiff (all r) t;
                     spc := N.lor (spc r) t; ins := N.lor (ins r) t;
                     only := only r; oins := oins r |})
      else if (Str.strcasecmp s "some-uninstalled" =? 0)%Z
      then (true, {| red := N.lor (red r) t; all := N.ldiff (all r) t;
                     spc := N.lor (spc r) t; ins := N.ldiff (ins r) t;
                     only := only r; oins := oins r |})
      else if (Str.strcasecmp s "all" =? 0)%Z
      then (true, {| red := N.lor (red r) t; all := N.lor (all r) t;
                     spc := N.ldiff (spc r) t; ins := ins r;
                     only := only r; oins := oins r |})
      else if (Str.strcasecmp s "all-installed" =? 0)%Z
      then (true, {| red := N.lor (red r) t; all := N.lor (all r) t;
                     spc := N.lor (spc r) t; ins := N.lor (ins r) t;
                     only := only r; oins := oins r |})
      else if (Str.strcasecmp s "all-uninstalled" =? 0)%Z
      then (true, {| red := N.lor (red r) t; all := N.lor (all r) t;
                     spc := N.lor (spc r) t; ins := N.ldiff (ins r) t;
                     only := only r; oins := oins r |})
      else (false, r)
  end.

(** [spaces] of stringutils.cc. *)
Definition spaces : string :=
  String " " (String (ascii_of_nat 9) (String (ascii_of_nat 13)
    (String (ascii_of_nat 10) ""))).

Fixpoint strchr (at_ : string) (c : ascii) : bool :=
  match at_ with
  | EmptyString => false
  | String d rest => (Ascii.eqb c d || strchr rest c)%bool
  end.

(** [str.find_first_of(at, pos)]. *)
Fixpoint find_first_of (str at_ : string) (pos : nat) : option nat :=
  match str, pos with
  | EmptyString, _ => None
  | String c rest, 0 =>
      if strchr at_ c then Some 0 else S <$> find_first_of rest at_ 0
  | String _ rest, S pos => S <$> find_first_of rest at_ pos
  end.

(** The [while] loop of [split_string_template] without escape handling. *)
Fixpoint split_string_loop (fuel : nat) (str at_ : string)
    (ignore_empty : bool) (last_pos pos : nat) (vec : list string)
  : list string :=
  match fuel with
  | 0 => vec
  | S fuel =>
      match find_first_of str at_ pos with
      | Some pos =>
          let vec :=
            if ((last_pos <? pos)%nat || negb ignore_empty)%bool
            then (vec ++ [Str.substr str last_pos (pos - last_pos)])%list
            else vec in
          split_string_loop fuel str at_ ignore_empty (S pos) (S pos) vec
      | None =>
          if ((last_pos <? String.length str)%nat || negb ignore_empty)%bool
          then (vec ++ [Str.substr_from str last_pos])%list
          else vec
      end
  end.

(** [split_string(str)]: the header's default arguments are
    [handle_escape = false], [at = spaces], [ignore_empty = true]. *)
Definition split_string (str : string) : list string :=
  split_string_loop (S (String.length str)) str spaces true 0 0 [].

Definition dquote : string := String (ascii_of_nat 34) "".

(** [EixRc::getRedundantFlags], with the warning it prints, if any. *)
Definition getRedundantFlags (r : EixRc) (key : string) (t : Redundant)
    (p : RedPair) : EixRc * RedPair * list string :=
  let r := touch r key in
  let value := Str.c_str (get r key) in
  let a := split_string value in
  let fallback (p : RedPair) :=
    let first := snd (getRedundantFlagAtom (Some "all-installed") t (fst p)) in
    let second := snd (getRedundantFlagAtom None t (snd p)) in
    (r, (first, second),
     [key ++ " has unknown value " ++ dquote ++ value ++ dquote ++ ";"
      ++ String (ascii_of_nat 10) (String (ascii_of_nat 9) "")
      ++ "assuming value " ++ dquote ++ "all-installed" ++ dquote
      ++ " instead."]) in
  match a with
  | [] => fallback p
  | it :: a =>
      let '(ok, first) := getRedundantFlagAtom (Some (Str.c_str it)) t (fst p) in
      let p := (first, snd p) in
      if negb ok then fallback p
      else
        match a with
        | [] => (r, (fst p, snd (getRedundantFlagAtom None t (snd p))), [])
        | it :: a =>
            let s := Str.c_str it in
            let after_separator :=
              if ((Str.strcasecmp s "or" =? 0) || (Str.strcasecmp s "||" =? 0)
                  || (Str.strcasecmp s "|" =? 0))%Z
              then
                match a with
                | [] => None
                | it :: a => Some (Str.c_str it, a)
                end
              else Some (s, a) in
            match after_separator with
            | None => fallback p
            | Some (s, a) =>
                let '(ok, first) := getRedundantFlagAtom (Some s) t (fst p) in
                let p := (first, snd p) in
                if negb ok then fallback p
                else
                  match a with
                  | [] => (r, p, [])
                  | _ :: _ => fallback p
                  end
            end
        end
  end.

(** ** Notions used to state the properties *)

(** [pat] occurs in [s] at index [p]. *)
Definition occurs (pat s : string) (p : nat) : Prop :=
  take (String.length pat) (drop p (list_ascii_of_string s))
  = list_ascii_of_string pat.

Global Instance occurs_dec pat s p : Decision (occurs pat s p).
Proof. unfold occurs. apply _. Defined.

(** The character before [p] is a [%]: the opener at [p] is escaped. *)
Definition escaped (str : string) (p : nat) : bool :=
  ((0 <? p)%nat && Ascii.eqb (Str.at_ str (p - 1)) "%")%bool.

(** The directive that starts at [p], if any: an opener [%{] at [p] that
    is not escaped and that [delayed_at] accepts. *)
Definition directive_at (str : string) (p : nat) : option (DelayedType * nat) :=
  if decide (occurs "%{" str p)
  then if escaped str p then None else delayed_at str p
  else None.

(** The invariant of the search: [delpos], when set, is not after
    [skippos], and it is set as long as a dropped branch has seen no
    [%{else}]. *)
Definition skip_inv (result : bool) (skippos : nat) (delpos : option nat)
    (gotelse : bool) : Prop :=
  match delpos with
  | Some d => d <= skippos
  | None => result = true \/ gotelse = true
  end.

(** A value in which the scanner finds a directive. *)
Definition has_directive (v : string) : Prop :=
  (find_next_delayed v 0).1.1 <> DelayedNotFound.

(** The keys being expanded still have a directive and are still in
    [has_reference]: what holds of [visited] all through a top-level call. *)
Definition active_ok (f : Frame) : Prop :=
  forall k, k ∈ visited f ->
    k ∈ has_reference f /\ has_directive (get (rc f) k).

(** What a call that returns leaves as it was: [visited], the values of the
    keys in it, [varprefix] and [defaults]; [has_reference] only shrinks,
    and never by a visited key. *)
Definition frame_post (f f' : Frame) : Prop :=
  visited f' = visited f
  /\ has_reference f' ⊆ has_reference f
  /\ (forall k, k ∈ visited f ->
        get (rc f') k = get (rc f) k /\ k ∈ has_reference f')
  /\ varprefix (rc f') = varprefix (rc f)
  /\ defaults (rc f') = defaults (rc f).

(** What the frame lemma says of a call. *)
Definition keeps_frame (recurse : string -> Frame -> Outcome) : Prop :=
  forall name F F', active_ok F -> recurse name F = Returned F' ->
    frame_post F F' /\ (name ∉ visited F).

(** The parts of a round of [resolve_delayed_recurse], named so that the
    properties can speak of them (lemma [resolve_delayed_round_unfold]
    puts them back together). *)

(** The key that the directive of type [ty] at [p], [len] characters long,
    refers to. *)
Definition referenced_name (r : EixRc) (v : string) (ty : DelayedType)
    (p len : nat) : string :=
  let will_test :=
    bool_decide (ty = DelayedIf) || bool_decide (ty = DelayedNotif) in
  let varpos := if will_test then S (p + 2) else p + 2 in
  let varlength := if will_test then len - 3 - 1 else len - 3 in
  if Ascii.eqb (Str.at_ v varpos) "*"
  then varprefix r ++ Str.substr v (S varpos) (varlength - 1)
  else Str.substr v varpos varlength.

(** What the round does once the recursive call for [name] has returned
    the frame [f1]. *)
Definition after_call (fuel : nat) (key : string) (ty : DelayedType)
    (p len : nat) (name : string) (f1 : Frame) : Round :=
  let will_test :=
    bool_decide (ty = DelayedIf) || bool_decide (ty = DelayedNotif) in
  let f1 := with_visited f1 (visited f1 ∖ {[key]}) in
  let s := get (rc f1) name in
  let v := get (rc f1) key in
  if negb will_test then
    let f2 := with_rc f1 (set (rc f1) key (Str.replace v p len s)) in
    Again (p + String.length (get (rc f2) name)) f2
  else
    let result :=
      if istrue (Str.c_str s) then bool_decide (ty = DelayedIf)
      else bool_decide (ty = DelayedNotif) in
    let skipped :=
      if result
      then skip_loop fuel result (Str.erase v p len) p None false 0%N
      else skip_loop fuel result v (p + len) (Some p) false 0%N in
    match skipped with
    | Matched v' => Again p (with_rc f1 (set (rc f1) key v'))
    | SkipError errtext => Done (Null errtext key)
    | OutOfRange => Done Thrown
    | SkipNoFuel => Done NoFuel
    end.

(** A directive that refers to a key. *)
Definition refers (ty : DelayedType) : Prop :=
  ty = DelayedVariable \/ ty = DelayedIf \/ ty = DelayedNotif.

(** An outcome other than running out of fuel or an exception. *)
Definition settled (o : Outcome) : Prop :=
  match o with
  | Returned _ | Null _ _ => True
  | Thrown | NoFuel => False
  end.

(** A name as the scanner accepts it: a first character that
    [not_name_start] lets through, then characters that [not_name_char]
    lets through. *)
Fixpoint all_name_chars (s : string) : bool :=
  match s with
  | EmptyString => true
  | String c r => (negb (not_name_char c) && all_name_chars r)%bool
  end.

Definition is_name (x : string) : bool :=
  match x with
  | EmptyString => false
  | String c r => (negb (not_name_start c) && all_name_chars r)%bool
  end.

(** Text without any [%]. *)
Fixpoint no_percent (s : string) : bool :=
  match s with
  | EmptyString => true
  | String c r => (negb (Ascii.eqb c "%") && no_percent r)%bool
  end.

(** The last character is a [%], which would escape an opener put after
    it. *)
Definition ends_percent (s : string) : bool :=
  ((0 <? String.length s)%nat
   && Ascii.eqb (Str.at_ s (String.length s - 1)) "%")%bool.

(** A scan result moved [n] characters to the right. *)
Definition shift (n : nat) (r : DelayedType * nat * nat)
  : DelayedType * nat * nat :=
  match r with
  | (DelayedNotFound, p, len) => (DelayedNotFound, p, len)
  | (ty, p, len) => (ty, n + p, len)
  end.

(** The type the scanner gives to [%{x}]. *)
Definition plain_type (x : string) : DelayedType :=
  if (Str.strcasecmp x "else" =? 0)%Z then DelayedElse else DelayedVariable.

(** [rec2] gives what [rec1] gives whenever [rec1] has fuel enough. *)
Definition extends (rec1 rec2 : string -> Frame -> Outcome) : Prop :=
  forall name F o, rec1 name F = o -> o <> NoFuel -> rec2 name F = o.

(** The key that a name refers to: [*rest] is [varprefix] followed by
    [rest], any other name is itself. *)
Definition target (prefix x : string) : string :=
  match x with
  | String "*" r => prefix ++ r
  | _ => x
  end.

(** [to_lower] of stringutils.cc. *)
Fixpoint to_lower (str : string) : string :=
  match str with
  | EmptyString => EmptyString
  | String c rest => String (Str.tolower c) (to_lower rest)
  end.

(** The text of a conditional block: the opening marker with [m] being [?]
    or [!], the branch [A], the optional [%{else}] with its text, and
    [%{}]. *)
Definition block (m : ascii) (X A : string) (alt : option string) : string :=
  "%{" ++ String m X ++ "}" ++ A
  ++ match alt with
     | Some B => "%{else}" ++ B ++ "%{}"
     | None => "%{}"
     end.

(** The frame in which the round of [key] calls for another key. *)
Definition calling (key : string) (f : Frame) : Frame :=
  with_visited f ({[key]} ∪ visited f).

Abbreviation chars := list_ascii_of_string.

(** Frames to try the resolver on: the map given as a list, nothing
    visited. *)
Definition example_rc (prefix : string) (l : list (string * string)) : EixRc :=
  {| this := list_to_map l; defaults := []; varprefix := prefix;
     m_eprefix := ""; m_eprefixconf := "" |}.

Definition example_frame (prefix : string) (l : list (string * string))
    (hr : list string) : Frame :=
  {| rc := example_rc prefix l; visited := ∅; has_reference := list_to_set hr |}.

(** A configuration to try [read] on: the options given as key and default,
    an empty map, and the prefix [EIX_]. *)
Definition example_config (l : list (string * string)) : EixRc :=
  {| this := ∅;
     defaults := (fun kv => mkOption STRING kv.1 kv.2 "") <$> l;
     varprefix := "EIX_"; m_eprefix := ""; m_eprefixconf := "" |}.

(** A world without environment and without files. *)
Definition empty_world : World :=
  {| environ := ∅; files := fun _ => None |}.

(** Vectors to try [read] on: one that is full at every size, so that every
    [push_back] moves the options, and one that is full when it holds [c]
    options and at no other size. *)
Definition always_full : nat -> bool := fun _ => true.

Definition full_at (c : nat) : nat -> bool := fun n => Nat.eqb n c.

(** The map that [read] ends with, if it does. *)
Definition read_map (r : ReadResult) : option (gmap string string) :=
  match r with
  | ReadDone r _ => Some (this r)
  | _ => None
  end.

(** A [RedAtom] with no bit set. *)
Definition no_flags : RedAtom :=
  {| red := 0%N; all := 0%N; spc := 0%N; ins := 0%N; only := 0%N; oins := 0%N |}.

(** *** The four sources of a value, named apart *)

(** What the system file defines, read over the defaults. *)
Definition system_overlay (w : World) (r : EixRc) : gmap string string :=
  match files w (m_eprefixconf r ++ EIX_SYSTEMRC) with
  | Some overlay => overlay (defaults_tempmap (defaults r))
  | None => ∅
  end.

(** What the user's file defines, read over the defaults and the system
    file; nothing when [HOME] is not set. *)
Definition user_overlay (w : World) (r : EixRc) : gmap string string :=
  match getenv w "HOME" with
  | Some home =>
      match files w (home ++ EIX_USERRC) with
      | Some overlay =>
          overlay (system_overlay w r ∪ defaults_tempmap (defaults r))
      | None => ∅
      end
  | None => ∅
  end.

(** The value of [k] by precedence: environment, user file, system file,
    default. *)
Definition layered_value (w : World) (r : EixRc) (k : string) : string :=
  match getenv w k with
  | Some v => v
  | None =>
      match user_overlay w r !! k with
      | Some v => v
      | None =>
          match system_overlay w r !! k with
          | Some v => v
          | None => default "" (defaults_tempmap (defaults r) !! k)
          end
      end
  end.

(** What [join_delayed] gives a key that is new. *)
Definition joined_value (w : World) (tempmap : gmap string string)
    (k : string) : string :=
  match tempmap !! k with
  | Some v => v
  | None => default "" (getenv w k)
  end.

(** While the references are joined: every key of [default_keys] holds its
    layered value, and every option has its key in [default_keys] and the
    value of its key as [local_value]. *)
Definition joined_ok (w : World) (tempmap : gmap string string)
    (st : EixRc * gset string) : Prop :=
  (forall k, k ∈ st.2 -> get st.1 k = joined_value w tempmap k)
  /\ (forall o, o ∈ defaults st.1 ->
        key o ∈ st.2 /\ local_value o = joined_value w tempmap (key o)).

(** Joining only adds: keys to [default_keys], options at the end of
    [defaults]. *)
Definition joined_more (st st' : EixRc * gset string) : Prop :=
  st.2 ⊆ st'.2 /\ defaults st.1 `prefix_of` defaults st'.1.

(** A value with a directive that refers to a key: [%{name}], [%{?name}] or
    [%{!name}]. *)
Definition refers_somewhere (v : string) : Prop :=
  exists p ty len, directive_at v p = Some (ty, len) /\ refers ty.

(** A world to try the layering on: [K] is set everywhere, [U] in the
    user's file, [S] in the system file. *)
Definition example_world : World :=
  {| environ := list_to_map [("HOME", "/home/u"); ("K", "env")];
     files := fun path =>
       if String.eqb path "/etc/eixrc"
       then Some (fun _ => list_to_map [("K", "sys"); ("S", "sys")])
       else if String.eqb path "/home/u/.eixrc"
       then Some (fun _ => list_to_map [("K", "usr"); ("U", "usr")])
       else None |}.

(** ** Values read as templates *)

(** A value as the resolver reads it: texts, variable directives,
    conditionals with their body up to the matching [%{}], and the markers
    [%{else}] and [%{}] where they stand for themselves.  In the body of a
    conditional a [TElse] is its [%{else}]; a [TFi] stands only outside
    every conditional. *)
Inductive Tmpl :=
| TEnd
| TText (s : string) (r : Tmpl)
| TVar (x : string) (r : Tmpl)
| TElse (r : Tmpl)
| TFi (r : Tmpl)
| TCond (m : ascii) (x : string) (b r : Tmpl).

(** The text of a template. *)
Fixpoint render (t : Tmpl) : string :=
  match t with
  | TEnd => ""
  | TText s r => s ++ render r
  | TVar x r => ("%{" ++ x ++ "}") ++ render r
  | TElse r => "%{else}" ++ render r
  | TFi r => "%{}" ++ render r
  | TCond m x b r =>
      ("%{" ++ String m x ++ "}") ++ render b ++ "%{}" ++ render r
  end.

(** [a] followed by [b]. *)
Fixpoint tapp (a b : Tmpl) : Tmpl :=
  match a with
  | TEnd => b
  | TText s r => TText s (tapp r b)
  | TVar x r => TVar x (tapp r b)
  | TElse r => TElse (tapp r b)
  | TFi r => TFi (tapp r b)
  | TCond m x c r => TCond m x c (tapp r b)
  end.

(** The [%{else}] of a body that are its own, not those of a conditional
    inside it. *)
Fixpoint elses (t : Tmpl) : nat :=
  match t with
  | TEnd => 0
  | TText _ r | TVar _ r | TFi r | TCond _ _ _ r => elses r
  | TElse r => S (elses r)
  end.

(** A body up to its first own [%{else}], and what follows it. *)
Fixpoint before_else (t : Tmpl) : Tmpl :=
  match t with
  | TEnd => TEnd
  | TText s r => TText s (before_else r)
  | TVar x r => TVar x (before_else r)
  | TElse _ => TEnd
  | TFi r => TFi (before_else r)
  | TCond m x b r => TCond m x b (before_else r)
  end.

Fixpoint after_else (t : Tmpl) : option Tmpl :=
  match t with
  | TEnd => None
  | TText _ r | TVar _ r | TFi r | TCond _ _ _ r => after_else r
  | TElse r => Some r
  end.

(** The markers of a template, and how deep its conditionals nest. *)
Fixpoint tokens (t : Tmpl) : nat :=
  match t with
  | TEnd => 0
  | TText _ r => tokens r
  | TVar _ r | TElse r | TFi r => S (tokens r)
  | TCond _ _ b r => S (S (tokens b + tokens r))
  end.

Fixpoint depth (t : Tmpl) : nat :=
  match t with
  | TEnd => 0
  | TText _ r | TVar _ r | TElse r | TFi r => depth r
  | TCond _ _ b r => Nat.max (S (depth b)) (depth r)
  end.

Fixpoint nodes (t : Tmpl) : nat :=
  match t with
  | TEnd => 0
  | TText _ r | TVar _ r | TElse r | TFi r => S (nodes r)
  | TCond _ _ b r => S (nodes b + nodes r)
  end.

(** The template is what its text scans as: the texts have no [%], the
    names are names, a variable is not called [else], and no [TFi] stands
    in a body ([inner] tells that the chain is one). *)
Fixpoint chain_ok (inner : bool) (t : Tmpl) : bool :=
  match t with
  | TEnd => true
  | TText s r => no_percent s && chain_ok inner r
  | TVar x r =>
      is_name x && bool_decide (plain_type x = DelayedVariable)
      && chain_ok inner r
  | TElse r => chain_ok inner r
  | TFi r => negb inner && chain_ok inner r
  | TCond m x b r =>
      (Ascii.eqb m "?" || Ascii.eqb m "!") && is_name x
      && chain_ok true b && chain_ok inner r
  end.

(** Well-formed: no marker stands for itself outside a conditional, and a
    conditional has at most one [%{else}] of its own. *)
Fixpoint well_formed_in (elses_left : nat) (t : Tmpl) : bool :=
  match t with
  | TEnd => true
  | TText _ r | TVar _ r => well_formed_in elses_left r
  | TElse r =>
      match elses_left with
      | 0 => false
      | S k => well_formed_in k r
      end
  | TFi _ => false
  | TCond _ _ b r => well_formed_in 1 b && well_formed_in elses_left r
  end.

Definition well_formed (t : Tmpl) : bool := well_formed_in 0 t.

(** What expanding a template ends in: an outcome of the resolver; a
    spliced text that ends in [%], which escapes what follows it; or not
    enough steps. *)
Inductive Verdict :=
| Ends (o : Outcome)
| Escapes
| Unfinished.

(** The expansion of the value [pre ++ render t] of [key], told on the
    template: [pre] is done, [t] is still to be expanded.  A text is passed;
    a variable is replaced by the value of its key; a conditional is replaced
    by one of its branches, which is expanded next; a marker that stands for
    itself is an error, and so is a second [%{else}] in a conditional. *)
Fixpoint run (recurse : string -> Frame -> Outcome) (key : string) (n : nat)
    (pre : string) (t : Tmpl) (f : Frame) : Verdict :=
  match n with
  | 0 => Unfinished
  | S n =>
      match t with
      | TEnd =>
          Ends (Returned (with_has_reference f (has_reference f ∖ {[key]})))
      | TText s r => run recurse key n (pre ++ s) r f
      | TFi _ => Ends (Null "FI without IF" key)
      | TElse _ => Ends (Null "ELSE without IF" key)
      | TVar x r =>
          if decide (key ∈ visited f) then Ends (Null "self-reference" key)
          else
            let name := target (varprefix (rc f)) x in
            match recurse name (calling key f) with
            | Returned f1 =>
                let f1 := with_visited f1 (visited f1 ∖ {[key]}) in
                let s := get (rc f1) name in
                if ends_percent s then Escapes
                else
                  run recurse key n (pre ++ s) r
                    (with_rc f1 (set (rc f1) key (pre ++ s ++ render r)))
            | o => Ends o
            end
      | TCond m x b r =>
          if decide (key ∈ visited f) then Ends (Null "self-reference" key)
          else
            let name := target (varprefix (rc f)) x in
            match recurse name (calling key f) with
            | Returned f1 =>
                let f1 := with_visited f1 (visited f1 ∖ {[key]}) in
                let s := get (rc f1) name in
                let result :=
                  if istrue (Str.c_str s) then Ascii.eqb m "?"
                  else Ascii.eqb m "!" in
                if bool_decide (2 <= elses b)
                then Ends (Null "double ELSE" key)
                else
                  let t' :=
                    tapp (if result then before_else b
                          else default TEnd (after_else b)) r in
                  run recurse key n pre t'
                    (with_rc f1 (set (rc f1) key (pre ++ render t')))
            | o => Ends o
            end
      end
  end.

(** The nested calls that [run] makes, in order: the name that is resolved
    and the frame that is passed. *)
Fixpoint calls (recurse : string -> Frame -> Outcome) (key : string) (n : nat)
    (pre : string) (t : Tmpl) (f : Frame) : list (string * Frame) :=
  match n with
  | 0 => []
  | S n =>
      match t with
      | TEnd | TFi _ | TElse _ => []
      | TText s r => calls recurse key n (pre ++ s) r f
      | TVar x r =>
          if decide (key ∈ visited f) then []
          else
            let name := target (varprefix (rc f)) x in
            (name, calling key f) ::
            match recurse name (calling key f) with
            | Returned f1 =>
                let f1 := with_visited f1 (visited f1 ∖ {[key]}) in
                let s := get (rc f1) name in
                if ends_percent s then []
                else
                  calls recurse key n (pre ++ s) r
                    (with_rc f1 (set (rc f1) key (pre ++ s ++ render r)))
            | _ => []
            end
      | TCond m x b r =>
          if decide (key ∈ visited f) then []
          else
            let name := target (varprefix (rc f)) x in
            (name, calling key f) ::
            match recurse name (calling key f) with
            | Returned f1 =>
                let f1 := with_visited f1 (visited f1 ∖ {[key]}) in
                let s := get (rc f1) name in
                let result :=
                  if istrue (Str.c_str s) then Ascii.eqb m "?"
                  else Ascii.eqb m "!" in
                if bool_decide (2 <= elses b) then []
                else
                  let t' :=
                    tapp (if result then before_else b
                          else default TEnd (after_else b)) r in
                  calls recurse key n pre t'
                    (with_rc f1 (set (rc f1) key (pre ++ render t')))
            | _ => []
            end
      end
  end.

(** The cursor [pos] stands in [pre] with no [%] from it to the end. *)
Definition plain_from (pre : string) (pos : nat) : Prop :=
  pos <= String.length pre /\ no_percent (Str.substr_from pre pos) = true.

(** The state of the outer loop while the value of [key] is expanded: [pre]
    is done, [t] is to come, the cursor is in [pre] with only text behind
    it. *)
Definition expanding (key pre : string) (t : Tmpl) (pos : nat) (f : Frame)
  : Prop :=
  get (rc f) key = pre ++ render t
  /\ ends_percent pre = false
  /\ plain_from pre pos
  /\ chain_ok false t = true
  /\ (N.of_nat (depth t) < 2 ^ 32)%N
  /\ active_ok f
  /\ key ∈ has_reference f.

(** *** A measure for the loop that joins the references *)

(** What an option costs the loop: its own round, and two keys for every
    character of its value. *)
Definition option_weight (o : EixRcOption) : nat :=
  S (2 * String.length (local_value o)).

Definition joined_weight (w : World) (tempmap : gmap string string)
    (k : string) : nat :=
  S (2 * String.length (joined_value w tempmap k)).

(** The weight of the keys that can still be joined with a value that is
    not empty: those of [tempmap] and of the environment outside
    [default_keys]. *)
Definition pending (w : World) (tempmap : gmap string string)
    (default_keys : gset string) : nat :=
  sum_list_with
    (fun k => if decide (k ∈ default_keys) then 0
              else joined_weight w tempmap k)
    (elements (dom tempmap ∪ dom (environ w))).

(** The options from index [i] on, and the keys still to be joined. *)
Definition potential (w : World) (tempmap : gmap string string) (i : nat)
    (st : EixRc * gset string) : nat :=
  sum_list_with option_weight (drop i (defaults st.1))
  + pending w tempmap st.2.

(** The text [t] and the texts [ts] with [sep] between them. *)
Fixpoint glue (sep t : string) (ts : list string) : string :=
  match ts with
  | [] => t
  | u :: ts => t ++ sep ++ glue sep u ts
  end.

(** The names that a template refers to. *)
Fixpoint names (t : Tmpl) : list string :=
  match t with
  | TEnd => []
  | TText _ r | TElse r | TFi r => names r
  | TVar x r => x :: names r
  | TCond _ x b r => x :: (names b ++ names r)%list
  end.

(** What a template means when [env] gives the value of every name: the
    texts and the values of the variables, and of a conditional the branch
    that the truth of its name's value selects.  [on] tells whether the
    part of the body that is being read is the branch that stays; an
    [%{else}] of the body turns it over. *)
Fixpoint eval (env : string -> string) (t : Tmpl) (on : bool) : string :=
  match t with
  | TEnd => ""
  | TText s r => (if on then s else "") ++ eval env r on
  | TVar x r => (if on then env x else "") ++ eval env r on
  | TElse r => eval env r (negb on)
  | TFi r => eval env r on
  | TCond m x b r =>
      (if on
       then eval env b (if istrue (Str.c_str (env x)) then Ascii.eqb m "?"
                        else Ascii.eqb m "!")
       else "")
      ++ eval env r on
  end.

(** Every name refers to a key that is not scanned, has the value that
    [env] gives, which does not end in [%]. *)
Definition settled_names (key : string) (env : string -> string) (t : Tmpl)
    (f : Frame) : Prop :=
  forall x, x ∈ names t ->
    let k := target (varprefix (rc f)) x in
    (k ∉ has_reference f) /\ k <> key /\ get (rc f) k = env x
    /\ ends_percent (env x) = false.

(** ** Properties of the resolver beyond the frame *)

(** What a call leaves alone apart from the frame: it adds no key to
    [has_reference], it does not change the value of a key that is not in
    [has_reference], and it removes no entry of the map. *)
Definition steady (f f' : Frame) : Prop :=
  has_reference f' ⊆ has_reference f
  /\ (forall k, k ∉ has_reference f -> get (rc f') k = get (rc f) k)
  /\ dom (this (rc f)) ⊆ dom (this (rc f')).

(** A call of which every returning instance is [steady] and leaves an
    entry for its key. *)
Definition keeps_steady (recurse : string -> Frame -> Outcome) : Prop :=
  forall name F F', recurse name F = Returned F' ->
    steady F F' /\ name ∈ dom (this (rc F')).

(** ** The parts of [getRedundantFlagAtom], named apart *)

(** The first statement, [r.only &= ~type]. *)
Definition atom_start (t : Redundant) (r : RedAtom) : RedAtom :=
  {| red := red r; all := all r; spc := spc r; ins := ins r;
     only := N.ldiff (only r) t; oins := oins r |}.

(** The sign: what is left of [s] and what [+] or [-] does to [r]. *)
Definition atom_sign (s : string) (t : Redundant) (r : RedAtom)
  : string * RedAtom :=
  match s with
  | String "+" s' =>
      (s', {| red := red r; all := all r; spc := spc r; ins := ins r;
              only := N.lor (only r) t; oins := N.lor (oins r) t |})
  | String "-" s' =>
      (s', {| red := red r; all := all r; spc := spc r; ins := ins r;
              only := N.lor (only r) t; oins := N.ldiff (oins r) t |})
  | _ => (s, r)
  end.

(** The chain of comparisons on what follows the sign. *)
Definition atom_word (s : string) (t : Redundant) (r : RedAtom)
  : bool * RedAtom :=
  if ((Str.strcasecmp s "no" =? 0) || (Str.strcasecmp s "false" =? 0))%Z
  then (true, {| red := N.ldiff (red r) t; all := all r; spc := spc r;
                 ins := ins r; only := only r; oins := oins r |})
  else if (Str.strcasecmp s "some" =? 0)%Z
  then (true, {| red := N.lor (red r) t; all := N.ldiff (all r) t;
                 spc := N.ldiff (spc r) t; ins := ins r;
                 only := only r; oins := oins r |})
  else if (Str.strcasecmp s "some-installed" =? 0)%Z
  then (true, {| red := N.lor (red r) t; all := N.ldiff (all r) t;
                 spc := N.lor (spc r) t; ins := N.lor (ins r) t;
                 only := only r; oins := oins r |})
  else if (Str.strcasecmp s "some-uninstalled" =? 0)%Z
  then (true, {| red := N.lor (red r) t; all := N.ldiff (all r) t;
                 spc := N.lor (spc r) t; ins := N.ldiff (ins r) t;
                 only := only r; oins := oins r |})
  else if (Str.strcasecmp s "all" =? 0)%Z
  then (true, {| red := N.lor (red r) t; all := N.lor (all r) t;
                 spc := N.ldiff (spc r) t; ins := ins r;
                 only := only r; oins := oins r |})
  else if (Str.strcasecmp s "all-installed" =? 0)%Z
  then (true, {| red := N.lor (red r) t; all := N.lor (all r) t;
                 spc := N.lor (spc r) t; ins := N.lor (ins r) t;
                 only := only r; oins := oins r |})
  else if (Str.strcasecmp s "all-uninstalled" =? 0)%Z
  then (true, {| red := N.lor (red r) t; all := N.lor (all r) t;
                 spc := N.lor (spc r) t; ins := N.ldiff (ins r) t;
                 only := only r; oins := oins r |})
  else (false, r).

(** Two rules that agree on every bit outside the mask [t]. *)
Definition same_off (t : Redundant) (a b : RedAtom) : Prop :=
  forall i, N.testbit t i = false ->
    N.testbit (red a) i = N.testbit (red b) i
    /\ N.testbit (all a) i = N.testbit (all b) i
    /\ N.testbit (spc a) i = N.testbit (spc b) i
    /\ N.testbit (ins a) i = N.testbit (ins b) i
    /\ N.testbit (only a) i = N.testbit (only b) i
    /\ N.testbit (oins a) i = N.testbit (oins b) i.

(** What a call does to one field: nothing, [x |= type] or [x &= ~type]. *)
Inductive BitOp := Keep | SetBits | ClearBits.

Definition apply_op (o : BitOp) (t a : Redundant) : Redundant :=
  match o with
  | Keep => a
  | SetBits => N.lor a t
  | ClearBits => N.ldiff a t
  end.

(** One operation for each field of a rule. *)
Record AtomOps := {
  o_red : BitOp; o_all : BitOp; o_spc : BitOp;
  o_ins : BitOp; o_only : BitOp; o_oins : BitOp;
}.

Definition apply_ops (o : AtomOps) (t : Redundant) (r : RedAtom) : RedAtom :=
  {| red := apply_op (o_red o) t (red r);
     all := apply_op (o_all o) t (all r);
     spc := apply_op (o_spc o) t (spc r);
     ins := apply_op (o_ins o) t (ins r);
     only := apply_op (o_only o) t (only r);
     oins := apply_op (o_oins o) t (oins r) |}.

(** [o1] followed by [o2] on the same mask. *)
Definition then_op (o1 o2 : BitOp) : BitOp :=
  match o2 with
  | Keep => o1
  | _ => o2
  end.

Definition then_ops (o1 o2 : AtomOps) : AtomOps :=
  {| o_red := then_op (o_red o1) (o_red o2);
     o_all := then_op (o_all o1) (o_all o2);
     o_spc := then_op (o_spc o1) (o_spc o2);
     o_ins := then_op (o_ins o1) (o_ins o2);
     o_only := then_op (o_only o1) (o_only o2);
     o_oins := then_op (o_oins o1) (o_oins o2) |}.

(** ** String utilities of [stringutils.cc] *)

(** [split_string(str, false, at, ignore_empty)]: the vector that the
    template fills when escapes are not handled.  The loop looks for a
    delimiter once for each word, so the length of the string and one more
    is enough fuel (lemma [split_string_loop_words]). *)
Definition split_string_at (str at_ : string) (ignore_empty : bool)
  : list string :=
  split_string_loop (S (String.length str)) str at_ ignore_empty 0 0 [].

(** [join_to_string_template]: every item is appended to [*s], after the
    glue unless [*s] is still empty. *)
Definition join_to_string (s : string) (vec : list string) (glue : string)
  : string :=
  fold_left (fun s it =>
               (match s with
                | EmptyString => s
                | _ => s ++ glue
                end) ++ it) vec s.

(** [split_and_join_string(source, glue, false, at, ignore_empty)]. *)
Definition split_and_join_string (source glue at_ : string)
    (ignore_empty : bool) : string :=
  join_to_string "" (split_string_at source at_ ignore_empty) glue.

(** No character of [w] is one of [at_]. *)
Definition free_of (at_ w : string) : bool :=
  forallb (fun c => negb (strchr at_ c)) (list_ascii_of_string w).

(** Every character of [w] is one of [at_]. *)
Definition made_of (at_ w : string) : bool :=
  forallb (strchr at_) (list_ascii_of_string w).

(** [str] without the characters of [at_]. *)
Fixpoint without (at_ str : string) : string :=
  match str with
  | EmptyString => EmptyString
  | String c rest =>
      if strchr at_ c then without at_ rest else String c (without at_ rest)
  end.

(** The number of characters of [str] that are among [at_]. *)
Fixpoint count_of (at_ str : string) : nat :=
  match str with
  | EmptyString => 0
  | String c rest => (if strchr at_ c then 1 else 0) + count_of at_ rest
  end.

(** The words of [str] told character by character: [cur] is the word
    that is being read. *)
Definition emit (ignore_empty : bool) (cur : string) : list string :=
  if ((0 <? String.length cur)%nat || negb ignore_empty)%bool
  then [cur] else [].

Fixpoint words (at_ : string) (ignore_empty : bool) (cur s : string)
  : list string :=
  match s with
  | EmptyString => emit ignore_empty cur
  | String c rest =>
      if strchr at_ c
      then (emit ignore_empty cur ++ words at_ ignore_empty "" rest)%list
      else words at_ ignore_empty (cur ++ String c "") rest
  end.

(** [str.find_first_not_of(at, pos)]. *)
Fixpoint find_first_not_of (str at_ : string) (pos : nat) : option nat :=
  match str, pos with
  | EmptyString, _ => None
  | String c rest, 0 =>
      if strchr at_ c then S <$> find_first_not_of rest at_ 0 else Some 0
  | String _ rest, S pos => S <$> find_first_not_of rest at_ pos
  end.

(** [str.find_last_not_of(at)]. *)
Fixpoint find_last_not_of (str at_ : string) : option nat :=
  match str with
  | EmptyString => None
  | String c rest =>
      match find_last_not_of rest at_ with
      | Some i => Some (S i)
      | None => if strchr at_ c then None else Some 0
      end
  end.

(** [s.erase(pos)]: everything from [pos] on is removed. *)
Definition erase_from (s : string) (pos : nat) : string := Str.substr s 0 pos.

(** [ltrim(str, delims)]. *)
Definition ltrim (str delims : string) : string :=
  match find_first_not_of str delims 0 with
  | Some notwhite => Str.erase str 0 notwhite
  | None => ""
  end.

(** [rtrim(str, delims)]. *)
Definition rtrim (str delims : string) : string :=
  match find_last_not_of str delims with
  | Some notwhite => erase_from str (notwhite + 1)
  | None => ""
  end.

(** [trim(str, delims)]. *)
Definition trim (str delims : string) : string :=
  rtrim (ltrim str delims) delims.

(** The string is empty or does not begin with one of [at_]. *)
Definition starts_clean (at_ x : string) : bool :=
  match x with
  | EmptyString => true
  | String c _ => negb (strchr at_ c)
  end.

(** The string is empty or does not end with one of [at_]. *)
Definition ends_clean (at_ x : string) : bool :=
  match x with
  | EmptyString => true
  | String _ _ => negb (strchr at_ (Str.at_ x (String.length x - 1)))
  end.

(** [str.find(c, pos)] for a character [c]: the first position at or
    after [pos] that holds [c]. *)
Definition find_char (str : string) (c : ascii) (pos : nat) : option nat :=
  find_first_of str (String c "") pos.

(** [str.insert(pos, r)]. *)
Definition insert (s : string) (pos : nat) (r : string) : string :=
  Str.substr s 0 pos ++ r ++ Str.substr_from s pos.

(** [get_escape]. *)
Definition get_escape (c : ascii) : ascii :=
  if Ascii.eqb c Ascii.zero then "\"%char
  else if Ascii.eqb c "\" then "\"%char
  else if Ascii.eqb c "n" then ascii_of_nat 10
  else if Ascii.eqb c "r" then ascii_of_nat 13
  else if Ascii.eqb c "t" then ascii_of_nat 9
  else if Ascii.eqb c "b" then ascii_of_nat 8
  else if Ascii.eqb c "a" then ascii_of_nat 7
  else c.

(** The loop of [unescape_string]: [pos] stays where the pair was
    replaced.  Every replacement makes the string shorter, so the length of
    the string is enough fuel (lemma [unescape_string_loop_told]). *)
Fixpoint unescape_string_loop (fuel : nat) (str : string) (pos : nat)
  : string :=
  match fuel with
  | 0 => str
  | S fuel =>
      match find_char str "\" pos with
      | None => str
      | Some pos =>
          let p := pos + 1 in
          if (p =? String.length str)%nat then str
          else
            unescape_string_loop fuel
              (Str.replace str pos 2 (String (get_escape (Str.at_ str p)) ""))
              pos
      end
  end.

(** [unescape_string]. *)
Definition unescape_string (str : string) : string :=
  unescape_string_loop (String.length str) str 0.

(** The loop of [escape_string]. *)
Fixpoint escape_string_loop (fuel : nat) (str my_at : string) (pos : nat)
  : string :=
  match fuel with
  | 0 => str
  | S fuel =>
      match find_first_of str my_at pos with
      | None => str
      | Some pos => escape_string_loop fuel (insert str pos "\") my_at (pos + 2)
      end
  end.

(** [escape_string(str, at)]: [my_at] is [at] with the backslash added. *)
Definition escape_string (str at_ : string) : string :=
  escape_string_loop (String.length str) str (at_ ++ "\") 0.

(** A backslash before every character of [my_at]. *)
Fixpoint escape_chars (my_at s : string) : string :=
  match s with
  | EmptyString => EmptyString
  | String c rest =>
      if strchr my_at c then String "\" (String c (escape_chars my_at rest))
      else String c (escape_chars my_at rest)
  end.

(** What [unescape_string] makes of [c] followed by [r], told character
    by character: the character that replaces a pair is read again. *)
Fixpoint unescape_from (c : ascii) (r : string) : string :=
  if Ascii.eqb c "\" then
    match r with
    | EmptyString => String c ""
    | String d r' => unescape_from (get_escape d) r'
    end
  else
    String c (match r with
              | EmptyString => EmptyString
              | String d r' => unescape_from d r'
              end).

Definition unescape_told (s : string) : string :=
  match s with
  | EmptyString => EmptyString
  | String c r => unescape_from c r
  end.

(** [slot_subslot(slot, subslot)]: the new values of [*slot] and
    [*subslot] and the result. *)
Definition slot_subslot (slot : string) : string * string * bool :=
  match find_char slot "/" 0 with
  | None => (if String.eqb slot "0" then "" else slot, "", false)
  | Some sep =>
      let subslot := Str.substr_from slot (sep + 1) in
      let slot := Str.substr slot 0 sep in
      (if String.eqb slot "0" then "" else slot, subslot, true)
  end.

(** [slot_subslot(full, slot, subslot)]: what is assigned to [*slot] and
    [*subslot], and the result. *)
Definition slot_subslot_full (full : string) : string * string * bool :=
  match find_char full "/" 0 with
  | None => (if negb (String.eqb full "0") then full else "", "", false)
  | Some sep =>
      let subslot := Str.substr_from full (sep + 1) in
      let slot := Str.substr full 0 sep in
      (if String.eqb slot "0" then "" else slot, subslot, true)
  end.

(** [isdigit] in the C locale. *)
Definition isdigit (c : ascii) : bool :=
  (Ascii.leb "0" c && Ascii.leb c "9")%bool.

(** The loop of [ExplodeAtom::get_start_of_version]: [rest] is the C
    string from index [i] on, [x] the candidate so far; pointers into the
    string are indices. *)
Fixpoint version_loop (allow_star : bool) (rest : string) (i : nat)
    (x : option nat) : option nat :=
  match rest with
  | EmptyString => x
  | String c rest' =>
      if (Ascii.eqb c Ascii.zero || Ascii.eqb c ":")%bool then x
      else if Ascii.eqb c "-" then
        let d := Str.at_ rest' 0 in
        version_loop allow_star rest' (S i)
          (if (isdigit d || (allow_star && Ascii.eqb d "*"))%bool
           then Some (S i) else x)
      else version_loop allow_star rest' (S i) x
  end.

(** [ExplodeAtom::get_start_of_version]; [None] is [NULLPTR]. *)
Definition get_start_of_version (str : string) (allow_star : bool)
  : option nat :=
  match str with
  | EmptyString => None
  | String c rest =>
      if Ascii.eqb c Ascii.zero then None
      else version_loop allow_star rest 1 None
  end.

(** [strdup(x)] for the pointer [x = str + i], and [strndup(str, n)]. *)
Definition strdup (str : string) (i : nat) : string :=
  Str.c_str (Str.substr_from str i).

Definition strndup (str : string) (n : nat) : string :=
  Str.c_str (Str.substr str 0 n).

(** [ExplodeAtom::split_version], [split_name] and [split]. *)
Definition split_version (str : string) : option string :=
  match get_start_of_version str false with
  | Some x => Some (strdup str x)
  | None => None
  end.

Definition split_name (str : string) : option string :=
  match get_start_of_version str false with
  | Some x => Some (strndup str (x - 1 - 0))
  | None => None
  end.

Definition split (str : string) : option (string * string) :=
  match get_start_of_version str false with
  | None => None
  | Some x => Some (strndup str (x - 1 - 0), strdup str x)
  end.

(** The index [k] is where a version starts in [s]: behind it stands a
    [-], at it a digit, and no NUL comes before it. *)
Definition version_at (s : string) (k : nat) : Prop :=
  2 <= k /\ Str.at_ s (k - 1) = "-"%char /\ isdigit (Str.at_ s k) = true
  /\ Str.c_str (Str.substr s 0 k) = Str.substr s 0 k.

(** ** More of [eixrc.cc] *)

Definition newline : string := String (ascii_of_nat 10) "".

(** The loop of [EixRc::as_comment]: after every newline found, [# ] is
    inserted and the search goes on two characters further. *)
Fixpoint as_comment_loop (fuel : nat) (ret : string) (pos : nat) : string :=
  match fuel with
  | 0 => ret
  | S fuel =>
      match Str.find ret newline pos with
      | None => ret
      | Some pos => as_comment_loop fuel (insert ret (pos + 1) "# ") (pos + 2)
      end
  end.

(** [EixRc::as_comment(s)]; every round uses up one newline of [s], so its
    length is enough fuel. *)
Definition as_comment (s : string) : string :=
  as_comment_loop (String.length s) (Str.c_str s) 0.

(** [# ] after every newline. *)
Fixpoint comment_lines (s : string) : string :=
  match s with
  | EmptyString => EmptyString
  | String c rest =>
      if Ascii.eqb c (ascii_of_nat 10)
      then String c ("# " ++ comment_lines rest)
      else String c (comment_lines rest)
  end.

(** The assignment of [c] to the character of [str] at [pos]. *)
Definition set_at (s : string) (pos : nat) (c : ascii) : string :=
  Str.replace s pos 1 (String c "").

(** The loop of [trimall]: the end of a run is looked for among [spaces],
    whatever [delims] is.  Every round passes a delimiter, so the length of
    the string is enough fuel (lemma [trimall_loop_told]). *)
Fixpoint trimall_loop (fuel : nat) (str delims : string) (c : ascii)
    (pos : nat) : string :=
  match fuel with
  | 0 => str
  | S fuel =>
      match find_first_of str delims pos with
      | None => str
      | Some pos =>
          match find_first_not_of str spaces (pos + 1) with
          | None => erase_from str pos
          | Some end_ =>
              if negb (pos =? 0)%nat then
                let str := set_at str pos c in
                let pos := S pos in
                if (pos =? end_)%nat
                then trimall_loop fuel str delims c pos
                else trimall_loop fuel (Str.erase str pos (end_ - pos))
                       delims c pos
              else trimall_loop fuel (Str.erase str pos (end_ - pos))
                     delims c pos
          end
      end
  end.

(** [trimall(str, delims, c)]. *)
Definition trimall (str delims : string) (c : ascii) : string :=
  trimall_loop (String.length str) str delims c 0.

(** The keys that [read_undelayed] joins at the directive of type [ty]
    that stands at [p] in [str] and is [len] characters long. *)
Definition joined_names (P1 P2 str : string) (ty : DelayedType) (p len : nat)
  : list string :=
  let skip := if bool_decide (ty = DelayedVariable) then 2 else 3 in
  let pos := p + skip in
  let length := len - skip in
  if Ascii.eqb (Str.at_ str pos) "*"
  then [P1 ++ Str.substr str (pos + 1) (length - 2);
        P2 ++ Str.substr str (pos + 1) (length - 2)]
  else [Str.substr str pos (length - 1)].

(** [default_keys] holds the keys of the options, no more and no less. *)
Definition keys_ok (st : EixRc * gset string) : Prop :=
  st.2 = list_to_set (key <$> defaults st.1).

(** ** Keyword lists *)

(** The test of the loop that [-~*] runs over a copy of the set: the
    keyword has at least two characters and begins with a tilde. *)
Definition tilde_keyword (i : string) : bool :=
  ((2 <=? String.length i)%nat && Ascii.eqb (Str.at_ i 0) "~")%bool.

(** [resolve_plus_minus(s, l, warnignore)]: the set, the result
    [minuskeyword] and the lines written to [cerr]; [warnignore = None] is
    the null pointer. *)
Fixpoint resolve_plus_minus_loop (s : gset string) (l : list string)
    (warnignore : option (gset string)) (minuskeyword : bool)
    (cerr : list string) : gset string * bool * list string :=
  match l with
  | [] => (s, minuskeyword, cerr)
  | it :: l =>
      if String.eqb it "" then
        resolve_plus_minus_loop s l warnignore minuskeyword cerr
      else if Ascii.eqb (Str.at_ it 0) "+" then
        resolve_plus_minus_loop ({[Str.substr_from it 1]} ∪ s) l warnignore
          minuskeyword
          (cerr ++ ["flags should not start with a '+': " ++ it])
      else if Ascii.eqb (Str.at_ it 0) "-" then
        if String.eqb it "-*" then
          resolve_plus_minus_loop ∅ l warnignore minuskeyword cerr
        else
          let s :=
            if String.eqb it "-~*"
            then filter (fun i => tilde_keyword i = false) s
            else s in
          let key := Str.substr_from it 1 in
          if decide (key ∈ s) then
            resolve_plus_minus_loop (s ∖ {[key]}) l warnignore
              minuskeyword cerr
          else
            let minuskeyword :=
              match warnignore with
              | Some wi => if decide (key ∈ wi) then minuskeyword else true
              | None => true
              end in
            resolve_plus_minus_loop ({[it]} ∪ s) l warnignore
              minuskeyword cerr
      else
        resolve_plus_minus_loop ({[it]} ∪ s) l warnignore minuskeyword cerr
  end.

Definition resolve_plus_minus (s : gset string) (l : list string)
    (warnignore : option (gset string)) : gset string * bool * list string :=
  resolve_plus_minus_loop s l warnignore false [].

(** [resolve_plus_minus(s, str, warnignore)]: the string is split at white
    space first. *)
Definition resolve_plus_minus_string (s : gset string) (str : string)
    (warnignore : option (gset string)) : gset string * bool * list string :=
  resolve_plus_minus s (split_string str) warnignore.

(** An item that is neither empty nor begins with [+] or [-]. *)
Definition plain_keyword (it : string) : bool :=
  (negb (String.eqb it "") && negb (Ascii.eqb (Str.at_ it 0) "+")
   && negb (Ascii.eqb (Str.at_ it 0) "-"))%bool.

(** ** [StringHash] *)

(** A value, or [exit(EXIT_FAILURE)] after the message. *)
Inductive Exit (A : Type) :=
| Ok (a : A)
| Exited (message : string).

Arguments Ok {A} a.
Arguments Exited {A} message.

(** The class: [strings] is the inherited [vector<string>]; [str_map] is
    the [map<string, size_type>], which is gone through in the order of its
    keys. *)
Record StringHash := {
  strings : list string;
  hashing : bool;
  finalized : bool;
  str_map : gmap string nat;
}.

(** [StringHash::store_string]. *)
Definition store_string (h : StringHash) (s : string) : Exit StringHash :=
  if finalized h
  then Exited "Internal error: Storing required after finalizing"
  else Ok {| strings := strings h ++ [s]; hashing := hashing h;
             finalized := finalized h; str_map := str_map h |}.

(** [StringHash::hash_string]. *)
Definition hash_string (h : StringHash) (s : string) : Exit StringHash :=
  if finalized h
  then Exited "Internal error: Hashing required after finalizing"
  else if negb (hashing h)
  then Exited "Internal error: Hashing required in non-hash mode"
  else
    match str_map h !! s with
    | Some _ => Ok h
    | None => Ok {| strings := strings h; hashing := hashing h;
                    finalized := finalized h;
                    str_map := <[s := 0]> (str_map h) |}
    end.

(** [StringHash::store_words] and [StringHash::hash_words]. *)
Fixpoint store_words (h : StringHash) (v : list string) : Exit StringHash :=
  match v with
  | [] => Ok h
  | s :: v =>
      match store_string h s with
      | Ok h => store_words h v
      | Exited m => Exited m
      end
  end.

Fixpoint hash_words (h : StringHash) (v : list string) : Exit StringHash :=
  match v with
  | [] => Ok h
  | s :: v =>
      match hash_string h s with
      | Ok h => hash_words h v
      | Exited m => Exited m
      end
  end.

(** [StringHash::get_index]. *)
Definition get_index (h : StringHash) (s : string) : Exit nat :=
  if negb (finalized h)
  then Exited "Internal error: Index required before sorting."
  else
    match str_map h !! s with
    | None => Exited "Internal error: Trying to shortcut non-hashed string."
    | Some i => Ok i
    end.

(** [StringHash::operator[]]. *)
Definition hash_at (h : StringHash) (i : nat) : Exit string :=
  match strings h !! i with
  | None => Exited "Database corrupt: Nonexistent hash required"
  | Some s => Ok s
  end.

(** The keys of a map in increasing order, as its iterator gives them. *)
Fixpoint insert_sorted (k : string) (l : list string) : list string :=
  match l with
  | [] => [k]
  | x :: l' => if String.leb k x then k :: l else x :: insert_sorted k l'
  end.

Definition sorted_keys (m : gmap string nat) : list string :=
  foldr insert_sorted [] (elements (dom m)).

(** One round of the loop of [finalize]:
    [it->second = size(); push_back(it->first)]. *)
Definition finalize_step (h : StringHash) (k : string) : StringHash :=
  {| strings := strings h ++ [k]; hashing := hashing h;
     finalized := finalized h;
     str_map := <[k := length (strings h)]> (str_map h) |}.

(** [StringHash::finalize]. *)
Definition finalize (h : StringHash) : StringHash :=
  if finalized h then h
  else
    let h := {| strings := strings h; hashing := hashing h;
                finalized := true; str_map := str_map h |} in
    if negb (hashing h) then h
    else
      foldl finalize_step
        {| strings := []; hashing := hashing h; finalized := finalized h;
           str_map := str_map h |}
        (sorted_keys (str_map h)).

(** ** Splitting with escapes *)

(** [strchr(at, c) != NULLPTR] of the C library: the terminating NUL is
    found as well. *)
Definition c_strchr (at_ : string) (c : ascii) : bool :=
  (Ascii.eqb c Ascii.zero || strchr at_ c)%bool.

(** The loop of [erase_escapes]: a backslash is erased when a backslash or
    a character of [at] follows it, or when it is the last character. *)
Fixpoint erase_escapes_loop (fuel : nat) (s at_ : string) (pos : nat)
  : string :=
  match fuel with
  | 0 => s
  | S fuel =>
      match find_char s "\" pos with
      | None => s
      | Some pos =>
          let pos := pos + 1 in
          if (pos =? String.length s)%nat then Str.erase s (pos - 1) 1
          else
            let c := Str.at_ s pos in
            if (Ascii.eqb c "\" || c_strchr at_ c)%bool
            then erase_escapes_loop fuel (Str.erase s (pos - 1) 1) at_ pos
            else erase_escapes_loop fuel s at_ pos
      end
  end.

(** [erase_escapes(s, at)]. *)
Definition erase_escapes (s at_ : string) : string :=
  erase_escapes_loop (String.length s) s at_ 0.

(** The inner loop of [split_string_template] that tells whether the
    delimiter at [s] is escaped: it goes back over the backslashes before
    it. *)
Fixpoint escaped_before (str : string) (s : nat) (escaped : bool) : bool :=
  match s with
  | 0 => escaped
  | S s' =>
      if Ascii.eqb (Str.at_ str s') "\"
      then escaped_before str s' (negb escaped)
      else escaped
  end.

(** The [while] loop of [split_string_template] with escape handling, and
    what follows it. *)
Fixpoint split_string_escaped_loop (fuel : nat) (str at_ : string)
    (ignore_empty : bool) (last_pos pos : nat) (vec : list string)
  : list string :=
  match fuel with
  | 0 => vec
  | S fuel =>
      match find_first_of str at_ pos with
      | Some pos =>
          if escaped_before str pos false
          then split_string_escaped_loop fuel str at_ ignore_empty
                 last_pos (S pos) vec
          else
            let r :=
              erase_escapes (Str.substr str last_pos (pos - last_pos)) at_ in
            let vec :=
              if ((0 <? String.length r)%nat || negb ignore_empty)%bool
              then (vec ++ [r])%list else vec in
            split_string_escaped_loop fuel str at_ ignore_empty
              (S pos) (S pos) vec
      | None =>
          let r := erase_escapes (Str.substr_from str last_pos) at_ in
          if ((0 <? String.length r)%nat || negb ignore_empty)%bool
          then (vec ++ [r])%list else vec
      end
  end.

(** [split_string(str, handle_escape, at, ignore_empty)]. *)
Definition split_string_template (str : string) (handle_escape : bool)
    (at_ : string) (ignore_empty : bool) : list string :=
  if handle_escape
  then split_string_escaped_loop (S (String.length str)) str at_
         ignore_empty 0 0 []
  else split_string_loop (S (String.length str)) str at_ ignore_empty 0 0 [].

(** What [erase_escapes] leaves, told character by character. *)
Fixpoint unescaped (at_ s : string) : string :=
  match s with
  | EmptyString => EmptyString
  | String c r =>
      if Ascii.eqb c "\" then
        match r with
        | EmptyString => EmptyString
        | String d r' =>
            if (Ascii.eqb d "\" || c_strchr at_ d)%bool
            then String d (unescaped at_ r')
            else String c (unescaped at_ r)
        end
      else String c (unescaped at_ r)
  end.

(** ** Strings as lists of characters *)

Lemma chars_app (a b : string) : chars (a ++ b) = (chars a ++ chars b)%list.
Proof. induction a as [|c a IH]; simpl; [done | by rewrite IH]. Qed.

Lemma chars_length (s : string) : length (chars s) = String.length s.
Proof. induction s as [|c s IH]; simpl; [done | by rewrite IH]. Qed.

Lemma chars_inj (a b : string) : chars a = chars b -> a = b.
Proof.
  intros H. rewrite <- (string_of_list_ascii_of_string a),
    <- (string_of_list_ascii_of_string b). by rewrite H.
Qed.

Lemma str_length_app (a b : string) :
  String.length (a ++ b) = String.length a + String.length b.
Proof. rewrite <- !chars_length, chars_app. apply length_app. Qed.

Lemma get_chars (s : string) (i : nat) : String.get i s = chars s !! i.
Proof.
  revert i. induction s as [|c s IH]; intros [|i]; simpl; done.
Qed.

Lemma at_chars (s : string) (i : nat) :
  Str.at_ s i = default Ascii.zero (chars s !! i).
Proof. unfold Str.at_. by rewrite get_chars. Qed.

Lemma substring_chars (s : string) (n m : nat) :
  chars (String.substring n m s) = take m (drop n (chars s)).
Proof.
  revert n m. induction s as [|c s IH]; intros [|n] [|m]; simpl; try done.
  all: by rewrite ?(IH 0 m), ?drop_0.
Qed.

Lemma substr_chars (s : string) (n m : nat) :
  chars (Str.substr s n m) = take m (drop n (chars s)).
Proof. apply substring_chars. Qed.

Lemma substr_from_chars (s : string) (n : nat) :
  chars (Str.substr_from s n) = drop n (chars s).
Proof.
  unfold Str.substr_from. rewrite substring_chars, <- chars_length.
  apply take_ge. rewrite length_drop. lia.
Qed.

Lemma erase_chars (s : string) (pos n : nat) :
  chars (Str.erase s pos n) = (take pos (chars s) ++ drop (pos + n) (chars s))%list.
Proof.
  unfold Str.erase. by rewrite chars_app, substr_chars, substr_from_chars, drop_0.
Qed.

Lemma replace_chars (s : string) (pos n : nat) (r : string) :
  chars (Str.replace s pos n r)
  = (take pos (chars s) ++ chars r ++ drop (pos + n) (chars s))%list.
Proof.
  unfold Str.replace.
  by rewrite !chars_app, substr_chars, substr_from_chars, drop_0.
Qed.

Lemma erase_length (s : string) (pos n : nat) :
  pos + n <= String.length s ->
  String.length (Str.erase s pos n) = String.length s - n.
Proof.
  intros H. rewrite <- !chars_length, erase_chars in *.
  rewrite length_app, length_take, length_drop. lia.
Qed.

Lemma replace_length (s : string) (pos n : nat) (r : string) :
  pos + n <= String.length s ->
  String.length (Str.replace s pos n r)
  = String.length s - n + String.length r.
Proof.
  intros H. rewrite <- !chars_length, replace_chars in *.
  rewrite !length_app, length_take, length_drop. lia.
Qed.

(** ** [std::string::find] *)

Lemma prefix_chars (pat s : string) :
  String.prefix pat s = true <-> take (String.length pat) (chars s) = chars pat.
Proof.
  revert s. induction pat as [|c pat IH]; intros s; simpl.
  - destruct s; simpl; by rewrite ?take_0.
  - destruct s as [|d s]; simpl; [done|].
    destruct (Ascii.ascii_dec c d) as [->|Hne].
    + rewrite IH. split; [by intros -> | by intros [= ?]].
    + split; [done | intros [= ? _]; congruence].
Qed.

Lemma find_Some (s pat : string) (pos p : nat) :
  pat <> "" ->
  Str.find s pat pos = Some p <->
  pos <= p /\ occurs pat s p /\ forall q, pos <= q < p -> ~ occurs pat s q.
Proof.
  intros Hpat. unfold Str.find, occurs. revert pos p.
  induction s as [|c s IH]; intros pos p.
  - simpl. destruct pos; (destruct pat; [done|]); simpl.
    all: split; [done|]; intros (_ & H & _); by rewrite drop_nil in H.
  - destruct pos as [|pos].
    + cbn [index].
      destruct (String.prefix pat (String c s)) eqn:Hp.
      * apply prefix_chars in Hp. split.
        -- intros [= <-]. split; [lia|]. split; [done|]. intros q ?; lia.
        -- intros (_ & H & Hmin). destruct p as [|p]; [done|].
           destruct (Hmin 0); [lia | done].
      * assert (Hn : ~ take (String.length pat) (chars (String c s)) = chars pat).
        { intros H. apply prefix_chars in H. congruence. }
        destruct (index 0 pat s) as [n|] eqn:Hi.
        -- apply IH in Hi as (_ & Ho & Hmin). split.
           ++ intros [= <-]. split; [lia|]. split; [done|].
              intros [|q] ?; [done|]. apply Hmin. lia.
           ++ intros (_ & H & Hmin'). destruct p as [|p]; [done|].
              f_equal. f_equal. simpl in H.
              destruct (Nat.lt_trichotomy n p) as [?|[?|?]]; [|lia|].
              ** destruct (Hmin' (S n)); [lia | done].
              ** destruct (Hmin p); [lia | done].
        -- split; [done|]. intros (_ & H & Hmin). destruct p as [|p]; [done|].
           simpl in H. assert (index 0 pat s = Some p) as ?; [|congruence].
           apply IH. split; [lia|]. split; [done|]. intros q ?.
           apply (Hmin (S q)). lia.
    + cbn [index]. destruct (index pos pat s) as [n|] eqn:Hi.
      * apply IH in Hi as (Hle & Ho & Hmin). split.
        -- intros [= <-]. split; [lia|]. split; [done|].
           intros [|q] ?; [lia|]. apply Hmin. lia.
        -- intros (Hle' & H & Hmin'). destruct p as [|p]; [lia|].
           f_equal. simpl in H.
           destruct (Nat.lt_trichotomy n p) as [?|[?|?]]; [|lia|].
           ** destruct (Hmin' (S n)); [lia | done].
           ** destruct (Hmin p); [lia | done].
      * split; [done|]. intros (Hle & H & Hmin). destruct p as [|p]; [lia|].
        simpl in H. assert (index pos pat s = Some p) as ?; [|congruence].
        apply IH. split; [lia|]. split; [done|]. intros q ?.
        apply (Hmin (S q)). lia.
Qed.

Lemma least_from (P : nat -> Prop) (pos q : nat) :
  (forall n, Decision (P n)) -> pos <= q -> P q ->
  exists p, pos <= p <= q /\ P p /\ forall r, pos <= r < p -> ~ P r.
Proof.
  intros Hdec Hle HP. remember (q - pos) as d eqn:Hd.
  revert q Hle HP Hd. induction d as [d IH] using lt_wf_ind. intros q Hle HP Hd.
  destruct (decide (Exists P (seq pos (q - pos)))) as [He|Hno].
  - apply Exists_exists in He as (r & Hr & HPr). apply elem_of_seq in Hr.
    destruct (IH (r - pos)) with (q := r) as (p & ? & ? & ?); [lia|lia|done|done|].
    exists p. split; [lia|done].
  - exists q. split; [lia|]. split; [done|]. intros r Hr HPr. apply Hno.
    apply Exists_exists. exists r. split; [|done]. apply elem_of_seq. lia.
Qed.

Lemma find_None (s pat : string) (pos : nat) :
  pat <> "" ->
  Str.find s pat pos = None <-> forall q, pos <= q -> ~ occurs pat s q.
Proof.
  intros Hpat. split.
  - intros Hn q Hq Ho.
    destruct (least_from (occurs pat s) pos q) as (p & ? & ? & ?); [|done|done|].
    { intros n. unfold occurs. apply _. }
    assert (Str.find s pat pos = Some p) by (apply find_Some; auto with lia).
    congruence.
  - intros H. destruct (Str.find s pat pos) as [p|] eqn:Hf; [|done].
    apply find_Some in Hf as (? & ? & _); [|done]. by destruct (H p).
Qed.

(** ** The scanner finds the first directive at or after [pos] *)

Lemma occurs_opener (str : string) (p : nat) :
  occurs "%{" str p <->
  Str.at_ str p = "%"%char /\ Str.at_ str (S p) = "{"%char
  /\ p + 2 <= String.length str.
Proof.
  unfold occurs. rewrite !at_chars, <- (chars_length str). simpl.
  pose proof (lookup_drop (chars str) p 0) as H0.
  pose proof (lookup_drop (chars str) p 1) as H1.
  pose proof (length_drop (chars str) p) as Hlen.
  rewrite Nat.add_0_r in H0. replace (p + 1) with (S p) in H1 by lia.
  rewrite <- H0, <- H1.
  destruct (drop p (chars str)) as [|a [|b l]]; simpl in *.
  - split; [done|]. intros (_ & _ & ?). lia.
  - split; [done|]. intros (_ & _ & ?). lia.
  - split.
    + intros [= -> ->]. repeat split; lia.
    + intros (-> & -> & _). done.
Qed.

Lemma delayed_at_type (str : string) (p : nat) (ty : DelayedType) (len : nat) :
  delayed_at str p = Some (ty, len) -> ty <> DelayedNotFound.
Proof.
  unfold delayed_at. repeat case_match; intros; simplify_eq; done.
Qed.

Lemma directive_at_type (str : string) (p : nat) (ty : DelayedType) (len : nat) :
  directive_at str p = Some (ty, len) -> ty <> DelayedNotFound.
Proof.
  unfold directive_at. repeat case_match; try done. apply delayed_at_type.
Qed.

Lemma find_next_delayed_loop_spec (fuel : nat) (str : string) (pos : nat) :
  String.length str < fuel + pos ->
  match find_next_delayed_loop fuel str pos with
  | (DelayedNotFound, p, len) =>
      p = 0 /\ len = 0 /\ forall q, pos <= q -> directive_at str q = None
  | (ty, p, len) =>
      pos <= p /\ directive_at str p = Some (ty, len)
      /\ forall q, pos <= q < p -> directive_at str q = None
  end.
Proof.
  revert pos. induction fuel as [|fuel IH]; intros pos Hfuel.
  { simpl. repeat split; try done. intros q Hq. unfold directive_at.
    case_decide as Ho; [|done]. apply occurs_opener in Ho. lia. }
  simpl. destruct (Str.find str "%{" pos) as [p|] eqn:Hfind.
  2:{ repeat split; try done. intros q Hq. unfold directive_at.
      case_decide as Ho; [|done].
      eapply find_None in Hfind; [by destruct Hfind | done | done]. }
  apply find_Some in Hfind as (Hle & Ho & Hmin); [|done].
  assert (Hbefore : forall q, pos <= q < p -> directive_at str q = None).
  { intros q Hq. unfold directive_at. case_decide as Ho'; [|done].
    by destruct (Hmin q). }
  assert (Hnext : forall q, p < q < p + 2 -> directive_at str q = None).
  { intros q Hq. assert (q = S p) as -> by lia. unfold directive_at.
    case_decide as Ho'; [|done].
    apply occurs_opener in Ho as (_ & H1 & _), Ho' as (H2 & _). congruence. }
  assert (Hcont : directive_at str p = None ->
    match find_next_delayed_loop fuel str (p + 2) with
    | (DelayedNotFound, p, len) =>
        p = 0 /\ len = 0 /\ forall q, pos <= q -> directive_at str q = None
    | (ty, p, len) =>
        pos <= p /\ directive_at str p = Some (ty, len)
        /\ forall q, pos <= q < p -> directive_at str q = None
    end).
  { intros Hp. pose proof (proj1 (occurs_opener _ _) Ho) as (_ & _ & ?).
    specialize (IH (p + 2) ltac:(lia)).
    assert (Hlow : forall q, pos <= q < p + 2 -> directive_at str q = None).
    { intros q Hq. destruct (decide (q < p)); [apply Hbefore; lia|].
      destruct (decide (q = p)) as [->|]; [done|]. apply Hnext. lia. }
    destruct (find_next_delayed_loop fuel str (p + 2)) as [[ty p'] len].
    destruct ty; destruct IH as (? & ? & IH); (split; [lia|]); (split; [done|]).
    all: intros q Hq; destruct (decide (q < p + 2)); [apply Hlow; lia | apply IH; lia]. }
  fold (escaped str p).
  destruct (escaped str p) eqn:Hesc.
  { apply Hcont. unfold directive_at. rewrite decide_True by done. by rewrite Hesc. }
  destruct (delayed_at str p) as [[ty len]|] eqn:Hd.
  2:{ apply Hcont. unfold directive_at. rewrite decide_True by done.
      by rewrite Hesc. }
  assert (directive_at str p = Some (ty, len)) as Hdir.
  { unfold directive_at. rewrite decide_True by done. by rewrite Hesc. }
  pose proof (delayed_at_type _ _ _ _ Hd).
  destruct ty; done.
Qed.

Lemma find_next_delayed_spec (str : string) (pos : nat) :
  match find_next_delayed str pos with
  | (DelayedNotFound, p, len) =>
      p = 0 /\ len = 0 /\ forall q, pos <= q -> directive_at str q = None
  | (ty, p, len) =>
      pos <= p /\ directive_at str p = Some (ty, len)
      /\ forall q, pos <= q < p -> directive_at str q = None
  end.
Proof. apply find_next_delayed_loop_spec. lia. Qed.

Lemma find_next_delayed_found (str : string) (pos p : nat)
    (ty : DelayedType) (len : nat) :
  pos <= p -> directive_at str p = Some (ty, len) ->
  (forall q, pos <= q < p -> directive_at str q = None) ->
  find_next_delayed str pos = (ty, p, len).
Proof.
  intros Hle Hd Hmin. pose proof (find_next_delayed_spec str pos) as H.
  destruct (find_next_delayed str pos) as [[ty' p'] len'].
  assert (ty' <> DelayedNotFound ->
          pos <= p' /\ directive_at str p' = Some (ty', len')
          /\ forall q, pos <= q < p' -> directive_at str q = None) as H'.
  { destruct ty'; done. }
  destruct (decide (ty' = DelayedNotFound)) as [->|Hne].
  - destruct H as (_ & _ & H). rewrite H in Hd by done. done.
  - destruct (H' Hne) as (? & Hd' & Hmin').
    destruct (Nat.lt_trichotomy p p') as [?|[->|?]].
    + rewrite Hmin' in Hd by lia. done.
    + congruence.
    + rewrite Hmin in Hd' by lia. done.
Qed.

Lemma find_next_delayed_not_found (str : string) (pos : nat) :
  (forall q, pos <= q -> directive_at str q = None) ->
  find_next_delayed str pos = (DelayedNotFound, 0, 0).
Proof.
  intros Hnone. pose proof (find_next_delayed_spec str pos) as H.
  destruct (find_next_delayed str pos) as [[ty p] len].
  destruct ty.
  - by destruct H as (-> & -> & _).
  - destruct H as (? & Hd & _). rewrite Hnone in Hd; done.
  - destruct H as (? & Hd & _). rewrite Hnone in Hd; done.
  - destruct H as (? & Hd & _). rewrite Hnone in Hd; done.
  - destruct H as (? & Hd & _). rewrite Hnone in Hd; done.
  - destruct H as (? & Hd & _). rewrite Hnone in Hd; done.
Qed.

(** Every [continue] moves two characters on, so the fuel that
    [find_next_delayed] starts with is never used up: any larger amount
    gives the same result. *)
Lemma find_next_delayed_loop_fuel (fuel : nat) (str : string) (pos : nat) :
  String.length str < fuel + pos ->
  find_next_delayed_loop fuel str pos = find_next_delayed str pos.
Proof.
  intros Hfuel. pose proof (find_next_delayed_loop_spec fuel str pos Hfuel) as H.
  destruct (find_next_delayed_loop fuel str pos) as [[ty p] len].
  symmetry. destruct ty.
  1: destruct H as (-> & -> & H); by apply find_next_delayed_not_found.
  all: destruct H as (? & ? & ?); by apply find_next_delayed_found.
Qed.

(** What the scanner finds, in the form the proofs below take cases on. *)
Lemma find_next_delayed_cases (str : string) (pos : nat) :
  (find_next_delayed str pos = (DelayedNotFound, 0, 0)
   /\ forall q, pos <= q -> directive_at str q = None)
  \/ exists ty p len,
      find_next_delayed str pos = (ty, p, len) /\ ty <> DelayedNotFound
      /\ pos <= p /\ directive_at str p = Some (ty, len)
      /\ forall q, pos <= q < p -> directive_at str q = None.
Proof.
  pose proof (find_next_delayed_spec str pos) as H.
  destruct (find_next_delayed str pos) as [[ty p] len].
  destruct ty.
  1: left; destruct H as (-> & -> & ?); done.
  all: right; eexists _, _, _; split; [done|]; split; [done|]; done.
Qed.

(** ** The span of a directive *)

Lemma at_beyond (str : string) (i : nat) :
  String.length str <= i -> Str.at_ str i = Ascii.zero.
Proof.
  intros H. rewrite at_chars, lookup_ge_None_2; [done|]. by rewrite chars_length.
Qed.

Lemma at_nonzero_lt (str : string) (i : nat) :
  Str.at_ str i <> Ascii.zero -> i < String.length str.
Proof.
  intros H. destruct (decide (i < String.length str)); [done|].
  destruct H. apply at_beyond. lia.
Qed.

Lemma name_loop_spec (str : string) (i : nat) (c : ascii) (j : nat) :
  name_loop (Str.substr_from str i) i = (c, j) ->
  i < j /\ c = Str.at_ str (j - 1) /\ not_name_char c = true
  /\ forall k, i <= k < j - 1 -> not_name_char (Str.at_ str k) = false.
Proof.
  assert (Hgen : forall rest i c j,
    chars rest = drop i (chars str) ->
    name_loop rest i = (c, j) ->
    i < j /\ c = Str.at_ str (j - 1) /\ not_name_char c = true
    /\ forall k, i <= k < j - 1 -> not_name_char (Str.at_ str k) = false).
  { clear. intros rest. induction rest as [|d rest IH]; intros i c j Hrest Hloop.
    - simpl in *. injection Hloop as <- <-. split; [lia|].
      replace (S i - 1) with i by lia. split.
      + rewrite at_chars. symmetry in Hrest.
        apply drop_nil_inv in Hrest. by rewrite lookup_ge_None_2.
      + split; [done|]. intros; lia.
    - simpl in Hloop, Hrest.
      assert (chars str !! i = Some d) as Hd.
      { pose proof (lookup_drop (chars str) i 0) as H.
        rewrite <- Hrest, Nat.add_0_r in H. done. }
      assert (Str.at_ str i = d) as Hat by (by rewrite at_chars, Hd).
      destruct (not_name_char d) eqn:Hn.
      + injection Hloop as <- <-. split; [lia|].
        replace (S i - 1) with i by lia. repeat split; try done. intros; lia.
      + apply IH in Hloop as (? & ? & ? & Hk).
        * split; [lia|]. repeat split; try done. intros k Hk'.
          destruct (decide (k = i)) as [->|]; [congruence|]. apply Hk. lia.
        * replace (S i) with (i + 1) by lia.
          by rewrite <- drop_drop, <- Hrest. }
  apply Hgen. apply substr_from_chars.
Qed.

Lemma delayed_at_span (str : string) (p : nat) (ty : DelayedType) (len : nat) :
  delayed_at str p = Some (ty, len) ->
  3 <= len /\ p + len <= String.length str.
Proof.
  unfold delayed_at. intros H.
  destruct (Ascii.eqb (Str.at_ str (p + 2)) "}") eqn:Hfi.
  { injection H as <- <-. apply Ascii.eqb_eq in Hfi. split; [lia|].
    assert (p + 2 < String.length str); [|lia].
    apply at_nonzero_lt. by rewrite Hfi. }
  set (tci := if Ascii.eqb (Str.at_ str (p + 2)) "?"
              then (DelayedIf, Str.at_ str (S (p + 2)), S (S (p + 2)))
              else if Ascii.eqb (Str.at_ str (p + 2)) "!"
                   then (DelayedNotif, Str.at_ str (S (p + 2)), S (S (p + 2)))
                   else (DelayedVariable, Str.at_ str (p + 2), S (p + 2))) in H.
  assert (p + 3 <= tci.2) as Hi.
  { subst tci. clear. destruct (Ascii.eqb _ "?"); [simpl; lia|].
    destruct (Ascii.eqb _ "!"); simpl; lia. }
  destruct tci as [[ty0 c0] i0]. simpl in Hi.
  destruct (not_name_start c0); [done|].
  destruct (name_loop (Str.substr_from str i0) i0) as [c j] eqn:Hloop.
  apply name_loop_spec in Hloop as (? & Hc & _).
  destruct (Ascii.eqb c "}") eqn:Hc'; [|done]. simpl in H.
  apply Ascii.eqb_eq in Hc'.
  assert (j - 1 < String.length str) by (apply at_nonzero_lt; by rewrite <- Hc, Hc').
  case_match; injection H as <- <-; lia.
Qed.

Lemma directive_at_span (str : string) (p : nat) (ty : DelayedType) (len : nat) :
  directive_at str p = Some (ty, len) ->
  3 <= len /\ p + len <= String.length str.
Proof.
  unfold directive_at. repeat case_match; try done. apply delayed_at_span.
Qed.

(** What a successful scan tells about the span it reports. *)
Lemma find_next_delayed_span (str : string) (pos : nat)
    (ty : DelayedType) (p len : nat) :
  find_next_delayed str pos = (ty, p, len) -> ty <> DelayedNotFound ->
  pos <= p /\ 3 <= len /\ p + len <= String.length str.
Proof.
  intros H Hty. destruct (find_next_delayed_cases str pos)
    as [[H' _]|(ty' & p' & len' & H' & _ & ? & Hd & _)].
  - congruence.
  - rewrite H in H'. injection H' as <- <- <-. split; [done|].
    by eapply directive_at_span.
Qed.

(** A scan that finds something from [pos] finds something from any earlier
    position. *)
Lemma find_next_delayed_earlier (str : string) (pos pos' : nat) :
  pos' <= pos ->
  (find_next_delayed str pos).1.1 <> DelayedNotFound ->
  (find_next_delayed str pos').1.1 <> DelayedNotFound.
Proof.
  intros Hle H.
  destruct (find_next_delayed_cases str pos)
    as [[H1 _]|(ty & p & len & H1 & Hty & ? & Hd & _)].
  { by rewrite H1 in H. }
  destruct (find_next_delayed_cases str pos')
    as [[_ Hnone]|(ty' & p' & len' & H1' & Hty' & _)].
  - rewrite Hnone in Hd by lia. done.
  - by rewrite H1'.
Qed.

(** ** The search for the matching [%{}] *)

Lemma erase_length_le (s : string) (pos n : nat) :
  String.length (Str.erase s pos n) <= String.length s.
Proof.
  rewrite <- !chars_length, erase_chars, length_app, length_take, length_drop. lia.
Qed.

(** One round of [skip_loop], with the scan's result named. *)
Lemma skip_loop_unfold (fuel : nat) (result : bool) (v : string)
    (skippos : nat) (delpos : option nat) (gotelse : bool) (count : N) :
  skip_loop (S fuel) result v skippos delpos gotelse count =
  let '(type, skippos, length) := find_next_delayed v skippos in
  match type with
  | DelayedFi =>
      if negb (count =? 0)%N
      then skip_loop fuel result v (skippos + length) delpos
                     gotelse (count - 1)%N
      else
        match delpos with
        | None => Matched (Str.erase v skippos length)
        | Some d => Matched (Str.erase v d ((skippos + length) - d))
        end
  | DelayedElse =>
      if negb (count =? 0)%N
      then skip_loop fuel result v (skippos + length) delpos
                     gotelse count
      else if gotelse then SkipError "double ELSE"
      else if result
      then skip_loop fuel result (Str.erase v skippos length)
                     (skippos + 0) (Some skippos) true count
      else
        match delpos with
        | None => OutOfRange
        | Some d =>
            skip_loop fuel result
                      (Str.erase v d ((skippos + length) - d))
                      (d + 0) None true count
        end
  | DelayedIf | DelayedNotif =>
      skip_loop fuel result v (skippos + length) delpos
                gotelse (count_incr count)
  | DelayedNotFound => SkipError "IF without FI"
  | DelayedVariable =>
      skip_loop fuel result v (skippos + length) delpos
                gotelse count
  end.
Proof. reflexivity. Qed.

(** Each round leaves fewer characters after [skippos], so fuel beyond that
    number changes nothing. *)
Lemma skip_loop_fuel_S (fuel : nat) (result : bool) (v : string)
    (skippos : nat) (delpos : option nat) (gotelse : bool) (count : N) :
  String.length v < S fuel + skippos ->
  skip_loop (S (S fuel)) result v skippos delpos gotelse count
  = skip_loop (S fuel) result v skippos delpos gotelse count.
Proof.
  revert v skippos delpos gotelse count.
  induction fuel as [|fuel IH]; intros v skippos delpos gotelse count Hfuel.
  - rewrite (skip_loop_unfold 1), (skip_loop_unfold 0).
    destruct (find_next_delayed v skippos) as [[ty p] len] eqn:Hscan.
    destruct (decide (ty = DelayedNotFound)) as [->|Hty]; [done|].
    apply find_next_delayed_span in Hscan as (? & ? & ?); [|done]. lia.
  - rewrite (skip_loop_unfold (S (S fuel))), (skip_loop_unfold (S fuel)).
    destruct (find_next_delayed v skippos) as [[ty p] len] eqn:Hscan.
    destruct (decide (ty = DelayedNotFound)) as [->|Hty]; [done|].
    apply find_next_delayed_span in Hscan as (? & ? & ?); [|done].
    assert (Hcont : forall dp ge c,
      skip_loop (S (S fuel)) result v (p + len) dp ge c
      = skip_loop (S fuel) result v (p + len) dp ge c).
    { intros. apply IH. lia. }
    destruct ty; try done; rewrite ?Hcont; try done.
    destruct (negb (count =? 0)%N); [done|]. destruct gotelse; [done|].
    destruct result.
    + apply IH. pose proof (erase_length v p len). lia.
    + destruct delpos as [d|]; [|done]. apply IH.
      rewrite <- !chars_length, erase_chars, length_app, length_take,
        length_drop, chars_length in *. lia.
Qed.

Lemma skip_loop_fuel (n m : nat) (result : bool) (v : string)
    (skippos : nat) (delpos : option nat) (gotelse : bool) (count : N) :
  String.length v < n + skippos -> 1 <= n -> n <= m ->
  skip_loop m result v skippos delpos gotelse count
  = skip_loop n result v skippos delpos gotelse count.
Proof.
  intros Hn H1 Hm. induction Hm as [|m Hm IH]; [done|].
  rewrite <- IH. destruct m as [|m]; [lia|]. apply skip_loop_fuel_S. lia.
Qed.

(** With that much fuel the search ends. *)
Lemma skip_loop_ends (fuel : nat) (result : bool) (v : string)
    (skippos : nat) (delpos : option nat) (gotelse : bool) (count : N) :
  String.length v < fuel + skippos -> 1 <= fuel ->
  skip_loop fuel result v skippos delpos gotelse count <> SkipNoFuel.
Proof.
  revert v skippos delpos gotelse count.
  induction fuel as [|fuel IH]; intros v skippos delpos gotelse count Hfuel H1;
    [lia|].
  rewrite skip_loop_unfold.
  destruct (find_next_delayed v skippos) as [[ty p] len] eqn:Hscan.
  destruct (decide (ty = DelayedNotFound)) as [->|Hty]; [done|].
  apply find_next_delayed_span in Hscan as (? & ? & ?); [|done].
  assert (Hcont : forall dp ge c,
    skip_loop fuel result v (p + len) dp ge c <> SkipNoFuel).
  { intros. apply IH; lia. }
  destruct ty; try done.
  - destruct (negb (count =? 0)%N); [done|]. destruct gotelse; [done|].
    destruct result.
    + apply IH; pose proof (erase_length v p len); lia.
    + destruct delpos as [d|]; [|done].
      assert (String.length (Str.erase v d (p + len - d)) < fuel + (d + 0)).
      { rewrite <- !chars_length, erase_chars, length_app, length_take,
          length_drop, chars_length in *. lia. }
      apply IH; [done|].
      rewrite <- !chars_length, erase_chars, length_app, length_take,
        length_drop, chars_length in *. lia.
  - destruct (negb (count =? 0)%N); [done|]. by destruct delpos.
Qed.

(** A match takes at least the three characters of [%{}] away, and [erase]
    is never called beyond the end. *)
Lemma skip_loop_matched (fuel : nat) (result : bool) (v : string)
    (skippos : nat) (delpos : option nat) (gotelse : bool) (count : N) :
  skip_inv result skippos delpos gotelse ->
  match skip_loop fuel result v skippos delpos gotelse count with
  | Matched v' => String.length v' + 3 <= String.length v
  | OutOfRange => False
  | _ => True
  end.
Proof.
  revert v skippos delpos gotelse count.
  induction fuel as [|fuel IH]; intros v skippos delpos gotelse count Hinv;
    [done|].
  rewrite skip_loop_unfold.
  destruct (find_next_delayed v skippos) as [[ty p] len] eqn:Hscan.
  destruct (decide (ty = DelayedNotFound)) as [->|Hty]; [done|].
  apply find_next_delayed_span in Hscan as (? & ? & ?); [|done].
  assert (Hinv' : skip_inv result (p + len) delpos gotelse).
  { unfold skip_inv in *. destruct delpos; [lia|done]. }
  destruct ty; try done; try (by apply IH).
  - destruct (negb (count =? 0)%N); [by apply IH|]. destruct gotelse; [done|].
    destruct result.
    + assert (skip_inv true (p + 0) (Some p) true) as Hi by (simpl; lia).
      specialize (IH (Str.erase v p len) (p + 0) (Some p) true count Hi).
      pose proof (erase_length_le v p len).
      destruct (skip_loop fuel true (Str.erase v p len) (p + 0) (Some p) true count);
        try done; lia.
    + destruct delpos as [d|]; [|by destruct Hinv].
      assert (skip_inv false (d + 0) None true) as Hi by (simpl; auto).
      specialize (IH (Str.erase v d (p + len - d)) (d + 0) None true count Hi).
      pose proof (erase_length_le v d (p + len - d)).
      destruct (skip_loop fuel false (Str.erase v d (p + len - d)) (d + 0) None
                  true count);
        try done; lia.
  - destruct (negb (count =? 0)%N); [by apply IH|].
    destruct delpos as [d|].
    + simpl in Hinv. rewrite erase_length by lia. lia.
    + rewrite erase_length by lia. lia.
Qed.

(** ** The map *)

Lemma get_set_eq (r : EixRc) (k v : string) : get (set r k v) k = v.
Proof. unfold get, set. simpl. by rewrite lookup_insert_eq. Qed.

Lemma get_set_ne (r : EixRc) (k k' v : string) :
  k <> k' -> get (set r k v) k' = get r k'.
Proof. intros. unfold get, set. simpl. by rewrite lookup_insert_ne. Qed.

Lemma get_touch (r : EixRc) (k k' : string) : get (touch r k) k' = get r k'.
Proof.
  unfold touch. destruct (decide (k = k')) as [->|].
  - apply get_set_eq.
  - by apply get_set_ne.
Qed.

(** ** What a call leaves untouched *)

Lemma frame_post_refl (f : Frame) : active_ok f -> frame_post f f.
Proof.
  intros Hok. unfold frame_post. split_and!; try done.
  intros k Hk. split; [done|]. by apply Hok.
Qed.

Lemma frame_post_trans (f1 f2 f3 : Frame) :
  frame_post f1 f2 -> frame_post f2 f3 -> frame_post f1 f3.
Proof.
  intros (Hv1 & Hh1 & Hk1 & Hp1 & Hd1) (Hv2 & Hh2 & Hk2 & Hp2 & Hd2).
  unfold frame_post. split_and!; try congruence.
  - set_solver.
  - intros k Hk. destruct (Hk2 k) as [-> ?]; [by rewrite Hv1|].
    split; [|done]. by apply Hk1.
Qed.

Lemma active_ok_post (f f' : Frame) :
  active_ok f -> frame_post f f' -> active_ok f'.
Proof.
  intros Hok (Hv & Hh & Hk & _) k Hin. rewrite Hv in Hin.
  destruct (Hk k Hin) as [-> ?]. split; [done|]. by apply Hok.
Qed.

(** A round that goes on: the key is not being expanded further up, the
    frame is kept, and fewer characters are left after the cursor. *)
Lemma round_again (recurse : string -> Frame -> Outcome) (fuel : nat)
    (key : string) (pos : nat) (f : Frame) (pos' : nat) (f1 : Frame) :
  keeps_frame recurse -> active_ok f -> key ∈ has_reference f ->
  resolve_delayed_round recurse fuel key pos f = Again pos' f1 ->
  (key ∉ visited f) /\ frame_post f f1 /\ key ∈ has_reference f1
  /\ String.length (get (rc f1) key) - pos'
     < String.length (get (rc f) key) - pos.
Proof.
  intros Hrec Hok Hkey. unfold resolve_delayed_round.
  destruct (find_next_delayed (get (rc f) key) pos) as [[ty p] len] eqn:Hscan.
  destruct (decide (ty = DelayedNotFound)) as [->|Hty]; [done|].
  pose proof (find_next_delayed_span _ _ _ _ _ Hscan Hty) as (Hp & Hlen & Hend).
  assert (has_directive (get (rc f) key)) as Hdir.
  { unfold has_directive. apply (find_next_delayed_earlier _ pos); [lia|].
    by rewrite Hscan. }
  set (F := with_visited f ({[key]} ∪ visited f)).
  assert (active_ok F) as HokF.
  { intros k Hk. simpl in Hk. apply elem_of_union in Hk as [Hk|Hk].
    - apply elem_of_singleton in Hk as ->. done.
    - by apply Hok. }
  assert (Hbody : forall will_test name,
    match recurse name F with
    | Returned f1 =>
        let f1 := with_visited f1 (visited f1 ∖ {[key]}) in
        let s := get (rc f1) name in
        let v := get (rc f1) key in
        if negb will_test then
          let f2 := with_rc f1 (set (rc f1) key (Str.replace v p len s)) in
          Again (p + String.length (get (rc f2) name)) f2
        else
          let result :=
            if istrue (Str.c_str s) then bool_decide (ty = DelayedIf)
            else bool_decide (ty = DelayedNotif) in
          let skipped :=
            if result
            then skip_loop fuel result (Str.erase v p len) p None false 0%N
            else skip_loop fuel result v (p + len) (Some p) false 0%N in
          match skipped with
          | Matched v' => Again p (with_rc f1 (set (rc f1) key v'))
          | SkipError errtext => Done (Null errtext key)
          | OutOfRange => Done Thrown
          | SkipNoFuel => Done NoFuel
          end
    | Null errtext errvar => Done (Null errtext errvar)
    | Thrown => Done Thrown
    | NoFuel => Done NoFuel
    end = Again pos' f1 ->
    key ∉ visited f ->
    frame_post f f1 /\ key ∈ has_reference f1
    /\ String.length (get (rc f1) key) - pos'
       < String.length (get (rc f) key) - pos).
  { intros will_test name Hres Hnv.
    destruct (recurse name F) as [F'| | |] eqn:Hcall; try done.
    destruct (Hrec name F F' HokF Hcall) as [(Hv & Hh & Hk & Hpre & Hdef) Hname].
    assert (name <> key) as Hne by (intros ->; apply Hname; set_solver).
    destruct (Hk key) as [Hval Hin]; [set_solver|].
    change (rc F) with (rc f) in Hval.
    assert (Hpost : forall v',
      frame_post f (with_rc (with_visited F' (visited F' ∖ {[key]}))
                      (set (rc F') key v'))).
    { intros v'. unfold frame_post. split_and!; simpl; try done.
      - rewrite Hv. simpl. set_solver.
      - intros k Hk'. rewrite get_set_ne by (intros ->; done).
        split; apply (Hk k); set_solver. }
    simpl in Hres. destruct will_test; simpl in Hres.
    - rewrite Hval in Hres.
      pose proof (erase_length_le (get (rc f) key) p len).
      destruct (if istrue _ then _ else _) in Hres.
      all: match type of Hres with
           | context [skip_loop ?a ?b ?c ?d ?g ?h ?i] =>
               pose proof (skip_loop_matched a b c d g h i) as Hm;
               destruct (skip_loop a b c d g h i) as [v'| | |]; try done
           end.
      all: injection Hres as <- <-; split; [apply Hpost|]; split; [done|].
      all: simpl; rewrite get_set_eq.
      all: assert (String.length v' + 3 <= String.length (get (rc f) key));
             [|lia].
      + specialize (Hm ltac:(simpl; auto)). lia.
      + apply Hm. simpl. lia.
    - injection Hres as <- <-. split; [apply Hpost|]. split; [done|].
      simpl. rewrite get_set_eq, get_set_ne by done.
      rewrite replace_length by (rewrite Hval; lia).
      rewrite Hval. lia. }
  destruct ty; try done.
  all: destruct (decide (key ∈ visited f)) as [|Hnv]; [done|].
  all: intros Hres; split; [done|]; by eapply Hbody.
Qed.

Lemma resolve_delayed_round_unfold (recurse : string -> Frame -> Outcome)
    (fuel : nat) (key : string) (pos : nat) (f : Frame)
    (ty : DelayedType) (p len : nat) :
  find_next_delayed (get (rc f) key) pos = (ty, p, len) ->
  resolve_delayed_round recurse fuel key pos f =
  match ty with
  | DelayedNotFound =>
      Done (Returned (with_has_reference f (has_reference f ∖ {[key]})))
  | DelayedFi => Done (Null "FI without IF" key)
  | DelayedElse => Done (Null "ELSE without IF" key)
  | _ =>
      if decide (key ∈ visited f) then Done (Null "self-reference" key)
      else
        let name := referenced_name (rc f) (get (rc f) key) ty p len in
        match recurse name (with_visited f ({[key]} ∪ visited f)) with
        | Returned f1 => after_call fuel key ty p len name f1
        | Null errtext errvar => Done (Null errtext errvar)
        | Thrown => Done Thrown
        | NoFuel => Done NoFuel
        end
  end.
Proof.
  intros Hscan. unfold resolve_delayed_round. rewrite Hscan.
  destruct ty; reflexivity.
Qed.

(** A round that returns has found no directive; the key is then not among
    the visited ones, whose values do have one. *)
Lemma round_returned (recurse : string -> Frame -> Outcome) (fuel : nat)
    (key : string) (pos : nat) (f f1 : Frame) :
  active_ok f -> (key ∈ visited f -> pos = 0) ->
  resolve_delayed_round recurse fuel key pos f = Done (Returned f1) ->
  f1 = with_has_reference f (has_reference f ∖ {[key]})
  /\ (find_next_delayed (get (rc f) key) pos).1.1 = DelayedNotFound
  /\ (key ∉ visited f) /\ frame_post f f1.
Proof.
  intros Hok Hpos.
  destruct (find_next_delayed (get (rc f) key) pos) as [[ty p] len] eqn:Hscan.
  rewrite (resolve_delayed_round_unfold _ _ _ _ _ _ _ _ Hscan).
  assert (Hnot : forall name,
    match recurse name (with_visited f ({[key]} ∪ visited f)) with
    | Returned f1 => after_call fuel key ty p len name f1
    | Null errtext errvar => Done (Null errtext errvar)
    | Thrown => Done Thrown
    | NoFuel => Done NoFuel
    end <> Done (Returned f1)).
  { intros name. destruct (recurse _ _); try done. unfold after_call.
    repeat case_match; done. }
  destruct ty; try (intros; discriminate);
    try (destruct (decide _); [intros; discriminate|]; cbv zeta;
         intros H; by apply Hnot in H).
  intros [= <-]. split; [done|]. split; [done|].
  assert (key ∉ visited f) as Hnv.
  { intros Hin. destruct (Hok key Hin) as [_ Hd]. unfold has_directive in Hd.
    rewrite Hpos in Hscan by done. by rewrite Hscan in Hd. }
  split; [done|]. unfold frame_post. split_and!; simpl; try done.
  - set_solver.
  - intros k Hk. split; [done|]. destruct (Hok k Hk). set_solver.
Qed.

Lemma loop_frame (recurse : string -> Frame -> Outcome) (fuel : nat)
    (key : string) (a : nat) (pos : nat) (f f' : Frame) :
  keeps_frame recurse -> active_ok f -> key ∈ has_reference f ->
  (key ∈ visited f -> pos = 0) ->
  resolve_delayed_loop a (resolve_delayed_round recurse fuel key) pos f
  = Returned f' ->
  frame_post f f' /\ (key ∉ visited f).
Proof.
  intros Hrec. revert pos f. induction a as [|a IH]; intros pos f Hok Hkey Hpos;
    [done|].
  simpl. destruct (resolve_delayed_round recurse fuel key pos f)
    as [pos1 f1|o] eqn:Hround.
  - apply round_again in Hround as (Hnv & Hpost & Hin & _); try done.
    intros Hloop. apply IH in Hloop as [Hpost' _].
    + split; [|done]. by eapply frame_post_trans.
    + by eapply active_ok_post.
    + done.
    + destruct Hpost as [-> _]. done.
  - intros ->. apply round_returned in Hround as (_ & _ & ? & ?); done.
Qed.

(** The frame lemma: a call that returns has kept the frame, and its key
    was not being expanded further up. *)
Lemma resolve_keeps_frame (n : nat) : keeps_frame (resolve_delayed_recurse n).
Proof.
  induction n as [|n IH]; intros key f f' Hok; [done|].
  simpl.
  set (f0 := with_rc f (touch (rc f) key)).
  assert (frame_post f f0) as Hpost0.
  { unfold frame_post. split_and!; simpl; try done.
    intros k Hk. rewrite get_touch. split; [done|]. by apply Hok. }
  assert (active_ok f0) as Hok0 by (by eapply active_ok_post).
  case_decide as Hin.
  - intros Hloop. apply loop_frame in Hloop as [Hpost Hnv]; try done.
    split; [|done]. by eapply frame_post_trans.
  - intros [= <-]. split; [done|]. intros Hv. by destruct (Hok key Hv).
Qed.

(** ** Termination *)

Lemma after_call_fuel (n b : nat) (key : string) (ty : DelayedType)
    (p len : nat) (name : string) (f1 : Frame) :
  String.length (get (rc f1) key) < n -> n <= b -> p + len <= String.length (get (rc f1) key) ->
  after_call b key ty p len name f1 = after_call n key ty p len name f1.
Proof.
  intros Hn Hb Hp. unfold after_call. simpl.
  destruct (negb _); [done|].
  destruct (if istrue _ then _ else _).
  - rewrite (skip_loop_fuel n b); [done| |lia|done].
    pose proof (erase_length_le (get (rc f1) key) p len). lia.
  - rewrite (skip_loop_fuel n b); [done|lia|lia|done].
Qed.

Lemma after_call_settled (n : nat) (key : string) (ty : DelayedType)
    (p len : nat) (name : string) (f1 : Frame) :
  String.length (get (rc f1) key) < n ->
  3 <= len -> p + len <= String.length (get (rc f1) key) ->
  match after_call n key ty p len name f1 with
  | Again _ _ => True
  | Done o => settled o
  end.
Proof.
  intros Hn Hlen Hp. unfold after_call. simpl.
  destruct (negb _); [done|].
  destruct (if istrue _ then _ else _).
  - pose proof (skip_loop_matched n true (Str.erase (get (rc f1) key) p len)
                  p None false 0%N) as Hm.
    pose proof (skip_loop_ends n true (Str.erase (get (rc f1) key) p len)
                  p None false 0%N) as He.
    pose proof (erase_length_le (get (rc f1) key) p len).
    destruct (skip_loop _ _ _ _ _ _ _); try done.
    + apply Hm. simpl. auto.
    + apply He; [lia|lia|done].
  - pose proof (skip_loop_matched n false (get (rc f1) key)
                  (p + len) (Some p) false 0%N) as Hm.
    pose proof (skip_loop_ends n false (get (rc f1) key)
                  (p + len) (Some p) false 0%N) as He.
    destruct (skip_loop _ _ _ _ _ _ _); try done.
    + apply Hm. simpl. lia.
    + apply He; [lia|lia|done].
Qed.

Lemma resolve_total_aux (K : gset string) (m : nat) :
  forall (f : Frame) (key : string),
    active_ok f -> has_reference f ⊆ K -> size (K ∖ visited f) <= m ->
    exists N o, settled o
      /\ forall n, N <= n -> resolve_delayed_recurse n key f = o.
Proof.
  induction m as [m IHm] using lt_wf_ind. intros f key Hok HK Hsize.
  set (f0 := with_rc f (touch (rc f) key)).
  assert (frame_post f f0) as Hpost0.
  { unfold frame_post. split_and!; simpl; try done.
    intros k Hk. rewrite get_touch. split; [done|]. by apply Hok. }
  assert (active_ok f0) as Hok0 by (by eapply active_ok_post).
  destruct (decide (key ∈ has_reference f0)) as [Hin|Hnin].
  2:{ exists 1, (Returned f0). split; [done|]. intros [|n] ?; [lia|].
      simpl. fold f0. by rewrite decide_False. }
  assert (Hloop : forall mu pos f1,
    active_ok f1 -> has_reference f1 ⊆ K -> key ∈ has_reference f1 ->
    visited f1 = visited f ->
    String.length (get (rc f1) key) - pos <= mu ->
    exists N o, settled o
      /\ forall a b, N <= a -> N <= b ->
           resolve_delayed_loop a
             (resolve_delayed_round (resolve_delayed_recurse b) b key) pos f1
           = o).
  { clear f0 Hpost0 Hok0 Hin.
    induction mu as [mu IHmu] using lt_wf_ind.
    intros pos f1 Hok1 HK1 Hin1 Hvis1 Hmu.
    destruct (find_next_delayed (get (rc f1) key) pos) as [[ty p] len] eqn:Hscan.
    pose proof (fun rec b =>
      resolve_delayed_round_unfold rec b key pos f1 ty p len Hscan) as Hround.
    assert (Hdone : forall o, settled o ->
      (forall b, resolve_delayed_round (resolve_delayed_recurse b) b key pos f1
                 = Done o) ->
      exists N o, settled o
        /\ forall a b, N <= a -> N <= b ->
             resolve_delayed_loop a
               (resolve_delayed_round (resolve_delayed_recurse b) b key) pos f1
             = o).
    { intros o Ho Hr. exists 1, o. split; [done|]. intros [|a] b ? ?; [lia|].
      simpl. by rewrite Hr. }
    destruct (decide (refers ty)) as [Href|Hnref].
    2:{ destruct ty; try (destruct Hnref; unfold refers; tauto).
        - eapply Hdone; [|intros b; by rewrite Hround]. done.
        - eapply Hdone; [|intros b; by rewrite Hround]. done.
        - eapply Hdone; [|intros b; by rewrite Hround]. done. }
    assert (ty <> DelayedNotFound) as Hty by (by destruct Href as [->|[->| ->]]).
    pose proof (find_next_delayed_span _ _ _ _ _ Hscan Hty) as (Hp & Hlen & Hend).
    destruct (decide (key ∈ visited f1)) as [Hv|Hnv].
    { eapply (Hdone (Null "self-reference" key)); [done|]. intros b.
      rewrite Hround. by destruct Href as [->|[->| ->]]. }
    set (name := referenced_name (rc f1) (get (rc f1) key) ty p len) in *.
    set (F := with_visited f1 ({[key]} ∪ visited f1)) in *.
    assert (Hround' : forall b,
      resolve_delayed_round (resolve_delayed_recurse b) b key pos f1 =
      match resolve_delayed_recurse b name F with
      | Returned f2 => after_call b key ty p len name f2
      | Null errtext errvar => Done (Null errtext errvar)
      | Thrown => Done Thrown
      | NoFuel => Done NoFuel
      end).
    { intros b. rewrite Hround.
      by destruct Href as [->|[->| ->]]. }
    assert (active_ok F) as HokF.
    { intros k Hk. simpl in Hk. apply elem_of_union in Hk as [Hk|Hk].
      - apply elem_of_singleton in Hk as ->. split; [done|].
        unfold has_directive. change (rc F) with (rc f1).
        apply (find_next_delayed_earlier _ pos); [lia|]. by rewrite Hscan.
      - by apply Hok1. }
    assert (size (K ∖ visited F) < size (K ∖ visited f1)) as Hless.
    { apply subset_size. simpl. set_solver. }
    destruct (IHm (size (K ∖ visited F)) ltac:(rewrite Hvis1 in Hless; lia)
                F name HokF HK1 ltac:(done)) as (N1 & o1 & Ho1 & Hstable).
    destruct o1 as [F'| | |]; try done.
    2:{ exists (S N1), (Null errtext errvar). split; [done|].
        intros [|a] b ? ?; [lia|]. simpl. rewrite Hround', Hstable by lia. done. }
    (* the call returns *)
    pose proof (resolve_keeps_frame N1 name F F' HokF (Hstable N1 ltac:(lia)))
      as [HpostF HnameF].
    destruct HpostF as (HvF & HhF & HkF & _).
    destruct (HkF key ltac:(simpl; set_solver)) as [Hval _].
    change (rc F) with (rc f1) in Hval.
    set (n0 := S (String.length (get (rc F') key))).
    assert (Hafter : forall b, N1 <= b -> n0 <= b ->
      resolve_delayed_round (resolve_delayed_recurse b) b key pos f1
      = after_call n0 key ty p len name F').
    { intros b ? ?. rewrite Hround', Hstable by done.
      apply after_call_fuel; unfold n0; [lia|done|rewrite Hval; lia]. }
    pose proof (after_call_settled n0 key ty p len name F'
                  ltac:(unfold n0; lia) Hlen ltac:(rewrite Hval; lia)) as Hsettled.
    destruct (after_call n0 key ty p len name F') as [pos2 f2|o] eqn:Hac.
    2:{ exists (S (N1 `max` n0)), o. split; [done|].
        intros [|a] b ? ?; [lia|]. simpl. rewrite Hafter by lia. done. }
    (* the loop goes on *)
    pose proof (Hafter (N1 `max` n0) ltac:(lia) ltac:(lia)) as Hr.
    apply round_again in Hr as (_ & Hpost2 & Hin2 & Hmeasure);
      [|apply resolve_keeps_frame|done|done].
    destruct (IHmu (String.length (get (rc f2) key) - pos2) ltac:(lia) pos2 f2)
      as (N2 & o2 & Ho2 & Hstable2).
    + by apply (active_ok_post f1).
    + destruct Hpost2 as (_ & Hsub & _). by etrans.
    + done.
    + destruct Hpost2 as (-> & _). done.
    + lia.
    + exists (S ((N1 `max` n0) `max` N2)), o2. split; [done|].
      intros [|a] b ? ?; [lia|]. simpl. rewrite Hafter by lia.
      apply Hstable2; lia. }
  destruct (Hloop (String.length (get (rc f0) key)) 0 f0)
    as (N & o & Ho & Hstable); try done; [lia|].
  exists (S N), o. split; [done|]. intros [|n] ?; [lia|].
  simpl. fold f0. rewrite decide_True by done. apply Hstable; lia.
Qed.

(** Every call ends: with enough fuel, and with any more, it returns or
    gives an error. *)
Lemma resolve_total (f : Frame) (key : string) :
  active_ok f ->
  exists N o, settled o
    /\ forall n, N <= n -> resolve_delayed_recurse n key f = o.
Proof.
  intros Hok.
  by apply (resolve_total_aux (has_reference f) (size (has_reference f ∖ visited f))).
Qed.

(** ** Scanning a concatenation *)

Lemma at_app_l (a b : string) (i : nat) :
  i < String.length a -> Str.at_ (a ++ b) i = Str.at_ a i.
Proof.
  intros H. rewrite !at_chars, chars_app, lookup_app_l; [done|].
  by rewrite chars_length.
Qed.

Lemma at_app_r (a b : string) (i : nat) :
  Str.at_ (a ++ b) (String.length a + i) = Str.at_ b i.
Proof.
  rewrite !at_chars, chars_app, lookup_app_r by (rewrite chars_length; lia).
  rewrite chars_length. f_equal. f_equal. lia.
Qed.

Lemma substr_app_r (a b : string) (i n : nat) :
  Str.substr (a ++ b) (String.length a + i) n = Str.substr b i n.
Proof.
  apply chars_inj. rewrite !substr_chars, chars_app, drop_app.
  rewrite drop_ge by (rewrite chars_length; lia).
  rewrite chars_length. simpl. do 2 f_equal. lia.
Qed.

Lemma substr_from_app_r (a b : string) (i : nat) :
  Str.substr_from (a ++ b) (String.length a + i) = Str.substr_from b i.
Proof.
  apply chars_inj. rewrite !substr_from_chars, chars_app, drop_app.
  rewrite drop_ge by (rewrite chars_length; lia).
  rewrite chars_length. simpl. f_equal. lia.
Qed.

Lemma name_loop_shift (rest : string) (n i : nat) :
  name_loop rest (n + i) = ((name_loop rest i).1, n + (name_loop rest i).2).
Proof.
  revert i. induction rest as [|c rest IH]; intros i; simpl.
  - f_equal. lia.
  - destruct (not_name_char c); simpl.
    + f_equal. lia.
    + replace (S (n + i)) with (n + S i) by lia. apply IH.
Qed.

Lemma delayed_at_shift (a b : string) (q : nat) :
  delayed_at (a ++ b) (String.length a + q) = delayed_at b q.
Proof.
  unfold delayed_at.
  replace (String.length a + q + 2) with (String.length a + (q + 2)) by lia.
  replace (S (String.length a + (q + 2))) with (String.length a + S (q + 2)) by lia.
  replace (S (String.length a + S (q + 2))) with (String.length a + S (S (q + 2))) by lia.
  rewrite !at_app_r.
  replace (String.length a + S (q + 2) - (String.length a + q)) with (S (q + 2) - q) by lia.
  destruct (Ascii.eqb (Str.at_ b (q + 2)) "}"); [done|].
  assert (Hgen : forall ty c i,
    (if not_name_start c then None else
       let '(c0, i0) := name_loop (Str.substr_from (a ++ b) (String.length a + i))
                          (String.length a + i) in
       if negb (Ascii.eqb c0 "}") then None
       else if (Str.strcasecmp (Str.c_str
                  (Str.substr (a ++ b) (String.length a + (q + 2))
                     (i0 - (String.length a + q) - 3))) "else" =? 0)%Z
            then Some (DelayedElse, i0 - (String.length a + q))
            else Some (ty, i0 - (String.length a + q)))
    = (if not_name_start c then None else
       let '(c0, i0) := name_loop (Str.substr_from b i) i in
       if negb (Ascii.eqb c0 "}") then None
       else if (Str.strcasecmp (Str.c_str (Str.substr b (q + 2) (i0 - q - 3)))
                  "else" =? 0)%Z
            then Some (DelayedElse, i0 - q)
            else Some (ty, i0 - q))).
  { intros ty c i. destruct (not_name_start c); [done|].
    rewrite substr_from_app_r, name_loop_shift.
    destruct (name_loop (Str.substr_from b i) i) as [c0 i0]. simpl.
    rewrite substr_app_r.
    replace (String.length a + i0 - (String.length a + q)) with (i0 - q) by lia.
    done. }
  destruct (Ascii.eqb (Str.at_ b (q + 2)) "?"); [apply Hgen|].
  destruct (Ascii.eqb (Str.at_ b (q + 2)) "!"); apply Hgen.
Qed.

Lemma occurs_shift (pat a b : string) (q : nat) :
  occurs pat (a ++ b) (String.length a + q) <-> occurs pat b q.
Proof.
  unfold occurs. rewrite chars_app, drop_app, drop_ge by (rewrite chars_length; lia).
  rewrite chars_length. simpl.
  by replace (String.length a + q - String.length a) with q by lia.
Qed.

Lemma escaped_shift (a b : string) (q : nat) :
  0 < q -> escaped (a ++ b) (String.length a + q) = escaped b q.
Proof.
  intros Hq. unfold escaped.
  replace (String.length a + q - 1) with (String.length a + (q - 1)) by lia.
  rewrite at_app_r. destruct q; [lia|]. simpl. by destruct (String.length a).
Qed.

Lemma escaped_boundary (a b : string) :
  escaped (a ++ b) (String.length a) = ends_percent a.
Proof.
  unfold escaped, ends_percent.
  destruct (String.length a) as [|n] eqn:Hn; [done|]. simpl.
  rewrite at_app_l by lia. done.
Qed.

Lemma directive_at_shift (a b : string) (q : nat) :
  0 < q \/ ends_percent a = false ->
  directive_at (a ++ b) (String.length a + q) = directive_at b q.
Proof.
  intros Hq. unfold directive_at.
  destruct (decide (occurs "%{" b q)) as [Ho|Ho].
  - rewrite decide_True by (by apply occurs_shift).
    rewrite delayed_at_shift.
    destruct (decide (0 < q)).
    + by rewrite escaped_shift.
    + assert (q = 0) as -> by lia. destruct Hq as [?|Hq]; [lia|].
      rewrite Nat.add_0_r, escaped_boundary, Hq. done.
  - rewrite decide_False; [done|]. by rewrite occurs_shift.
Qed.

Lemma directive_at_not_percent (str : string) (q : nat) :
  Str.at_ str q <> "%"%char -> directive_at str q = None.
Proof.
  intros H. unfold directive_at. case_decide as Ho; [|done].
  apply occurs_opener in Ho as [? _]. done.
Qed.

Lemma no_percent_at (t : string) (q : nat) :
  no_percent t = true -> Str.at_ t q <> "%"%char.
Proof.
  revert q. induction t as [|c t IH]; intros q H.
  - by destruct q.
  - simpl in H. apply andb_true_iff in H as [Hc Ht].
    destruct q as [|q].
    + unfold Str.at_. simpl. intros ->. done.
    + unfold Str.at_ in *. simpl. by apply IH.
Qed.

Lemma no_percent_ends (a t : string) :
  no_percent t = true -> t <> "" -> ends_percent (a ++ t) = false.
Proof.
  intros Ht Hne. unfold ends_percent. rewrite str_length_app.
  destruct (String.length t) as [|n] eqn:Hn; [by destruct t|].
  replace (String.length a + S n - 1) with (String.length a + n) by lia.
  rewrite at_app_r. apply andb_false_iff. right.
  apply Ascii.eqb_neq. by apply no_percent_at.
Qed.

Lemma shift_shift (n m : nat) (r : DelayedType * nat * nat) :
  shift n (shift m r) = shift (n + m) r.
Proof. destruct r as [[[] p] len]; simpl; f_equal; try done; f_equal; lia. Qed.

(** Scanning [a ++ b] from inside [b] is scanning [b], provided the scan
    does not start on an opener that the end of [a] escapes. *)
Lemma scan_app (a b : string) (k : nat) :
  0 < k \/ ends_percent a = false ->
  find_next_delayed (a ++ b) (String.length a + k)
  = shift (String.length a) (find_next_delayed b k).
Proof.
  intros Hk.
  destruct (find_next_delayed_cases b k)
    as [[-> Hnone]|(ty & p & len & -> & Hty & Hp & Hd & Hmin)].
  - simpl. apply find_next_delayed_not_found. intros q Hq.
    replace q with (String.length a + (q - String.length a)) by lia.
    rewrite directive_at_shift; [apply Hnone; lia|].
    destruct Hk; [left; lia|by right].
  - replace (shift (String.length a) (ty, p, len))
      with (ty, String.length a + p, len) by (by destruct ty).
    apply find_next_delayed_found; [lia| |].
    + rewrite directive_at_shift; [done|]. destruct Hk; [left; lia|by right].
    + intros q Hq.
      replace q with (String.length a + (q - String.length a)) by lia.
      rewrite directive_at_shift; [apply Hmin; lia|].
      destruct Hk; [left; lia|by right].
Qed.

(** Text without [%] is passed over. *)
Lemma scan_plain (t b : string) (k : nat) :
  no_percent t = true -> k <= String.length t ->
  find_next_delayed (t ++ b) k = shift (String.length t) (find_next_delayed b 0).
Proof.
  intros Ht Hk.
  assert (Hin : forall q, q < String.length t -> directive_at (t ++ b) q = None).
  { intros q Hq. apply directive_at_not_percent. rewrite at_app_l by done.
    by apply no_percent_at. }
  assert (Hat : forall q, directive_at (t ++ b) (String.length t + q)
                          = directive_at b q).
  { intros q. destruct (decide (t = "")) as [->|Hne].
    - done.
    - apply directive_at_shift. right.
      apply (no_percent_ends "" t Ht Hne). }
  destruct (find_next_delayed_cases b 0)
    as [[-> Hnone]|(ty & p & len & -> & Hty & Hp & Hd & Hmin)].
  - simpl. apply find_next_delayed_not_found. intros q Hq.
    destruct (decide (q < String.length t)); [by apply Hin|].
    replace q with (String.length t + (q - String.length t)) by lia.
    rewrite Hat. apply Hnone. lia.
  - replace (shift (String.length t) (ty, p, len))
      with (ty, String.length t + p, len) by (by destruct ty).
    apply find_next_delayed_found; [lia|by rewrite Hat|].
    intros q Hq. destruct (decide (q < String.length t)); [by apply Hin|].
    replace q with (String.length t + (q - String.length t)) by lia.
    rewrite Hat. apply Hmin. lia.
Qed.

Lemma scan_plain_only (t : string) (k : nat) :
  no_percent t = true -> find_next_delayed t k = (DelayedNotFound, 0, 0).
Proof.
  intros Ht. apply find_next_delayed_not_found. intros q _.
  apply directive_at_not_percent. by apply no_percent_at.
Qed.

(** ** Scanning a marker *)

Lemma name_loop_name (r rest : string) (i : nat) :
  all_name_chars r = true ->
  name_loop (r ++ String "}" rest) i = ("}"%char, S (i + String.length r)).
Proof.
  revert i. induction r as [|c r IH]; intros i Hr; simpl.
  - f_equal. lia.
  - simpl in Hr. apply andb_true_iff in Hr as [Hc Hr].
    apply negb_true_iff in Hc. rewrite Hc, IH by done. f_equal. lia.
Qed.

Lemma substr_from_0 (s : string) : Str.substr_from s 0 = s.
Proof. apply chars_inj. by rewrite substr_from_chars, drop_0. Qed.

Lemma substr_from_cons (c : ascii) (s : string) (i : nat) :
  Str.substr_from (String c s) (S i) = Str.substr_from s i.
Proof. apply chars_inj. by rewrite !substr_from_chars. Qed.

Lemma substr_prefix (a b : string) :
  Str.substr (a ++ b) 0 (String.length a) = a.
Proof.
  apply chars_inj. rewrite substr_chars, chars_app, drop_0.
  rewrite take_app_length'; [done|]. by rewrite chars_length.
Qed.

Lemma substr_cons (c : ascii) (s : string) (i n : nat) :
  Str.substr (String c s) (S i) n = Str.substr s i n.
Proof. apply chars_inj. by rewrite !substr_chars. Qed.

Lemma c_str_name_chars (r : string) : all_name_chars r = true -> Str.c_str r = r.
Proof.
  induction r as [|c r IH]; [done|]. simpl. intros H.
  apply andb_true_iff in H as [Hc Hr]. rewrite IH by done.
  destruct (Ascii.eqb c Ascii.zero) eqn:Hz; [|done].
  apply Ascii.eqb_eq in Hz. by subst c.
Qed.

Lemma c_str_name (x : string) : is_name x = true -> Str.c_str x = x.
Proof.
  destruct x as [|c r]; [done|]. simpl. intros H.
  apply andb_true_iff in H as [Hc Hr]. rewrite c_str_name_chars by done.
  destruct (Ascii.eqb c Ascii.zero) eqn:Hz; [|done].
  apply Ascii.eqb_eq in Hz. by subst c.
Qed.

Lemma directive_at_0 (str : string) (r : DelayedType * nat) :
  occurs "%{" str 0 -> delayed_at str 0 = Some r -> directive_at str 0 = Some r.
Proof. intros Ho Hd. unfold directive_at. by rewrite decide_True. Qed.

Lemma delayed_at_variable (x rest : string) :
  is_name x = true ->
  delayed_at ("%{" ++ x ++ "}" ++ rest) 0
  = Some (plain_type x, String.length x + 3).
Proof.
  intros Hx. pose proof (c_str_name x Hx) as Hc.
  destruct x as [|c r]; [done|]. simpl in Hx.
  apply andb_true_iff in Hx as [Hs Hr]. apply negb_true_iff in Hs.
  unfold delayed_at. cbn [Nat.add].
  change (Str.at_ ("%{" ++ String c r ++ "}" ++ rest) 2) with c.
  assert (Ascii.eqb c "}" = false) as ->.
  { apply Ascii.eqb_neq. intros ->. done. }
  assert (Ascii.eqb c "?" = false) as ->.
  { apply Ascii.eqb_neq. intros ->. done. }
  assert (Ascii.eqb c "!" = false) as ->.
  { apply Ascii.eqb_neq. intros ->. done. }
  rewrite Hs.
  change ("%{" ++ String c r ++ "}" ++ rest)
    with (String "%" (String "{" (String c (r ++ String "}" rest)))).
  rewrite !substr_from_cons, substr_from_0, name_loop_name by done.
  simpl negb. cbv iota.
  replace (S (3 + String.length r) - 0 - 3) with (String.length (String c r))
    by (simpl; lia).
  rewrite !substr_cons.
  change (String c (r ++ String "}" rest)) with (String c r ++ String "}" rest).
  rewrite substr_prefix, Hc. unfold plain_type.
  replace (S (3 + String.length r) - 0) with (String.length (String c r) + 3)
    by (simpl; lia).
  by destruct (Str.strcasecmp (String c r) "else" =? 0)%Z.
Qed.

Lemma delayed_at_test (m : ascii) (x rest : string) :
  m = "?"%char \/ m = "!"%char -> is_name x = true ->
  delayed_at ("%{" ++ String m x ++ "}" ++ rest) 0
  = Some (if Ascii.eqb m "?" then DelayedIf else DelayedNotif,
          String.length x + 4).
Proof.
  intros Hm Hx. pose proof (c_str_name x Hx) as Hc.
  destruct x as [|c r]; [done|]. simpl in Hx.
  apply andb_true_iff in Hx as [Hs Hr]. apply negb_true_iff in Hs.
  unfold delayed_at. cbn [Nat.add].
  change (Str.at_ ("%{" ++ String m (String c r) ++ "}" ++ rest) 2) with m.
  change (Str.at_ ("%{" ++ String m (String c r) ++ "}" ++ rest) 3) with c.
  assert (Ascii.eqb m "}" = false) as -> by (by destruct Hm as [->| ->]).
  assert (forall ty,
    (if not_name_start c then None else
       let '(c1, i0) :=
         name_loop (Str.substr_from ("%{" ++ String m (String c r) ++ "}" ++ rest) 4) 4 in
       if negb (Ascii.eqb c1 "}") then None
       else if (Str.strcasecmp (Str.c_str
                  (Str.substr ("%{" ++ String m (String c r) ++ "}" ++ rest) 2
                     (i0 - 0 - 3))) "else" =? 0)%Z
            then Some (DelayedElse, i0 - 0)
            else Some (ty, i0 - 0))
    = Some (ty, String.length (String c r) + 4)) as Hgen.
  { intros ty. rewrite Hs.
    change ("%{" ++ String m (String c r) ++ "}" ++ rest)
      with (String "%" (String "{" (String m (String c (r ++ String "}" rest))))).
    rewrite !substr_from_cons, substr_from_0, name_loop_name by done.
    simpl negb. cbv iota.
    replace (S (4 + String.length r) - 0 - 3)
      with (String.length (String m (String c r))) by (simpl; lia).
    rewrite !substr_cons.
    change (String m (String c (r ++ String "}" rest)))
      with (String m (String c r) ++ String "}" rest).
    rewrite substr_prefix.
    replace (S (4 + String.length r) - 0)
      with (String.length (String c r) + 4) by (simpl; lia).
    assert ((Str.strcasecmp (Str.c_str (String m (String c r))) "else" =? 0)%Z
            = false) as ->; [|done].
    destruct Hm as [->| ->]; simpl; done. }
  destruct Hm as [->| ->]; simpl Ascii.eqb; cbv iota; apply Hgen.
Qed.

Lemma delayed_at_fi (rest : string) :
  delayed_at ("%{}" ++ rest) 0 = Some (DelayedFi, 3).
Proof. reflexivity. Qed.

Lemma occurs_opener_0 (s : string) : occurs "%{" ("%{" ++ s) 0.
Proof. reflexivity. Qed.

(** What the scanner finds at the start of each kind of marker. *)
Lemma scan_variable (x rest : string) :
  is_name x = true ->
  find_next_delayed ("%{" ++ x ++ "}" ++ rest) 0
  = (plain_type x, 0, String.length x + 3).
Proof.
  intros Hx. apply find_next_delayed_found; [lia| |intros; lia].
  apply directive_at_0; [apply occurs_opener_0|by apply delayed_at_variable].
Qed.

Lemma scan_if (x rest : string) :
  is_name x = true ->
  find_next_delayed ("%{?" ++ x ++ "}" ++ rest) 0
  = (DelayedIf, 0, String.length x + 4).
Proof.
  intros Hx. apply find_next_delayed_found; [lia| |intros; lia].
  apply directive_at_0; [apply occurs_opener_0|].
  by apply (delayed_at_test "?" x rest); [left|].
Qed.

Lemma scan_notif (x rest : string) :
  is_name x = true ->
  find_next_delayed ("%{!" ++ x ++ "}" ++ rest) 0
  = (DelayedNotif, 0, String.length x + 4).
Proof.
  intros Hx. apply find_next_delayed_found; [lia| |intros; lia].
  apply directive_at_0; [apply occurs_opener_0|].
  by apply (delayed_at_test "!" x rest); [right|].
Qed.

Lemma scan_fi (rest : string) :
  find_next_delayed ("%{}" ++ rest) 0 = (DelayedFi, 0, 3).
Proof.
  apply find_next_delayed_found; [lia| |intros; lia].
  apply directive_at_0; [apply occurs_opener_0|apply delayed_at_fi].
Qed.

Lemma scan_else (rest : string) :
  find_next_delayed ("%{else}" ++ rest) 0 = (DelayedElse, 0, 7).
Proof. apply (scan_variable "else" rest). reflexivity. Qed.

#[global] Arguments Str.at_ : simpl never.
#[global] Arguments Str.substr : simpl never.
#[global] Arguments Str.substr_from : simpl never.
#[global] Arguments Str.erase : simpl never.
#[global] Arguments Str.replace : simpl never.
#[global] Arguments Str.find : simpl never.
#[global] Arguments find_next_delayed : simpl never.

(** ** More fuel changes no result *)

Lemma skip_loop_mono_S (fuel : nat) (result : bool) (v : string)
    (skippos : nat) (delpos : option nat) (gotelse : bool) (count : N)
    (sk : Skipped) :
  skip_loop fuel result v skippos delpos gotelse count = sk ->
  sk <> SkipNoFuel ->
  skip_loop (S fuel) result v skippos delpos gotelse count = sk.
Proof.
  revert v skippos delpos gotelse count.
  induction fuel as [|fuel IH]; intros v skippos delpos gotelse count Hsk Hne.
  { simpl in Hsk. congruence. }
  rewrite skip_loop_unfold in Hsk. rewrite skip_loop_unfold.
  destruct (find_next_delayed v skippos) as [[ty p] len].
  destruct ty; try done; try (by apply IH).
  - destruct (negb (count =? 0)%N); [by apply IH|]. destruct gotelse; [done|].
    destruct result; [by apply IH|]. destruct delpos; [by apply IH|done].
  - destruct (negb (count =? 0)%N); [by apply IH|done].
Qed.

Lemma skip_loop_mono (n m : nat) (result : bool) (v : string)
    (skippos : nat) (delpos : option nat) (gotelse : bool) (count : N)
    (sk : Skipped) :
  skip_loop n result v skippos delpos gotelse count = sk ->
  sk <> SkipNoFuel -> n <= m ->
  skip_loop m result v skippos delpos gotelse count = sk.
Proof.
  intros Hsk Hne Hle. induction Hle as [|m Hle IH]; [done|].
  by apply skip_loop_mono_S.
Qed.

Lemma round_mono (rec1 rec2 : string -> Frame -> Outcome) (n m : nat)
    (key : string) (pos : nat) (f : Frame) (r : Round) :
  extends rec1 rec2 -> n <= m ->
  resolve_delayed_round rec1 n key pos f = r -> r <> Done NoFuel ->
  resolve_delayed_round rec2 m key pos f = r.
Proof.
  intros Hext Hle.
  destruct (find_next_delayed (get (rc f) key) pos) as [[ty p] len] eqn:Hscan.
  rewrite !(resolve_delayed_round_unfold _ _ _ _ _ _ _ _ Hscan).
  assert (Hcall : forall name F,
    match rec1 name F with
    | Returned f1 => after_call n key ty p len name f1
    | Null errtext errvar => Done (Null errtext errvar)
    | Thrown => Done Thrown
    | NoFuel => Done NoFuel
    end = r -> r <> Done NoFuel ->
    match rec2 name F with
    | Returned f1 => after_call m key ty p len name f1
    | Null errtext errvar => Done (Null errtext errvar)
    | Thrown => Done Thrown
    | NoFuel => Done NoFuel
    end = r).
  { intros name F Hr Hne. destruct (rec1 name F) as [F'| | |] eqn:H1.
    - rewrite (Hext _ _ _ H1) by done. revert Hr. unfold after_call.
      destruct (negb _); [done|].
      destruct (if istrue _ then _ else _).
      + destruct (skip_loop n _ _ _ _ _ _) eqn:Hs; intros <-;
          try (erewrite skip_loop_mono; [|exact Hs|done|done]; done).
      + destruct (skip_loop n _ _ _ _ _ _) eqn:Hs; intros <-;
          try (erewrite skip_loop_mono; [|exact Hs|done|done]; done).
    - by rewrite (Hext _ _ _ H1).
    - by rewrite (Hext _ _ _ H1).
    - congruence. }
  destruct ty; try (intros; assumption);
    (destruct (decide _); [intros; assumption|]); apply Hcall.
Qed.

Lemma loop_mono (round1 round2 : nat -> Frame -> Round) (a b : nat)
    (pos : nat) (f : Frame) (o : Outcome) :
  (forall pos f r, round1 pos f = r -> r <> Done NoFuel -> round2 pos f = r) ->
  a <= b ->
  resolve_delayed_loop a round1 pos f = o -> o <> NoFuel ->
  resolve_delayed_loop b round2 pos f = o.
Proof.
  intros Hround. revert b pos f. induction a as [|a IH]; intros b pos f Hle Ho Hne.
  { simpl in Ho. congruence. }
  destruct b as [|b]; [lia|]. simpl in *.
  destruct (round1 pos f) as [pos1 f1|o1] eqn:Hr.
  - rewrite (Hround _ _ _ Hr) by done. apply IH; [lia|done|done].
  - rewrite (Hround _ _ _ Hr); [done|congruence].
Qed.

Lemma resolve_mono_S (n : nat) :
  extends (resolve_delayed_recurse n) (resolve_delayed_recurse (S n)).
Proof.
  induction n as [|n IH]; intros key f o Ho Hne.
  { simpl in Ho. congruence. }
  change (resolve_delayed_recurse (S (S n)) key f) with
    (let f := with_rc f (touch (rc f) key) in
     if decide (key ∈ has_reference f)
     then resolve_delayed_loop (S n)
            (resolve_delayed_round (resolve_delayed_recurse (S n)) (S n) key) 0 f
     else Returned f).
  change (resolve_delayed_recurse (S n) key f) with
    (let f := with_rc f (touch (rc f) key) in
     if decide (key ∈ has_reference f)
     then resolve_delayed_loop n
            (resolve_delayed_round (resolve_delayed_recurse n) n key) 0 f
     else Returned f) in Ho.
  cbv zeta in *. case_decide; [|done].
  apply (loop_mono (resolve_delayed_round (resolve_delayed_recurse n) n key)
           _ n (S n)); [|lia|done|done].
  intros pos f1 r Hr Hner.
  apply (round_mono (resolve_delayed_recurse n) _ n (S n)); [apply IH|lia|done|done].
Qed.

(** A call that has settled with [n] units of fuel gives the same with any
    more. *)
Lemma resolve_mono (n m : nat) (key : string) (f : Frame) (o : Outcome) :
  resolve_delayed_recurse n key f = o -> o <> NoFuel -> n <= m ->
  resolve_delayed_recurse m key f = o.
Proof.
  intros Ho Hne Hle. induction Hle as [|m Hle IH]; [done|].
  by apply resolve_mono_S.
Qed.

Lemma resolve_extends (n m : nat) :
  n <= m -> extends (resolve_delayed_recurse n) (resolve_delayed_recurse m).
Proof. intros Hle key f o Ho Hne. by eapply resolve_mono. Qed.

(** ** Editing a concatenation *)

Lemma erase_app_r (a b : string) (i n : nat) :
  Str.erase (a ++ b) (String.length a + i) n = a ++ Str.erase b i n.
Proof.
  apply chars_inj. rewrite erase_chars, !chars_app, erase_chars.
  rewrite take_app, drop_app, !chars_length.
  rewrite take_ge, drop_ge by (rewrite chars_length; lia).
  replace (String.length a + i - String.length a) with i by lia.
  replace (String.length a + i + n - String.length a) with (i + n) by lia.
  by rewrite <- app_assoc.
Qed.

Lemma erase_prefix (a b : string) : Str.erase (a ++ b) 0 (String.length a) = b.
Proof.
  apply chars_inj. rewrite erase_chars, chars_app, take_0. simpl.
  rewrite drop_app_length'; [done|]. by rewrite chars_length.
Qed.

Lemma erase_all (a : string) (n : nat) :
  String.length a <= n -> Str.erase a 0 n = "".
Proof.
  intros H. apply chars_inj. rewrite erase_chars, take_0. simpl.
  apply drop_ge. by rewrite chars_length.
Qed.

Lemma replace_app_r (a b : string) (i n : nat) (r : string) :
  Str.replace (a ++ b) (String.length a + i) n r = a ++ Str.replace b i n r.
Proof.
  apply chars_inj. rewrite replace_chars, !chars_app, replace_chars.
  rewrite take_app, drop_app, !chars_length.
  rewrite take_ge, drop_ge by (rewrite chars_length; lia).
  replace (String.length a + i - String.length a) with i by lia.
  replace (String.length a + i + n - String.length a) with (i + n) by lia.
  by rewrite <- !app_assoc.
Qed.

Lemma replace_prefix (a b r : string) :
  Str.replace (a ++ b) 0 (String.length a) r = r ++ b.
Proof.
  apply chars_inj. rewrite replace_chars, !chars_app, take_0. simpl.
  rewrite drop_app_length'; [done|]. by rewrite chars_length.
Qed.

Lemma app_assoc_str (a b c : string) : (a ++ b) ++ c = a ++ b ++ c.
Proof. apply chars_inj. by rewrite !chars_app, <- app_assoc. Qed.

Lemma app_empty_l (a : string) : "" ++ a = a.
Proof. reflexivity. Qed.

Lemma app_empty_r (a : string) : a ++ "" = a.
Proof. apply chars_inj. by rewrite chars_app, app_nil_r. Qed.

Lemma ends_percent_app (a b : string) :
  b <> "" -> ends_percent (a ++ b) = ends_percent b.
Proof.
  intros Hb. unfold ends_percent. rewrite str_length_app.
  destruct (String.length b) as [|n] eqn:Hn; [by destruct b|].
  replace (String.length a + S n - 1) with (String.length a + n) by lia.
  rewrite at_app_r. replace (S n - 1) with n by lia.
  by destruct (String.length a).
Qed.

Lemma no_percent_ends_percent (t : string) :
  no_percent t = true -> ends_percent t = false.
Proof.
  intros Ht. destruct (decide (t = "")) as [->|Hne]; [done|].
  by apply (no_percent_ends "" t).
Qed.

Lemma erase_mid (a b c : string) (p n : nat) :
  p = String.length a -> n = String.length b ->
  Str.erase (a ++ b ++ c) p n = a ++ c.
Proof.
  intros -> ->. replace (String.length a) with (String.length a + 0) at 1 by lia.
  by rewrite erase_app_r, erase_prefix.
Qed.

Lemma erase_tail (a b : string) (p n : nat) :
  p = String.length a -> String.length b <= n ->
  Str.erase (a ++ b) p n = a.
Proof.
  intros -> Hn. replace (String.length a) with (String.length a + 0) at 1 by lia.
  rewrite erase_app_r, erase_all by done. apply app_empty_r.
Qed.

Lemma erase_head (a b : string) (n : nat) :
  n = String.length a -> Str.erase (a ++ b) 0 n = b.
Proof. intros ->. apply erase_prefix. Qed.

Lemma replace_mid (a b c r : string) (p n : nat) :
  p = String.length a -> n = String.length b ->
  Str.replace (a ++ b ++ c) p n r = a ++ r ++ c.
Proof.
  intros -> ->. replace (String.length a) with (String.length a + 0) at 1 by lia.
  by rewrite replace_app_r, replace_prefix.
Qed.

(** Scanning from the end of [a], for any way the position is written. *)
Lemma scan_app_at (a b : string) (p : nat) :
  p = String.length a -> ends_percent a = false ->
  find_next_delayed (a ++ b) p = shift (String.length a) (find_next_delayed b 0).
Proof.
  intros -> Ha. replace (String.length a) with (String.length a + 0) at 1 by lia.
  apply scan_app. by right.
Qed.

(** ** The key a marker refers to *)

Lemma referenced_name_at (r : EixRc) (a b : string) (ty : DelayedType)
    (p len : nat) :
  referenced_name r (a ++ b) ty (String.length a + p) len
  = referenced_name r b ty p len.
Proof.
  unfold referenced_name.
  destruct (bool_decide (ty = DelayedIf) || bool_decide (ty = DelayedNotif)).
  - replace (S (String.length a + p + 2)) with (String.length a + S (p + 2)) by lia.
    replace (S (String.length a + S (p + 2))) with (String.length a + S (S (p + 2))) by lia.
    by rewrite at_app_r, !substr_app_r.
  - replace (String.length a + p + 2) with (String.length a + (p + 2)) by lia.
    replace (S (String.length a + (p + 2))) with (String.length a + S (p + 2)) by lia.
    by rewrite at_app_r, !substr_app_r.
Qed.

Lemma substr_whole (s : string) (n : nat) :
  String.length s <= n -> Str.substr s 0 n = s.
Proof.
  intros H. apply chars_inj. rewrite substr_chars, drop_0.
  apply take_ge. by rewrite chars_length.
Qed.

Lemma at_0 (c : ascii) (s : string) : Str.at_ (String c s) 0 = c.
Proof. reflexivity. Qed.

Lemma at_S (c : ascii) (s : string) (i : nat) :
  Str.at_ (String c s) (S i) = Str.at_ s i.
Proof. reflexivity. Qed.

Lemma target_name (prefix x : string) :
  is_name x = true ->
  (if Ascii.eqb (Str.at_ x 0) "*"
   then prefix ++ Str.substr x 1 (String.length x - 1)
   else x) = target prefix x.
Proof.
  destruct x as [|c r]; [done|]. intros _. rewrite at_0. simpl String.length.
  destruct (Ascii.eqb c "*") eqn:Hc.
  - apply Ascii.eqb_eq in Hc as ->. simpl target. f_equal.
    rewrite substr_cons. apply substr_whole. lia.
  - apply Ascii.eqb_neq in Hc. simpl.
    destruct c as [[] [] [] [] [] [] [] []]; try done.
Qed.

Lemma referenced_name_variable (r : EixRc) (x rest : string) :
  is_name x = true ->
  referenced_name r ("%{" ++ x ++ "}" ++ rest) DelayedVariable 0
    (String.length x + 3)
  = target (varprefix r) x.
Proof.
  intros Hx. unfold referenced_name. simpl bool_decide. simpl orb. cbv iota.
  rewrite <- (target_name _ _ Hx).
  change ("%{" ++ x ++ "}" ++ rest) with (String "%" (String "{" (x ++ "}" ++ rest))).
  replace (String.length x + 3 - 3) with (String.length x) by lia.
  simpl Nat.add. rewrite !at_S, !substr_cons, substr_prefix.
  destruct x as [|c x]; [done|].
  change (String c x ++ "}" ++ rest) with (String c (x ++ "}" ++ rest)).
  rewrite !at_0. destruct (Ascii.eqb c "*"); [|done]. f_equal.
  simpl String.length. rewrite !substr_cons.
  replace (S (String.length x) - 1) with (String.length x) by lia.
  rewrite substr_prefix. symmetry. apply substr_whole. lia.
Qed.

Lemma referenced_name_test (r : EixRc) (m : ascii) (x rest : string)
    (ty : DelayedType) :
  ty = DelayedIf \/ ty = DelayedNotif -> is_name x = true ->
  referenced_name r ("%{" ++ String m x ++ "}" ++ rest) ty 0
    (String.length x + 4)
  = target (varprefix r) x.
Proof.
  intros Hty Hx. unfold referenced_name.
  assert (bool_decide (ty = DelayedIf) || bool_decide (ty = DelayedNotif) = true)
    as -> by (by destruct Hty as [-> | ->]).
  rewrite <- (target_name _ _ Hx).
  change ("%{" ++ String m x ++ "}" ++ rest)
    with (String "%" (String "{" (String m (x ++ "}" ++ rest)))).
  replace (String.length x + 4 - 3 - 1) with (String.length x) by lia.
  simpl Nat.add. rewrite !at_S, !substr_cons, substr_prefix.
  destruct x as [|c x]; [done|].
  change (String c x ++ "}" ++ rest) with (String c (x ++ "}" ++ rest)).
  rewrite !at_0. destruct (Ascii.eqb c "*"); [|done]. f_equal.
  simpl String.length. rewrite !substr_cons.
  replace (S (String.length x) - 1) with (String.length x) by lia.
  rewrite substr_prefix. symmetry. apply substr_whole. lia.
Qed.

(** ** A conditional block of plain text *)

Lemma scan_plain_fi (t rest : string) (k : nat) :
  no_percent t = true -> k <= String.length t ->
  find_next_delayed (t ++ "%{}" ++ rest) k = (DelayedFi, String.length t, 3).
Proof.
  intros Ht Hk. rewrite scan_plain, scan_fi by done. simpl. do 2 f_equal. lia.
Qed.

Lemma scan_plain_else (t rest : string) (k : nat) :
  no_percent t = true -> k <= String.length t ->
  find_next_delayed (t ++ "%{else}" ++ rest) k = (DelayedElse, String.length t, 7).
Proof.
  intros Ht Hk. rewrite scan_plain, scan_else by done. simpl. do 2 f_equal. lia.
Qed.

(** The kept branch without [%{else}]: only [%{}] goes. *)
Lemma skip_kept (n : nat) (A : string) :
  no_percent A = true ->
  skip_loop (S n) true (A ++ "%{}") 0 None false 0%N = Matched A.
Proof.
  intros HA. rewrite skip_loop_unfold, (scan_plain_fi A "") by (done || lia).
  simpl negb. cbv iota. f_equal. by apply erase_tail.
Qed.

(** The kept branch with [%{else}]: from [%{else}] through [%{}] goes. *)
Lemma skip_kept_else (n : nat) (A B : string) :
  no_percent A = true -> no_percent B = true ->
  skip_loop (S (S n)) true (A ++ "%{else}" ++ B ++ "%{}") 0 None false 0%N
  = Matched A.
Proof.
  intros HA HB. rewrite skip_loop_unfold, scan_plain_else by (done || lia).
  simpl negb. cbv iota. rewrite (erase_mid A "%{else}") by done.
  rewrite skip_loop_unfold.
  rewrite scan_app_at by (lia || by apply no_percent_ends_percent).
  rewrite (scan_plain_fi B "") by (done || lia). simpl shift. simpl negb. cbv iota.
  f_equal. apply erase_tail; [done|]. rewrite str_length_app. simpl. lia.
Qed.

(** The dropped branch without [%{else}]: everything through [%{}] goes. *)
Lemma skip_dropped (n : nat) (M A : string) :
  no_percent A = true -> ends_percent M = false ->
  skip_loop (S n) false (M ++ A ++ "%{}") (0 + String.length M) (Some 0)
    false 0%N
  = Matched "".
Proof.
  intros HA HM. rewrite skip_loop_unfold.
  rewrite scan_app_at by (lia || done).
  rewrite (scan_plain_fi A "") by (done || lia). simpl shift. simpl negb. cbv iota.
  f_equal. apply erase_all. rewrite !str_length_app. simpl. lia.
Qed.

(** The dropped branch with [%{else}]: the text between [%{else}] and [%{}]
    stays. *)
Lemma skip_dropped_else (n : nat) (M A B : string) :
  no_percent A = true -> no_percent B = true -> ends_percent M = false ->
  skip_loop (S (S n)) false (M ++ A ++ "%{else}" ++ B ++ "%{}")
    (0 + String.length M) (Some 0) false 0%N
  = Matched B.
Proof.
  intros HA HB HM. rewrite skip_loop_unfold.
  rewrite scan_app_at by (lia || done).
  rewrite scan_plain_else by (done || lia). simpl shift. simpl negb. cbv iota.
  replace (M ++ A ++ "%{else}" ++ B ++ "%{}")
    with ((M ++ A ++ "%{else}") ++ B ++ "%{}") by (by rewrite !app_assoc_str).
  rewrite (erase_head (M ++ A ++ "%{else}"))
    by (rewrite !str_length_app; simpl; lia).
  rewrite skip_loop_unfold, (scan_plain_fi B "") by (done || lia).
  simpl negb. cbv iota. f_equal. by apply erase_tail.
Qed.

(** ** [istrue] *)

Lemma strcasecmp_0 (a b : string) :
  Str.c_str a = a -> Str.c_str b = b ->
  Str.strcasecmp a b = 0%Z <-> to_lower a = to_lower b.
Proof.
  assert (Hz : forall c, Ascii.eqb c Ascii.zero = false ->
              Z.of_nat (nat_of_ascii (Str.tolower c)) <> 0%Z).
  { intros c Hc. apply Ascii.eqb_neq in Hc.
    destruct c as [[] [] [] [] [] [] [] []]; try done. }
  assert (Hinj : forall c d,
    (Z.of_nat (nat_of_ascii (Str.tolower c))
     - Z.of_nat (nat_of_ascii (Str.tolower d)) = 0)%Z
    <-> Str.tolower c = Str.tolower d).
  { intros c d. split; [|by intros ->; lia]. intros H.
    assert (nat_of_ascii (Str.tolower c) = nat_of_ascii (Str.tolower d)) as He by lia.
    by rewrite <- (ascii_nat_embedding (Str.tolower c)), He, ascii_nat_embedding. }
  revert b. induction a as [|c a IH]; intros [|d b] Ha Hb; simpl in *.
  - done.
  - destruct (Ascii.eqb d Ascii.zero) eqn:Hd; [done|].
    split; [|done]. intros H. apply Hz in Hd. lia.
  - destruct (Ascii.eqb c Ascii.zero) eqn:Hc; [done|].
    split; [|done]. intros H. apply Hz in Hc. lia.
  - destruct (Ascii.eqb c Ascii.zero) eqn:Hc; [done|].
    destruct (Ascii.eqb d Ascii.zero) eqn:Hd; [done|].
    injection Ha as Ha. injection Hb as Hb.
    destruct (Z.eqb_spec (Z.of_nat (nat_of_ascii (Str.tolower c))
                          - Z.of_nat (nat_of_ascii (Str.tolower d))) 0) as [He|Hne].
    + apply Hinj in He. rewrite IH by done. rewrite He.
      split; [by intros -> | by intros [= ?]].
    + split; [done|]. intros [= He _]. apply Hinj in He. done.
Qed.

Lemma c_str_idem (s : string) : Str.c_str (Str.c_str s) = Str.c_str s.
Proof.
  induction s as [|c s IH]; [done|]. simpl.
  destruct (Ascii.eqb c Ascii.zero) eqn:Hc; [done|]. simpl. by rewrite Hc, IH.
Qed.

(** [istrue] is equality, up to case, with one of five words. *)
Lemma istrue_spec (s : string) :
  istrue (Str.c_str s) = true
  <-> to_lower (Str.c_str s) ∈ ["true"; "1"; "yes"; "y"; "on"].
Proof.
  unfold istrue.
  assert (Hw : forall w, Str.c_str w = w ->
    (Str.strcasecmp (Str.c_str s) w =? 0)%Z = true
    <-> to_lower (Str.c_str s) = to_lower w).
  { intros w Hw. rewrite Z.eqb_eq. apply strcasecmp_0; [apply c_str_idem|done]. }
  rewrite !elem_of_cons, elem_of_nil.
  destruct (Str.strcasecmp (Str.c_str s) "true" =? 0)%Z eqn:H1.
  { apply (Hw "true") in H1; [|done]. split; [by left|done]. }
  destruct (Str.strcasecmp (Str.c_str s) "1" =? 0)%Z eqn:H2.
  { apply (Hw "1") in H2; [|done]. split; [by right; left|done]. }
  destruct (Str.strcasecmp (Str.c_str s) "yes" =? 0)%Z eqn:H3.
  { apply (Hw "yes") in H3; [|done]. split; [by right; right; left|done]. }
  destruct (Str.strcasecmp (Str.c_str s) "y" =? 0)%Z eqn:H4.
  { apply (Hw "y") in H4; [|done]. split; [by right; right; right; left|done]. }
  destruct (Str.strcasecmp (Str.c_str s) "on" =? 0)%Z eqn:H5.
  { apply (Hw "on") in H5; [|done]. split; [by right; right; right; right; left|done]. }
  split; [done|].
  intros [H|[H|[H|[H|[H|[]]]]]].
  - apply (Hw "true") in H; [congruence|done].
  - apply (Hw "1") in H; [congruence|done].
  - apply (Hw "yes") in H; [congruence|done].
  - apply (Hw "y") in H; [congruence|done].
  - apply (Hw "on") in H; [congruence|done].
Qed.

(** ** Running a round *)

Lemma resolve_delayed_recurse_unfold (b : nat) (key : string) (f : Frame) :
  resolve_delayed_recurse (S b) key f =
  let f0 := with_rc f (touch (rc f) key) in
  if decide (key ∈ has_reference f0)
  then resolve_delayed_loop b
         (resolve_delayed_round (resolve_delayed_recurse b) b key) 0 f0
  else Returned f0.
Proof. reflexivity. Qed.

Lemma loop_again (a : nat) (round : nat -> Frame -> Round) (pos : nat)
    (f : Frame) (pos' : nat) (f' : Frame) :
  round pos f = Again pos' f' ->
  resolve_delayed_loop (S a) round pos f = resolve_delayed_loop a round pos' f'.
Proof. intros H. simpl. by rewrite H. Qed.

Lemma loop_done (a : nat) (round : nat -> Frame -> Round) (pos : nat)
    (f : Frame) (o : Outcome) :
  round pos f = Done o -> resolve_delayed_loop (S a) round pos f = o.
Proof. intros H. simpl. by rewrite H. Qed.

Lemma round_call (recurse : string -> Frame -> Outcome) (b : nat)
    (key : string) (pos : nat) (f : Frame) (ty : DelayedType) (p len : nat)
    (F' : Frame) :
  find_next_delayed (get (rc f) key) pos = (ty, p, len) ->
  refers ty -> key ∉ visited f ->
  recurse (referenced_name (rc f) (get (rc f) key) ty p len) (calling key f)
  = Returned F' ->
  resolve_delayed_round recurse b key pos f
  = after_call b key ty p len
      (referenced_name (rc f) (get (rc f) key) ty p len) F'.
Proof.
  intros Hscan Href Hnv Hcall.
  rewrite (resolve_delayed_round_unfold _ _ _ _ _ _ _ _ Hscan).
  destruct Href as [->|[->| ->]]; rewrite decide_False by done; cbv zeta;
    unfold calling in Hcall; by rewrite Hcall.
Qed.

Lemma round_not_found (recurse : string -> Frame -> Outcome) (b : nat)
    (key : string) (pos : nat) (f : Frame) :
  find_next_delayed (get (rc f) key) pos = (DelayedNotFound, 0, 0) ->
  resolve_delayed_round recurse b key pos f
  = Done (Returned (with_has_reference f (has_reference f ∖ {[key]}))).
Proof.
  intros Hscan. by rewrite (resolve_delayed_round_unfold _ _ _ _ _ _ _ _ Hscan).
Qed.

Lemma active_ok_calling (key : string) (f : Frame) :
  active_ok f -> key ∈ has_reference f -> has_directive (get (rc f) key) ->
  active_ok (calling key f).
Proof.
  intros Hok Hin Hd k Hk. simpl in Hk. apply elem_of_union in Hk as [Hk|Hk].
  - apply elem_of_singleton in Hk as ->. done.
  - by apply Hok.
Qed.

(** What the frame lemma gives for the call made by a round of [key]. *)
Lemma call_frame (n : nat) (key name : string) (f F' : Frame) :
  active_ok f -> key ∈ has_reference f -> has_directive (get (rc f) key) ->
  (key ∉ visited f) ->
  resolve_delayed_recurse n name (calling key f) = Returned F' ->
  get (rc F') key = get (rc f) key /\ key ∈ has_reference F'
  /\ visited F' ∖ {[key]} = visited f /\ name <> key
  /\ varprefix (rc F') = varprefix (rc f).
Proof.
  intros Hok Hin Hd Hnv Hcall.
  apply resolve_keeps_frame in Hcall as [(Hv & Hh & Hk & Hp & _) Hname];
    [|by apply active_ok_calling].
  destruct (Hk key) as [? ?]; [simpl; set_solver|].
  split_and!; try done.
  - rewrite Hv. simpl. set_solver.
  - intros ->. apply Hname. simpl. set_solver.
Qed.

(** ** A conditional block resolves to the branch that the truth of its
       key selects *)

Lemma block_has_directive (m : ascii) (X A : string) (alt : option string) :
  m = "?"%char \/ m = "!"%char -> is_name X = true ->
  find_next_delayed (block m X A alt) 0
  = (if Ascii.eqb m "?" then DelayedIf else DelayedNotif, 0, String.length X + 4).
Proof.
  intros [-> | ->] HX; [apply scan_if | apply scan_notif]; done.
Qed.

Lemma conditional_block (m : ascii) (X A : string) (alt : option string)
    (key : string) (f : Frame) (n : nat) (F' : Frame) :
  m = "?"%char \/ m = "!"%char -> is_name X = true ->
  no_percent A = true -> no_percent (default "" alt) = true ->
  active_ok f -> key ∈ has_reference f -> (key ∉ visited f) ->
  get (rc f) key = block m X A alt ->
  resolve_delayed_recurse n (target (varprefix (rc f)) X)
    (calling key (with_rc f (touch (rc f) key))) = Returned F' ->
  forall k, n + 4 <= k ->
    exists f', resolve_delayed_recurse k key f = Returned f'
      /\ get (rc f') key
         = (if (if istrue (Str.c_str (get (rc F') (target (varprefix (rc f)) X)))
                then Ascii.eqb m "?" else Ascii.eqb m "!")
            then A else default "" alt)
      /\ (key ∉ has_reference f').
Proof.
  intros Hm HX HA HB Hok Hin Hnv Hval Hcall k Hk.
  destruct k as [|b]; [lia|]. rewrite resolve_delayed_recurse_unfold. cbv zeta.
  set (f0 := with_rc f (touch (rc f) key)) in *.
  assert (get (rc f0) key = block m X A alt) as Hval0.
  { unfold f0. simpl. by rewrite get_touch. }
  rewrite decide_True by done.
  pose proof (block_has_directive m X A alt Hm HX) as Hscan.
  set (ty := if Ascii.eqb m "?" then DelayedIf else DelayedNotif) in *.
  assert (ty = DelayedIf \/ ty = DelayedNotif) as Hty.
  { unfold ty. destruct Hm as [-> | ->]; auto. }
  assert (refers ty) as Href by (unfold refers; tauto).
  assert (referenced_name (rc f0) (get (rc f0) key) ty 0 (String.length X + 4)
          = target (varprefix (rc f)) X) as Hname.
  { rewrite Hval0. unfold block. by rewrite referenced_name_test. }
  assert (active_ok f0) as Hok0.
  { intros x Hx. destruct (Hok x Hx). split; [done|]. unfold f0. simpl.
    by rewrite get_touch. }
  assert (has_directive (get (rc f0) key)) as Hdir.
  { unfold has_directive. rewrite Hval0, Hscan. simpl. by destruct Hty as [-> | ->]. }
  pose proof (resolve_mono n b _ _ _ Hcall ltac:(done) ltac:(lia)) as Hcallb.
  destruct (call_frame b key _ f0 F' Hok0 Hin Hdir Hnv Hcallb)
    as (HvalF & HinF & HvisF & Hne & HpreF).
  (* the first round *)
  assert (exists f1,
    resolve_delayed_round (resolve_delayed_recurse b) b key 0 f0 = Again 0 f1
    /\ get (rc f1) key
       = (if (if istrue (Str.c_str (get (rc F') (target (varprefix (rc f)) X)))
              then Ascii.eqb m "?" else Ascii.eqb m "!")
          then A else default "" alt)
    /\ key ∈ has_reference f1) as (f1 & Hround1 & Hval1 & Hin1).
  { rewrite (round_call _ _ _ _ _ ty 0 (String.length X + 4) F');
      [|by rewrite Hval0|done|done|by rewrite Hname].
    rewrite Hname. unfold after_call.
    assert (bool_decide (ty = DelayedIf) || bool_decide (ty = DelayedNotif) = true)
      as -> by (by destruct Hty as [-> | ->]).
    simpl negb. cbv iota. cbv zeta. simpl rc.
    rewrite HvalF, Hval0.
    assert ((if istrue (Str.c_str (get (rc F') (target (varprefix (rc f)) X)))
             then bool_decide (ty = DelayedIf) else bool_decide (ty = DelayedNotif))
            = (if istrue (Str.c_str (get (rc F') (target (varprefix (rc f)) X)))
               then Ascii.eqb m "?" else Ascii.eqb m "!")) as ->.
    { unfold ty. by destruct Hm as [-> | ->]; destruct (istrue _). }
    destruct b as [|[|b]]; [lia|lia|].
    set (M := "%{" ++ String m X ++ "}").
    assert (String.length M = String.length X + 4) as HlenM.
    { unfold M. simpl. rewrite str_length_app. simpl. lia. }
    assert (ends_percent M = false) as HendM.
    { unfold M. change ("%{" ++ String m X ++ "}")
        with (String "%" (String "{" (String m X)) ++ "}").
      by rewrite ends_percent_app. }
    assert (forall rest, "%{" ++ String m X ++ "}" ++ rest = M ++ rest) as HM.
    { intros rest. unfold M. by rewrite !app_assoc_str. }
    unfold block. rewrite HM.
    destruct (if istrue _ then _ else _).
    - (* kept *)
      rewrite erase_head by done.
      destruct alt as [B|]; simpl in HB.
      + rewrite skip_kept_else by done. eexists. split; [done|].
        simpl. by rewrite get_set_eq.
      + rewrite skip_kept by done. eexists. split; [done|].
        simpl. by rewrite get_set_eq.
    - (* dropped *)
      rewrite <- HlenM.
      destruct alt as [B|]; simpl in HB.
      + rewrite skip_dropped_else by done. eexists. split; [done|].
        simpl. by rewrite get_set_eq.
      + rewrite skip_dropped by done. eexists. split; [done|].
        simpl. by rewrite get_set_eq. }
  (* the second round finds nothing *)
  destruct b as [|[|b]]; [lia|lia|].
  cbn [resolve_delayed_loop]. rewrite Hround1.
  rewrite round_not_found.
  2:{ rewrite Hval1. apply scan_plain_only. by repeat case_match. }
  eexists. split; [done|]. split; [done|]. simpl. set_solver.
Qed.

(** ** The round of a marker that follows plain text *)

Lemma marker_length (m : ascii) (X : string) :
  String.length ("%{" ++ String m X ++ "}") = String.length X + 4.
Proof. simpl. rewrite str_length_app. simpl. lia. Qed.

Lemma marker_ends (a : string) : ends_percent (a ++ "}") = false.
Proof. by rewrite ends_percent_app. Qed.

Lemma test_marker_ends (m : ascii) (X : string) :
  ends_percent ("%{" ++ String m X ++ "}") = false.
Proof.
  change ("%{" ++ String m X ++ "}") with (String "%" (String "{" (String m X)) ++ "}").
  apply marker_ends.
Qed.

Lemma scan_test_marker (m : ascii) (X rest : string) :
  m = "?"%char \/ m = "!"%char -> is_name X = true ->
  find_next_delayed (("%{" ++ String m X ++ "}") ++ rest) 0
  = (if Ascii.eqb m "?" then DelayedIf else DelayedNotif, 0, String.length X + 4).
Proof.
  intros Hm HX. rewrite !app_assoc_str.
  destruct Hm as [-> | ->]; [by apply scan_if | by apply scan_notif].
Qed.

(** The round of a conditional marker [%{?X}] or [%{!X}] that stands after
    the plain text [pre]: the call for the key of [X] having returned [F'],
    the round is the search for the matching [%{}], started as the truth of
    that key's value says. *)
Lemma cond_round (m : ascii) (X pre rest : string) (key : string) (f : Frame)
    (b pos : nat) (F' : Frame) :
  m = "?"%char \/ m = "!"%char -> is_name X = true ->
  no_percent pre = true -> pos <= String.length pre ->
  active_ok f -> key ∈ has_reference f -> (key ∉ visited f) ->
  get (rc f) key = pre ++ ("%{" ++ String m X ++ "}") ++ rest ->
  resolve_delayed_recurse b (target (varprefix (rc f)) X) (calling key f)
  = Returned F' ->
  resolve_delayed_round (resolve_delayed_recurse b) b key pos f
  = match
      (if (if istrue (Str.c_str (get (rc F') (target (varprefix (rc f)) X)))
           then Ascii.eqb m "?" else Ascii.eqb m "!")
       then skip_loop b true (pre ++ rest) (String.length pre) None false 0%N
       else skip_loop b false (pre ++ ("%{" ++ String m X ++ "}") ++ rest)
              (String.length pre + (String.length X + 4))
              (Some (String.length pre)) false 0%N)
    with
    | Matched v' =>
        Again (String.length pre)
          (with_rc (with_visited F' (visited F' ∖ {[key]})) (set (rc F') key v'))
    | SkipError errtext => Done (Null errtext key)
    | OutOfRange => Done Thrown
    | SkipNoFuel => Done NoFuel
    end.
Proof.
  intros Hm HX Hpre Hpos Hok Hin Hnv Hval Hcall.
  set (M := "%{" ++ String m X ++ "}") in *.
  set (ty := if Ascii.eqb m "?" then DelayedIf else DelayedNotif).
  assert (ty = DelayedIf \/ ty = DelayedNotif) as Hty.
  { unfold ty. destruct Hm as [-> | ->]; auto. }
  assert (find_next_delayed (get (rc f) key) pos
          = (ty, String.length pre, String.length X + 4)) as Hscan.
  { rewrite Hval, scan_plain by done. unfold M. rewrite scan_test_marker by done.
    fold ty. destruct Hty as [-> | ->]; simpl; do 2 f_equal; lia. }
  assert (referenced_name (rc f) (get (rc f) key) ty (String.length pre)
            (String.length X + 4) = target (varprefix (rc f)) X) as Hname.
  { rewrite Hval.
    replace (String.length pre) with (String.length pre + 0) at 1 by lia.
    rewrite referenced_name_at. unfold M. rewrite !app_assoc_str.
    by apply referenced_name_test. }
  assert (has_directive (get (rc f) key)) as Hdir.
  { unfold has_directive. apply (find_next_delayed_earlier _ pos); [lia|].
    rewrite Hscan. simpl. by destruct Hty as [-> | ->]. }
  destruct (call_frame b key _ f F' Hok Hin Hdir Hnv Hcall)
    as (HvalF & HinF & HvisF & Hne & HpreF).
  rewrite (round_call _ _ _ _ _ ty (String.length pre) (String.length X + 4) F');
    [|done|unfold refers; tauto|done|by rewrite Hname].
  rewrite Hname. unfold after_call.
  assert (bool_decide (ty = DelayedIf) || bool_decide (ty = DelayedNotif) = true)
    as -> by (by destruct Hty as [-> | ->]).
  simpl negb. cbv iota. cbv zeta. simpl rc.
  rewrite HvalF, Hval.
  assert ((if istrue (Str.c_str (get (rc F') (target (varprefix (rc f)) X)))
           then bool_decide (ty = DelayedIf) else bool_decide (ty = DelayedNotif))
          = (if istrue (Str.c_str (get (rc F') (target (varprefix (rc f)) X)))
             then Ascii.eqb m "?" else Ascii.eqb m "!")) as ->.
  { unfold ty. by destruct Hm as [-> | ->]; destruct (istrue _). }
  rewrite (erase_mid pre M rest) by (done || (unfold M; by rewrite marker_length)).
  destruct (if istrue _ then _ else _); done.
Qed.

(** The round of a substitution marker [%{x}] that stands after the plain
    text [pre]: the value [s] of the key of [x] takes the marker's place and
    the cursor goes behind it. *)
Lemma subst_round (x pre rest : string) (key : string) (f : Frame)
    (b pos : nat) (F' : Frame) :
  is_name x = true -> plain_type x = DelayedVariable ->
  no_percent pre = true -> pos <= String.length pre ->
  active_ok f -> key ∈ has_reference f -> (key ∉ visited f) ->
  get (rc f) key = pre ++ ("%{" ++ x ++ "}") ++ rest ->
  resolve_delayed_recurse b (target (varprefix (rc f)) x) (calling key f)
  = Returned F' ->
  let s := get (rc F') (target (varprefix (rc f)) x) in
  resolve_delayed_round (resolve_delayed_recurse b) b key pos f
  = Again (String.length pre + String.length s)
      (with_rc (with_visited F' (visited F' ∖ {[key]}))
         (set (rc F') key (pre ++ s ++ rest))).
Proof.
  intros Hx Hplain Hpre Hpos Hok Hin Hnv Hval Hcall s.
  set (M := "%{" ++ x ++ "}") in *.
  assert (String.length M = String.length x + 3) as HlenM.
  { unfold M. rewrite !str_length_app. simpl. lia. }
  assert (find_next_delayed (get (rc f) key) pos
          = (DelayedVariable, String.length pre, String.length x + 3)) as Hscan.
  { rewrite Hval, scan_plain by done. unfold M. rewrite !app_assoc_str.
    rewrite scan_variable, Hplain by done. simpl. do 2 f_equal. lia. }
  assert (referenced_name (rc f) (get (rc f) key) DelayedVariable
            (String.length pre) (String.length x + 3)
          = target (varprefix (rc f)) x) as Hname.
  { rewrite Hval.
    replace (String.length pre) with (String.length pre + 0) at 1 by lia.
    rewrite referenced_name_at. unfold M. rewrite !app_assoc_str.
    by apply referenced_name_variable. }
  assert (has_directive (get (rc f) key)) as Hdir.
  { unfold has_directive. apply (find_next_delayed_earlier _ pos); [lia|].
    by rewrite Hscan. }
  destruct (call_frame b key _ f F' Hok Hin Hdir Hnv Hcall)
    as (HvalF & HinF & HvisF & Hne & HpreF).
  rewrite (round_call _ _ _ _ _ DelayedVariable (String.length pre)
             (String.length x + 3) F');
    [|done|unfold refers; tauto|done|by rewrite Hname].
  rewrite Hname. unfold after_call. simpl bool_decide. simpl orb. simpl negb.
  cbv iota. cbv zeta. simpl rc.
  rewrite HvalF, Hval, get_set_ne by done.
  by rewrite (replace_mid pre M rest) by done.
Qed.

Lemma scan_beyond (v : string) (pos : nat) :
  String.length v <= pos -> find_next_delayed v pos = (DelayedNotFound, 0, 0).
Proof.
  intros H. apply find_next_delayed_not_found. intros q Hq.
  destruct (directive_at v q) as [[ty len]|] eqn:Hd; [|done].
  apply directive_at_span in Hd. lia.
Qed.

Lemma skip_not_found (n : nat) (result : bool) (v : string) (skippos : nat)
    (delpos : option nat) (gotelse : bool) (count : N) :
  (find_next_delayed v skippos).1.1 = DelayedNotFound ->
  skip_loop (S n) result v skippos delpos gotelse count
  = SkipError "IF without FI".
Proof.
  intros H. rewrite skip_loop_unfold.
  destruct (find_next_delayed v skippos) as [[ty p] len]. simpl in H. by subst ty.
Qed.

Lemma active_ok_touch (f : Frame) (key : string) :
  active_ok f -> active_ok (with_rc f (touch (rc f) key)).
Proof.
  intros Hok x Hx. destruct (Hok x Hx). split; [done|]. simpl.
  by rewrite get_touch.
Qed.

(** ** Unterminated conditionals *)

(** C10: when the search for the [%{}] that matches a [%{?X}] or [%{!X}]
    reaches the end of the value, the scanner reporting [DelayedNotFound],
    [resolve_delayed_recurse] returns [NULL] with the error text
    [IF without FI] and the key: for every round of [skip_loop] that finds
    nothing, and so for every value [%{?X}A] or [%{!X}A] with plain [A],
    whatever the truth of X; the text is none of the four of the other
    errors. *)
Theorem if_without_fi (m : ascii) (X A : string) (key : string) (f : Frame)
    (n : nat) (F' : Frame) :
  m = "?"%char \/ m = "!"%char -> is_name X = true -> no_percent A = true ->
  active_ok f -> key ∈ has_reference f -> (key ∉ visited f) ->
  get (rc f) key = "%{" ++ String m X ++ "}" ++ A ->
  resolve_delayed_recurse n (target (varprefix (rc f)) X)
    (calling key (with_rc f (touch (rc f) key))) = Returned F' ->
  (forall k, n + 3 <= k ->
     resolve_delayed_recurse k key f = Null "IF without FI" key)
  /\ (forall fuel result v skippos delpos gotelse count,
        (find_next_delayed v skippos).1.1 = DelayedNotFound ->
        skip_loop (S fuel) result v skippos delpos gotelse count
        = SkipError "IF without FI")
  /\ "IF without FI" ∉ ["FI without IF"; "ELSE without IF"; "double ELSE";
                        "self-reference"].
Proof.
  intros Hm HX HA Hok Hin Hnv Hval Hcall. split; [|split].
  - intros k Hk. destruct k as [|[|b]]; [lia|lia|].
    rewrite resolve_delayed_recurse_unfold. cbv zeta.
    set (f0 := with_rc f (touch (rc f) key)) in *.
    rewrite decide_True by done. cbn [resolve_delayed_loop].
    pose proof (resolve_mono n (S b) _ _ _ Hcall ltac:(done) ltac:(lia)) as Hcallb.
    rewrite (cond_round m X "" A key f0 (S b) 0 F'); try done.
    + destruct (if istrue _ then _ else _).
      * rewrite skip_not_found; [done|]. by rewrite app_empty_l, scan_plain_only.
      * rewrite skip_not_found; [done|]. rewrite app_empty_l.
        rewrite scan_app_at;
          [|rewrite marker_length; simpl; lia|apply test_marker_ends].
        by rewrite scan_plain_only.
    + by apply active_ok_touch.
    + unfold f0. simpl. rewrite get_touch, Hval. by rewrite !app_assoc_str.
  - intros. by apply skip_not_found.
  - rewrite !not_elem_of_cons. split_and!; try done. apply not_elem_of_nil.
Qed.

Lemma if_without_fi_witness :
  resolve_delayed_recurse 4 "K"
    (example_frame "" [("K", "%{?X}abc"); ("X", "yes")] ["K"])
  = Null "IF without FI" "K".
Proof.
  set (f := example_frame "" [("K", "%{?X}abc"); ("X", "yes")] ["K"]).
  set (F := calling "K" (with_rc f (touch (rc f) "K"))).
  destruct (if_without_fi "?" "X" "abc" "K" f 1 (with_rc F (touch (rc F) "X")))
    as [H _].
  - by left.
  - reflexivity.
  - reflexivity.
  - intros k Hk. by apply not_elem_of_empty in Hk.
  - vm_compute. reflexivity.
  - apply not_elem_of_empty.
  - reflexivity.
  - reflexivity.
  - apply H. lia.
Defined.

(** ** Nested conditionals *)

(** What the counter does at each marker the search meets. *)
Lemma skip_loop_counter (fuel : nat) (result : bool) (v : string)
    (skippos : nat) (delpos : option nat) (gotelse : bool) (count : N)
    (ty : DelayedType) (p len : nat) :
  find_next_delayed v skippos = (ty, p, len) ->
  (ty = DelayedIf \/ ty = DelayedNotif ->
   skip_loop (S fuel) result v skippos delpos gotelse count
   = skip_loop fuel result v (p + len) delpos gotelse (count_incr count))
  /\ (ty = DelayedFi -> count <> 0%N ->
      skip_loop (S fuel) result v skippos delpos gotelse count
      = skip_loop fuel result v (p + len) delpos gotelse (count - 1)%N)
  /\ (ty = DelayedElse -> count <> 0%N ->
      skip_loop (S fuel) result v skippos delpos gotelse count
      = skip_loop fuel result v (p + len) delpos gotelse count).
Proof.
  intros Hscan. rewrite skip_loop_unfold, Hscan. split_and!.
  - by intros [-> | ->].
  - intros -> Hc. apply N.eqb_neq in Hc. by rewrite Hc.
  - intros -> Hc. apply N.eqb_neq in Hc. by rewrite Hc.
Qed.

(** The search that starts before an inner [%{?Y}A%{}] passes the inner
    [%{}] with the counter at 1 and stops at the outer one. *)
Lemma skip_nested (n : nat) (Y A : string) :
  is_name Y = true -> no_percent A = true ->
  skip_loop (S (S (S n))) true
    (("%{" ++ String "?" Y ++ "}") ++ A ++ "%{}" ++ "%{}") 0 None false 0%N
  = Matched (("%{" ++ String "?" Y ++ "}") ++ A ++ "%{}").
Proof.
  intros HY HA. set (M := "%{" ++ String "?" Y ++ "}").
  assert (String.length M = String.length Y + 4) as HlenM
    by apply marker_length.
  assert (ends_percent M = false) as HendM by apply test_marker_ends.
  (* the inner [%{?Y}] *)
  rewrite skip_loop_unfold. unfold M at 1.
  rewrite scan_test_marker by (done || by left). simpl Ascii.eqb. cbv iota.
  fold M. change (count_incr 0) with 1%N.
  (* the inner [%{}] *)
  rewrite skip_loop_unfold.
  rewrite scan_app_at by (done || lia).
  rewrite scan_plain_fi by (done || lia). simpl shift. simpl negb. cbv iota.
  change (1 - 1)%N with 0%N.
  (* the outer [%{}] *)
  rewrite skip_loop_unfold.
  replace (M ++ A ++ "%{}" ++ "%{}") with ((M ++ A ++ "%{}") ++ "%{}")
    by (by rewrite !app_assoc_str).
  rewrite scan_app_at.
  2:{ rewrite !str_length_app, HlenM. simpl. lia. }
  2:{ rewrite <- !app_assoc_str. by rewrite ends_percent_app. }
  change (find_next_delayed "%{}" 0) with (find_next_delayed ("%{}" ++ "") 0).
  rewrite (scan_fi ""). simpl shift. simpl negb. cbv iota. f_equal.
  apply erase_tail; [|simpl; lia].
  unfold M. rewrite !str_length_app. simpl. rewrite ?str_length_app. simpl. lia.
Qed.

(** [%{?X}%{?Y}A%{}%{}] with X truthy and Y falsy resolves to the empty
    string. *)
Lemma nested_block_resolves (X Y A : string) (key : string)
    (f : Frame) (n : nat) (F1 F2 : Frame) :
  is_name X = true -> is_name Y = true -> no_percent A = true ->
  active_ok f -> key ∈ has_reference f -> (key ∉ visited f) ->
  get (rc f) key = "%{?" ++ X ++ "}" ++ "%{?" ++ Y ++ "}" ++ A ++ "%{}" ++ "%{}" ->
  resolve_delayed_recurse n (target (varprefix (rc f)) X)
    (calling key (with_rc f (touch (rc f) key))) = Returned F1 ->
  istrue (Str.c_str (get (rc F1) (target (varprefix (rc f)) X))) = true ->
  resolve_delayed_recurse n (target (varprefix (rc f)) Y)
    (calling key
       (with_rc (with_visited F1 (visited F1 ∖ {[key]}))
          (set (rc F1) key ("%{?" ++ Y ++ "}" ++ A ++ "%{}"))))
  = Returned F2 ->
  istrue (Str.c_str (get (rc F2) (target (varprefix (rc f)) Y))) = false ->
  forall k, n + 5 <= k ->
    exists f', resolve_delayed_recurse k key f = Returned f'
      /\ get (rc f') key = "".
Proof.
  intros HX HY HA Hok Hin Hnv Hval Hcall1 Htrue Hcall2 Hfalse.
  intros k Hk. destruct k as [|[|[|[|b]]]]; try lia.
  rewrite resolve_delayed_recurse_unfold. cbv zeta.
  set (f0 := with_rc f (touch (rc f) key)) in *.
  rewrite decide_True by done.
  set (b3 := S (S (S b))).
  assert (n <= b3) as Hb3 by (unfold b3; lia).
  pose proof (resolve_mono n b3 _ _ _ Hcall1 ltac:(done) Hb3) as Hcall1b.
  pose proof (resolve_mono n b3 _ _ _ Hcall2 ltac:(done) Hb3) as Hcall2b.
  set (MY := "%{" ++ String "?" Y ++ "}") in *.
  assert (Hok0 : active_ok f0) by (by apply active_ok_touch).
  assert (Hval0 : get (rc f0) key
                  = "" ++ ("%{" ++ String "?" X ++ "}") ++ MY ++ A ++ "%{}" ++ "%{}").
  { unfold f0. simpl. rewrite get_touch, Hval. unfold MY.
    by rewrite !app_empty_l, !app_assoc_str. }
  (* the round of [%{?X}] *)
  pose proof (cond_round "?" X "" _ key f0 b3 0 F1 ltac:(by left) HX
                ltac:(done) ltac:(simpl; lia) Hok0 Hin Hnv Hval0 Hcall1b) as Hr1.
  change (varprefix (rc f0)) with (varprefix (rc f)) in Hr1.
  rewrite Htrue in Hr1. simpl Ascii.eqb in Hr1. cbv iota in Hr1.
  rewrite app_empty_l in Hr1. unfold b3 in Hr1.
  change (String.length "") with 0 in Hr1.
  unfold MY in Hr1 at 1. rewrite skip_nested in Hr1 by done. fold MY in Hr1.
  fold b3 in Hr1.
  set (f1 := with_rc (with_visited F1 (visited F1 ∖ {[key]}))
               (set (rc F1) key (MY ++ A ++ "%{}"))) in *.
  (* the frame after it *)
  assert (Hdir0 : has_directive (get (rc f0) key)).
  { unfold has_directive. rewrite Hval0, app_empty_l, scan_test_marker
      by (done || by left). done. }
  destruct (call_frame b3 key _ f0 F1 Hok0 Hin Hdir0 Hnv Hcall1b)
    as (HvalF & HinF & HvisF & Hne & HpreF).
  assert (Hok1 : active_ok f1).
  { intros x Hx. simpl in Hx. rewrite HvisF in Hx.
    apply resolve_keeps_frame in Hcall1b as [(_ & _ & Hk1 & _) _];
      [|by apply active_ok_calling].
    destruct (Hk1 x) as [Hgx Hhx]; [simpl; set_solver|].
    split; [done|]. simpl. rewrite get_set_ne by (intros ->; done).
    rewrite Hgx. by apply Hok0. }
  assert (Hnv1 : key ∉ visited f1) by (simpl; rewrite HvisF; done).
  assert (Hval1 : get (rc f1) key
                  = "" ++ ("%{" ++ String "?" Y ++ "}") ++ A ++ "%{}").
  { simpl. by rewrite get_set_eq. }
  (* the round of [%{?Y}] *)
  assert (Hcall2' : resolve_delayed_recurse b3 (target (varprefix (rc f1)) Y)
                      (calling key f1) = Returned F2).
  { replace (varprefix (rc f1)) with (varprefix (rc f))
      by (simpl; by rewrite HpreF).
    unfold f1, MY. by rewrite !app_assoc_str. }
  pose proof (cond_round "?" Y "" _ key f1 b3 0 F2 ltac:(by left) HY
                ltac:(done) ltac:(simpl; lia) Hok1 HinF Hnv1 Hval1 Hcall2') as Hr2.
  replace (varprefix (rc f1)) with (varprefix (rc f)) in Hr2
    by (simpl; by rewrite HpreF).
  rewrite Hfalse in Hr2. simpl Ascii.eqb in Hr2. cbv iota in Hr2.
  rewrite app_empty_l in Hr2. unfold b3 in Hr2.
  change (String.length "") with 0 in Hr2.
  rewrite <- (marker_length "?" Y) in Hr2.
  rewrite skip_dropped in Hr2 by (done || apply test_marker_ends).
  fold b3 in Hr2.
  (* three rounds *)
  unfold b3 at 1. rewrite (loop_again _ _ _ _ _ _ Hr1), (loop_again _ _ _ _ _ _ Hr2).
  erewrite loop_done.
  2:{ apply round_not_found. simpl. by rewrite get_set_eq. }
  eexists. split; [done|]. simpl. by rewrite get_set_eq.
Qed.

(** ** Indirect names *)

Lemma plain_type_star (R : string) : plain_type (String "*" R) = DelayedVariable.
Proof. reflexivity. Qed.

(** C8 (amended): a directive whose name begins with [*] refers to the key
    made of [varprefix] and the rest of the name.  [varprefix] is a string
    of the object: it is put before the rest as it is, no key is looked up
    or resolved for it.  [referenced_name] says so for [%{*R}], [%{?*R}]
    and [%{!*R}], and a value [%{*R}] resolves to the resolved value of the
    key [varprefix ++ R].  With the prefix [foo_], [%{*bar}] resolves the
    key [foo_bar].  At such a directive [read_undelayed] joins the keys
    made of each of its two prefixes and the rest of the name. *)
Theorem star_name_resolves_prefixed_key (R : string) (key : string)
    (f : Frame) (n : nat) (F' : Frame) :
  all_name_chars R = true ->
  active_ok f -> key ∈ has_reference f -> (key ∉ visited f) ->
  get (rc f) key = "%{*" ++ R ++ "}" ->
  resolve_delayed_recurse n (varprefix (rc f) ++ R)
    (calling key (with_rc f (touch (rc f) key))) = Returned F' ->
  (forall k, n + 3 <= k ->
     exists f', resolve_delayed_recurse k key f = Returned f'
       /\ get (rc f') key = get (rc F') (varprefix (rc f) ++ R))
  /\ (forall r rest,
        referenced_name r ("%{*" ++ R ++ "}" ++ rest) DelayedVariable 0
          (String.length R + 4) = varprefix r ++ R)
  /\ (forall r rest,
        referenced_name r ("%{?*" ++ R ++ "}" ++ rest) DelayedIf 0
          (String.length R + 5) = varprefix r ++ R)
  /\ (forall r rest,
        referenced_name r ("%{!*" ++ R ++ "}" ++ rest) DelayedNotif 0
          (String.length R + 5) = varprefix r ++ R)
  /\ (forall E D full w tm rest st,
        find_next_delayed ("%{*" ++ R ++ "}" ++ rest) 0
        = (DelayedVariable, 0, String.length R + 4)
        /\ (join_names E D full w tm ("%{*" ++ R ++ "}" ++ rest) 2
              (String.length R + 4 - 2) st).1
           = join_delayed w (D ++ R) (join_delayed w (E ++ R) st tm) tm).
Proof.
  intros HR Hok Hin Hnv Hval Hcall.
  assert (Hname : is_name (String "*" R) = true) by done.
  split_and!.
  - intros k Hk. destruct k as [|[|[|b]]]; try lia.
    rewrite resolve_delayed_recurse_unfold. cbv zeta.
    set (f0 := with_rc f (touch (rc f) key)) in *.
    rewrite decide_True by done.
    pose proof (resolve_mono n (S (S b)) _ _ _ Hcall ltac:(done) ltac:(lia))
      as Hcallb.
    assert (Hval0 : get (rc f0) key = "" ++ ("%{" ++ String "*" R ++ "}") ++ "").
    { unfold f0. simpl. rewrite get_touch, Hval, app_empty_l.
      by rewrite !app_assoc_str. }
    pose proof (subst_round (String "*" R) "" "" key f0 (S (S b)) 0 F' Hname
                  (plain_type_star R) ltac:(done) ltac:(simpl; lia)
                  (active_ok_touch _ _ Hok) Hin Hnv Hval0 Hcallb) as Hr.
    cbv zeta in Hr. simpl target in Hr.
    change (varprefix (rc f0)) with (varprefix (rc f)) in Hr.
    rewrite (loop_again _ _ _ _ _ _ Hr).
    erewrite loop_done.
    2:{ apply round_not_found. simpl. rewrite get_set_eq, app_empty_l, app_empty_r.
        apply scan_beyond. lia. }
    eexists. split; [done|]. simpl.
    by rewrite get_set_eq, app_empty_l, app_empty_r.
  - intros r rest.
    replace (String.length R + 4) with (String.length (String "*" R) + 3)
      by (simpl; lia).
    exact (referenced_name_variable r (String "*" R) rest Hname).
  - intros r rest.
    replace (String.length R + 5) with (String.length (String "*" R) + 4)
      by (simpl; lia).
    exact (referenced_name_test r "?" (String "*" R) rest DelayedIf
             (or_introl eq_refl) Hname).
  - intros r rest.
    replace (String.length R + 5) with (String.length (String "*" R) + 4)
      by (simpl; lia).
    exact (referenced_name_test r "!" (String "*" R) rest DelayedNotif
             (or_intror eq_refl) Hname).
  - intros E D full w tm rest st. split.
    + change ("%{*" ++ R ++ "}" ++ rest)
        with ("%{" ++ String "*" R ++ "}" ++ rest).
      rewrite (scan_variable (String "*" R) rest Hname).
      rewrite plain_type_star. f_equal. simpl. lia.
    + unfold join_names.
      change ("%{*" ++ R ++ "}" ++ rest)
        with (String "%" (String "{" (String "*" (R ++ "}" ++ rest)))).
      rewrite !at_S, at_0. cbn [Ascii.eqb Bool.eqb andb]. cbv iota. cbn [fst].
      replace (2 + 1) with 3 by lia.
      replace (String.length R + 4 - 2 - 2) with (String.length R) by lia.
      by rewrite !substr_cons, substr_prefix.
Qed.

Lemma star_name_resolves_prefixed_key_witness :
  exists f',
    resolve_delayed_recurse 4 "K"
      (example_frame "foo_" [("K", "%{*bar}"); ("foo_bar", "baz"); ("bar", "no")]
         ["K"])
    = Returned f'
    /\ get (rc f') "K" = "baz".
Proof.
  set (f := example_frame "foo_"
              [("K", "%{*bar}"); ("foo_bar", "baz"); ("bar", "no")] ["K"]).
  set (G := calling "K" (with_rc f (touch (rc f) "K"))).
  destruct (star_name_resolves_prefixed_key "bar" "K" f 1
              (with_rc G (touch (rc G) "foo_bar"))) as [Hres _].
  - reflexivity.
  - intros k Hk. by apply not_elem_of_empty in Hk.
  - vm_compute. reflexivity.
  - apply not_elem_of_empty.
  - reflexivity.
  - reflexivity.
  - destruct (Hres 4) as (f' & H1 & H2); [lia|]. exists f'. split; [done|].
    rewrite H2. reflexivity.
Defined.

(** The prefix is not a key.  With [varprefix = P] and a key [P] whose
    value is [foo_], [%{*bar}] resolves the key [Pbar] and not the key
    [foo_bar]; with [varprefix = %{Q}] and a key [Q] whose value is [foo_],
    it resolves the key [%{Q}bar]: the prefix is not resolved either. *)
Lemma prefix_is_not_a_resolved_key :
  (let f := example_frame "P"
              [("K", "%{*bar}"); ("P", "foo_"); ("foo_bar", "right");
               ("Pbar", "left")] ["K"; "P"] in
   exists f0 f',
     resolve_delayed_recurse 4 "P" f = Returned f0
     /\ get (rc f0) "P" = "foo_"
     /\ resolve_delayed_recurse 4 "K" f = Returned f'
     /\ get (rc f') "K" = "left"
     /\ get (rc f') "foo_bar" = "right")
  /\ (let f := example_frame "%{Q}"
                 [("K", "%{*bar}"); ("Q", "foo_"); ("foo_bar", "right");
                  ("%{Q}bar", "left")] ["K"] in
      exists f',
        resolve_delayed_recurse 4 "K" f = Returned f'
        /\ get (rc f') "K" = "left"
        /\ get (rc f') "foo_bar" = "right").
Proof.
  split.
  - eexists _, _. split_and!; [vm_compute; reflexivity|reflexivity|
      vm_compute; reflexivity|reflexivity|reflexivity].
  - eexists. split_and!; [vm_compute; reflexivity|reflexivity|reflexivity].
Qed.

(** ** Cycles *)

(** A key that is being expanded further up is not expanded again: the call
    fails at its first round, with the error of the first marker of the
    key's value. *)
Lemma reentry_fails (key : string) (f : Frame) :
  active_ok f -> key ∈ visited f ->
  exists errtext,
    (forall k, 2 <= k -> resolve_delayed_recurse k key f = Null errtext key)
    /\ let ty := (find_next_delayed (get (rc f) key) 0).1.1 in
       (refers ty /\ errtext = "self-reference")
       \/ (ty = DelayedFi /\ errtext = "FI without IF")
       \/ (ty = DelayedElse /\ errtext = "ELSE without IF").
Proof.
  intros Hok Hv. destruct (Hok key Hv) as [Hin Hdir]. unfold has_directive in Hdir.
  set (f0 := with_rc f (touch (rc f) key)).
  assert (get (rc f0) key = get (rc f) key) as Hval0
    by (unfold f0; simpl; by rewrite get_touch).
  destruct (find_next_delayed (get (rc f) key) 0) as [[ty p] len] eqn:Hscan.
  simpl in Hdir. simpl.
  assert (Hrun : forall errtext,
    (forall rec b, resolve_delayed_round rec b key 0 f0 = Done (Null errtext key)) ->
    forall k, 2 <= k -> resolve_delayed_recurse k key f = Null errtext key).
  { intros errtext Hr k Hk. destruct k as [|[|b]]; try lia.
    rewrite resolve_delayed_recurse_unfold. cbv zeta. fold f0.
    rewrite decide_True by done. by apply loop_done. }
  rewrite <- Hval0 in Hscan.
  pose proof (fun rec b =>
    resolve_delayed_round_unfold rec b key 0 f0 ty p len Hscan) as Hround.
  destruct ty; try done.
  - exists "self-reference". split; [|left; unfold refers; tauto].
    apply Hrun. intros. rewrite Hround. by rewrite decide_True.
  - exists "self-reference". split; [|left; unfold refers; tauto].
    apply Hrun. intros. rewrite Hround. by rewrite decide_True.
  - exists "self-reference". split; [|left; unfold refers; tauto].
    apply Hrun. intros. rewrite Hround. by rewrite decide_True.
  - exists "ELSE without IF". split; [|right; right; done].
    apply Hrun. intros. by rewrite Hround.
  - exists "FI without IF". split; [|right; left; done].
    apply Hrun. intros. by rewrite Hround.
Qed.

Lemma scan_variable_only (x : string) :
  is_name x = true -> plain_type x = DelayedVariable ->
  find_next_delayed ("%{" ++ x ++ "}") 0 = (DelayedVariable, 0, String.length x + 3).
Proof.
  intros Hx Hp. change ("%{" ++ x ++ "}") with ("%{" ++ x ++ "}" ++ "").
  by rewrite scan_variable, Hp.
Qed.

(** The round of a key whose value is [%{x}] passes on the error of the call
    for the key of [x]. *)
Lemma subst_round_fails (x : string) (key : string) (f : Frame) (b : nat)
    (errtext errvar : string) :
  is_name x = true -> plain_type x = DelayedVariable ->
  (key ∉ visited f) ->
  get (rc f) key = "%{" ++ x ++ "}" ->
  resolve_delayed_recurse b (target (varprefix (rc f)) x) (calling key f)
  = Null errtext errvar ->
  resolve_delayed_round (resolve_delayed_recurse b) b key 0 f
  = Done (Null errtext errvar).
Proof.
  intros Hx Hp Hnv Hval Hcall.
  assert (Hscan : find_next_delayed (get (rc f) key) 0
                  = (DelayedVariable, 0, String.length x + 3)).
  { rewrite Hval. by apply scan_variable_only. }
  rewrite (resolve_delayed_round_unfold _ _ _ _ _ _ _ _ Hscan).
  rewrite decide_False by done. cbv zeta.
  rewrite Hval.
  change ("%{" ++ x ++ "}") with ("%{" ++ x ++ "}" ++ "").
  rewrite referenced_name_variable by done.
  unfold calling in Hcall. by rewrite Hcall.
Qed.

(** Two keys that refer to each other. *)
Lemma cycle_pair (a b : string) (f : Frame) :
  is_name a = true -> plain_type a = DelayedVariable ->
  target (varprefix (rc f)) a = a ->
  is_name b = true -> plain_type b = DelayedVariable ->
  target (varprefix (rc f)) b = b ->
  active_ok f -> (a ∉ visited f) -> (b ∉ visited f) ->
  a ∈ has_reference f -> b ∈ has_reference f ->
  get (rc f) a = "%{" ++ b ++ "}" -> get (rc f) b = "%{" ++ a ++ "}" ->
  forall k, 4 <= k -> resolve_delayed_recurse k a f = Null "self-reference" a.
Proof.
  intros Ha Hpa Hta Hb Hpb Htb Hok Hnva Hnvb Hina Hinb Hvala Hvalb k Hk.
  destruct k as [|[|[|[|k]]]]; try lia.
  (* the call for [a] *)
  rewrite resolve_delayed_recurse_unfold. cbv zeta.
  set (f0 := with_rc f (touch (rc f) a)).
  rewrite decide_True by done.
  assert (Hok0 : active_ok f0) by (by apply active_ok_touch).
  assert (Hval0a : get (rc f0) a = "%{" ++ b ++ "}")
    by (unfold f0; simpl; by rewrite get_touch).
  assert (Hval0b : get (rc f0) b = "%{" ++ a ++ "}")
    by (unfold f0; simpl; by rewrite get_touch).
  apply loop_done. apply (subst_round_fails b); try done.
  change (varprefix (rc f0)) with (varprefix (rc f)). rewrite Htb.
  (* the call for [b] *)
  set (F := calling a f0).
  assert (HokF : active_ok F).
  { apply active_ok_calling; try done. unfold has_directive.
    by rewrite Hval0a, scan_variable_only. }
  rewrite resolve_delayed_recurse_unfold. cbv zeta.
  set (g0 := with_rc F (touch (rc F) b)).
  rewrite decide_True by done.
  assert (Hokg : active_ok g0) by (by apply active_ok_touch).
  assert (Hvalga : get (rc g0) a = "%{" ++ b ++ "}")
    by (unfold g0; simpl; by rewrite get_touch).
  assert (Hvalgb : get (rc g0) b = "%{" ++ a ++ "}")
    by (unfold g0; simpl; by rewrite get_touch).
  apply loop_done.
  destruct (decide (b ∈ visited g0)) as [Hvb|Hnvb'].
  { (* [b] is [a] *)
    assert (b = a) as -> by (simpl in Hvb; set_solver).
    assert (Hscan : find_next_delayed (get (rc g0) a) 0
                    = (DelayedVariable, 0, String.length a + 3)).
    { rewrite Hvalga. by apply scan_variable_only. }
    rewrite (resolve_delayed_round_unfold _ _ _ _ _ _ _ _ Hscan).
    by rewrite decide_True. }
  apply (subst_round_fails a); try done.
  change (varprefix (rc g0)) with (varprefix (rc f)). rewrite Hta.
  (* the call for [a] again *)
  set (G := calling b g0).
  assert (HokG : active_ok G).
  { apply active_ok_calling; try done. unfold has_directive.
    by rewrite Hvalgb, scan_variable_only. }
  destruct (reentry_fails a G HokG) as (errtext & Hfail & Hcase).
  { simpl. set_solver. }
  rewrite Hfail by lia.
  change (get (rc G) a) with (get (rc g0) a) in Hcase.
  rewrite Hvalga, scan_variable_only in Hcase by done. simpl in Hcase.
  destruct Hcase as [[_ ->]|[[? _]|[? _]]]; done.
Qed.

(** A round calls for another key only with its own key put into
    [visited]. *)
Lemma round_calls_with_key (rec1 rec2 : string -> Frame -> Outcome)
    (fuel : nat) (key : string) (pos : nat) (g : Frame) :
  (forall name G, visited G = {[key]} ∪ visited g -> rec1 name G = rec2 name G) ->
  resolve_delayed_round rec1 fuel key pos g
  = resolve_delayed_round rec2 fuel key pos g.
Proof.
  intros Hsame.
  destruct (find_next_delayed (get (rc g) key) pos) as [[ty p] len] eqn:Hscan.
  rewrite !(resolve_delayed_round_unfold _ _ _ _ _ _ _ _ Hscan).
  destruct ty; try done; (destruct (decide _); [done|]); cbv zeta;
    by rewrite Hsame.
Qed.

(** C2 (as amended): two keys whose values are [%{b}] and [%{a}] both fail
    with [self-reference], each naming itself; every call ends,
    whatever the map: with enough fuel it returns or reports an error; a call
    for a key that is being expanded further up fails at once and names that
    key, with [self-reference] when the first marker of its value is a
    variable or a conditional, and with the error of that marker when it is
    a stray [%{}] or [%{else}]; a round calls for another key only with its
    own key added to [visited], and a call that returns leaves [visited] as
    it found it. *)
Theorem cycle_is_reported (a b : string) (f : Frame) :
  is_name a = true -> plain_type a = DelayedVariable ->
  target (varprefix (rc f)) a = a ->
  is_name b = true -> plain_type b = DelayedVariable ->
  target (varprefix (rc f)) b = b ->
  active_ok f -> (a ∉ visited f) -> (b ∉ visited f) ->
  a ∈ has_reference f -> b ∈ has_reference f ->
  get (rc f) a = "%{" ++ b ++ "}" -> get (rc f) b = "%{" ++ a ++ "}" ->
  (forall k, 4 <= k ->
     resolve_delayed_recurse k a f = Null "self-reference" a
     /\ resolve_delayed_recurse k b f = Null "self-reference" b)
  /\ (forall key g, active_ok g ->
        exists N o, settled o
          /\ forall n, N <= n -> resolve_delayed_recurse n key g = o)
  /\ (forall key g, active_ok g -> key ∈ visited g ->
        exists errtext,
          (forall k, 2 <= k -> resolve_delayed_recurse k key g = Null errtext key)
          /\ let ty := (find_next_delayed (get (rc g) key) 0).1.1 in
             (refers ty /\ errtext = "self-reference")
             \/ (ty = DelayedFi /\ errtext = "FI without IF")
             \/ (ty = DelayedElse /\ errtext = "ELSE without IF"))
  /\ (forall rec1 rec2 fuel key pos g,
        (forall name G, visited G = {[key]} ∪ visited g ->
                        rec1 name G = rec2 name G) ->
        resolve_delayed_round rec1 fuel key pos g
        = resolve_delayed_round rec2 fuel key pos g)
  /\ (forall n key g g', active_ok g ->
        resolve_delayed_recurse n key g = Returned g' -> visited g' = visited g).
Proof.
  intros Ha Hpa Hta Hb Hpb Htb Hok Hnva Hnvb Hina Hinb Hvala Hvalb.
  split_and!.
  - intros k Hk. split; [by apply (cycle_pair a b)|by apply (cycle_pair b a)].
  - intros key g Hg. by apply resolve_total.
  - intros key g Hg Hv. by apply reentry_fails.
  - intros. by apply round_calls_with_key.
  - intros n key g g' Hg Hres.
    by apply resolve_keeps_frame in Hres as [(? & _) _].
Qed.

Lemma cycle_is_reported_witness :
  let f := example_frame "" [("A", "%{B}"); ("B", "%{A}")] ["A"; "B"] in
  resolve_delayed_recurse 4 "A" f = Null "self-reference" "A"
  /\ resolve_delayed_recurse 4 "B" f = Null "self-reference" "B".
Proof.
  intros f.
  destruct (cycle_is_reported "A" "B" f) as [H _].
  - reflexivity.
  - reflexivity.
  - reflexivity.
  - reflexivity.
  - reflexivity.
  - reflexivity.
  - intros k Hk. by apply not_elem_of_empty in Hk.
  - apply not_elem_of_empty.
  - apply not_elem_of_empty.
  - vm_compute. reflexivity.
  - vm_compute. reflexivity.
  - reflexivity.
  - reflexivity.
  - apply H. lia.
Defined.

(** The key [A] depends on itself, yet the error is not [self-reference]:
    the [%{}] that the value of [B] brought in comes first. *)
Lemma self_dependency_reported_as_fi_without_if :
  resolve_delayed_recurse 5 "A"
    (example_frame "" [("A", "%{B}%{A}"); ("B", "%{}")] ["A"])
  = Null "FI without IF" "A".
Proof. vm_compute. reflexivity. Qed.

(** ** The escaped opener *)

Lemma find_next_delayed_not_escaped (str : string) (pos : nat)
    (ty : DelayedType) (p len : nat) :
  find_next_delayed str pos = (ty, p, len) -> ty <> DelayedNotFound ->
  escaped str p = false.
Proof.
  intros Hscan Hty.
  destruct (find_next_delayed_cases str pos)
    as [[H _]|(ty' & p' & len' & H & _ & _ & Hd & _)]; [congruence|].
  rewrite Hscan in H. injection H as <- <- <-.
  unfold directive_at in Hd. case_decide; [|done].
  by destruct (escaped str p).
Qed.

Lemma at_app_plain (t rest : string) (q : nat) :
  no_percent t = true -> rest = "" \/ rest = "}" ->
  Str.at_ (t ++ rest) q <> "%"%char.
Proof.
  intros Ht Hrest. destruct (decide (q < String.length t)).
  - rewrite at_app_l by done. by apply no_percent_at.
  - replace q with (String.length t + (q - String.length t)) by lia.
    rewrite at_app_r. destruct Hrest as [-> | ->].
    + by rewrite at_beyond by (simpl; lia).
    + destruct (q - String.length t) as [|[|i]]; try done.
Qed.

(** In [%%{X}] the scanner finds nothing. *)
Lemma scan_escaped (X : string) (pos : nat) :
  no_percent X = true ->
  find_next_delayed ("%%{" ++ X ++ "}") pos = (DelayedNotFound, 0, 0).
Proof.
  intros HX. apply find_next_delayed_not_found. intros q _.
  destruct q as [|[|q]].
  - unfold directive_at. by rewrite decide_False.
  - unfold directive_at. case_decide; [|done]. done.
  - apply directive_at_not_percent.
    change ("%%{" ++ X ++ "}") with (String "%" (String "%" ("{" ++ X ++ "}"))).
    rewrite !at_S. destruct q as [|q]; [done|].
    change ("{" ++ X ++ "}") with (String "{" (X ++ "}")). rewrite at_S.
    apply at_app_plain; auto.
Qed.

Lemma occurs_not_percent (pat s : string) (q : nat) (c : ascii) (rest : string) :
  pat = String "%" rest -> Str.at_ s q <> "%"%char -> ~ occurs pat s q.
Proof.
  intros -> Hat Ho. unfold occurs in Ho. apply Hat. rewrite at_chars.
  pose proof (lookup_drop (chars s) q 0) as Hl. rewrite Nat.add_0_r in Hl.
  rewrite <- Hl. simpl in Ho.
  destruct (drop q (chars s)) as [|d l]; [done|]. simpl in *. congruence.
Qed.

(** The last pass of [read] turns [%%{X}] into [%{X}]. *)
Lemma unescape_escaped (X : string) :
  no_percent X = true -> unescape ("%%{" ++ X ++ "}") = "%{" ++ X ++ "}".
Proof.
  intros HX. unfold unescape.
  change (String.length ("%%{" ++ X ++ "}"))
    with (S (S (String.length ("{" ++ X ++ "}")))).
  cbn [unescape_loop].
  assert (Str.find ("%%{" ++ X ++ "}") "%%{" 0 = Some 0) as ->.
  { apply find_Some; [done|]. split; [lia|]. split; [done|]. intros; lia. }
  assert (Str.erase ("%%{" ++ X ++ "}") 0 1 = "%{" ++ X ++ "}") as ->.
  { apply (erase_head "%" ("%{" ++ X ++ "}")). done. }
  assert (Str.find ("%{" ++ X ++ "}") "%%{" (0 + 2) = None) as ->; [|done].
  apply find_None; [done|]. intros q Hq.
  apply (occurs_not_percent _ _ _ "%" "%{"); [done|].
  change ("%{" ++ X ++ "}") with (String "%" (String "{" (X ++ "}"))).
  destruct q as [|[|q]]; try lia. rewrite !at_S.
  apply at_app_plain; auto.
Qed.

(** ** Texts with escaped openers between them *)

Lemma glue_length (sep t : string) (ts : list string) :
  length ts * String.length sep <= String.length (glue sep t ts).
Proof.
  revert t. induction ts as [|u ts IH]; intros t; cbn [glue length]; [lia|].
  rewrite !str_length_app. specialize (IH u). lia.
Qed.

(** Nowhere in such a value is there a directive. *)
Lemma glue_no_directive (ts : list string) :
  forall (t : string) (q : nat),
    no_percent t = true -> Forall (fun u => no_percent u = true) ts ->
    directive_at (glue "%%{" t ts) q = None.
Proof.
  induction ts as [|u ts IH]; intros t q Ht Hts; cbn [glue].
  - apply directive_at_not_percent. by apply no_percent_at.
  - apply Forall_cons in Hts as [Hu Hts].
    set (G := glue "%%{" u ts).
    destruct (decide (q < String.length t)) as [Hlt|Hge].
    { apply directive_at_not_percent. rewrite at_app_l by done.
      by apply no_percent_at. }
    replace q with (String.length t + (q - String.length t)) by lia.
    destruct (q - String.length t) as [|[|[|i]]].
    + unfold directive_at. rewrite decide_False; [done|].
      rewrite occurs_opener. intros (_ & H & _).
      replace (S (String.length t + 0)) with (String.length t + 1) in H by lia.
      rewrite at_app_r in H. by vm_compute in H.
    + unfold directive_at. case_decide; [|done].
      assert (escaped (t ++ "%%{" ++ G) (String.length t + 1) = true) as ->;
        [|done].
      unfold escaped. replace (String.length t + 1 - 1)
        with (String.length t + 0) by lia.
      rewrite at_app_r. apply andb_true_iff. split; [|done].
      apply Nat.ltb_lt. lia.
    + apply directive_at_not_percent. by rewrite at_app_r.
    + replace (String.length t + S (S (S i)))
        with (String.length (t ++ "%%{") + i) by (rewrite str_length_app; simpl; lia).
      rewrite <- app_assoc_str. rewrite directive_at_shift.
      * by apply IH.
      * right. exact (ends_percent_app t "%%{" ltac:(done)).
Qed.

Lemma scan_glue (t : string) (ts : list string) (pos : nat) :
  no_percent t = true -> Forall (fun u => no_percent u = true) ts ->
  find_next_delayed (glue "%%{" t ts) pos = (DelayedNotFound, 0, 0).
Proof.
  intros Ht Hts. apply find_next_delayed_not_found. intros q _.
  by apply glue_no_directive.
Qed.

(** The last pass of [read] takes one [%] from every [%%{]. *)
Lemma unescape_loop_glue (ts : list string) :
  forall (t A : string) (fuel : nat),
    no_percent t = true -> Forall (fun u => no_percent u = true) ts ->
    length ts <= fuel ->
    unescape_loop fuel (A ++ glue "%%{" t ts) (String.length A)
    = A ++ glue "%{" t ts.
Proof.
  induction ts as [|u ts IH]; intros t A fuel Ht Hts Hfuel; cbn [glue].
  - destruct fuel as [|fuel]; [done|]. cbn [unescape_loop].
    assert (Str.find (A ++ t) "%%{" (String.length A) = None) as ->; [|done].
    apply find_None; [done|]. intros q Hq.
    apply (occurs_not_percent _ _ _ "%" "%{"); [done|].
    replace q with (String.length A + (q - String.length A)) by lia.
    rewrite at_app_r. by apply no_percent_at.
  - apply Forall_cons in Hts as [Hu Hts].
    destruct fuel as [|fuel]; [simpl in Hfuel; lia|]. cbn [unescape_loop].
    set (G := glue "%%{" u ts).
    assert (Str.find (A ++ t ++ "%%{" ++ G) "%%{" (String.length A)
            = Some (String.length A + String.length t)) as ->.
    { apply find_Some; [done|]. split_and!; [lia| |].
      - rewrite <- app_assoc_str, <- str_length_app.
        replace (String.length (A ++ t)) with (String.length (A ++ t) + 0)
          by lia.
        apply occurs_shift. unfold occurs. by vm_compute.
      - intros q Hq. apply (occurs_not_percent _ _ _ "%" "%{"); [done|].
        replace q with (String.length A + (q - String.length A)) by lia.
        rewrite at_app_r, at_app_l by lia. by apply no_percent_at. }
    replace (A ++ t ++ "%%{" ++ G) with ((A ++ t) ++ "%" ++ "%{" ++ G)
      by (by rewrite app_assoc_str).
    rewrite (erase_mid (A ++ t) "%" ("%{" ++ G))
      by (done || by rewrite str_length_app).
    replace (String.length A + String.length t + 2)
      with (String.length ((A ++ t) ++ "%{"))
      by (rewrite !str_length_app; simpl; lia).
    rewrite <- app_assoc_str. unfold G.
    rewrite IH; [|done|done|simpl in Hfuel; lia].
    by rewrite !app_assoc_str.
Qed.

Lemma unescape_glue (t : string) (ts : list string) :
  no_percent t = true -> Forall (fun u => no_percent u = true) ts ->
  unescape (glue "%%{" t ts) = glue "%{" t ts.
Proof.
  intros Ht Hts. unfold unescape.
  rewrite <- (app_empty_l (glue "%%{" t ts)) at 2.
  rewrite (unescape_loop_glue ts t "" _ Ht Hts); [by rewrite app_empty_l|].
  pose proof (glue_length "%%{" t ts) as H. simpl in H. lia.
Qed.

(** C5: the scanner never classifies an opener [%{] that follows a [%] as a
    directive; so a value of texts without [%] with [%%{] between them goes
    through [resolve_delayed_recurse] untouched, whether its key is in
    [has_reference] or not, and the last pass of [read] turns every [%%{]
    of it into [%{]; [%%{X}] is such a value, and [read] on a configuration
    whose only option has the default [%%{X}] ends with the value [%{X}]. *)
Theorem escaped_opener_round_trip (t : string) (ts : list string)
    (key : string) (f : Frame) :
  no_percent t = true -> Forall (fun u => no_percent u = true) ts ->
  get (rc f) key = glue "%%{" t ts ->
  (forall str pos ty p len,
     find_next_delayed str pos = (ty, p, len) -> ty <> DelayedNotFound ->
     ~ (0 < p /\ Str.at_ str (p - 1) = "%"%char))
  /\ (forall n, 2 <= n ->
        exists f', resolve_delayed_recurse n key f = Returned f'
          /\ get (rc f') key = glue "%%{" t ts
          /\ unescape (get (rc f') key) = glue "%{" t ts)
  /\ (forall X, glue "%%{" "" [X ++ "}"] = "%%{" ++ X ++ "}"
               /\ glue "%{" "" [X ++ "}"] = "%{" ++ X ++ "}")
  /\ (forall full,
        read_map (read "EIX_" "DIFF_" full 2 empty_world
                    (example_config [("K", "%%{X}")]))
          ≫= (.!! "K") = Some "%{X}").
Proof.
  intros Ht Hts Hval. split_and!.
  - intros str pos ty p len Hscan Hty [Hp Hat].
    pose proof (find_next_delayed_not_escaped _ _ _ _ _ Hscan Hty) as He.
    unfold escaped in He. apply andb_false_iff in He as [He|He].
    + apply Nat.ltb_ge in He. lia.
    + apply Ascii.eqb_neq in He. done.
  - intros n Hn. destruct n as [|[|b]]; try lia.
    rewrite resolve_delayed_recurse_unfold. cbv zeta.
    set (f0 := with_rc f (touch (rc f) key)).
    assert (get (rc f0) key = glue "%%{" t ts) as Hval0
      by (unfold f0; simpl; by rewrite get_touch).
    case_decide.
    + erewrite loop_done.
      2:{ apply round_not_found. rewrite Hval0. by apply scan_glue. }
      eexists. split; [done|]. split; [exact Hval0|].
      change (unescape (get (rc f0) key) = glue "%{" t ts).
      rewrite Hval0. by apply unescape_glue.
    + eexists. split; [done|]. split; [exact Hval0|].
      rewrite Hval0. by apply unescape_glue.
  - intros X. cbn [glue]. by rewrite !app_empty_l.
  - intros full. vm_compute. reflexivity.
Qed.

Lemma escaped_opener_round_trip_witness :
  exists f',
    resolve_delayed_recurse 2 "K" (example_frame "" [("K", "%%{X}")] ["K"])
    = Returned f'
    /\ unescape (get (rc f') "K") = "%{X}".
Proof.
  destruct (escaped_opener_round_trip "" ["X}"] "K"
              (example_frame "" [("K", "%%{X}")] ["K"])) as (_ & H & _).
  - reflexivity.
  - by repeat constructor.
  - reflexivity.
  - destruct (H 2) as (f' & H1 & _ & H2); [lia|]. by exists f'.
Defined.

(** ** The cursor *)

Lemma substr_erase_before (v : string) (a n L : nat) :
  L <= a -> Str.substr (Str.erase v a n) 0 L = Str.substr v 0 L.
Proof.
  intros H. apply chars_inj. rewrite !substr_chars, erase_chars, !drop_0.
  destruct (decide (L <= length (chars v))).
  - rewrite take_app_le by (rewrite length_take; lia).
    rewrite take_take. f_equal. lia.
  - rewrite (take_ge (chars v) a) by lia.
    rewrite drop_ge by lia. by rewrite app_nil_r.
Qed.

Lemma substr_from_replace (v s : string) (p len : nat) :
  p + len <= String.length v ->
  Str.substr_from (Str.replace v p len s) (p + String.length s)
  = Str.substr_from v (p + len).
Proof.
  intros H. apply chars_inj. rewrite !substr_from_chars, replace_chars.
  rewrite <- chars_length in *. rewrite app_assoc.
  apply drop_app_length'. rewrite length_app, length_take. lia.
Qed.

(** The search for the matching [%{}] edits nothing before the place where
    the conditional began. *)
Lemma skip_loop_prefix (fuel : nat) (result : bool) (v : string)
    (skippos : nat) (delpos : option nat) (gotelse : bool) (count : N)
    (L : nat) (v' : string) :
  L <= skippos -> (forall d, delpos = Some d -> L <= d) ->
  skip_loop fuel result v skippos delpos gotelse count = Matched v' ->
  Str.substr v' 0 L = Str.substr v 0 L.
Proof.
  revert v skippos delpos gotelse count.
  induction fuel as [|fuel IH]; intros v skippos delpos gotelse count HL Hd;
    [done|].
  rewrite skip_loop_unfold.
  destruct (find_next_delayed v skippos) as [[ty p] len] eqn:Hscan.
  destruct (decide (ty = DelayedNotFound)) as [->|Hty]; [done|].
  apply find_next_delayed_span in Hscan as (? & ? & ?); [|done].
  assert (Hcont : forall c, skip_loop fuel result v (p + len) delpos gotelse c
                            = Matched v' -> Str.substr v' 0 L = Str.substr v 0 L).
  { intros c. apply IH; [lia|done]. }
  destruct ty; try done; try apply Hcont.
  - destruct (negb (count =? 0)%N); [apply Hcont|]. destruct gotelse; [done|].
    destruct result.
    + intros Hs. apply IH in Hs; [|lia|intros d [= <-]; lia].
      rewrite Hs. apply substr_erase_before. lia.
    + destruct delpos as [d|]; [|done]. intros Hs.
      apply IH in Hs; [|specialize (Hd d eq_refl); lia|done].
      rewrite Hs. apply substr_erase_before. by apply Hd.
  - destruct (negb (count =? 0)%N); [apply Hcont|].
    destruct delpos as [d|]; intros [= <-]; apply substr_erase_before.
    + by apply Hd.
    + lia.
Qed.

(** C6 (as amended): after a plain variable directive the value of the
    referenced key stands in the directive's place and the cursor is just
    behind it, so that what follows the cursor is what followed the
    directive; after a conditional block the cursor stays where the block
    began, which is where the retained text begins, and nothing before it
    has changed; and the scanner, started at any cursor, finds every
    directive that starts at or after it before it reports
    [DelayedNotFound]. *)
Theorem cursor_after_a_round (recurse : string -> Frame -> Outcome)
    (fuel : nat) (key : string) (pos : nat) (f : Frame)
    (ty : DelayedType) (p len : nat) (pos' : nat) (f' : Frame) :
  keeps_frame recurse -> active_ok f -> key ∈ has_reference f ->
  find_next_delayed (get (rc f) key) pos = (ty, p, len) ->
  resolve_delayed_round recurse fuel key pos f = Again pos' f' ->
  let v := get (rc f) key in
  let v' := get (rc f') key in
  (ty = DelayedVariable ->
   let s := get (rc f') (referenced_name (rc f) v ty p len) in
   v' = Str.replace v p len s /\ pos' = p + String.length s
   /\ Str.substr_from v' pos' = Str.substr_from v (p + len))
  /\ (ty = DelayedIf \/ ty = DelayedNotif ->
      pos' = p /\ Str.substr v' 0 p = Str.substr v 0 p)
  /\ (forall str cursor q,
        cursor <= q -> directive_at str q <> None ->
        (find_next_delayed str cursor).1.1 <> DelayedNotFound
        /\ (find_next_delayed str cursor).1.2 <= q).
Proof.
  intros Hrec Hok Hin Hscan Hround v v'.
  assert (Hreached : forall str cursor q,
    cursor <= q -> directive_at str q <> None ->
    (find_next_delayed str cursor).1.1 <> DelayedNotFound
    /\ (find_next_delayed str cursor).1.2 <= q).
  { intros str cursor q Hq Hd.
    destruct (find_next_delayed_cases str cursor)
      as [[_ Hnone]|(ty0 & p0 & len0 & -> & Hty0 & _ & Hd0 & Hmin)].
    - by rewrite Hnone in Hd.
    - simpl. split; [done|]. destruct (decide (p0 <= q)); [done|].
      rewrite Hmin in Hd by lia. done. }
  pose proof (round_again _ _ _ _ _ _ _ Hrec Hok Hin Hround) as (Hnv & _).
  assert (ty = DelayedVariable \/ ty = DelayedIf \/ ty = DelayedNotif ->
    exists F', recurse (referenced_name (rc f) v ty p len) (calling key f)
               = Returned F'
      /\ after_call fuel key ty p len (referenced_name (rc f) v ty p len) F'
         = Again pos' f') as Hcall.
  { intros Hty. rewrite (resolve_delayed_round_unfold _ _ _ _ _ _ _ _ Hscan) in Hround.
    assert ((let name := referenced_name (rc f) (get (rc f) key) ty p len in
             match recurse name (with_visited f ({[key]} ∪ visited f)) with
             | Returned f1 => after_call fuel key ty p len name f1
             | Null errtext errvar => Done (Null errtext errvar)
             | Thrown => Done Thrown
             | NoFuel => Done NoFuel
             end) = Again pos' f') as Hr.
    { destruct Hty as [->|[->| ->]]; by rewrite decide_False in Hround. }
    cbv zeta in Hr. fold v in Hr. unfold calling.
    destruct (recurse _ _) as [F'| | |]; try done. by exists F'. }
  assert (Hty : ty <> DelayedNotFound).
  { intros ->. by rewrite (resolve_delayed_round_unfold _ _ _ _ _ _ _ _ Hscan) in Hround. }
  pose proof (find_next_delayed_span _ _ _ _ _ Hscan Hty) as (Hp & Hlen & Hend).
  assert (Hdir : has_directive (get (rc f) key)).
  { unfold has_directive. apply (find_next_delayed_earlier _ pos); [lia|].
    by rewrite Hscan. }
  split_and!; [| |done].
  - intros ->. destruct Hcall as (F' & Hcall & Hafter); [by left|].
    destruct (Hrec _ _ _ (active_ok_calling key f Hok Hin Hdir) Hcall)
      as [(Hv & Hh & Hk & _) Hname].
    destruct (Hk key) as [Hval _]; [simpl; set_solver|].
    assert (referenced_name (rc f) v DelayedVariable p len <> key) as Hne.
    { intros Heq. apply Hname. rewrite Heq. simpl. set_solver. }
    unfold after_call in Hafter. simpl in Hafter. injection Hafter as <- <-.
    subst v'. simpl. rewrite get_set_eq, get_set_ne by done.
    change (rc (calling key f)) with (rc f) in Hval. rewrite Hval. fold v.
    split; [done|]. split; [done|].
    by apply substr_from_replace.
  - intros Hty'. destruct Hcall as (F' & Hcall & Hafter); [tauto|].
    destruct (Hrec _ _ _ (active_ok_calling key f Hok Hin Hdir) Hcall)
      as [(Hv & Hh & Hk & _) Hname].
    destruct (Hk key) as [Hval _]; [simpl; set_solver|].
    change (rc (calling key f)) with (rc f) in Hval.
    unfold after_call in Hafter.
    assert (bool_decide (ty = DelayedIf) || bool_decide (ty = DelayedNotif) = true)
      as Hwt by (by destruct Hty' as [-> | ->]).
    rewrite Hwt in Hafter. simpl in Hafter. rewrite Hval in Hafter. fold v in Hafter.
    destruct (if istrue _ then _ else _).
    + destruct (skip_loop fuel true (Str.erase v p len) p None false 0%N)
        as [w| | |] eqn:Hs; try done.
      injection Hafter as <- <-. split; [done|]. subst v'. simpl.
      rewrite get_set_eq. apply skip_loop_prefix with (L := p) in Hs; [|lia|done].
      rewrite Hs. by apply substr_erase_before.
    + destruct (skip_loop fuel false v (p + len) (Some p) false 0%N)
        as [w| | |] eqn:Hs; try done.
      injection Hafter as <- <-. split; [done|]. subst v'. simpl.
      rewrite get_set_eq.
      apply skip_loop_prefix with (L := p) in Hs; [done|lia|].
      intros d [= <-]. lia.
Qed.

Lemma cursor_after_a_round_witness :
  let f := example_frame ""
             [("A", "%{?X}%{Y}%{}"); ("X", "1"); ("Y", "abc")] ["A"] in
  let G := calling "A" f in
  let F' := with_rc G (touch (rc G) "X") in
  let f' := with_rc (with_visited F' (visited F' ∖ {["A"]}))
              (set (rc F') "A" "%{Y}") in
  0 = 0 /\ Str.substr (get (rc f') "A") 0 0 = Str.substr (get (rc f) "A") 0 0.
Proof.
  intros f G F' f'.
  destruct (cursor_after_a_round (resolve_delayed_recurse 3) 3 "A" 0 f
              DelayedIf 0 5 0 f') as (_ & H & _).
  - apply resolve_keeps_frame.
  - intros k Hk. by apply not_elem_of_empty in Hk.
  - vm_compute. reflexivity.
  - reflexivity.
  - vm_compute. reflexivity.
  - apply H. by left.
Defined.

(** After the conditional [%{?X}..%{}] the cursor is 0, where the retained
    text [%{Y}] begins, not 4, where it ends; that is why [%{Y}] is expanded
    afterwards.  And a directive can remain that the scanner never
    reaches: the value [%] of [B], put before [{C}], makes [%{C}] behind the
    cursor. *)
Lemma cursor_resumes_where_retained_text_begins :
  let f := example_frame ""
             [("A", "%{?X}%{Y}%{}"); ("X", "1"); ("Y", "abc")] ["A"] in
  (exists f', resolve_delayed_round (resolve_delayed_recurse 3) 3 "A" 0 f
              = Again 0 f'
     /\ get (rc f') "A" = "%{Y}" /\ 0 <> String.length "%{Y}")
  /\ (exists f', resolve_delayed_recurse 5 "A" f = Returned f'
        /\ get (rc f') "A" = "abc")
  /\ (exists g,
        resolve_delayed_recurse 5 "A"
          (example_frame "" [("A", "%{B}{C}"); ("B", "%"); ("C", "c")] ["A"])
        = Returned g
        /\ get (rc g) "A" = "%{C}"
        /\ find_next_delayed (get (rc g) "A") 0 = (DelayedVariable, 0, 4)).
Proof.
  intros f. split_and!.
  - eexists. split; [vm_compute; reflexivity|]. split; [reflexivity|done].
  - eexists. split; [vm_compute; reflexivity|]. reflexivity.
  - eexists. split; [vm_compute; reflexivity|]. split; reflexivity.
Qed.

(** ** The redundancy flags *)

(** C9 (the code at the failing input): for the value
    [some-installed or all-uninstalled] the second atom is applied to the
    first rule of the pair, on top of the first atom, and the second rule is
    left as it was; had the second atom gone to the second rule, the pair
    would be another one. *)
Theorem second_atom_configures_first_rule :
  let r := example_rc "" [("K", "some-installed or all-uninstalled")] in
  let p := (getRedundantFlags r "K" 1%N (no_flags, no_flags)).1.2 in
  p.1 = (getRedundantFlagAtom (Some "all-uninstalled") 1%N
           (getRedundantFlagAtom (Some "some-installed") 1%N no_flags).2).2
  /\ p.2 = no_flags
  /\ p <> ((getRedundantFlagAtom (Some "some-installed") 1%N no_flags).2,
           (getRedundantFlagAtom (Some "all-uninstalled") 1%N no_flags).2)
  /\ (getRedundantFlags r "K" 1%N (no_flags, no_flags)).2 = [].
Proof. intros r p. split_and!; try reflexivity. vm_compute. congruence. Qed.

(** A value that does not parse is not fatal: a warning, then
    [all-installed] for the first rule and the absent rule for the second. *)
Lemma unknown_value_falls_back :
  let r := example_rc "" [("K", "bogus")] in
  let res := getRedundantFlags r "K" 1%N (no_flags, no_flags) in
  res.1.2 = ((getRedundantFlagAtom (Some "all-installed") 1%N no_flags).2,
             (getRedundantFlagAtom None 1%N no_flags).2)
  /\ length res.2 = 1.
Proof. intros r res. split; reflexivity. Qed.

(** ** Layering *)

Lemma defaults_tempmap_snoc (d : list EixRcOption) (o : EixRcOption) :
  defaults_tempmap (d ++ [o]) = <[key o := value o]> (defaults_tempmap d).
Proof. unfold defaults_tempmap. by rewrite foldl_app. Qed.

Lemma defaults_tempmap_lookup (d : list EixRcOption) (o : EixRcOption) :
  NoDup (key <$> d) -> o ∈ d ->
  defaults_tempmap d !! key o = Some (value o).
Proof.
  induction d as [|x d IH] using rev_ind; intros Hnd Ho.
  - by apply elem_of_nil in Ho.
  - rewrite defaults_tempmap_snoc.
    rewrite fmap_app in Hnd. apply NoDup_app in Hnd as (Hnd & Hx & _).
    apply elem_of_app in Ho as [Ho|Ho].
    + rewrite lookup_insert_ne; [by apply IH|].
      intros Heq. apply (Hx (key o)).
      * apply list_elem_of_fmap. by exists o.
      * rewrite <- Heq. simpl. apply list_elem_of_singleton. done.
    + apply list_elem_of_singleton in Ho as ->. by rewrite lookup_insert_eq.
Qed.

Lemma defaults_tempmap_dom (d : list EixRcOption) (k : string) :
  k ∈ key <$> d <-> is_Some (defaults_tempmap d !! k).
Proof.
  induction d as [|x d IH] using rev_ind.
  - unfold defaults_tempmap. simpl. rewrite lookup_empty. split.
    + intros H. by apply elem_of_nil in H.
    + intros [? ?]. discriminate.
  - rewrite defaults_tempmap_snoc, fmap_app, elem_of_app. simpl.
    rewrite list_elem_of_singleton.
    destruct (decide (key x = k)) as [->|Hne].
    + rewrite lookup_insert_eq. split; [by eexists|by right].
    + rewrite lookup_insert_ne by done. rewrite IH. split; [|by left].
      intros [H|H]; [done|congruence].
Qed.

Lemma VarsReader_read_lookup (w : World) (path : string)
    (m : gmap string string) (k : string) :
  VarsReader_read w path m !! k
  = match files w path with
    | Some overlay =>
        match overlay m !! k with
        | Some v => Some v
        | None => m !! k
        end
    | None => m !! k
    end.
Proof.
  unfold VarsReader_read. destruct (files w path) as [ov|]; [|done].
  rewrite lookup_union. destruct (ov m !! k), (m !! k); done.
Qed.

(** The map before the environment is applied. *)
Lemma files_lookup (w : World) (r : EixRc) (k : string) :
  let m0 := defaults_tempmap (defaults r) in
  let m1 := VarsReader_read w (m_eprefixconf r ++ EIX_SYSTEMRC) m0 in
  let m2 := match getenv w "HOME" with
            | None => m1
            | Some home => VarsReader_read w (home ++ EIX_USERRC) m1
            end in
  m1 = system_overlay w r ∪ m0
  /\ m2 !! k = match user_overlay w r !! k with
               | Some v => Some v
               | None =>
                   match system_overlay w r !! k with
                   | Some v => Some v
                   | None => m0 !! k
                   end
               end.
Proof.
  intros m0 m1 m2.
  assert (H1 : m1 = system_overlay w r ∪ m0).
  { unfold m1, system_overlay, VarsReader_read. fold m0.
    destruct (files w _); [done|]. by rewrite (left_id_L ∅ (∪)). }
  split; [done|].
  assert (H1k : m1 !! k = match system_overlay w r !! k with
                          | Some v => Some v
                          | None => m0 !! k
                          end).
  { rewrite H1, lookup_union.
    destruct (system_overlay w r !! k), (m0 !! k); done. }
  unfold m2, user_overlay. destruct (getenv w "HOME") as [home|].
  - rewrite VarsReader_read_lookup. fold m0. rewrite <- H1.
    destruct (files w (home ++ EIX_USERRC)) as [ov|].
    + destruct (ov m1 !! k); [done|apply H1k].
    + rewrite lookup_empty. apply H1k.
  - rewrite lookup_empty. apply H1k.
Qed.

Lemma layered_tempmap_lookup (w : World) (r : EixRc) (k : string) :
  (layered_tempmap w r).1 !! k
  = match user_overlay w r !! k with
    | Some v => Some (default v (getenv w k))
    | None =>
        match system_overlay w r !! k with
        | Some v => Some (default v (getenv w k))
        | None =>
            (fun v => default v (getenv w k))
              <$> defaults_tempmap (defaults r) !! k
        end
    end.
Proof.
  pose proof (files_lookup w r k) as [_ H]. cbv zeta in H.
  unfold layered_tempmap.
  destruct (getenv w "HOME") as [home|]; simpl;
    unfold override_with_env; rewrite map_lookup_imap, H;
    destruct (user_overlay w r !! k); [done| |done|];
    destruct (system_overlay w r !! k); try done;
    by destruct (defaults_tempmap (defaults r) !! k).
Qed.

Lemma joined_value_layered (w : World) (r : EixRc) (k : string) :
  joined_value w (layered_tempmap w r).1 k = layered_value w r k.
Proof.
  unfold joined_value, layered_value. rewrite layered_tempmap_lookup.
  destruct (user_overlay w r !! k); [by destruct (getenv w k)|].
  destruct (system_overlay w r !! k); [by destruct (getenv w k)|].
  destruct (defaults_tempmap (defaults r) !! k); by destruct (getenv w k).
Qed.

Lemma layered_tempmap_default_key (w : World) (r : EixRc) (k : string) :
  k ∈ key <$> defaults r ->
  (layered_tempmap w r).1 !! k = Some (layered_value w r k).
Proof.
  intros Hk. apply defaults_tempmap_dom in Hk as [v Hv].
  rewrite <- joined_value_layered. unfold joined_value.
  destruct ((layered_tempmap w r).1 !! k) eqn:E; [done|].
  rewrite layered_tempmap_lookup, Hv in E.
  destruct (user_overlay w r !! k); [done|].
  by destruct (system_overlay w r !! k).
Qed.

(** The loop that sets the new values. *)
Lemma set_values_get (F : string -> string) (d : list EixRcOption)
    (r : EixRc) (k : string) :
  (forall o, o ∈ d -> local_value o = F (key o)) ->
  get (foldl (fun r o => set r (key o) (local_value o)) r d) k
  = if decide (k ∈ key <$> d) then F k else get r k.
Proof.
  induction d as [|x d IH] using rev_ind; intros HF.
  - done.
  - rewrite foldl_app. simpl.
    destruct (decide (key x = k)) as [<-|Hne].
    + rewrite get_set_eq. rewrite decide_True.
      * apply HF. apply elem_of_app. right. by apply list_elem_of_singleton.
      * rewrite fmap_app. apply elem_of_app. right.
        by apply list_elem_of_singleton.
    + rewrite get_set_ne by done. rewrite IH.
      * rewrite fmap_app. simpl.
        destruct (decide (k ∈ key <$> d)) as [Hin|Hin].
        -- rewrite decide_True; [done|]. apply elem_of_app. by left.
        -- rewrite decide_False; [done|]. rewrite elem_of_app.
           intros [?|H]; [done|]. apply list_elem_of_singleton in H. done.
      * intros o Ho. apply HF. apply elem_of_app. by left.
Qed.

Lemma set_new_values_keys (tm : gmap string string) (r : EixRc) :
  key <$> defaults (set_new_values tm r) = key <$> defaults r.
Proof.
  unfold set_new_values. simpl. rewrite <- list_fmap_compose.
  by apply list_fmap_ext.
Qed.

Lemma set_new_values_get (tm : gmap string string) (r : EixRc) (k : string) :
  get (set_new_values tm r) k
  = if decide (k ∈ key <$> defaults r) then default "" (tm !! k)
    else get r k.
Proof.
  unfold set_new_values.
  change (get (with_defaults ?a ?b) k) with (get a k).
  rewrite (set_values_get (fun k => default "" (tm !! k))).
  - by rewrite <- list_fmap_compose.
  - intros o Ho. apply list_elem_of_fmap in Ho as (o' & -> & _). done.
Qed.

Lemma set_new_values_local (tm : gmap string string) (r : EixRc)
    (o : EixRcOption) :
  o ∈ defaults (set_new_values tm r) ->
  local_value o = default "" (tm !! key o).
Proof.
  unfold set_new_values. simpl. intros Ho.
  apply list_elem_of_fmap in Ho as (o' & -> & _). done.
Qed.

(** ** Joining the references *)

Lemma join_delayed_ok (w : World) (tm : gmap string string) (k : string)
    (st : EixRc * gset string) :
  joined_ok w tm st -> joined_ok w tm (join_delayed w k st tm).
Proof.
  destruct st as [r dk]. intros [Hget Hkeys]. unfold join_delayed.
  destruct (decide (k ∈ dk)) as [Hin|Hin]; [by split|].
  split; simpl.
  - intros k' Hk'. destruct (decide (k = k')) as [<-|Hne].
    + rewrite get_set_eq. done.
    + rewrite get_set_ne by done.
      change (get (with_defaults ?a ?b) k') with (get a k').
      apply Hget. simpl. set_solver.
  - intros o Ho. apply elem_of_app in Ho as [Ho|Ho].
    + destruct (Hkeys o Ho) as [H1 H2]. split; [|done].
      apply elem_of_union. by right.
    + apply list_elem_of_singleton in Ho as ->.
      unfold mkOption. destruct (decide _); [|done]. simpl.
      split; [|done]. apply elem_of_union. left. by apply elem_of_singleton.
Qed.

Lemma joined_more_refl (st : EixRc * gset string) : joined_more st st.
Proof. by split. Qed.

Lemma joined_more_trans (st1 st2 st3 : EixRc * gset string) :
  joined_more st1 st2 -> joined_more st2 st3 -> joined_more st1 st3.
Proof. intros [? ?] [? ?]. split; [set_solver|by etrans]. Qed.

Lemma join_delayed_more (w : World) (tm : gmap string string) (k : string)
    (st0 st : EixRc * gset string) :
  joined_more st0 st -> joined_more st0 (join_delayed w k st tm).
Proof.
  intros H. eapply joined_more_trans; [exact H|].
  destruct st as [r dk]. unfold join_delayed.
  destruct (decide (k ∈ dk)); [apply joined_more_refl|].
  split; simpl; [set_solver|]. by apply prefix_app_r.
Qed.

Section Joining.

Variables EIX_VARS_PREFIX DIFF_EIX_VARS_PREFIX : string.
Variable full : nat -> bool.
Variables (w : World) (tm : gmap string string).

(** What every [join_delayed] keeps, the calls at a directive keep. *)
Lemma join_names_inv (P : EixRc * gset string -> Prop) (str : string)
    (pos len : nat) (st : EixRc * gset string) :
  (forall k st, P st -> P (join_delayed w k st tm)) ->
  P st ->
  P (join_names EIX_VARS_PREFIX DIFF_EIX_VARS_PREFIX full w tm str pos len
       st).1.
Proof.
  intros HP Hst. unfold join_names.
  destruct (Ascii.eqb _ _); cbn [fst]; auto.
Qed.

(** What every [join_delayed] keeps, the scan of a value keeps. *)
Lemma join_scan_inv (P : EixRc * gset string -> Prop) (fuel : nat)
    (k str : string) (pos : nat) (st st' : EixRc * gset string)
    (hr hr' : gset string) :
  join_scan EIX_VARS_PREFIX DIFF_EIX_VARS_PREFIX full fuel w tm k str pos st
    hr = JoinDone (st', hr') ->
  (forall k st, P st -> P (join_delayed w k st tm)) ->
  P st -> P st'.
Proof.
  intros H HP. revert pos st hr H.
  induction fuel as [|fuel IH]; intros pos st hr; [discriminate|].
  cbn [join_scan]. destruct (find_next_delayed str pos) as [[ty p] len].
  destruct ty; try (by apply IH);
    try (cbv zeta;
         match goal with
         | |- context [join_names ?a ?b ?c ?d ?e ?f ?g ?h ?i] =>
             pose proof (join_names_inv P f g h i HP) as Hn;
             destruct (join_names a b c d e f g h i) as [st1 valid]
         end;
         destruct valid; [|discriminate];
         intros H Hst; apply IH in H; auto).
  intros H. by injection H as <- <-.
Qed.

(** The scan puts [k] into [has_reference] only at a directive that
    refers to a key. *)
Lemma join_scan_references (fuel : nat) (k str : string) (pos : nat)
    (st st' : EixRc * gset string) (hr hr' : gset string) (k' : string) :
  join_scan EIX_VARS_PREFIX DIFF_EIX_VARS_PREFIX full fuel w tm k str pos st
    hr = JoinDone (st', hr') ->
  k' ∈ hr' -> k' ∈ hr \/ (k' = k /\ refers_somewhere str).
Proof.
  revert pos st hr.
  induction fuel as [|fuel IH]; intros pos st hr; [discriminate|].
  cbn [join_scan]. pose proof (find_next_delayed_spec str pos) as Hs.
  destruct (find_next_delayed str pos) as [[ty p] len].
  destruct ty; try (by apply IH);
    try (cbv zeta;
         destruct (join_names _ _ _ _ _ _ _ _ _) as [st1 valid];
         destruct valid; [|discriminate];
         intros H Hk; apply IH in H; [|exact Hk];
         destruct H as [H|H]; [|by right];
         apply elem_of_union in H as [H|H]; [|by left];
         apply elem_of_singleton in H as ->; right; split; [done|];
         destruct Hs as (_ & Hd & _); eexists _, _, _; split; [exact Hd|];
         unfold refers; auto).
  intros H. injection H as <- <-. by left.
Qed.

Lemma join_loop_inv (P : EixRc * gset string -> Prop) (fuel : nat)
    (i : nat) (st : EixRc * gset string) (hr : gset string)
    (r' : EixRc) (hr' : gset string) :
  join_loop EIX_VARS_PREFIX DIFF_EIX_VARS_PREFIX full fuel w tm i st hr
    = JoinDone (r', hr') ->
  (forall k st, P st -> P (join_delayed w k st tm)) ->
  P st -> exists dk', P (r', dk').
Proof.
  intros H HP. revert i st hr H.
  induction fuel as [|fuel IH]; intros i st hr; [discriminate|].
  cbn [join_loop]. destruct (defaults st.1 !! i) as [o|].
  - destruct (join_scan _ _ _ _ _ _ _ _ _ _ _) as [[st1 hr1]| |] eqn:E;
      [|discriminate..].
    intros H Hst. eapply IH; [exact H|]. by eapply join_scan_inv.
  - intros H Hst. injection H as <- <-. exists st.2. by destruct st.
Qed.

Lemma join_loop_references (fuel : nat) (i : nat)
    (st : EixRc * gset string) (hr : gset string)
    (r' : EixRc) (hr' : gset string) (k' : string) :
  join_loop EIX_VARS_PREFIX DIFF_EIX_VARS_PREFIX full fuel w tm i st hr
    = JoinDone (r', hr') ->
  k' ∈ hr' ->
  k' ∈ hr \/ exists o, o ∈ defaults r' /\ key o = k'
                      /\ refers_somewhere (local_value o).
Proof.
  revert i st hr.
  induction fuel as [|fuel IH]; intros i st hr; [discriminate|].
  cbn [join_loop]. destruct (defaults st.1 !! i) as [o|] eqn:Eo.
  - destruct (join_scan _ _ _ _ _ _ _ _ _ _ _) as [[st1 hr1]| |] eqn:E;
      [|discriminate..].
    intros H Hk. pose proof H as H'. apply IH in H; [|done].
    destruct H as [H|H]; [|by right].
    destruct (join_scan_references _ _ _ _ _ _ _ _ _ E H) as [?|[-> Hr]];
      [by left|].
    right. exists o. split; [|done].
    apply (join_scan_inv (joined_more st)) in E;
      [|intros; by apply join_delayed_more|apply joined_more_refl].
    apply (join_loop_inv (joined_more st)) in H' as [dk' H'];
      [|intros; by apply join_delayed_more|done].
    destruct H' as [_ Hpre]. simpl in Hpre.
    eapply elem_of_prefix; [|exact Hpre]. by eapply list_elem_of_lookup_2.
  - intros H Hk. injection H as <- <-. by left.
Qed.

End Joining.

Lemma set_new_values_ok (w : World) (r : EixRc) :
  joined_ok w (layered_tempmap w r).1
    (set_new_values (layered_tempmap w r).1 r,
     list_to_set (key <$> defaults r)).
Proof.
  split; simpl.
  - intros k Hk. apply elem_of_list_to_set in Hk.
    rewrite set_new_values_get, decide_True by done.
    rewrite joined_value_layered. by rewrite layered_tempmap_default_key.
  - intros o Ho.
    assert (Hk : key o ∈ key <$> defaults r).
    { rewrite <- (set_new_values_keys (layered_tempmap w r).1).
      apply list_elem_of_fmap. by exists o. }
    split; [by apply elem_of_list_to_set|].
    rewrite (set_new_values_local _ _ _ Ho), joined_value_layered.
    by rewrite layered_tempmap_default_key.
Qed.

(** [read_undelayed] puts a key into [has_reference] only when its value has
    a directive that refers to a key. *)
Lemma read_undelayed_references (EIX_VARS_PREFIX DIFF_EIX_VARS_PREFIX : string)
    (full : nat -> bool)
    (fuel : nat) (w : World) (r : EixRc) (hr : gset string)
    (r' : EixRc) (hr' : gset string) (warnings : list string) (k : string) :
  read_undelayed EIX_VARS_PREFIX DIFF_EIX_VARS_PREFIX full fuel w r hr
    = JoinDone (r', hr', warnings) ->
  k ∈ hr' -> k ∈ hr \/ refers_somewhere (get r' k).
Proof.
  unfold read_undelayed.
  rewrite (surjective_pairing (layered_tempmap w r)). cbv beta iota.
  destruct (join_loop _ _ _ _ _ _ _ _ _) as [[r2 hr2]| |] eqn:E;
    [|discriminate..].
  intros H Hk. injection H as <- <- <-.
  destruct (join_loop_references _ _ _ _ _ _ _ _ _ _ _ _ E Hk)
    as [?|(o & Ho & <- & Hr)]; [by left|].
  right.
  apply (join_loop_inv _ _ _ _ _ (joined_ok w (layered_tempmap w r).1))
    in E as (dk' & Hget & Hkeys).
  - destruct (Hkeys o Ho) as [Hin Hl]. simpl in *.
    by rewrite (Hget _ Hin), <- Hl.
  - intros. by apply join_delayed_ok.
  - apply set_new_values_ok.
Qed.

(** ** The errors of misplaced markers *)

(** The search for the closing [%{}] fails in two ways only. *)
Lemma skip_loop_errors (fuel : nat) (result : bool) (v : string)
    (skippos : nat) (delpos : option nat) (gotelse : bool) (count : N)
    (e : string) :
  skip_loop fuel result v skippos delpos gotelse count = SkipError e ->
  e = "double ELSE" \/ e = "IF without FI".
Proof.
  revert v skippos delpos gotelse count.
  induction fuel as [|fuel IH]; intros v skippos delpos gotelse count;
    [discriminate|].
  rewrite skip_loop_unfold.
  destruct (find_next_delayed v skippos) as [[ty p] len].
  destruct ty; try apply IH.
  - intros H. injection H as <-. by right.
  - destruct (negb _); [apply IH|].
    destruct gotelse; [intros H; injection H as <-; by left|].
    destruct result; [apply IH|]. destruct delpos; [apply IH|discriminate].
  - destruct (negb _); [apply IH|]. destruct delpos; discriminate.
Qed.

(** A second [%{else}] met at depth zero is the error. *)
Lemma skip_loop_double_else (fuel : nat) (result : bool) (v : string)
    (skippos : nat) (delpos : option nat) (p len : nat) :
  find_next_delayed v skippos = (DelayedElse, p, len) ->
  skip_loop (S fuel) result v skippos delpos true 0%N
  = SkipError "double ELSE".
Proof. intros H. rewrite skip_loop_unfold, H. done. Qed.

(** Where a [NULL] of a round comes from. *)
Lemma round_null (recurse : string -> Frame -> Outcome) (fuel : nat)
    (key : string) (pos : nat) (f : Frame) (ty : DelayedType) (p len : nat)
    (e k : string) :
  find_next_delayed (get (rc f) key) pos = (ty, p, len) ->
  resolve_delayed_round recurse fuel key pos f = Done (Null e k) ->
  (ty = DelayedFi /\ e = "FI without IF" /\ k = key)
  \/ (ty = DelayedElse /\ e = "ELSE without IF" /\ k = key)
  \/ (refers ty /\ key ∈ visited f /\ e = "self-reference" /\ k = key)
  \/ (refers ty /\ (key ∉ visited f)
      /\ recurse (referenced_name (rc f) (get (rc f) key) ty p len)
           (calling key f) = Null e k)
  \/ ((ty = DelayedIf \/ ty = DelayedNotif) /\ (key ∉ visited f) /\ k = key
      /\ (e = "double ELSE" \/ e = "IF without FI")).
Proof.
  intros Hfind. rewrite (resolve_delayed_round_unfold _ _ _ _ _ _ _ _ Hfind).
  assert (Hcall : forall ty', ty' = ty -> refers ty ->
    (if decide (key ∈ visited f) then Done (Null "self-reference" key)
     else
       let name := referenced_name (rc f) (get (rc f) key) ty p len in
       match recurse name (with_visited f ({[key]} ∪ visited f)) with
       | Returned f1 => after_call fuel key ty p len name f1
       | Null errtext errvar => Done (Null errtext errvar)
       | Thrown => Done Thrown
       | NoFuel => Done NoFuel
       end) = Done (Null e k) ->
    (refers ty /\ key ∈ visited f /\ e = "self-reference" /\ k = key)
    \/ (refers ty /\ (key ∉ visited f)
        /\ recurse (referenced_name (rc f) (get (rc f) key) ty p len)
             (calling key f) = Null e k)
    \/ ((ty = DelayedIf \/ ty = DelayedNotif) /\ (key ∉ visited f) /\ k = key
        /\ (e = "double ELSE" \/ e = "IF without FI"))).
  { intros ty' _ Hr. destruct (decide (key ∈ visited f)) as [Hv|Hv].
    - intros H. injection H as <- <-. by left.
    - cbv zeta. unfold calling.
      destruct (recurse _ _) as [f1| e' k'| |] eqn:Ec; try discriminate.
      + unfold after_call.
        destruct (negb _) eqn:Et; [discriminate|].
        assert (Hty : ty = DelayedIf \/ ty = DelayedNotif).
        { destruct Hr as [->|[->| ->]]; [discriminate|by left|by right]. }
        match goal with
        | |- match ?s with _ => _ end = _ -> _ => destruct s eqn:Es
        end; try discriminate.
        intros H. injection H as <- <-. right. right.
        split_and!; try done.
        destruct (if istrue _ then _ else _);
          by apply skip_loop_errors in Es.
      + intros H. injection H as <- <-. right. left. done. }
  destruct ty.
  - discriminate.
  - intros H. right. right. apply (Hcall DelayedVariable); [done| |done].
    by left.
  - intros H. right. right. apply (Hcall DelayedIf); [done| |done].
    right. by left.
  - intros H. right. right. apply (Hcall DelayedNotif); [done| |done].
    right. by right.
  - intros H. injection H as <- <-. right. left. done.
  - intros H. injection H as <- <-. left. done.
Qed.

(** A key outside [has_reference] is returned as it is. *)
Lemma resolve_without_reference (n : nat) (key : string) (f : Frame) :
  (key ∉ has_reference f) ->
  resolve_delayed_recurse (S n) key f = Returned (with_rc f (touch (rc f) key)).
Proof.
  intros H. rewrite resolve_delayed_recurse_unfold. cbv zeta.
  by rewrite decide_False.
Qed.

(** The errors of a round, for every value: a round whose scan meets [%{}]
    first raises "FI without IF" and one that meets [%{else}] first raises
    "ELSE without IF"; a [NULL] of a round is one of these two, the
    self-reference, the [NULL] of the nested call, or an error of the search
    for the closing [%{}]. *)
Lemma round_errors (recurse : string -> Frame -> Outcome)
    (fuel : nat) (key : string) (pos : nat) (f : Frame)
    (ty : DelayedType) (p len : nat) :
  find_next_delayed (get (rc f) key) pos = (ty, p, len) ->
  let round := resolve_delayed_round recurse fuel key pos f in
  (ty = DelayedFi -> round = Done (Null "FI without IF" key))
  /\ (ty = DelayedElse -> round = Done (Null "ELSE without IF" key))
  /\ (forall e k, round = Done (Null e k) ->
        (ty = DelayedFi /\ e = "FI without IF" /\ k = key)
        \/ (ty = DelayedElse /\ e = "ELSE without IF" /\ k = key)
        \/ (refers ty /\ key ∈ visited f /\ e = "self-reference" /\ k = key)
        \/ (refers ty /\ (key ∉ visited f)
            /\ recurse (referenced_name (rc f) (get (rc f) key) ty p len)
                 (calling key f) = Null e k)
        \/ ((ty = DelayedIf \/ ty = DelayedNotif) /\ (key ∉ visited f)
            /\ k = key /\ (e = "double ELSE" \/ e = "IF without FI"))).
Proof.
  intros Hfind round. unfold round. split_and!.
  - intros ->. by rewrite (resolve_delayed_round_unfold _ _ _ _ _ _ _ _ Hfind).
  - intros ->. by rewrite (resolve_delayed_round_unfold _ _ _ _ _ _ _ _ Hfind).
  - intros e k. by apply round_null.
Qed.

(** A value that is the marker [%{}] or has a [%{else}] and nothing that
    refers to a key is read without any error, whether the vector is full
    or not, and the markers stay in the value.  A conditional with two [%{else}] of depth zero raises nothing
    when it stands in a branch that is dropped.  And the well-formed
    [%{Y}%{?Z}a%{}] raises "FI without IF" when the value of [Y] is [%],
    which escapes the opener after it. *)
Lemma markers_without_reference_raise_nothing :
  (forall full, exists r warnings,
     read "EIX_" "DIFF_" full 3 empty_world
       (example_config [("Q", "%{}"); ("R", "a%{else}b")])
     = ReadDone r warnings
     /\ get r "Q" = "%{}" /\ get r "R" = "a%{else}b"
     /\ find_next_delayed "%{}" 0 = (DelayedFi, 0, 3)
     /\ find_next_delayed "a%{else}b" 0 = (DelayedElse, 1, 7))
  /\ (exists f',
        resolve_delayed_recurse 8 "K"
          (example_frame ""
             [("K", "%{?X}%{?Y}a%{else}b%{else}c%{}%{}"); ("X", "no");
              ("Y", "1")] ["K"])
        = Returned f'
        /\ get (rc f') "K" = "")
  /\ resolve_delayed_recurse 5 "K"
       (example_frame "" [("K", "%{Y}%{?Z}a%{}"); ("Y", "%"); ("Z", "1")]
          ["K"])
     = Null "FI without IF" "K".
Proof.
  split_and!.
  - intros full. eexists _, _. split; [vm_compute; reflexivity|].
    split_and!; reflexivity.
  - eexists. split; [vm_compute; reflexivity|]. reflexivity.
  - vm_compute. reflexivity.
Qed.

(** ** Templates *)

Lemma render_tapp (a b : Tmpl) : render (tapp a b) = render a ++ render b.
Proof.
  induction a as [|s r IH|x r IH|r IH|r IH|m x c _ r IH]; cbn [tapp render].
  - by rewrite app_empty_l.
  - by rewrite IH, app_assoc_str.
  - by rewrite IH, !app_assoc_str.
  - by rewrite IH.
  - by rewrite IH.
  - by rewrite IH, !app_assoc_str.
Qed.

Lemma after_else_render (b b2 : Tmpl) :
  after_else b = Some b2 ->
  render b = render (before_else b) ++ "%{else}" ++ render b2.
Proof.
  induction b as [|s r IH|x r IH|r IH|r IH|m x c _ r IH];
    cbn [after_else before_else render]; intros H.
  - discriminate.
  - by rewrite (IH H), app_assoc_str.
  - by rewrite (IH H), !app_assoc_str.
  - injection H as ->. by rewrite app_empty_l.
  - by rewrite (IH H).
  - by rewrite (IH H), !app_assoc_str.
Qed.

Lemma after_else_none (b : Tmpl) :
  after_else b = None -> before_else b = b /\ elses b = 0.
Proof.
  induction b as [|s r IH|x r IH|r IH|r IH|m x c _ r IH];
    cbn [after_else before_else elses]; intros H;
    try discriminate; try done;
    destruct (IH H) as [-> ->]; done.
Qed.

Lemma after_else_elses (b b2 : Tmpl) :
  after_else b = Some b2 -> elses b = S (elses b2).
Proof.
  induction b as [|s r IH|x r IH|r IH|r IH|m x c _ r IH];
    cbn [after_else elses]; intros H; try discriminate; auto.
  by injection H as ->.
Qed.

Lemma before_else_elses (b : Tmpl) : elses (before_else b) = 0.
Proof. induction b; cbn [before_else elses]; auto. Qed.

Lemma chain_ok_outside (t : Tmpl) : chain_ok true t = true -> chain_ok false t = true.
Proof.
  induction t as [|s r IH|x r IH|r IH|r IH|m x c _ r IH];
    cbn [chain_ok]; intros H; try done.
  - apply andb_true_iff in H as [H1 H2]. by rewrite H1, IH.
  - apply andb_true_iff in H as [H1 H2]. by rewrite H1, IH.
  - auto.
  - apply andb_true_iff in H as [H1 H2]. by rewrite H1, IH.
Qed.

Lemma chain_ok_tapp (i : bool) (a b : Tmpl) :
  chain_ok i a = true -> chain_ok i b = true -> chain_ok i (tapp a b) = true.
Proof.
  induction a as [|s r IH|x r IH|r IH|r IH|m x c _ r IH];
    cbn [chain_ok tapp]; intros H Hb; try done;
    try (apply andb_true_iff in H as [H1 H2]; by rewrite H1, IH).
  auto.
Qed.

Lemma chain_ok_before_else (i : bool) (b : Tmpl) :
  chain_ok i b = true -> chain_ok i (before_else b) = true.
Proof.
  induction b as [|s r IH|x r IH|r IH|r IH|m x c _ r IH];
    cbn [chain_ok before_else]; intros H; try done;
    apply andb_true_iff in H as [H1 H2]; by rewrite H1, IH.
Qed.

Lemma chain_ok_after_else (i : bool) (b b2 : Tmpl) :
  chain_ok i b = true -> after_else b = Some b2 -> chain_ok i b2 = true.
Proof.
  induction b as [|s r IH|x r IH|r IH|r IH|m x c _ r IH];
    cbn [chain_ok after_else]; intros H E; try discriminate;
    try (apply andb_true_iff in H as [H1 H2]; by apply IH).
  by injection E as <-.
Qed.

Lemma tokens_tapp (a b : Tmpl) : tokens (tapp a b) = tokens a + tokens b.
Proof. induction a; cbn [tapp tokens]; lia. Qed.

Lemma nodes_tapp (a b : Tmpl) : nodes (tapp a b) = nodes a + nodes b.
Proof. induction a; cbn [tapp nodes]; lia. Qed.

Lemma depth_tapp (a b : Tmpl) :
  depth (tapp a b) = Nat.max (depth a) (depth b).
Proof. induction a; cbn [tapp depth]; lia. Qed.

Lemma before_else_smaller (b : Tmpl) :
  tokens (before_else b) <= tokens b /\ nodes (before_else b) <= nodes b
  /\ depth (before_else b) <= depth b.
Proof. induction b; cbn [before_else tokens nodes depth]; lia. Qed.

Lemma after_else_smaller (b b2 : Tmpl) :
  after_else b = Some b2 ->
  tokens (before_else b) + tokens b2 < tokens b
  /\ nodes (before_else b) + nodes b2 < nodes b
  /\ depth b2 <= depth b.
Proof.
  induction b as [|s r IH|x r IH|r IH|r IH|m x c _ r IH];
    cbn [after_else before_else tokens nodes depth]; intros H;
    try discriminate; try (specialize (IH H); lia).
  injection H as ->. lia.
Qed.

Lemma ends_percent_marker (L a : string) :
  ends_percent (L ++ a ++ "}") = false.
Proof. rewrite <- app_assoc_str. apply marker_ends. Qed.

(** A template never ends in a [%] that could escape what follows. *)
Lemma render_ends (i : bool) (t : Tmpl) (L : string) :
  chain_ok i t = true -> ends_percent L = false ->
  ends_percent (L ++ render t) = false.
Proof.
  revert L.
  induction t as [|s r IH|x r IH|r IH|r IH|m x c _ r IH];
    cbn [chain_ok render]; intros L H HL.
  - by rewrite app_empty_r.
  - apply andb_true_iff in H as [H1 H2]. rewrite <- app_assoc_str.
    apply IH; [done|]. destruct s as [|c s]; [by rewrite app_empty_r|].
    by apply no_percent_ends.
  - apply andb_true_iff in H as [H1 H2]. rewrite <- app_assoc_str.
    apply IH; [done|]. exact (ends_percent_marker L ("%{" ++ x)).
  - rewrite <- app_assoc_str. apply IH; [done|].
    exact (ends_percent_marker L "%{else").
  - apply andb_true_iff in H as [H1 H2]. rewrite <- app_assoc_str.
    apply IH; [done|]. exact (ends_percent_marker L "%{").
  - apply andb_true_iff in H as [H1 H2].
    rewrite <- (app_assoc_str (render c)), <- app_assoc_str,
      <- app_assoc_str.
    apply IH; [done|].
    rewrite <- app_assoc_str. exact (ends_percent_marker _ "%{").
Qed.

(** ** Scanning behind a prefix *)

Lemma substr_from_beyond (s : string) (pos : nat) :
  String.length s <= pos -> Str.substr_from s pos = "".
Proof.
  revert pos. induction s as [|c s IH]; intros pos H.
  - by destruct pos.
  - destruct pos as [|pos]; [simpl in H; lia|].
    rewrite substr_from_cons. apply IH. simpl in H. lia.
Qed.

Lemma plain_from_end (pre : string) : plain_from pre (String.length pre).
Proof. split; [done|]. by rewrite substr_from_beyond. Qed.

Lemma at_substr_from (s : string) (pos i : nat) :
  Str.at_ (Str.substr_from s pos) i = Str.at_ s (pos + i).
Proof.
  revert pos. induction s as [|c s IH]; intros pos.
  - by destruct pos, i.
  - destruct pos as [|pos]; [by rewrite substr_from_0|].
    rewrite substr_from_cons, IH. simpl. by rewrite at_S.
Qed.

Lemma substr_from_app_l (a b : string) (pos : nat) :
  pos <= String.length a ->
  Str.substr_from (a ++ b) pos = Str.substr_from a pos ++ b.
Proof.
  revert pos. induction a as [|c a IH]; intros pos H.
  - simpl in H. assert (pos = 0) as -> by lia.
    by rewrite app_empty_l, !substr_from_0.
  - destruct pos as [|pos]; [by rewrite !substr_from_0|].
    change (String c a ++ b) with (String c (a ++ b)).
    rewrite !substr_from_cons. apply IH. simpl in H. lia.
Qed.

Lemma no_percent_app (a b : string) :
  no_percent (a ++ b) = (no_percent a && no_percent b)%bool.
Proof.
  induction a as [|c a IH]; [done|].
  change (String c a ++ b) with (String c (a ++ b)). simpl.
  rewrite IH. by rewrite andb_assoc.
Qed.

Lemma plain_from_text (pre s : string) (pos : nat) :
  plain_from pre pos -> no_percent s = true -> plain_from (pre ++ s) pos.
Proof.
  intros [H1 H2] Hs. split.
  - rewrite str_length_app. lia.
  - rewrite substr_from_app_l by done. by rewrite no_percent_app, H2, Hs.
Qed.

Lemma ends_percent_text (pre s : string) :
  ends_percent pre = false -> no_percent s = true ->
  ends_percent (pre ++ s) = false.
Proof.
  intros H Hs. destruct s as [|c s]; [by rewrite app_empty_r|].
  by apply no_percent_ends.
Qed.

(** From a cursor with nothing but text up to the end of [pre], the scanner
    finds what it finds in what follows [pre]. *)
Lemma scan_after (pre b : string) (pos : nat) :
  plain_from pre pos -> ends_percent pre = false ->
  find_next_delayed (pre ++ b) pos
  = shift (String.length pre) (find_next_delayed b 0).
Proof.
  intros [Hle Hplain] Hends.
  assert (Hgap : forall q, pos <= q < String.length pre ->
                   directive_at (pre ++ b) q = None).
  { intros q Hq. apply directive_at_not_percent.
    rewrite at_app_l by lia.
    replace q with (pos + (q - pos)) by lia.
    rewrite <- at_substr_from. by apply no_percent_at. }
  assert (Hin : forall q, directive_at (pre ++ b) (String.length pre + q)
                          = directive_at b q).
  { intros q. apply directive_at_shift. by right. }
  destruct (find_next_delayed_cases b 0)
    as [[-> Hnone]|(ty & p & len & -> & Hty & _ & Hd & Hbefore)].
  - simpl. apply find_next_delayed_not_found. intros q Hq.
    destruct (decide (q < String.length pre)) as [Hlt|Hge]; [by apply Hgap|].
    replace q with (String.length pre + (q - String.length pre)) by lia.
    rewrite Hin. apply Hnone. lia.
  - assert (shift (String.length pre) (ty, p, len)
            = (ty, String.length pre + p, len)) as ->.
    { by destruct ty. }
    apply find_next_delayed_found; [lia|by rewrite Hin|].
    intros q Hq.
    destruct (decide (q < String.length pre)) as [Hlt|Hge];
      [apply Hgap; lia|].
    replace q with (String.length pre + (q - String.length pre)) by lia.
    rewrite Hin. apply Hbefore. lia.
Qed.

(** ** The markers behind a prefix *)

Lemma scan_at_var (L x R : string) :
  ends_percent L = false -> is_name x = true ->
  plain_type x = DelayedVariable ->
  find_next_delayed (L ++ "%{" ++ x ++ "}" ++ R) (String.length L)
  = (DelayedVariable, String.length L, String.length x + 3).
Proof.
  intros HL Hx Hp. rewrite scan_app_at by done.
  rewrite scan_variable by done. rewrite Hp. simpl. by rewrite Nat.add_0_r.
Qed.

Lemma scan_at_cond (L : string) (m : ascii) (x R : string) :
  ends_percent L = false -> m = "?"%char \/ m = "!"%char -> is_name x = true ->
  find_next_delayed (L ++ "%{" ++ String m x ++ "}" ++ R) (String.length L)
  = (if Ascii.eqb m "?" then DelayedIf else DelayedNotif, String.length L,
     String.length x + 4).
Proof.
  intros HL Hm Hx. rewrite scan_app_at by done.
  destruct Hm as [-> | ->].
  - change ("%{" ++ String "?" x ++ "}" ++ R) with ("%{?" ++ x ++ "}" ++ R).
    rewrite (scan_if x R Hx). simpl. by rewrite Nat.add_0_r.
  - change ("%{" ++ String "!" x ++ "}" ++ R) with ("%{!" ++ x ++ "}" ++ R).
    rewrite (scan_notif x R Hx). simpl. by rewrite Nat.add_0_r.
Qed.

Lemma scan_at_fi (L R : string) :
  ends_percent L = false ->
  find_next_delayed (L ++ "%{}" ++ R) (String.length L)
  = (DelayedFi, String.length L, 3).
Proof.
  intros HL. rewrite scan_app_at by done. rewrite scan_fi. simpl.
  by rewrite Nat.add_0_r.
Qed.

Lemma scan_at_else (L R : string) :
  ends_percent L = false ->
  find_next_delayed (L ++ "%{else}" ++ R) (String.length L)
  = (DelayedElse, String.length L, 7).
Proof.
  intros HL. rewrite scan_app_at by done. rewrite scan_else. simpl.
  by rewrite Nat.add_0_r.
Qed.

Lemma scan_at_text (L s R : string) :
  ends_percent L = false -> no_percent s = true ->
  find_next_delayed (L ++ s ++ R) (String.length L)
  = find_next_delayed (L ++ s ++ R) (String.length L + String.length s).
Proof.
  intros HL Hs. rewrite <- !app_assoc_str.
  rewrite (scan_after (L ++ s) R (String.length L)).
  - rewrite <- str_length_app. rewrite scan_app_at; [done|done|].
    by apply ends_percent_text.
  - apply plain_from_text; [apply plain_from_end|done].
  - by apply ends_percent_text.
Qed.

Lemma var_marker_length (x : string) :
  String.length ("%{" ++ x ++ "}") = String.length x + 3.
Proof.
  change (String.length ("%{" ++ x ++ "}"))
    with (S (S (String.length (x ++ "}")))).
  rewrite str_length_app. simpl. lia.
Qed.

(** ** Steps of the search *)

Lemma skip_same_scan (m : nat) (result : bool) (v : string) (s s' : nat)
    (d : option nat) (g : bool) (c : N) :
  find_next_delayed v s = find_next_delayed v s' ->
  skip_loop m result v s d g c = skip_loop m result v s' d g c.
Proof.
  intros H. destruct m as [|m]; [done|].
  by rewrite !skip_loop_unfold, H.
Qed.

Lemma skip_step_var (m : nat) (result : bool) (v : string) (s p len : nat)
    (d : option nat) (g : bool) (c : N) :
  find_next_delayed v s = (DelayedVariable, p, len) ->
  skip_loop (S m) result v s d g c = skip_loop m result v (p + len) d g c.
Proof. intros H. by rewrite skip_loop_unfold, H. Qed.

Lemma skip_step_cond (m : nat) (result : bool) (v : string) (s p len : nat)
    (d : option nat) (g : bool) (c : N) (ty : DelayedType) :
  find_next_delayed v s = (ty, p, len) ->
  ty = DelayedIf \/ ty = DelayedNotif -> (c + 1 < 2 ^ 32)%N ->
  skip_loop (S m) result v s d g c
  = skip_loop m result v (p + len) d g (c + 1)%N.
Proof.
  intros H Hty Hc. rewrite skip_loop_unfold, H.
  unfold count_incr. rewrite N.mod_small by done.
  by destruct Hty as [-> | ->].
Qed.

Lemma skip_step_fi (m : nat) (result : bool) (v : string) (s p len : nat)
    (d : option nat) (g : bool) (c : N) :
  find_next_delayed v s = (DelayedFi, p, len) ->
  skip_loop (S m) result v s d g (c + 1)%N
  = skip_loop m result v (p + len) d g c.
Proof.
  intros H. rewrite skip_loop_unfold, H.
  replace (c + 1 =? 0)%N with false by (symmetry; apply N.eqb_neq; lia).
  cbn [negb]. by replace (c + 1 - 1)%N with c by lia.
Qed.

Lemma skip_step_else (m : nat) (result : bool) (v : string) (s p len : nat)
    (d : option nat) (g : bool) (c : N) :
  find_next_delayed v s = (DelayedElse, p, len) -> c <> 0%N ->
  skip_loop (S m) result v s d g c = skip_loop m result v (p + len) d g c.
Proof.
  intros H Hc. rewrite skip_loop_unfold, H.
  by replace (c =? 0)%N with false by (symmetry; by apply N.eqb_neq).
Qed.

Lemma skip_end (m : nat) (result : bool) (v : string) (s p len : nat)
    (d : option nat) (g : bool) :
  find_next_delayed v s = (DelayedFi, p, len) ->
  skip_loop (S m) result v s d g 0%N
  = Matched match d with
            | None => Str.erase v p len
            | Some d => Str.erase v d (p + len - d)
            end.
Proof. intros H. rewrite skip_loop_unfold, H. by destruct d. Qed.

Lemma skip_else_kept (m : nat) (v : string) (s p len : nat) (d : option nat) :
  find_next_delayed v s = (DelayedElse, p, len) ->
  skip_loop (S m) true v s d false 0%N
  = skip_loop m true (Str.erase v p len) (p + 0) (Some p) true 0%N.
Proof. intros H. by rewrite skip_loop_unfold, H. Qed.

Lemma skip_else_dropped (m : nat) (v : string) (s p len d : nat) :
  find_next_delayed v s = (DelayedElse, p, len) ->
  skip_loop (S m) false v s (Some d) false 0%N
  = skip_loop m false (Str.erase v d (p + len - d)) (d + 0) None true 0%N.
Proof. intros H. by rewrite skip_loop_unfold, H. Qed.

(** ** Passing a body *)

(** The search passes a body of balanced conditionals and comes out of it
    with the counter it went in with; a [%{else}] of the body itself is
    passed only when the counter is not 0. *)
Lemma skip_pass (b : Tmpl) :
  forall (L R : string) (n : nat) (result : bool) (d : option nat) (g : bool)
         (c : N),
    chain_ok true b = true -> ends_percent L = false ->
    (N.of_nat (depth b) + c < 2 ^ 32)%N ->
    c <> 0%N \/ elses b = 0 ->
    skip_loop (tokens b + n) result (L ++ render b ++ R) (String.length L)
      d g c
    = skip_loop n result (L ++ render b ++ R)
        (String.length L + String.length (render b)) d g c.
Proof.
  induction b as [|s r IH|x r IH|r IH|r IH|m x b' IHb r IH];
    intros L R n result d g c Hok HL Hdepth Helse;
    cbn [chain_ok tokens depth elses render] in *.
  - simpl. by rewrite Nat.add_0_r.
  - apply andb_true_iff in Hok as [Hs Hr].
    rewrite !app_assoc_str, str_length_app.
    rewrite (skip_same_scan _ _ _ _ _ _ _ _ (scan_at_text L s _ HL Hs)).
    pose proof (IH (L ++ s) R n result d g c Hr
                  (ends_percent_text _ _ HL Hs) Hdepth Helse) as H.
    rewrite !app_assoc_str, str_length_app in H.
    by rewrite Nat.add_assoc.
  - apply andb_true_iff in Hok as [Hx Hr].
    apply andb_true_iff in Hx as [Hx Hp]. apply bool_decide_eq_true in Hp.
    rewrite !app_assoc_str.
    change (S (tokens r) + n) with (S (tokens r + n)).
    rewrite (skip_step_var _ _ _ _ _ _ _ _ _ (scan_at_var L x _ HL Hx Hp)).
    pose proof (IH (L ++ "%{" ++ x ++ "}") R n result d g c Hr
                  (ends_percent_marker L ("%{" ++ x)) Hdepth Helse) as H.
    rewrite !app_assoc_str, str_length_app, var_marker_length in H.
    rewrite H. f_equal.
    rewrite !str_length_app. simpl String.length. lia.
  - destruct Helse as [Hc|?]; [|done].
    rewrite !app_assoc_str.
    change (S (tokens r) + n) with (S (tokens r + n)).
    rewrite (skip_step_else _ _ _ _ _ _ _ _ _ (scan_at_else L _ HL) Hc).
    pose proof (IH (L ++ "%{else}") R n result d g c Hok
                  (ends_percent_marker L "%{else") Hdepth (or_introl Hc)) as H.
    rewrite !app_assoc_str, str_length_app in H.
    change (String.length "%{else}") with 7 in H.
    rewrite H. f_equal. rewrite str_length_app. simpl. lia.
  - done.
  - apply andb_true_iff in Hok as [Hok Hr].
    apply andb_true_iff in Hok as [Hok Hb].
    apply andb_true_iff in Hok as [Hm Hx].
    assert (Hm' : m = "?"%char \/ m = "!"%char).
    { apply orb_true_iff in Hm as [Hm|Hm]; apply Ascii.eqb_eq in Hm; auto. }
    rewrite !app_assoc_str.
    change (S (S (tokens b' + tokens r)) + n)
      with (S (S (tokens b' + tokens r) + n)).
    rewrite (skip_step_cond _ _ _ _ _ _ _ _ _ _
               (scan_at_cond L m x _ HL Hm' Hx));
      [|destruct (Ascii.eqb m "?"); auto|lia].
    pose proof (IHb (L ++ "%{" ++ String m x ++ "}")
                  ("%{}" ++ render r ++ R) (S (tokens r + n)) result d g
                  (c + 1)%N Hb (ends_percent_marker L ("%{" ++ String m x))
                  ltac:(lia) ltac:(left; lia)) as H1.
    rewrite !app_assoc_str, str_length_app, marker_length in H1.
    replace (S (tokens b' + tokens r) + n)
      with (tokens b' + S (tokens r + n)) by lia.
    rewrite H1. clear H1.
    assert (HL2 : ends_percent ((L ++ "%{" ++ String m x ++ "}") ++ render b')
                  = false).
    { eapply render_ends; [exact Hb|].
      exact (ends_percent_marker L ("%{" ++ String m x)). }
    pose proof (scan_at_fi _ (render r ++ R) HL2) as Hfi.
    replace (String.length ((L ++ "%{" ++ String m x ++ "}") ++ render b'))
      with (String.length L + (String.length x + 4) + String.length (render b'))
      in Hfi by (rewrite !str_length_app; simpl String.length; lia).
    rewrite !app_assoc_str in Hfi.
    rewrite (skip_step_fi _ _ _ _ _ _ _ _ _ Hfi).
    pose proof (IH ((L ++ "%{" ++ String m x ++ "}") ++ render b' ++ "%{}")
                  R n result d g c Hr
                  ltac:(rewrite <- app_assoc_str;
                        exact (ends_percent_marker _ "%{"))
                  ltac:(lia) Helse) as H2.
    replace (String.length
               ((L ++ "%{" ++ String m x ++ "}") ++ render b' ++ "%{}"))
      with (String.length L + (String.length x + 4)
            + String.length (render b') + 3)
      in H2 by (rewrite !str_length_app; simpl String.length; lia).
    rewrite !app_assoc_str in H2.
    rewrite H2. f_equal.
    rewrite !str_length_app. simpl String.length. lia.
Qed.

(** The same steps, for a value and positions given by equations. *)

Ltac str_eq :=
  rewrite ?app_assoc_str, ?app_empty_l, ?app_empty_r; reflexivity.

Ltac len_eq :=
  subst;
  repeat (progress (rewrite ?str_length_app; simpl String.length));
  lia.

Lemma skip_pass_at (b : Tmpl) (v L R : string) (p p' fuel n : nat)
    (result : bool) (d : option nat) (g : bool) (c : N) :
  v = L ++ render b ++ R -> p = String.length L ->
  p' = p + String.length (render b) -> fuel = tokens b + n ->
  chain_ok true b = true -> ends_percent L = false ->
  (N.of_nat (depth b) + c < 2 ^ 32)%N ->
  c <> 0%N \/ elses b = 0 ->
  skip_loop fuel result v p d g c = skip_loop n result v p' d g c.
Proof. intros -> -> -> ->. apply skip_pass. Qed.

Lemma fi_at (v L R : string) (p : nat) :
  v = L ++ "%{}" ++ R -> p = String.length L -> ends_percent L = false ->
  find_next_delayed v p = (DelayedFi, p, 3).
Proof. intros -> ->. apply scan_at_fi. Qed.

Lemma else_at (v L R : string) (p : nat) :
  v = L ++ "%{else}" ++ R -> p = String.length L -> ends_percent L = false ->
  find_next_delayed v p = (DelayedElse, p, 7).
Proof. intros -> ->. apply scan_at_else. Qed.

Lemma erase_at (v a b c : string) (p n : nat) :
  v = a ++ b ++ c -> p = String.length a -> n = String.length b ->
  Str.erase v p n = a ++ c.
Proof. intros -> -> ->. by apply erase_mid. Qed.

(** ** The search for the end of a conditional *)

(** The branch is kept: the opening marker is gone already, the search
    takes out the [%{else}] with all up to [%{}], or the [%{}] alone. *)
Lemma cond_kept (pre : string) (b : Tmpl) (rest : string) (fuel : nat) :
  chain_ok true b = true -> ends_percent pre = false ->
  (N.of_nat (depth b) < 2 ^ 32)%N -> elses b <= 1 -> tokens b < fuel ->
  skip_loop fuel true (pre ++ render b ++ "%{}" ++ rest) (String.length pre)
    None false 0%N
  = Matched (pre ++ render (before_else b) ++ rest).
Proof.
  intros Hok Hpre Hdepth Helses Hfuel.
  set (v := pre ++ render b ++ "%{}" ++ rest).
  destruct (after_else b) as [b2|] eqn:E.
  - pose proof (after_else_render b b2 E) as Hr.
    pose proof (after_else_elses b b2 E) as He.
    pose proof (after_else_smaller b b2 E) as (Ht & _ & Hd).
    pose proof (chain_ok_before_else true b Hok) as Hok1.
    pose proof (chain_ok_after_else true b b2 Hok E) as Hok2.
    pose proof (before_else_smaller b) as (_ & _ & Hd1).
    pose proof (before_else_elses b) as He1.
    set (b1 := before_else b) in *.
    assert (HL1 : ends_percent (pre ++ render b1) = false)
      by (by eapply render_ends).
    set (p1 := String.length pre + String.length (render b1)).
    apply (skip_loop_mono (tokens b1 + S (tokens b2 + 1))); [|done|lia].
    rewrite (skip_pass_at b1 v pre ("%{else}" ++ render b2 ++ "%{}" ++ rest)
               (String.length pre) p1 _ (S (tokens b2 + 1)));
      [|unfold v; rewrite Hr; str_eq|done|done|done|done|done|lia|by right].
    rewrite (skip_else_kept _ v p1 p1 7);
      [|apply (else_at v (pre ++ render b1) (render b2 ++ "%{}" ++ rest));
        [unfold v; rewrite Hr; str_eq|unfold p1; len_eq|done]].
    rewrite (erase_at v (pre ++ render b1) "%{else}"
               (render b2 ++ "%{}" ++ rest));
      [|unfold v; rewrite Hr; str_eq|unfold p1; len_eq|done].
    rewrite Nat.add_0_r.
    rewrite (skip_pass_at b2 _ (pre ++ render b1) ("%{}" ++ rest)
               p1 (p1 + String.length (render b2)) _ 1);
      [|done|unfold p1; len_eq|done|done|done|done|lia|right; lia].
    rewrite (skip_end 0 true _ _ (p1 + String.length (render b2)) 3);
      [|apply (fi_at _ ((pre ++ render b1) ++ render b2) rest);
        [str_eq|unfold p1; len_eq|by eapply render_ends]].
    f_equal.
    rewrite (erase_at _ (pre ++ render b1) (render b2 ++ "%{}") rest);
      [str_eq|str_eq|unfold p1; len_eq|len_eq].
  - destruct (after_else_none b E) as [Hb He]. rewrite Hb.
    assert (HL1 : ends_percent (pre ++ render b) = false)
      by (by eapply render_ends).
    apply (skip_loop_mono (tokens b + 1)); [|done|lia].
    rewrite (skip_pass_at b v pre ("%{}" ++ rest) (String.length pre)
               (String.length pre + String.length (render b)) _ 1);
      [|done|done|done|done|done|done|lia|by right].
    rewrite (skip_end 0 true v _ (String.length pre + String.length (render b)) 3);
      [|apply (fi_at v (pre ++ render b) rest);
        [unfold v; str_eq|len_eq|done]].
    f_equal.
    rewrite (erase_at v (pre ++ render b) "%{}" rest);
      [str_eq|unfold v; str_eq|len_eq|done].
Qed.

(** The branch is dropped: the search takes out all from the opening marker
    to the [%{else}], and then the [%{}], or all up to the [%{}]. *)
Lemma cond_dropped (pre : string) (m : ascii) (x : string) (b : Tmpl)
    (rest : string) (fuel : nat) :
  chain_ok true b = true -> ends_percent pre = false ->
  (N.of_nat (depth b) < 2 ^ 32)%N -> elses b <= 1 -> tokens b < fuel ->
  skip_loop fuel false
    (pre ++ ("%{" ++ String m x ++ "}") ++ render b ++ "%{}" ++ rest)
    (String.length pre + (String.length x + 4)) (Some (String.length pre))
    false 0%N
  = Matched (pre ++ render (default TEnd (after_else b)) ++ rest).
Proof.
  intros Hok Hpre Hdepth Helses Hfuel.
  set (M := "%{" ++ String m x ++ "}").
  assert (HM : String.length M = String.length x + 4) by apply marker_length.
  assert (HLM : ends_percent (pre ++ M) = false)
    by exact (ends_percent_marker pre ("%{" ++ String m x)).
  set (v := pre ++ M ++ render b ++ "%{}" ++ rest).
  set (p0 := String.length pre + (String.length x + 4)).
  destruct (after_else b) as [b2|] eqn:E.
  - pose proof (after_else_render b b2 E) as Hr.
    pose proof (after_else_elses b b2 E) as He.
    pose proof (after_else_smaller b b2 E) as (Ht & _ & Hd).
    pose proof (chain_ok_before_else true b Hok) as Hok1.
    pose proof (chain_ok_after_else true b b2 Hok E) as Hok2.
    pose proof (before_else_smaller b) as (_ & _ & Hd1).
    pose proof (before_else_elses b) as He1.
    set (b1 := before_else b) in *.
    assert (HL1 : ends_percent ((pre ++ M) ++ render b1) = false)
      by (by eapply render_ends).
    set (p1 := p0 + String.length (render b1)).
    apply (skip_loop_mono (tokens b1 + S (tokens b2 + 1))); [|done|lia].
    rewrite (skip_pass_at b1 v (pre ++ M)
               ("%{else}" ++ render b2 ++ "%{}" ++ rest)
               p0 p1 _ (S (tokens b2 + 1)));
      [|unfold v; rewrite Hr; str_eq|unfold p0; len_eq|done|done|done|done
       |lia|by right].
    rewrite (skip_else_dropped _ v p1 p1 7);
      [|apply (else_at v ((pre ++ M) ++ render b1)
                 (render b2 ++ "%{}" ++ rest));
        [unfold v; rewrite Hr; str_eq|unfold p1, p0; len_eq|done]].
    rewrite (erase_at v pre (M ++ render b1 ++ "%{else}")
               (render b2 ++ "%{}" ++ rest));
      [|unfold v; rewrite Hr; str_eq|done|unfold p1, p0; len_eq].
    rewrite Nat.add_0_r. cbn [default].
    rewrite (skip_pass_at b2 _ pre ("%{}" ++ rest) (String.length pre)
               (String.length pre + String.length (render b2)) _ 1);
      [|done|done|done|done|done|done|lia|right; lia].
    rewrite (skip_end 0 false _ _
               (String.length pre + String.length (render b2)) 3);
      [|apply (fi_at _ (pre ++ render b2) rest);
        [str_eq|len_eq|by eapply render_ends]].
    f_equal.
    rewrite (erase_at _ (pre ++ render b2) "%{}" rest);
      [str_eq|str_eq|len_eq|done].
  - destruct (after_else_none b E) as [Hb He]. cbn [default render].
    assert (HL1 : ends_percent ((pre ++ M) ++ render b) = false)
      by (by eapply render_ends).
    apply (skip_loop_mono (tokens b + 1)); [|done|lia].
    rewrite (skip_pass_at b v (pre ++ M) ("%{}" ++ rest) p0
               (p0 + String.length (render b)) _ 1);
      [|unfold v; str_eq|unfold p0; len_eq|done|done|done|done|lia
       |by right].
    rewrite (skip_end 0 false v _ (p0 + String.length (render b)) 3);
      [|apply (fi_at v ((pre ++ M) ++ render b) rest);
        [unfold v; str_eq|unfold p0; len_eq|done]].
    f_equal.
    rewrite (erase_at v pre (M ++ render b ++ "%{}") rest);
      [str_eq|unfold v; str_eq|done|unfold p0; len_eq].
Qed.

(** A second [%{else}] of the conditional itself is an error, whichever
    branch is kept. *)
Lemma cond_double_kept (pre : string) (b : Tmpl) (rest : string) (fuel : nat) :
  chain_ok true b = true -> ends_percent pre = false ->
  (N.of_nat (depth b) < 2 ^ 32)%N -> 2 <= elses b -> tokens b < fuel ->
  skip_loop fuel true (pre ++ render b ++ "%{}" ++ rest) (String.length pre)
    None false 0%N
  = SkipError "double ELSE".
Proof.
  intros Hok Hpre Hdepth Helses Hfuel.
  set (v := pre ++ render b ++ "%{}" ++ rest).
  destruct (after_else b) as [b2|] eqn:E;
    [|destruct (after_else_none b E) as [_ He]; lia].
  pose proof (after_else_elses b b2 E) as He.
  destruct (after_else b2) as [b3|] eqn:E2;
    [|destruct (after_else_none b2 E2) as [_ He2]; lia].
  pose proof (after_else_render b b2 E) as Hr.
  pose proof (after_else_render b2 b3 E2) as Hr2.
  pose proof (after_else_smaller b b2 E) as (Ht & _ & Hd).
  pose proof (after_else_smaller b2 b3 E2) as (Ht2 & _ & Hd2).
  pose proof (chain_ok_before_else true b Hok) as Hok1.
  pose proof (chain_ok_after_else true b b2 Hok E) as Hok2.
  pose proof (chain_ok_before_else true b2 Hok2) as Hok2'.
  pose proof (before_else_smaller b) as (_ & _ & Hd1).
  pose proof (before_else_smaller b2) as (_ & _ & Hd2').
  pose proof (before_else_elses b) as He1.
  pose proof (before_else_elses b2) as He2'.
  set (b1 := before_else b) in *. set (c2 := before_else b2) in *.
  assert (HL1 : ends_percent (pre ++ render b1) = false)
    by (by eapply render_ends).
  set (p1 := String.length pre + String.length (render b1)).
  apply (skip_loop_mono (tokens b1 + S (tokens c2 + 1))); [|done|lia].
  rewrite (skip_pass_at b1 v pre ("%{else}" ++ render b2 ++ "%{}" ++ rest)
             (String.length pre) p1 _ (S (tokens c2 + 1)));
    [|unfold v; rewrite Hr; str_eq|done|done|done|done|done|lia|by right].
  rewrite (skip_else_kept _ v p1 p1 7);
    [|apply (else_at v (pre ++ render b1) (render b2 ++ "%{}" ++ rest));
      [unfold v; rewrite Hr; str_eq|unfold p1; len_eq|done]].
  rewrite (erase_at v (pre ++ render b1) "%{else}"
             (render b2 ++ "%{}" ++ rest));
    [|unfold v; rewrite Hr; str_eq|unfold p1; len_eq|done].
  rewrite Nat.add_0_r.
  rewrite (skip_pass_at c2 _ (pre ++ render b1)
             ("%{else}" ++ render b3 ++ "%{}" ++ rest)
             p1 (p1 + String.length (render c2)) _ 1);
    [|rewrite Hr2; str_eq|unfold p1; len_eq|done|done|done|done|lia
     |right; lia].
  apply (skip_loop_double_else 0 true _ _ _ (p1 + String.length (render c2)) 7).
  apply (else_at _ ((pre ++ render b1) ++ render c2)
           (render b3 ++ "%{}" ++ rest));
    [rewrite Hr2; str_eq|unfold p1; len_eq|by eapply render_ends].
Qed.

Lemma cond_double_dropped (pre : string) (m : ascii) (x : string) (b : Tmpl)
    (rest : string) (fuel : nat) :
  chain_ok true b = true -> ends_percent pre = false ->
  (N.of_nat (depth b) < 2 ^ 32)%N -> 2 <= elses b -> tokens b < fuel ->
  skip_loop fuel false
    (pre ++ ("%{" ++ String m x ++ "}") ++ render b ++ "%{}" ++ rest)
    (String.length pre + (String.length x + 4)) (Some (String.length pre))
    false 0%N
  = SkipError "double ELSE".
Proof.
  intros Hok Hpre Hdepth Helses Hfuel.
  set (M := "%{" ++ String m x ++ "}").
  assert (HM : String.length M = String.length x + 4) by apply marker_length.
  assert (HLM : ends_percent (pre ++ M) = false)
    by exact (ends_percent_marker pre ("%{" ++ String m x)).
  set (v := pre ++ M ++ render b ++ "%{}" ++ rest).
  set (p0 := String.length pre + (String.length x + 4)).
  destruct (after_else b) as [b2|] eqn:E;
    [|destruct (after_else_none b E) as [_ He]; lia].
  pose proof (after_else_elses b b2 E) as He.
  destruct (after_else b2) as [b3|] eqn:E2;
    [|destruct (after_else_none b2 E2) as [_ He2]; lia].
  pose proof (after_else_render b b2 E) as Hr.
  pose proof (after_else_render b2 b3 E2) as Hr2.
  pose proof (after_else_smaller b b2 E) as (Ht & _ & Hd).
  pose proof (after_else_smaller b2 b3 E2) as (Ht2 & _ & Hd2).
  pose proof (chain_ok_before_else true b Hok) as Hok1.
  pose proof (chain_ok_after_else true b b2 Hok E) as Hok2.
  pose proof (chain_ok_before_else true b2 Hok2) as Hok2'.
  pose proof (before_else_smaller b) as (_ & _ & Hd1).
  pose proof (before_else_smaller b2) as (_ & _ & Hd2').
  pose proof (before_else_elses b) as He1.
  pose proof (before_else_elses b2) as He2'.
  set (b1 := before_else b) in *. set (c2 := before_else b2) in *.
  assert (HL1 : ends_percent ((pre ++ M) ++ render b1) = false)
    by (by eapply render_ends).
  set (p1 := p0 + String.length (render b1)).
  apply (skip_loop_mono (tokens b1 + S (tokens c2 + 1))); [|done|lia].
  rewrite (skip_pass_at b1 v (pre ++ M)
             ("%{else}" ++ render b2 ++ "%{}" ++ rest)
             p0 p1 _ (S (tokens c2 + 1)));
    [|unfold v; rewrite Hr; str_eq|unfold p0; len_eq|done|done|done|done
     |lia|by right].
  rewrite (skip_else_dropped _ v p1 p1 7);
    [|apply (else_at v ((pre ++ M) ++ render b1)
               (render b2 ++ "%{}" ++ rest));
      [unfold v; rewrite Hr; str_eq|unfold p1, p0; len_eq|done]].
  rewrite (erase_at v pre (M ++ render b1 ++ "%{else}")
             (render b2 ++ "%{}" ++ rest));
    [|unfold v; rewrite Hr; str_eq|done|unfold p1, p0; len_eq].
  rewrite Nat.add_0_r.
  rewrite (skip_pass_at c2 _ pre
             ("%{else}" ++ render b3 ++ "%{}" ++ rest)
             (String.length pre)
             (String.length pre + String.length (render c2)) _ 1);
    [|rewrite Hr2; str_eq|done|done|done|done|done|lia|right; lia].
  apply (skip_loop_double_else 0 false _ _ _
           (String.length pre + String.length (render c2)) 7).
  apply (else_at _ (pre ++ render c2) (render b3 ++ "%{}" ++ rest));
    [rewrite Hr2; str_eq|len_eq|by eapply render_ends].
Qed.

(** ** A round at a marker of the template *)

Lemma var_at (pre x rest v : string) (pos : nat) :
  plain_from pre pos -> ends_percent pre = false ->
  is_name x = true -> plain_type x = DelayedVariable ->
  v = pre ++ ("%{" ++ x ++ "}") ++ rest ->
  find_next_delayed v pos
  = (DelayedVariable, String.length pre, String.length x + 3)
  /\ forall r, referenced_name r v DelayedVariable (String.length pre)
                 (String.length x + 3) = target (varprefix r) x.
Proof.
  intros Hplain Hends Hx Hp ->. split.
  - rewrite scan_after by done. rewrite !app_assoc_str.
    rewrite scan_variable, Hp by done. simpl. by rewrite Nat.add_0_r.
  - intros r.
    replace (String.length pre) with (String.length pre + 0) at 1 by lia.
    rewrite referenced_name_at, !app_assoc_str.
    by apply referenced_name_variable.
Qed.

Lemma cond_at (pre : string) (m : ascii) (x rest v : string) (pos : nat) :
  plain_from pre pos -> ends_percent pre = false ->
  m = "?"%char \/ m = "!"%char -> is_name x = true ->
  v = pre ++ ("%{" ++ String m x ++ "}") ++ rest ->
  let ty := if Ascii.eqb m "?" then DelayedIf else DelayedNotif in
  find_next_delayed v pos = (ty, String.length pre, String.length x + 4)
  /\ (ty = DelayedIf \/ ty = DelayedNotif)
  /\ forall r, referenced_name r v ty (String.length pre)
                 (String.length x + 4) = target (varprefix r) x.
Proof.
  intros Hplain Hends Hm Hx -> ty.
  assert (Hty : ty = DelayedIf \/ ty = DelayedNotif).
  { unfold ty. destruct Hm as [-> | ->]; auto. }
  split_and!; [|done|].
  - rewrite scan_after by done. rewrite scan_test_marker by done.
    fold ty. destruct Hty as [-> | ->]; simpl; by rewrite Nat.add_0_r.
  - intros r.
    replace (String.length pre) with (String.length pre + 0) at 1 by lia.
    rewrite referenced_name_at, !app_assoc_str.
    by apply referenced_name_test.
Qed.

Lemma marker_at (pre M rest v : string) (pos : nat) (ty : DelayedType)
    (len : nat) :
  plain_from pre pos -> ends_percent pre = false ->
  find_next_delayed (M ++ rest) 0 = (ty, 0, len) -> ty <> DelayedNotFound ->
  v = pre ++ M ++ rest ->
  find_next_delayed v pos = (ty, String.length pre, len).
Proof.
  intros Hplain Hends Hscan Hty ->. rewrite scan_after, Hscan by done.
  destruct ty; try done; simpl; by rewrite Nat.add_0_r.
Qed.

(** What the round does after the call, at a variable and at a
    conditional. *)
Lemma after_call_var (fuel : nat) (key name pre x rest : string) (F' : Frame) :
  get (rc F') key = pre ++ ("%{" ++ x ++ "}") ++ rest -> name <> key ->
  let f1 := with_visited F' (visited F' ∖ {[key]}) in
  let s := get (rc f1) name in
  after_call fuel key DelayedVariable (String.length pre)
    (String.length x + 3) name F'
  = Again (String.length pre + String.length s)
      (with_rc f1 (set (rc f1) key (pre ++ s ++ rest))).
Proof.
  intros Hval Hne f1 s. unfold after_call.
  simpl bool_decide. simpl orb. simpl negb. cbv iota. cbv zeta.
  fold f1. change (rc f1) with (rc F') in *. rewrite Hval.
  cbn [rc with_rc]. rewrite get_set_ne by done. fold s.
  rewrite (replace_mid pre ("%{" ++ x ++ "}") rest);
    [done|done|by rewrite var_marker_length].
Qed.

Lemma after_call_cond (fuel : nat) (key name pre : string) (m : ascii)
    (x rest : string) (F' : Frame) :
  get (rc F') key = pre ++ ("%{" ++ String m x ++ "}") ++ rest ->
  m = "?"%char \/ m = "!"%char ->
  let ty := if Ascii.eqb m "?" then DelayedIf else DelayedNotif in
  let f1 := with_visited F' (visited F' ∖ {[key]}) in
  let result :=
    if istrue (Str.c_str (get (rc f1) name)) then Ascii.eqb m "?"
    else Ascii.eqb m "!" in
  after_call fuel key ty (String.length pre) (String.length x + 4) name F'
  = match
      (if result
       then skip_loop fuel true (pre ++ rest) (String.length pre) None
              false 0%N
       else skip_loop fuel false
              (pre ++ ("%{" ++ String m x ++ "}") ++ rest)
              (String.length pre + (String.length x + 4))
              (Some (String.length pre)) false 0%N)
    with
    | Matched v' =>
        Again (String.length pre) (with_rc f1 (set (rc f1) key v'))
    | SkipError errtext => Done (Null errtext key)
    | OutOfRange => Done Thrown
    | SkipNoFuel => Done NoFuel
    end.
Proof.
  intros Hval Hm ty f1 result. unfold after_call.
  assert (Hty : ty = DelayedIf \/ ty = DelayedNotif).
  { unfold ty. destruct Hm as [-> | ->]; auto. }
  assert (bool_decide (ty = DelayedIf) || bool_decide (ty = DelayedNotif)
          = true) as -> by (by destruct Hty as [-> | ->]).
  simpl negb. cbv iota. cbv zeta. fold f1.
  change (rc f1) with (rc F') in *. rewrite Hval.
  assert ((if istrue (Str.c_str (get (rc F') name))
           then bool_decide (ty = DelayedIf)
           else bool_decide (ty = DelayedNotif)) = result) as ->.
  { unfold result, ty. by destruct Hm as [-> | ->]; destruct (istrue _). }
  rewrite (erase_mid pre ("%{" ++ String m x ++ "}") rest)
    by (done || by rewrite marker_length).
  by destruct result.
Qed.

Section Rounds.

Variable recurse : string -> Frame -> Outcome.
Hypothesis recurse_keeps : keeps_frame recurse.

Lemma call_keeps (key name : string) (f F' : Frame) :
  active_ok f -> key ∈ has_reference f -> has_directive (get (rc f) key) ->
  (key ∉ visited f) ->
  recurse name (calling key f) = Returned F' ->
  get (rc F') key = get (rc f) key /\ key ∈ has_reference F'
  /\ visited F' ∖ {[key]} = visited f /\ name <> key
  /\ varprefix (rc F') = varprefix (rc f).
Proof.
  intros Hok Hin Hd Hnv Hcall.
  apply recurse_keeps in Hcall as [(Hv & Hh & Hk & Hp & _) Hname];
    [|by apply active_ok_calling].
  destruct (Hk key) as [? ?]; [simpl; set_solver|].
  split_and!; try done.
  - rewrite Hv. simpl. set_solver.
  - intros ->. apply Hname. simpl. set_solver.
Qed.

(** The frame of the next round is again one of an expanding key. *)
Lemma next_frame (fuel : nat) (key : string) (pos : nat) (f : Frame)
    (pos' : nat) (f' : Frame) :
  active_ok f -> key ∈ has_reference f ->
  resolve_delayed_round recurse fuel key pos f = Again pos' f' ->
  active_ok f' /\ key ∈ has_reference f'.
Proof.
  intros Hok Hin H.
  destruct (round_again _ _ _ _ _ _ _ recurse_keeps Hok Hin H)
    as (_ & Hpost & Hin' & _).
  split; [by eapply active_ok_post|done].
Qed.

(** The round at a variable of the template. *)
Lemma round_at_var (fuel : nat) (key pre x : string) (r : Tmpl) (pos : nat)
    (f : Frame) :
  expanding key pre (TVar x r) pos f ->
  resolve_delayed_round recurse fuel key pos f
  = if decide (key ∈ visited f) then Done (Null "self-reference" key)
    else
      let name := target (varprefix (rc f)) x in
      match recurse name (calling key f) with
      | Returned f1 =>
          let f1 := with_visited f1 (visited f1 ∖ {[key]}) in
          let s := get (rc f1) name in
          Again (String.length pre + String.length s)
            (with_rc f1 (set (rc f1) key (pre ++ s ++ render r)))
      | Null errtext errvar => Done (Null errtext errvar)
      | Thrown => Done Thrown
      | NoFuel => Done NoFuel
      end.
Proof.
  intros (Hval & Hends & Hplain & Hok & Hdepth & Hact & Hin).
  cbn [render chain_ok] in *.
  apply andb_true_iff in Hok as [Hx Hr].
  apply andb_true_iff in Hx as [Hx Hp]. apply bool_decide_eq_true in Hp.
  destruct (var_at pre x (render r) _ pos Hplain Hends Hx Hp Hval)
    as [Hscan Hname].
  assert (Hdir : has_directive (get (rc f) key)).
  { unfold has_directive. apply (find_next_delayed_earlier _ pos); [lia|].
    by rewrite Hscan. }
  rewrite (resolve_delayed_round_unfold recurse fuel _ _ _ _ _ _ Hscan).
  rewrite (Hname (rc f)). cbv iota zeta.
  destruct (decide (key ∈ visited f)) as [Hv|Hv]; [done|].
  fold (calling key f).
  destruct (recurse (target (varprefix (rc f)) x) (calling key f))
    as [F'|e k| |] eqn:Ecall; try done.
  destruct (call_keeps _ _ _ _ Hact Hin Hdir Hv Ecall)
    as (HvalF & HinF & HvisF & Hne & HpreF).
  rewrite Hval in HvalF.
  by rewrite (after_call_var fuel key _ pre x (render r) F' HvalF Hne).
Qed.

(** The round at a conditional of the template: a second [%{else}] of its
    own is an error; else the branch that the truth of the key's value
    selects takes the place of the conditional, and the cursor stays where
    the conditional began. *)
Lemma round_at_cond (fuel : nat) (key pre : string) (m : ascii) (x : string)
    (b r : Tmpl) (pos : nat) (f : Frame) :
  expanding key pre (TCond m x b r) pos f -> tokens b < fuel ->
  resolve_delayed_round recurse fuel key pos f
  = if decide (key ∈ visited f) then Done (Null "self-reference" key)
    else
      let name := target (varprefix (rc f)) x in
      match recurse name (calling key f) with
      | Returned f1 =>
          let f1 := with_visited f1 (visited f1 ∖ {[key]}) in
          let s := get (rc f1) name in
          let result :=
            if istrue (Str.c_str s) then Ascii.eqb m "?"
            else Ascii.eqb m "!" in
          if bool_decide (2 <= elses b) then Done (Null "double ELSE" key)
          else
            let t' :=
              tapp (if result then before_else b
                    else default TEnd (after_else b)) r in
            Again (String.length pre)
              (with_rc f1 (set (rc f1) key (pre ++ render t')))
      | Null errtext errvar => Done (Null errtext errvar)
      | Thrown => Done Thrown
      | NoFuel => Done NoFuel
      end.
Proof.
  intros (Hval & Hends & Hplain & Hok & Hdepth & Hact & Hin) Hfuel.
  cbn [render chain_ok depth] in *.
  apply andb_true_iff in Hok as [Hok Hr].
  apply andb_true_iff in Hok as [Hok Hb].
  apply andb_true_iff in Hok as [Hm Hx].
  assert (Hm' : m = "?"%char \/ m = "!"%char).
  { apply orb_true_iff in Hm as [Hm'|Hm']; apply Ascii.eqb_eq in Hm'; auto. }
  destruct (cond_at pre m x (render b ++ "%{}" ++ render r) _ pos
              Hplain Hends Hm' Hx Hval) as (Hscan & Hty & Hname).
  set (ty := if Ascii.eqb m "?" then DelayedIf else DelayedNotif) in *.
  assert (Hdir : has_directive (get (rc f) key)).
  { unfold has_directive. apply (find_next_delayed_earlier _ pos); [lia|].
    rewrite Hscan. simpl. by destruct Hty as [-> | ->]. }
  rewrite (resolve_delayed_round_unfold recurse fuel _ _ _ _ _ _ Hscan).
  rewrite (Hname (rc f)).
  assert (forall A B : Round,
            match ty with
            | DelayedNotFound => A
            | DelayedFi => Done (Null "FI without IF" key)
            | DelayedElse => Done (Null "ELSE without IF" key)
            | _ => B
            end = B) as -> by (intros; by destruct Hty as [-> | ->]).
  destruct (decide (key ∈ visited f)) as [Hv|Hv]; [done|].
  cbv zeta. fold (calling key f).
  destruct (recurse (target (varprefix (rc f)) x) (calling key f))
    as [F'|e k| |] eqn:Ecall; try done.
  destruct (call_keeps _ _ _ _ Hact Hin Hdir Hv Ecall)
    as (HvalF & HinF & HvisF & Hne & HpreF).
  rewrite Hval in HvalF.
  rewrite (after_call_cond fuel key _ pre m x _ F' HvalF Hm').
  cbv zeta.
  assert (Hdb : (N.of_nat (depth b) < 2 ^ 32)%N) by lia.
  destruct (bool_decide (2 <= elses b)) eqn:Ee.
  - apply bool_decide_eq_true in Ee.
    destruct (if istrue _ then _ else _).
    + by rewrite cond_double_kept.
    + by rewrite cond_double_dropped.
  - apply bool_decide_eq_false in Ee. rewrite render_tapp.
    destruct (if istrue _ then _ else _).
    + rewrite cond_kept; [done..|lia|done].
    + rewrite cond_dropped; [done..|lia|done].
Qed.

(** The outer loop does on the text what [run] tells on the template. *)
Theorem run_refines (key : string) (n : nat) :
  forall (pre : string) (t : Tmpl) (pos : nat) (f : Frame) (o : Outcome)
         (a fuel : nat),
    expanding key pre t pos f ->
    run recurse key n pre t f = Ends o ->
    n <= a -> tokens t < fuel ->
    resolve_delayed_loop a (resolve_delayed_round recurse fuel key) pos f = o.
Proof.
  induction n as [|n IH]; intros pre t pos f o a fuel Hexp Hrun Ha Hfuel;
    [discriminate|].
  pose proof Hexp as (Hval & Hends & Hplain & Hok & Hdepth & Hact & Hin).
  destruct a as [|a]; [lia|].
  destruct t as [|s r|x r|r|r|m x b r];
    cbn [run] in Hrun; cbn [render chain_ok depth tokens] in *.
  - (* the end *)
    injection Hrun as <-. apply loop_done, round_not_found.
    rewrite Hval, scan_after by done. by rewrite scan_plain_only.
  - (* a text *)
    apply andb_true_iff in Hok as [Hs Hr].
    apply (IH (pre ++ s) r pos f o (S a) fuel); [|done|lia|done].
    split_and!; try done.
    + by rewrite app_assoc_str.
    + by apply ends_percent_text.
    + by apply plain_from_text.
  - (* a variable *)
    pose proof (round_at_var fuel key pre x r pos f Hexp) as Hround.
    apply andb_true_iff in Hok as [_ Hr].
    destruct (decide (key ∈ visited f)) as [Hv|Hv].
    { injection Hrun as <-. by apply loop_done. }
    cbv zeta in Hrun, Hround.
    destruct (recurse (target (varprefix (rc f)) x) (calling key f))
      as [F'|e k| |] eqn:Ecall;
      try (injection Hrun as <-; by apply loop_done).
    destruct (ends_percent (get _ _)) eqn:Es; [discriminate|].
    rewrite (loop_again _ _ _ _ _ _ Hround).
    destruct (next_frame _ _ _ _ _ _ Hact Hin Hround) as [Hact' Hin'].
    eapply IH; [|exact Hrun|lia|lia].
    split_and!; try done.
    + cbn [rc with_rc]. rewrite get_set_eq. by rewrite app_assoc_str.
    + remember (get (rc (with_visited F' (visited F' ∖ {[key]})))
                  (target (varprefix (rc f)) x)) as s eqn:Hs.
      destruct s as [|c s]; [by rewrite app_empty_r|].
      by rewrite ends_percent_app.
    + rewrite <- str_length_app. apply plain_from_end.
  - (* a stray else *)
    injection Hrun as <-. apply loop_done.
    rewrite (resolve_delayed_round_unfold _ _ _ _ _ DelayedElse
               (String.length pre) 7); [done|].
    apply (marker_at pre "%{else}" (render r)); try done; apply scan_else.
  - (* a stray fi *)
    injection Hrun as <-. apply loop_done.
    rewrite (resolve_delayed_round_unfold _ _ _ _ _ DelayedFi
               (String.length pre) 3); [done|].
    apply (marker_at pre "%{}" (render r)); try done; apply scan_fi.
  - (* a conditional *)
    pose proof (round_at_cond fuel key pre m x b r pos f Hexp ltac:(lia))
      as Hround.
    apply andb_true_iff in Hok as [Hok Hr].
    apply andb_true_iff in Hok as [_ Hb].
    destruct (decide (key ∈ visited f)) as [Hv|Hv].
    { injection Hrun as <-. by apply loop_done. }
    cbv zeta in Hrun, Hround.
    destruct (recurse (target (varprefix (rc f)) x) (calling key f))
      as [F'|e k| |] eqn:Ecall;
      try (injection Hrun as <-; by apply loop_done).
    destruct (bool_decide (2 <= elses b)) eqn:Ee.
    { injection Hrun as <-. by apply loop_done. }
    set (f1 := with_visited F' (visited F' ∖ {[key]})) in *.
    set (result := if istrue _ then _ else _) in *.
    set (t' := tapp (if result then before_else b
                     else default TEnd (after_else b)) r) in *.
    rewrite (loop_again _ _ _ _ _ _ Hround).
    destruct (next_frame _ _ _ _ _ _ Hact Hin Hround) as [Hact' Hin'].
    pose proof (before_else_smaller b) as (Ht1 & _ & Hd1).
    assert (Ht' : tokens t' <= tokens b + tokens r
                  /\ depth t' <= Nat.max (depth b) (depth r)
                  /\ chain_ok false t' = true).
    { unfold t'. rewrite tokens_tapp, depth_tapp. destruct result.
      - split_and!; [lia|lia|].
        apply chain_ok_tapp; [|done].
        by apply chain_ok_outside, chain_ok_before_else.
      - destruct (after_else b) as [b2|] eqn:E; cbn [default from_option id].
        + pose proof (after_else_smaller b b2 E) as (? & _ & ?).
          split_and!; [lia|lia|].
          apply chain_ok_tapp; [|done].
          apply chain_ok_outside. by eapply chain_ok_after_else.
        + cbn [tokens depth tapp]. split_and!; [lia|lia|done]. }
    destruct Ht' as (Ht' & Hd' & Hok').
    eapply IH; [|exact Hrun|lia|lia].
    split_and!; try done.
    + cbn [rc with_rc]. by rewrite get_set_eq.
    + apply plain_from_end.
    + lia.
Qed.

End Rounds.

(** ** What [run] tells *)

Lemma well_formed_tapp (k : nat) (a b : Tmpl) :
  well_formed_in 0 a = true -> well_formed_in k b = true ->
  well_formed_in k (tapp a b) = true.
Proof.
  induction a as [|s r IH|x r IH|r IH|r IH|m x c _ r IH];
    cbn [well_formed_in tapp]; intros Ha Hb; try done; auto.
  apply andb_true_iff in Ha as [H1 H2].
  apply andb_true_iff. split; [|auto].
  destruct k; [done|]. clear -H1. done.
Qed.

Lemma well_formed_more (k : nat) (t : Tmpl) :
  well_formed_in k t = true -> well_formed_in (S k) t = true.
Proof.
  revert k. induction t as [|s r IH|x r IH|r IH|r IH|m x c _ r IH];
    cbn [well_formed_in]; intros k H; try done; auto.
  - destruct k; [done|]. by apply IH.
  - apply andb_true_iff in H as [H1 H2]. rewrite H1. by apply IH.
Qed.

Lemma well_formed_branches (b : Tmpl) :
  well_formed_in 1 b = true ->
  elses b <= 1
  /\ well_formed_in 0 (before_else b) = true
  /\ well_formed_in 0 (default TEnd (after_else b)) = true.
Proof.
  induction b as [|s r IH|x r IH|r IH|r IH|m x c _ r IH];
    cbn [well_formed_in elses before_else after_else]; intros H;
    try done; auto.
  - assert (He : forall t, well_formed_in 0 t = true -> elses t = 0).
    { clear. induction t; cbn [well_formed_in elses]; intros H; try done; auto.
      apply andb_true_iff in H as [_ H]. auto. }
    split_and!; [rewrite (He r H); lia|done|done].
  - apply andb_true_iff in H as [H1 H2].
    destruct (IH H2) as (? & ? & ?). split_and!; [done| |done].
    cbn [well_formed_in]. by rewrite H1.
Qed.

Section Told.

Variable recurse : string -> Frame -> Outcome.
Variable key : string.

(** With a step for every node, [run] comes to an end. *)
Lemma run_finishes (n : nat) :
  forall (pre : string) (t : Tmpl) (f : Frame),
    nodes t < n -> run recurse key n pre t f <> Unfinished.
Proof.
  induction n as [|n IH]; intros pre t f Hn; [lia|].
  destruct t as [|s r|x r|r|r|m x b r]; cbn [run nodes] in *; try done.
  - apply IH. lia.
  - destruct (decide _); [done|]. cbv zeta.
    destruct (recurse _ _); try done.
    destruct (ends_percent _); [done|]. apply IH. lia.
  - destruct (decide _); [done|]. cbv zeta.
    destruct (recurse _ _); try done.
    destruct (bool_decide _); [done|]. apply IH.
    rewrite nodes_tapp. pose proof (before_else_smaller b) as (_ & ? & _).
    destruct (if istrue _ then _ else _); [lia|].
    destruct (after_else b) as [b2|] eqn:E; cbn [default from_option id nodes].
    + pose proof (after_else_smaller b b2 E) as (_ & ? & _). lia.
    + lia.
Qed.

(** On a well-formed template [run] reports no error of its own: a [NULL]
    it ends in is the one of a call that it has made. *)
Lemma run_well_formed (n : nat) :
  forall (pre : string) (t : Tmpl) (f : Frame) (e k : string),
    well_formed t = true -> (key ∉ visited f) ->
    run recurse key n pre t f = Ends (Null e k) ->
    exists name F,
      (name, F) ∈ calls recurse key n pre t f /\ recurse name F = Null e k.
Proof.
  unfold well_formed.
  induction n as [|n IH]; intros pre t f e k Hwf Hv Hrun; [discriminate|].
  destruct t as [|s r|x r|r|r|m x b r];
    cbn [run calls well_formed_in] in *; try done.
  - by eapply IH.
  - rewrite decide_False in Hrun by done. rewrite decide_False by done.
    cbv zeta in *.
    destruct (recurse _ _) as [F'|e' k'| |] eqn:Ecall; try done.
    + destruct (ends_percent _); [done|].
      edestruct IH as (name & F & Hin & Hcall); [exact Hwf| |exact Hrun|].
      * simpl. set_solver.
      * exists name, F. split; [|done]. by apply list_elem_of_further.
    + injection Hrun as <- <-. eexists _, _. split; [|exact Ecall].
      apply list_elem_of_here.
  - apply andb_true_iff in Hwf as [Hb Hr].
    destruct (well_formed_branches b Hb) as (He & Hb1 & Hb2).
    rewrite decide_False in Hrun by done. rewrite decide_False by done.
    cbv zeta in *.
    destruct (recurse _ _) as [F'|e' k'| |] eqn:Ecall; try done.
    + rewrite bool_decide_eq_false_2 in Hrun by lia.
      rewrite bool_decide_eq_false_2 by lia.
      edestruct IH as (name & F & Hin & Hcall); [| |exact Hrun|].
      * destruct (if istrue _ then _ else _); by apply well_formed_tapp.
      * simpl. set_solver.
      * exists name, F. split; [|done]. by apply list_elem_of_further.
    + injection Hrun as <- <-. eexists _, _. split; [|exact Ecall].
      apply list_elem_of_here.
Qed.

(** On a well-formed template, when every call that [run] makes returns,
    [run] ends with the value, unless a value put in ends in [%]. *)
Lemma run_calls_return (n : nat) :
  forall (pre : string) (t : Tmpl) (f : Frame),
    well_formed t = true -> (key ∉ visited f) -> nodes t < n ->
    (forall name F, (name, F) ∈ calls recurse key n pre t f ->
       exists G, recurse name F = Returned G) ->
    run recurse key n pre t f = Escapes
    \/ exists f', run recurse key n pre t f = Ends (Returned f').
Proof.
  unfold well_formed.
  induction n as [|n IH]; intros pre t f Hwf Hv Hn Hcalls; [lia|].
  destruct t as [|s r|x r|r|r|m x b r];
    cbn [run calls well_formed_in nodes] in *; try done.
  - right. by eexists.
  - apply IH; [done|done|lia|done].
  - rewrite decide_False in Hcalls by done. rewrite decide_False by done.
    cbv zeta in *.
    destruct (Hcalls _ _ (list_elem_of_here _ _)) as [G HG].
    rewrite HG in *.
    destruct (ends_percent _); [by left|].
    apply IH; [done|simpl; set_solver|lia|].
    intros name F HF. apply Hcalls. by apply list_elem_of_further.
  - apply andb_true_iff in Hwf as [Hb Hr].
    destruct (well_formed_branches b Hb) as (He & Hb1 & Hb2).
    rewrite decide_False in Hcalls by done. rewrite decide_False by done.
    cbv zeta in *.
    destruct (Hcalls _ _ (list_elem_of_here _ _)) as [G HG].
    rewrite HG in *.
    rewrite bool_decide_eq_false_2 in Hcalls by lia.
    rewrite bool_decide_eq_false_2 by lia.
    apply IH.
    + destruct (if istrue _ then _ else _); by apply well_formed_tapp.
    + simpl. set_solver.
    + rewrite nodes_tapp. pose proof (before_else_smaller b) as (_ & ? & _).
      destruct (if istrue _ then _ else _); [lia|].
      destruct (after_else b) as [b2|] eqn:E; cbn [default from_option id nodes].
      * pose proof (after_else_smaller b b2 E) as (_ & ? & _). lia.
      * lia.
    + intros name F HF. apply Hcalls. by apply list_elem_of_further.
Qed.

(** Every call that [run] makes is one for a name of the template, made
    with [key] among the visited. *)
Lemma calls_visited (n : nat) :
  forall (pre : string) (t : Tmpl) (f : Frame) (name : string) (F : Frame),
    (name, F) ∈ calls recurse key n pre t f -> key ∈ visited F.
Proof.
  induction n as [|n IH]; intros pre t f name F; [by intros ?%elem_of_nil|].
  destruct t as [|s r|x r|r|r|m x b r]; cbn [calls];
    try (by intros ?%elem_of_nil).
  - apply IH.
  - destruct (decide _); [by intros ?%elem_of_nil|]. cbv zeta.
    intros [H|H]%elem_of_cons.
    + injection H as -> ->. simpl. set_solver.
    + destruct (recurse _ _); try (by apply elem_of_nil in H).
      destruct (ends_percent _); [by apply elem_of_nil in H|].
      by eapply IH.
  - destruct (decide _); [by intros ?%elem_of_nil|]. cbv zeta.
    intros [H|H]%elem_of_cons.
    + injection H as -> ->. simpl. set_solver.
    + destruct (recurse _ _); try (by apply elem_of_nil in H).
      destruct (bool_decide _); [by apply elem_of_nil in H|].
      by eapply IH.
Qed.

End Told.

(** ** The resolver on a template *)

(** A key whose value is a template is resolved as [run] tells. *)
Lemma resolve_as_told (n : nat) (key : string) (f : Frame) (t : Tmpl)
    (o : Outcome) :
  active_ok f -> key ∈ has_reference f ->
  get (rc f) key = render t -> chain_ok false t = true ->
  (N.of_nat (depth t) < 2 ^ 32)%N -> tokens t < n ->
  run (resolve_delayed_recurse n) key n "" t (with_rc f (touch (rc f) key))
  = Ends o ->
  resolve_delayed_recurse (S n) key f = o.
Proof.
  intros Hact Hin Hval Hok Hdepth Hn Hrun.
  rewrite resolve_delayed_recurse_unfold. cbv zeta.
  rewrite decide_True by done.
  eapply (run_refines _ (resolve_keeps_frame n));
    [|exact Hrun|done|done].
  split_and!; try done.
  - cbn [rc with_rc]. by rewrite get_touch, app_empty_l.
  - by apply active_ok_touch.
Qed.

(** C7 (amended): a key that is scanned and whose value is a template of
    texts without [%], variables and conditionals closed by their [%{}] is
    resolved as [run] tells on the template, as long as no value put in
    ends in [%]: "FI without IF" at a [%{}] outside every conditional,
    "ELSE without IF" at a [%{else}] outside every conditional,
    "double ELSE" at a conditional with two [%{else}] of its own.  On a
    well-formed template there is no error of the key's own: a [NULL] that
    the resolution ends in is what one of the nested calls of this very
    resolution has returned, each of them made with the key among the
    visited, and when all of them return the resolution returns, unless a
    value put in ends in [%].  A key outside [has_reference] is returned as
    it is, and a [read_undelayed] that returns has put a key into
    [has_reference] only when its value has a directive that refers to a
    key. *)
Theorem misplaced_markers_are_reported (n : nat) (key : string) (f : Frame)
    (t : Tmpl) :
  active_ok f -> key ∈ has_reference f -> (key ∉ visited f) ->
  get (rc f) key = render t -> chain_ok false t = true ->
  (N.of_nat (depth t) < 2 ^ 32)%N -> tokens t + nodes t < n ->
  let told :=
    run (resolve_delayed_recurse n) key n "" t
      (with_rc f (touch (rc f) key)) in
  let called :=
    calls (resolve_delayed_recurse n) key n "" t
      (with_rc f (touch (rc f) key)) in
  told <> Unfinished
  /\ (forall o, told = Ends o -> resolve_delayed_recurse (S n) key f = o)
  /\ (well_formed t = true ->
      (forall e k, told = Ends (Null e k) ->
         exists name F,
           (name, F) ∈ called
           /\ resolve_delayed_recurse n name F = Null e k)
      /\ (forall name F, (name, F) ∈ called -> key ∈ visited F)
      /\ ((forall name F, (name, F) ∈ called ->
             exists G, resolve_delayed_recurse n name F = Returned G) ->
          told = Escapes
          \/ exists f', told = Ends (Returned f')
                /\ resolve_delayed_recurse (S n) key f = Returned f'))
  /\ (forall recurse k m pre r g,
        run recurse k (S m) pre (TFi r) g = Ends (Null "FI without IF" k)
        /\ run recurse k (S m) pre (TElse r) g
           = Ends (Null "ELSE without IF" k))
  /\ (forall recurse k m pre c x b r g G,
        (k ∉ visited g) ->
        recurse (target (varprefix (rc g)) x) (calling k g) = Returned G ->
        2 <= elses b ->
        run recurse k (S m) pre (TCond c x b r) g
        = Ends (Null "double ELSE" k))
  /\ (forall m k g, (k ∉ has_reference g) ->
        resolve_delayed_recurse (S m) k g
        = Returned (with_rc g (touch (rc g) k)))
  /\ (forall E D full m w r r' hr' warnings k,
        read_undelayed E D full m w r ∅ = JoinDone (r', hr', warnings) ->
        k ∈ hr' -> refers_somewhere (get r' k)).
Proof.
  intros Hact Hin Hv Hval Hok Hdepth Hn told called.
  assert (Htold : forall o, told = Ends o ->
            resolve_delayed_recurse (S n) key f = o).
  { intros o Ho. eapply resolve_as_told; try done. lia. }
  split_and!.
  - apply run_finishes. lia.
  - exact Htold.
  - intros Hwf. split_and!.
    + intros e k Ho.
      eapply run_well_formed; [exact Hwf| |exact Ho]. exact Hv.
    + intros name F HF. by eapply calls_visited.
    + intros Hcalls.
      destruct (run_calls_return (resolve_delayed_recurse n) key n "" t
                  (with_rc f (touch (rc f) key)) Hwf Hv ltac:(lia) Hcalls)
        as [H|[f' H]]; [by left|].
      right. exists f'. split; [done|]. by apply Htold.
  - done.
  - intros recurse k m pre c x b r g G Hk Hcall He. cbn [run].
    rewrite decide_False by done. cbv zeta. rewrite Hcall.
    by rewrite bool_decide_eq_true_2.
  - intros. by apply resolve_without_reference.
  - intros E D full m w r r' hr' warnings k H Hk.
    destruct (read_undelayed_references _ _ _ _ _ _ _ _ _ _ _ H Hk) as [H0|];
      [|done].
    by apply not_elem_of_empty in H0.
Qed.

Lemma misplaced_markers_are_reported_witness :
  let f := example_frame ""
             [("K", "%{?X}a%{else}b%{}c%{Y}"); ("X", "1"); ("Y", "z")]
             ["K"] in
  exists f', resolve_delayed_recurse 13 "K" f = Returned f'
    /\ get (rc f') "K" = "acz".
Proof.
  intros f.
  destruct (misplaced_markers_are_reported 12 "K" f
              (TCond "?" "X" (TText "a" (TElse (TText "b" TEnd)))
                 (TText "c" (TVar "Y" TEnd))))
    as (_ & H & _).
  - intros k Hk. by apply not_elem_of_empty in Hk.
  - vm_compute. reflexivity.
  - apply not_elem_of_empty.
  - reflexivity.
  - reflexivity.
  - vm_compute. reflexivity.
  - vm_compute. lia.
  - eexists. split; [apply H; vm_compute; reflexivity|reflexivity].
Defined.

(** ** The loop that joins the references ends *)

Lemma pending_sum (W : string -> nat) (K : gset string) (k : string)
    (l : list string) :
  NoDup l -> (k ∉ K) ->
  sum_list_with (fun x => if decide (x ∈ {[k]} ∪ K) then 0 else W x) l
  + (if decide (k ∈ l) then W k else 0)
  = sum_list_with (fun x => if decide (x ∈ K) then 0 else W x) l.
Proof.
  intros Hnd Hk. induction l as [|x l IH]; [done|].
  apply NoDup_cons in Hnd as [Hx Hnd]. specialize (IH Hnd).
  cbn [sum_list_with].
  destruct (decide (x = k)) as [->|Hne].
  - rewrite decide_True by set_solver. rewrite (decide_False (P := k ∈ K)) by done.
    rewrite (decide_True (P := k ∈ k :: l)) by set_solver.
    rewrite (decide_False (P := k ∈ l)) in IH by done. lia.
  - destruct (decide (x ∈ K)) as [HxK|HxK].
    + rewrite decide_True by set_solver.
      destruct (decide (k ∈ l)) as [Hl|Hl].
      * rewrite (decide_True (P := k ∈ x :: l)) by set_solver. lia.
      * rewrite (decide_False (P := k ∈ x :: l)) by set_solver. lia.
    + rewrite decide_False by set_solver.
      destruct (decide (k ∈ l)) as [Hl|Hl].
      * rewrite (decide_True (P := k ∈ x :: l)) by set_solver. lia.
      * rewrite (decide_False (P := k ∈ x :: l)) by set_solver. lia.
Qed.

Lemma joined_value_outside (w : World) (tm : gmap string string) (k : string) :
  (k ∉ dom tm ∪ dom (environ w)) -> joined_value w tm k = "".
Proof.
  intros H. apply not_elem_of_union in H as [H1 H2].
  apply not_elem_of_dom in H1, H2. unfold joined_value, getenv.
  by rewrite H1, H2.
Qed.

(** A key that is joined adds at most 1 to the measure. *)
Lemma join_delayed_potential (w : World) (tm : gmap string string)
    (k : string) (i : nat) (st : EixRc * gset string) :
  i <= length (defaults st.1) ->
  potential w tm i (join_delayed w k st tm) <= potential w tm i st + 1.
Proof.
  destruct st as [r K]. intros Hi. unfold join_delayed.
  destruct (decide (k ∈ K)) as [Hk|Hk]; [lia|].
  unfold potential. cbn [fst snd defaults set with_this with_defaults].
  rewrite drop_app_le by done. rewrite sum_list_with_app.
  cbn [sum_list_with]. unfold pending.
  pose proof (pending_sum (joined_weight w tm) K k
                (elements (dom tm ∪ dom (environ w)))
                (NoDup_elements _) Hk) as Hsum.
  assert (Hw : option_weight
                 (mkOption LOCAL k
                    match tm !! k with
                    | Some v => v
                    | None => default "" (getenv w k)
                    end "")
               = joined_weight w tm k) by done.
  rewrite Hw.
  destruct (decide (k ∈ elements (dom tm ∪ dom (environ w)))) as [Hin|Hin].
  - lia.
  - assert (joined_weight w tm k = 1); [|lia].
    unfold joined_weight. rewrite joined_value_outside; [done|].
    by rewrite <- elem_of_elements.
Qed.

Lemma join_delayed_length (w : World) (tm : gmap string string)
    (k : string) (st : EixRc * gset string) :
  length (defaults st.1) <= length (defaults (join_delayed w k st tm).1).
Proof.
  destruct st as [r K]. unfold join_delayed.
  destruct (decide (k ∈ K)); [done|]. simpl. rewrite length_app. lia.
Qed.

Section Ending.

Variables EIX_VARS_PREFIX DIFF_EIX_VARS_PREFIX : string.
Variable full : nat -> bool.
Variables (w : World) (tm : gmap string string).

Lemma join_names_length (str : string) (pos len : nat)
    (st : EixRc * gset string) :
  length (defaults st.1)
  <= length (defaults (join_names EIX_VARS_PREFIX DIFF_EIX_VARS_PREFIX full
                         w tm str pos len st).1.1).
Proof.
  unfold join_names. destruct (Ascii.eqb _ _); cbn [fst].
  - etrans; [|apply join_delayed_length]. apply join_delayed_length.
  - apply join_delayed_length.
Qed.

Lemma join_names_potential (str : string) (pos len i : nat)
    (st : EixRc * gset string) :
  i <= length (defaults st.1) ->
  potential w tm i (join_names EIX_VARS_PREFIX DIFF_EIX_VARS_PREFIX full
                      w tm str pos len st).1
  <= potential w tm i st + 2.
Proof.
  intros Hi. unfold join_names. destruct (Ascii.eqb _ _); cbn [fst].
  - etrans; [apply join_delayed_potential|].
    + etrans; [|apply join_delayed_length]. done.
    + pose proof (join_delayed_potential w tm
                    (EIX_VARS_PREFIX ++ Str.substr str (pos + 1) (len - 2))
                    i st Hi). lia.
  - pose proof (join_delayed_potential w tm (Str.substr str pos (len - 1))
                  i st Hi). lia.
Qed.

(** With room in the vector from the size [c] on, no call of [join_delayed]
    on [c] options or more moves them. *)
Lemma join_names_room (c : nat) (str : string) (pos len : nat)
    (st : EixRc * gset string) :
  (forall n, c <= n -> full n = false) ->
  c <= length (defaults st.1) ->
  (join_names EIX_VARS_PREFIX DIFF_EIX_VARS_PREFIX full w tm str pos len
     st).2 = true.
Proof.
  intros Hroom Hc. unfold join_names, keeps_references.
  destruct (Ascii.eqb _ _); cbn [snd].
  - rewrite (Hroom _ Hc). rewrite Hroom.
    + by rewrite !orb_true_r.
    + etrans; [exact Hc|]. apply join_delayed_length.
  - rewrite (Hroom _ Hc). by rewrite orb_true_r.
Qed.

(** The scan of a value ends: it has scanned the value, or the reference
    dangles.  When it has scanned the value it has added to the measure at
    most 2 for every character it has passed. *)
Lemma join_scan_total (fuel : nat) (k str : string) (i : nat) :
  forall (pos : nat) (st : EixRc * gset string) (hr : gset string),
    String.length str < fuel + pos -> 1 <= fuel ->
    i <= length (defaults st.1) ->
    match join_scan EIX_VARS_PREFIX DIFF_EIX_VARS_PREFIX full fuel w tm k
            str pos st hr with
    | JoinDone (st', hr') =>
        i <= length (defaults st'.1)
        /\ potential w tm i st'
           <= potential w tm i st + 2 * (String.length str - pos)
    | JoinDangling => True
    | JoinNoFuel => False
    end.
Proof.
  induction fuel as [|fuel IH]; intros pos st hr Hlen Hfuel Hi; [lia|].
  cbn [join_scan].
  pose proof (find_next_delayed_span str pos) as Hspan.
  destruct (find_next_delayed str pos) as [[ty p] len].
  assert (Hnext : forall st1 hr1,
            ty <> DelayedNotFound ->
            i <= length (defaults st1.1) ->
            potential w tm i st1 <= potential w tm i st + 2 ->
            match join_scan EIX_VARS_PREFIX DIFF_EIX_VARS_PREFIX full fuel w
                    tm k str (p + len) st1 hr1 with
            | JoinDone (st', hr') =>
                i <= length (defaults st'.1)
                /\ potential w tm i st'
                   <= potential w tm i st + 2 * (String.length str - pos)
            | JoinDangling => True
            | JoinNoFuel => False
            end).
  { intros st1 hr1 Hty Hi1 Hp1.
    destruct (Hspan ty p len eq_refl Hty) as (Hp & Hl & Hend).
    specialize (IH (p + len) st1 hr1 ltac:(lia) ltac:(lia) Hi1).
    destruct (join_scan _ _ _ _ _ _ _ _ _ _ _) as [[st' hr']| |];
      [|done|done].
    destruct IH as [? ?]. split; [done|lia]. }
  assert (Hrefers : forall skip,
            ty <> DelayedNotFound -> skip <= len ->
            match
              (let '(st0, valid) :=
                 join_names EIX_VARS_PREFIX DIFF_EIX_VARS_PREFIX full w tm
                   str (p + skip) (len - skip) st in
               if valid
               then join_scan EIX_VARS_PREFIX DIFF_EIX_VARS_PREFIX full fuel
                      w tm k str (p + skip + (len - skip)) st0 ({[k]} ∪ hr)
               else JoinDangling)
            with
            | JoinDone (st', hr') =>
                i <= length (defaults st'.1)
                /\ potential w tm i st'
                   <= potential w tm i st + 2 * (String.length str - pos)
            | JoinDangling => True
            | JoinNoFuel => False
            end).
  { intros skip Hty Hskip.
    pose proof (join_names_length str (p + skip) (len - skip) st) as Hl.
    pose proof (join_names_potential str (p + skip) (len - skip) i st Hi)
      as Hp.
    destruct (join_names _ _ _ _ _ _ _ _ _) as [st1 valid]. cbn [fst] in *.
    destruct valid; [|done].
    replace (p + skip + (len - skip)) with (p + len) by lia.
    apply Hnext; [done|lia|done]. }
  destruct ty.
  - split; [done|lia].
  - destruct (Hspan _ _ _ eq_refl ltac:(done)) as (_ & ? & _).
    apply (Hrefers 2); [done|lia].
  - destruct (Hspan _ _ _ eq_refl ltac:(done)) as (_ & ? & _).
    apply (Hrefers 3); [done|lia].
  - destruct (Hspan _ _ _ eq_refl ltac:(done)) as (_ & ? & _).
    apply (Hrefers 3); [done|lia].
  - apply Hnext; [done|done|lia].
  - apply Hnext; [done|done|lia].
Qed.

(** With fuel beyond the measure the loop ends. *)
Lemma join_loop_total (fuel : nat) :
  forall (i : nat) (st : EixRc * gset string) (hr : gset string),
    potential w tm i st < fuel ->
    join_loop EIX_VARS_PREFIX DIFF_EIX_VARS_PREFIX full fuel w tm i st hr
    <> JoinNoFuel.
Proof.
  induction fuel as [|fuel IH]; intros i st hr Hpot; [lia|].
  cbn [join_loop]. destruct (defaults st.1 !! i) as [o|] eqn:Eo; [|done].
  pose proof (lookup_lt_Some _ _ _ Eo) as Hi.
  pose proof (join_scan_total (S (String.length (local_value o))) (key o)
                (local_value o) (S i) 0 st hr ltac:(lia) ltac:(lia)
                ltac:(lia)) as Hscan.
  destruct (join_scan _ _ _ _ _ _ _ _ _ _ _) as [[st1 hr1]| |];
    [|done|done].
  destruct Hscan as [Hi1 Hp1]. apply IH.
  unfold potential in Hpot. rewrite (drop_S _ _ _ Eo) in Hpot.
  cbn [sum_list_with] in Hpot. unfold option_weight at 1 in Hpot.
  unfold potential in *. lia.
Qed.

(** With room in the vector the scan reads no dangling reference. *)
Lemma join_scan_room (c : nat) (fuel : nat) (k str : string) :
  (forall n, c <= n -> full n = false) ->
  forall (pos : nat) (st : EixRc * gset string) (hr : gset string),
    c <= length (defaults st.1) ->
    join_scan EIX_VARS_PREFIX DIFF_EIX_VARS_PREFIX full fuel w tm k str pos
      st hr <> JoinDangling.
Proof.
  intros Hroom.
  induction fuel as [|fuel IH]; intros pos st hr Hc; [done|].
  cbn [join_scan]. destruct (find_next_delayed str pos) as [[ty p] len].
  destruct ty; try done; try (by apply IH);
    cbv zeta;
    match goal with
    | |- context [join_names ?a ?b ?c ?d ?e ?f ?g ?h ?i] =>
        pose proof (join_names_room _ f g h i Hroom Hc) as Hv;
        pose proof (join_names_length f g h i) as Hl;
        destruct (join_names a b c d e f g h i) as [st1 valid]
    end;
    cbn [fst snd] in *; subst valid; apply IH; lia.
Qed.

Lemma join_loop_room (c : nat) (fuel : nat) :
  (forall n, c <= n -> full n = false) ->
  forall (i : nat) (st : EixRc * gset string) (hr : gset string),
    c <= length (defaults st.1) ->
    join_loop EIX_VARS_PREFIX DIFF_EIX_VARS_PREFIX full fuel w tm i st hr
    <> JoinDangling.
Proof.
  intros Hroom.
  induction fuel as [|fuel IH]; intros i st hr Hc; [done|].
  cbn [join_loop]. destruct (defaults st.1 !! i) as [o|]; [|done].
  pose proof (join_scan_room c (S (String.length (local_value o))) (key o)
                (local_value o) Hroom 0 st hr Hc) as Hscan.
  destruct (join_scan _ _ _ _ _ _ _ _ _ _ _) as [[st1 hr1]| |] eqn:E;
    [|done|done].
  apply IH.
  apply (join_scan_inv _ _ _ _ _
           (fun s => c <= length (defaults s.1))) in E; [done| |done].
  intros k' st0 H0. etrans; [exact H0|]. apply join_delayed_length.
Qed.

End Ending.

(** [read_undelayed] ends: with fuel enough it has joined the references,
    or it has read the reference that dangles. *)
Lemma read_undelayed_total (EIX_VARS_PREFIX DIFF_EIX_VARS_PREFIX : string)
    (full : nat -> bool) (w : World) (r : EixRc) (hr : gset string) :
  exists N, forall fuel, N <= fuel ->
    read_undelayed EIX_VARS_PREFIX DIFF_EIX_VARS_PREFIX full fuel w r hr
    <> JoinNoFuel.
Proof.
  exists (S (potential w (layered_tempmap w r).1 0
               (set_new_values (layered_tempmap w r).1 r,
                list_to_set (key <$> defaults r)))).
  intros fuel Hfuel. unfold read_undelayed.
  rewrite (surjective_pairing (layered_tempmap w r)). cbv beta iota.
  pose proof (join_loop_total EIX_VARS_PREFIX DIFF_EIX_VARS_PREFIX full w
                (layered_tempmap w r).1 fuel 0
                (set_new_values (layered_tempmap w r).1 r,
                 list_to_set (key <$> defaults r)) hr ltac:(lia)) as H.
  by destruct (join_loop _ _ _ _ _ _ _ _ _) as [[r' hr']| |].
Qed.

(** With room in the vector for every option that is appended,
    [read_undelayed] reads no dangling reference. *)
Lemma read_undelayed_room (EIX_VARS_PREFIX DIFF_EIX_VARS_PREFIX : string)
    (full : nat -> bool) (fuel : nat) (w : World) (r : EixRc)
    (hr : gset string) :
  (forall n, length (defaults r) <= n -> full n = false) ->
  read_undelayed EIX_VARS_PREFIX DIFF_EIX_VARS_PREFIX full fuel w r hr
  <> JoinDangling.
Proof.
  intros Hroom. unfold read_undelayed.
  rewrite (surjective_pairing (layered_tempmap w r)). cbv beta iota.
  pose proof (join_loop_room EIX_VARS_PREFIX DIFF_EIX_VARS_PREFIX full w
                (layered_tempmap w r).1 (length (defaults r)) fuel Hroom 0
                (set_new_values (layered_tempmap w r).1 r,
                 list_to_set (key <$> defaults r)) hr) as H.
  destruct (join_loop _ _ _ _ _ _ _ _ _) as [[r' hr']| |]; try done.
  exfalso. apply H; [|done]. cbn [fst].
  pose proof (f_equal length (set_new_values_keys (layered_tempmap w r).1 r))
    as Hl.
  rewrite !length_fmap in Hl. lia.
Qed.

(** C4: the map that [read_undelayed] builds holds, for every key it has an
    option for, the value of the environment variable of that very name if
    there is one, else the one of the user's file, else the one of the
    system file, else the compiled-in default.  This holds after the loop
    that sets the new values, and it still holds when [read_undelayed]
    returns, also for the keys that joining has added (they have no
    compiled-in default).  The loop that joins the references ends: either
    [read_undelayed] returns, or it reads the reference [str] after
    [push_back] has moved the options; with room in the vector for every
    option that is appended it returns.  The compiled-in default of an
    option is its [value] when no two options share a key. *)
Theorem layers_override_in_order (EIX_VARS_PREFIX DIFF_EIX_VARS_PREFIX : string)
    (full : nat -> bool) (w : World) (r : EixRc) :
  let r1 := set_new_values (layered_tempmap w r).1 r in
  (forall o, o ∈ defaults r -> get r1 (key o) = layered_value w r (key o))
  /\ (forall fuel hr r' hr' warnings,
        read_undelayed EIX_VARS_PREFIX DIFF_EIX_VARS_PREFIX full fuel w r hr
          = JoinDone (r', hr', warnings) ->
        (forall o, o ∈ defaults r ->
           get r' (key o) = layered_value w r (key o))
        /\ (forall o, o ∈ defaults r' ->
              get r' (key o) = layered_value w r (key o)))
  /\ (forall hr, exists N, forall fuel, N <= fuel ->
        read_undelayed EIX_VARS_PREFIX DIFF_EIX_VARS_PREFIX full fuel w r hr
        <> JoinNoFuel)
  /\ ((forall n, length (defaults r) <= n -> full n = false) ->
      forall hr, exists N, forall fuel, N <= fuel ->
        exists r' hr' warnings,
          read_undelayed EIX_VARS_PREFIX DIFF_EIX_VARS_PREFIX full fuel w r hr
          = JoinDone (r', hr', warnings))
  /\ (forall k env usr sys dfl,
        getenv w k = Some env -> user_overlay w r !! k = Some usr ->
        system_overlay w r !! k = Some sys ->
        defaults_tempmap (defaults r) !! k = Some dfl ->
        layered_value w r k = env)
  /\ (NoDup (key <$> defaults r) ->
      forall o, o ∈ defaults r ->
        defaults_tempmap (defaults r) !! key o = Some (value o)).
Proof.
  intros r1. pose proof (set_new_values_ok w r) as Hok. split_and!.
  - intros o Ho. rewrite <- joined_value_layered. apply Hok. simpl.
    apply elem_of_list_to_set, list_elem_of_fmap. by exists o.
  - intros fuel hr r' hr' warnings. unfold read_undelayed.
    rewrite (surjective_pairing (layered_tempmap w r)). cbv beta iota.
    fold r1.
    destruct (join_loop _ _ _ _ _ _ _ _ _) as [[r2 hr2]| |] eqn:E;
      [|discriminate..].
    intros H. injection H as <- <- <-.
    apply (join_loop_inv _ _ _ _ _
             (fun st => joined_ok w (layered_tempmap w r).1 st
                /\ joined_more (r1, list_to_set (key <$> defaults r)) st))
      in E as (dk' & [Hget Hkeys] & Hsub & Hpre).
    + simpl in *. split.
      * intros o Ho. rewrite <- joined_value_layered. apply Hget, Hsub.
        apply elem_of_list_to_set, list_elem_of_fmap. by exists o.
      * intros o Ho. rewrite <- joined_value_layered. by apply Hget, Hkeys.
    + intros k st [? ?]. split;
        [by apply join_delayed_ok|by apply join_delayed_more].
    + split; [done|apply joined_more_refl].
  - intros hr. apply read_undelayed_total.
  - intros Hroom hr.
    destruct (read_undelayed_total EIX_VARS_PREFIX DIFF_EIX_VARS_PREFIX full
                w r hr) as [N HN].
    exists N. intros fuel Hfuel. specialize (HN fuel Hfuel).
    pose proof (read_undelayed_room EIX_VARS_PREFIX DIFF_EIX_VARS_PREFIX full
                  fuel w r hr Hroom) as Hd.
    destruct (read_undelayed _ _ _ _ _ _ _) as [[[r' hr'] ws]| |];
      [|done|done].
    by eexists _, _, _.
  - intros k env usr sys dfl He _ _ _. unfold layered_value. by rewrite He.
  - intros Hnd o Ho. by apply defaults_tempmap_lookup.
Qed.

Lemma layers_override_in_order_witness :
  let r := example_config [("K", "dfl"); ("S", "dfl"); ("U", "dfl"); ("D", "dfl")] in
  exists r' hr' warnings,
    read_undelayed "EIX_" "DIFF_" always_full 5 example_world r ∅
    = JoinDone (r', hr', warnings)
    /\ get r' "K" = "env" /\ get r' "U" = "usr" /\ get r' "S" = "sys"
    /\ get r' "D" = "dfl"
    /\ defaults_tempmap (defaults r) !! "K" = Some "dfl".
Proof.
  intros r.
  destruct (layers_override_in_order "EIX_" "DIFF_" always_full example_world
              r) as (_ & H & _ & _ & _ & Hd).
  destruct (read_undelayed "EIX_" "DIFF_" always_full 5 example_world r ∅)
    as [[[r' hr'] ws]| |] eqn:E; [|vm_compute in E; discriminate..].
  exists r', hr', ws. split; [done|].
  destruct (H _ _ _ _ _ E) as [Hget _].
  assert (Hin : forall k, k ∈ ["K"; "U"; "S"; "D"] ->
            mkOption STRING k "dfl" "" ∈ defaults r).
  { intros k Hk. apply (list_elem_of_fmap_2 (fun kv => mkOption STRING kv.1 kv.2 "")
      _ (k, "dfl")). set_solver. }
  split_and!.
  - exact (Hget (mkOption STRING "K" "dfl" "") (Hin "K" ltac:(set_solver))).
  - exact (Hget (mkOption STRING "U" "dfl" "") (Hin "U" ltac:(set_solver))).
  - exact (Hget (mkOption STRING "S" "dfl" "") (Hin "S" ltac:(set_solver))).
  - exact (Hget (mkOption STRING "D" "dfl" "") (Hin "D" ltac:(set_solver))).
  - apply (Hd ltac:(vm_compute; repeat constructor; set_solver)
             (mkOption STRING "K" "dfl" "")).
    apply Hin. set_solver.
Defined.

(** ** What a template resolves to *)

Lemma eval_off (env : string -> string) (t : Tmpl) :
  elses t = 0 -> eval env t false = "".
Proof.
  induction t as [|s r IH|x r IH|r IH|r IH|m x c _ r IH];
    cbn [elses eval]; intros H; try done; by rewrite IH.
Qed.

Lemma eval_tapp (env : string -> string) (a b : Tmpl) (on : bool) :
  elses a = 0 -> eval env (tapp a b) on = eval env a on ++ eval env b on.
Proof.
  induction a as [|s r IH|x r IH|r IH|r IH|m x c _ r IH];
    cbn [elses eval tapp]; intros H; try done;
    try (rewrite IH by done; by rewrite ?app_assoc_str).
Qed.

Lemma eval_branches (env : string -> string) (b : Tmpl) :
  elses b <= 1 ->
  eval env b true = eval env (before_else b) true
  /\ eval env b false = eval env (default TEnd (after_else b)) true.
Proof.
  induction b as [|s r IH|x r IH|r IH|r IH|m x c _ r IH];
    cbn [elses eval before_else after_else]; intros H; try done;
    try (destruct (IH H) as [-> ->]; done).
  cbn [negb default from_option id]. split; [|done].
  apply eval_off. lia.
Qed.

Lemma names_tapp (a b : Tmpl) (x : string) :
  x ∈ names (tapp a b) -> x ∈ names a \/ x ∈ names b.
Proof.
  induction a as [|s r IH|y r IH|r IH|r IH|m y c _ r IH];
    cbn [names tapp]; intros H; set_solver.
Qed.

Lemma names_before_else (b : Tmpl) (x : string) :
  x ∈ names (before_else b) -> x ∈ names b.
Proof.
  induction b as [|s r IH|y r IH|r IH|r IH|m y c _ r IH];
    cbn [names before_else]; intros H; set_solver.
Qed.

Lemma names_after_else (b b2 : Tmpl) (x : string) :
  after_else b = Some b2 -> x ∈ names b2 -> x ∈ names b.
Proof.
  induction b as [|s r IH|y r IH|r IH|r IH|m y c _ r IH];
    cbn [names after_else]; intros E H; try discriminate;
    try (injection E as <-); set_solver.
Qed.

Lemma settled_call (m : nat) (key name : string) (f : Frame) :
  (name ∉ has_reference f) ->
  resolve_delayed_recurse (S m) name (calling key f)
  = Returned (with_rc (calling key f) (touch (rc f) name)).
Proof. intros H. by rewrite resolve_without_reference. Qed.

Lemma settled_next (key : string) (env : string -> string) (t t' : Tmpl)
    (f : Frame) (name v : string) :
  settled_names key env t f -> (forall x, x ∈ names t' -> x ∈ names t) ->
  settled_names key env t'
    (with_rc
       (with_visited (with_rc (calling key f) (touch (rc f) name))
          (visited (with_rc (calling key f) (touch (rc f) name)) ∖ {[key]}))
       (set (rc (with_visited (with_rc (calling key f) (touch (rc f) name))
                   (visited (with_rc (calling key f) (touch (rc f) name))
                    ∖ {[key]})))
          key v)).
Proof.
  intros Hs Hsub x Hx. destruct (Hs x (Hsub x Hx)) as (H1 & H2 & H3 & H4).
  cbn [rc with_rc with_visited has_reference calling].
  change (varprefix (set (touch (rc f) name) key v)) with (varprefix (rc f)).
  split_and!; try done.
  by rewrite get_set_ne, get_touch.
Qed.

(** On a well-formed template over settled names [run] ends with the value
    that [eval] gives. *)
Lemma run_settled (m : nat) (key : string) (env : string -> string) (n : nat) :
  forall (pre : string) (t : Tmpl) (f : Frame),
    settled_names key env t f -> (key ∉ visited f) ->
    well_formed t = true -> nodes t < n ->
    get (rc f) key = pre ++ render t ->
    exists f',
      run (resolve_delayed_recurse (S m)) key n pre t f = Ends (Returned f')
      /\ get (rc f') key = pre ++ eval env t true.
Proof.
  unfold well_formed.
  induction n as [|n IH]; intros pre t f Hs Hv Hwf Hn Hval; [lia|].
  destruct t as [|s r|x r|r|r|c x b r];
    cbn [run well_formed_in nodes render eval] in *; try done.
  - eexists. split; [done|]. simpl. by rewrite Hval.
  - destruct (IH (pre ++ s) r f) as (f' & Hrun & Hget);
      [done|done|done|lia|by rewrite app_assoc_str|].
    exists f'. split; [done|]. by rewrite Hget, app_assoc_str.
  - destruct (Hs x ltac:(by left)) as (Hk & Hne & Henv & Hends).
    rewrite decide_False by done. cbv zeta.
    rewrite settled_call by done.
    cbn [rc with_rc with_visited].
    rewrite get_touch, Henv, Hends.
    edestruct (IH (pre ++ env x) r) as (f' & Hrun & Hget);
      [| | | |
       |exists f'; split; [exact Hrun|by rewrite Hget, app_assoc_str]].
    + eapply (settled_next key env (TVar x r) r f); [done|].
      intros y Hy. by right.
    + simpl. set_solver.
    + done.
    + lia.
    + cbn [rc with_rc]. by rewrite get_set_eq, app_assoc_str.
  - apply andb_true_iff in Hwf as [Hb Hr].
    destruct (well_formed_branches b Hb) as (He & Hb1 & Hb2).
    destruct (Hs x ltac:(by left)) as (Hk & Hne & Henv & Hends).
    rewrite decide_False by done. cbv zeta.
    rewrite settled_call by done.
    cbn [rc with_rc with_visited].
    rewrite get_touch, Henv.
    rewrite bool_decide_eq_false_2 by lia.
    destruct (eval_branches env b He) as [Et Ef].
    set (result := if istrue _ then _ else _).
    set (t' := tapp (if result then before_else b
                     else default TEnd (after_else b)) r).
    assert (Hsub : forall y, y ∈ names t' -> y ∈ names (TCond c x b r)).
    { intros y Hy. cbn [names]. right. apply elem_of_app.
      apply names_tapp in Hy as [Hy|Hy]; [left|by right].
      destruct result; [by apply names_before_else|].
      destruct (after_else b) as [b2|] eqn:E; cbn [default from_option id] in Hy.
      - by eapply names_after_else.
      - by apply elem_of_nil in Hy. }
    assert (Hn' : nodes t' < n).
    { unfold t'. rewrite nodes_tapp.
      pose proof (before_else_smaller b) as (_ & ? & _).
      destruct result; [lia|].
      destruct (after_else b) as [b2|] eqn:E; cbn [default from_option id nodes].
      - pose proof (after_else_smaller b b2 E) as (_ & ? & _). lia.
      - lia. }
    assert (Hwf' : well_formed_in 0 t' = true).
    { unfold t'. destruct result; by apply well_formed_tapp. }
    assert (He' : eval env t' true
                  = eval env b result ++ eval env r true).
    { unfold t'. destruct result.
      - rewrite eval_tapp by apply before_else_elses. by rewrite Et.
      - rewrite eval_tapp, Ef; [done|].
        destruct (after_else b) as [b2|] eqn:E; cbn [default from_option id];
          [|done].
        pose proof (after_else_elses b b2 E). lia. }
    edestruct (IH pre t') as (f' & Hrun & Hget);
      [| | | | |exists f'; split; [exact Hrun|by rewrite Hget, He']].
    + by eapply (settled_next key env (TCond c x b r) t' f).
    + simpl. set_solver.
    + done.
    + done.
    + cbn [rc with_rc]. by rewrite get_set_eq.
Qed.

(** X5: a key whose value is a well-formed template, over names whose keys
    are resolved and have values that do not end in [%], resolves, given
    enough fuel, to what the template means: the texts, the values of the
    variables, and of each conditional the branch that the truth of its
    name's value selects, nested conditionals included. *)
Lemma resolves_to_eval (n : nat) (key : string) (f : Frame) (t : Tmpl)
    (env : string -> string) :
  active_ok f -> key ∈ has_reference f -> (key ∉ visited f) ->
  get (rc f) key = render t -> chain_ok false t = true ->
  well_formed t = true -> (N.of_nat (depth t) < 2 ^ 32)%N ->
  settled_names key env t f -> tokens t + nodes t < n ->
  exists f', resolve_delayed_recurse (S n) key f = Returned f'
    /\ get (rc f') key = eval env t true.
Proof.
  intros Hact Hin Hv Hval Hok Hwf Hdepth Hs Hn.
  destruct n as [|m]; [lia|].
  destruct (run_settled m key env (S m) "" t (with_rc f (touch (rc f) key)))
    as (f' & Hrun & Hget).
  - intros x Hx. destruct (Hs x Hx) as (H1 & H2 & H3 & H4).
    cbn [rc with_rc has_reference].
    change (varprefix (touch (rc f) key)) with (varprefix (rc f)).
    split_and!; try done. by rewrite get_touch.
  - done.
  - done.
  - lia.
  - cbn [rc with_rc]. by rewrite get_touch, app_empty_l.
  - exists f'. split; [|by rewrite Hget, app_empty_l].
    eapply resolve_as_told; try done. lia.
Qed.

Lemma resolves_to_eval_witness :
  let t := TText "a" (TCond "?" "X" (TVar "Y" (TElse (TText "no" TEnd)))
                        (TCond "!" "X" (TText "c" TEnd) (TText "d" TEnd))) in
  let env := fun x : string => if String.eqb x "X" then "yes" else "b" in
  exists f',
    resolve_delayed_recurse 20 "K"
      (example_frame "" [("K", render t); ("X", "yes"); ("Y", "b")] ["K"])
    = Returned f'
    /\ get (rc f') "K" = eval env t true.
Proof.
  intros t env.
  apply (resolves_to_eval 19 "K"
           (example_frame "" [("K", render t); ("X", "yes"); ("Y", "b")] ["K"])
           t env).
  - intros k Hk. by apply not_elem_of_empty in Hk.
  - vm_compute. reflexivity.
  - apply not_elem_of_empty.
  - reflexivity.
  - reflexivity.
  - reflexivity.
  - vm_compute. reflexivity.
  - intros x Hx. cbn [names app] in Hx.
    assert (x = "X" \/ x = "Y") as [->| ->] by set_solver.
    + split_and!; [by vm_compute|done|reflexivity|reflexivity].
    + split_and!; [by vm_compute|done|reflexivity|reflexivity].
  - vm_compute. lia.
Defined.

(** ** Conditionals *)

(** C1: for a key whose value is a conditional block [%{?X}A%{}],
    [%{!X}A%{}], [%{?X}A%{else}B%{}] or [%{!X}A%{else}B%{}] over plain texts
    [A] and [B], [resolve_delayed_recurse] evaluates the resolved text of the
    key that [X] names with [istrue], which holds exactly of the texts equal,
    up to case, to [true], [1], [yes], [y] or [on]; the value becomes [A]
    when ([?] and true) or ([!] and false), and otherwise the text after
    [%{else}], or nothing when there is no [%{else}].  With [!] and
    [Some B] this is: [%{!X}A%{else}B%{}] gives [A] when X is falsy and [B]
    when it is truthy.  The same holds of the round at any conditional of a
    value that is a template, whatever stands in its branches and around
    it: the branch that is kept takes the place of the conditional. *)
Theorem istrue_selects_the_branch (m : ascii) (X A : string)
    (alt : option string) (key : string) (f : Frame) (n : nat) (F' : Frame) :
  m = "?"%char \/ m = "!"%char -> is_name X = true ->
  no_percent A = true -> no_percent (default "" alt) = true ->
  active_ok f -> key ∈ has_reference f -> (key ∉ visited f) ->
  get (rc f) key = block m X A alt ->
  resolve_delayed_recurse n (target (varprefix (rc f)) X)
    (calling key (with_rc f (touch (rc f) key))) = Returned F' ->
  let s := Str.c_str (get (rc F') (target (varprefix (rc f)) X)) in
  let kept := if istrue s then Ascii.eqb m "?" else Ascii.eqb m "!" in
  (istrue s = true <-> to_lower s ∈ ["true"; "1"; "yes"; "y"; "on"])
  /\ (forall k, n + 4 <= k ->
        exists f', resolve_delayed_recurse k key f = Returned f'
          /\ get (rc f') key = (if kept then A else default "" alt))
  /\ (forall recurse fuel k pre c x b r pos g G,
        keeps_frame recurse -> expanding k pre (TCond c x b r) pos g ->
        tokens b < fuel -> elses b <= 1 -> (k ∉ visited g) ->
        recurse (target (varprefix (rc g)) x) (calling k g) = Returned G ->
        let g1 := with_visited G (visited G ∖ {[k]}) in
        let v := Str.c_str (get (rc g1) (target (varprefix (rc g)) x)) in
        let branch :=
          if (if istrue v then Ascii.eqb c "?" else Ascii.eqb c "!")
          then before_else b else default TEnd (after_else b) in
        resolve_delayed_round recurse fuel k pos g
        = Again (String.length pre)
            (with_rc g1
               (set (rc g1) k (pre ++ render branch ++ render r)))).
Proof.
  intros Hm HX HA HB Hok Hin Hnv Hval Hcall s kept. split_and!.
  - apply istrue_spec.
  - intros k Hk.
    destruct (conditional_block m X A alt key f n F' Hm HX HA HB Hok Hin Hnv
                Hval Hcall k Hk) as (f' & Hres & Hget & _).
    by exists f'.
  - intros recurse fuel k pre c x b r pos g G Hkeeps Hexp Hfuel He Hk HG.
    cbv zeta.
    rewrite (round_at_cond recurse Hkeeps fuel k pre c x b r pos g Hexp Hfuel).
    rewrite decide_False by done. cbv zeta. rewrite HG.
    rewrite bool_decide_eq_false_2 by lia. by rewrite render_tapp.
Qed.

Lemma istrue_selects_the_branch_witness :
  let f := example_frame "" [("K", "%{!X}A%{else}B%{}"); ("X", "no")] ["K"] in
  exists f', resolve_delayed_recurse 5 "K" f = Returned f'
    /\ get (rc f') "K" = "A".
Proof.
  intros f.
  set (F := calling "K" (with_rc f (touch (rc f) "K"))).
  destruct (istrue_selects_the_branch "!" "X" "A" (Some "B") "K" f 1
              (with_rc F (touch (rc F) "X"))) as (_ & H & _).
  - by right.
  - reflexivity.
  - reflexivity.
  - reflexivity.
  - intros k Hk. by apply not_elem_of_empty in Hk.
  - vm_compute. reflexivity.
  - apply not_elem_of_empty.
  - reflexivity.
  - reflexivity.
  - destruct (H 5) as (f' & Hres & Hget); [lia|]. exists f'. split; [done|].
    rewrite Hget. reflexivity.
Defined.

(** A conditional with a conditional in its branch and texts all around:
    what it resolves to when the keys of both names are resolved. *)
Lemma nested_branches_resolve (X Y A B C D E : string) (key : string)
    (f : Frame) (n : nat) :
  is_name X = true -> is_name Y = true ->
  no_percent A = true -> no_percent B = true -> no_percent C = true ->
  no_percent D = true -> no_percent E = true ->
  active_ok f -> key ∈ has_reference f -> (key ∉ visited f) ->
  get (rc f) key
  = "%{?" ++ X ++ "}" ++ "%{?" ++ Y ++ "}" ++ A ++ "%{else}" ++ B ++ "%{}"
    ++ C ++ "%{else}" ++ D ++ "%{}" ++ E ->
  (forall x, x = X \/ x = Y ->
     (target (varprefix (rc f)) x ∉ has_reference f)
     /\ target (varprefix (rc f)) x <> key
     /\ ends_percent (get (rc f) (target (varprefix (rc f)) x)) = false) ->
  16 <= n ->
  exists f', resolve_delayed_recurse (S n) key f = Returned f'
    /\ get (rc f') key
       = (if istrue (Str.c_str (get (rc f) (target (varprefix (rc f)) X)))
          then (if istrue
                     (Str.c_str (get (rc f) (target (varprefix (rc f)) Y)))
                then A else B) ++ C
          else D) ++ E.
Proof.
  intros HX HY HA HB HC HD HE Hact Hin Hv Hval Hs Hn.
  set (t := TCond "?" X
              (TCond "?" Y (TText A (TElse (TText B TEnd)))
                 (TText C (TElse (TText D TEnd))))
              (TText E TEnd)).
  set (env := fun x => get (rc f) (target (varprefix (rc f)) x)).
  assert (Hrender : get (rc f) key = render t).
  { rewrite Hval. unfold t. cbn [render]. str_eq. }
  assert (Hok : chain_ok false t = true).
  { unfold t. cbn [chain_ok]. rewrite HX, HY, HA, HB, HC, HD, HE. reflexivity. }
  destruct n as [|m]; [lia|].
  destruct (run_settled m key env (S m) "" t (with_rc f (touch (rc f) key)))
    as (f' & Hrun & Hget).
  - intros x Hx. unfold t in Hx. cbn [names app] in Hx.
    assert (x = X \/ x = Y) as Hxy by set_solver.
    destruct (Hs x Hxy) as (H1 & H2 & H3).
    cbn [rc with_rc has_reference].
    change (varprefix (touch (rc f) key)) with (varprefix (rc f)).
    split_and!; try done. by rewrite get_touch.
  - done.
  - reflexivity.
  - unfold t. cbn [nodes]. lia.
  - cbn [rc with_rc]. by rewrite get_touch, app_empty_l.
  - exists f'. split.
    + eapply resolve_as_told; try done.
      unfold t. cbn [tokens]. lia.
    + rewrite Hget, app_empty_l. unfold t. cbn [eval]. unfold env.
      destruct (istrue (Str.c_str (get (rc f) (target (varprefix (rc f)) X))));
        destruct (istrue (Str.c_str (get (rc f) (target (varprefix (rc f)) Y))));
        cbn [Ascii.eqb Bool.eqb negb]; str_eq.
Qed.

(** C3: while it looks for the [%{}] that matches a conditional, the search
    keeps a counter: every [%{?..}] or [%{!..}] it passes adds one, every
    [%{}] met with a counter that is not 0 takes one away and is passed, and
    a [%{else}] met with a counter that is not 0 is passed.  So in
    [%{?X}%{?Y}A%{}%{}] the first [%{}] closes the inner block and is not
    taken for the outer one's: with X truthy and Y falsy the value resolves
    to the empty string.  More generally the search passes any body of
    balanced conditionals and comes out of it with the counter it went in
    with, as long as the counter stays below 2^32.  What the search gives
    back tells the same: for a body [b] with conditionals nested in it, a
    branch that is kept loses its own [%{else}] with all up to the [%{}]
    that follows the whole body, and a branch that is dropped goes up to
    its own [%{else}], or up to that [%{}]; the [%{else}] and [%{}] of the
    conditionals in [b] stay where they are.  So
    [%{?X}%{?Y}A%{else}B%{}C%{else}D%{}E] resolves to [ACE] or [BCE] when X
    is truthy, as Y is truthy or not, and to [DE] when X is falsy. *)
Theorem nested_conditional_resolves_to_empty (X Y A : string) (key : string)
    (f : Frame) (n : nat) (F1 F2 : Frame) :
  is_name X = true -> is_name Y = true -> no_percent A = true ->
  active_ok f -> key ∈ has_reference f -> (key ∉ visited f) ->
  get (rc f) key = "%{?" ++ X ++ "}" ++ "%{?" ++ Y ++ "}" ++ A ++ "%{}" ++ "%{}" ->
  resolve_delayed_recurse n (target (varprefix (rc f)) X)
    (calling key (with_rc f (touch (rc f) key))) = Returned F1 ->
  istrue (Str.c_str (get (rc F1) (target (varprefix (rc f)) X))) = true ->
  resolve_delayed_recurse n (target (varprefix (rc f)) Y)
    (calling key
       (with_rc (with_visited F1 (visited F1 ∖ {[key]}))
          (set (rc F1) key ("%{?" ++ Y ++ "}" ++ A ++ "%{}"))))
  = Returned F2 ->
  istrue (Str.c_str (get (rc F2) (target (varprefix (rc f)) Y))) = false ->
  (forall k, n + 5 <= k ->
     exists f', resolve_delayed_recurse k key f = Returned f'
       /\ get (rc f') key = "")
  /\ (forall fuel result v skippos delpos gotelse count ty p len,
        find_next_delayed v skippos = (ty, p, len) ->
        (ty = DelayedIf \/ ty = DelayedNotif ->
         skip_loop (S fuel) result v skippos delpos gotelse count
         = skip_loop fuel result v (p + len) delpos gotelse (count_incr count))
        /\ (ty = DelayedFi -> count <> 0%N ->
            skip_loop (S fuel) result v skippos delpos gotelse count
            = skip_loop fuel result v (p + len) delpos gotelse (count - 1)%N)
        /\ (ty = DelayedElse -> count <> 0%N ->
            skip_loop (S fuel) result v skippos delpos gotelse count
            = skip_loop fuel result v (p + len) delpos gotelse count))
  /\ (forall b L R m result d g c,
        chain_ok true b = true -> ends_percent L = false ->
        (N.of_nat (depth b) + c < 2 ^ 32)%N -> c <> 0%N \/ elses b = 0 ->
        skip_loop (tokens b + m) result (L ++ render b ++ R)
          (String.length L) d g c
        = skip_loop m result (L ++ render b ++ R)
            (String.length L + String.length (render b)) d g c)
  /\ (forall pre b rest fuel,
        chain_ok true b = true -> ends_percent pre = false ->
        (N.of_nat (depth b) < 2 ^ 32)%N -> elses b <= 1 -> tokens b < fuel ->
        skip_loop fuel true (pre ++ render b ++ "%{}" ++ rest)
          (String.length pre) None false 0%N
        = Matched (pre ++ render (before_else b) ++ rest))
  /\ (forall pre m x b rest fuel,
        chain_ok true b = true -> ends_percent pre = false ->
        (N.of_nat (depth b) < 2 ^ 32)%N -> elses b <= 1 -> tokens b < fuel ->
        skip_loop fuel false
          (pre ++ ("%{" ++ String m x ++ "}") ++ render b ++ "%{}" ++ rest)
          (String.length pre + (String.length x + 4))
          (Some (String.length pre)) false 0%N
        = Matched (pre ++ render (default TEnd (after_else b)) ++ rest))
  /\ (forall P Q a b c d e k g m,
        is_name P = true -> is_name Q = true ->
        no_percent a = true -> no_percent b = true -> no_percent c = true ->
        no_percent d = true -> no_percent e = true ->
        active_ok g -> k ∈ has_reference g -> (k ∉ visited g) ->
        get (rc g) k
        = "%{?" ++ P ++ "}" ++ "%{?" ++ Q ++ "}" ++ a ++ "%{else}" ++ b
          ++ "%{}" ++ c ++ "%{else}" ++ d ++ "%{}" ++ e ->
        (forall x, x = P \/ x = Q ->
           (target (varprefix (rc g)) x ∉ has_reference g)
           /\ target (varprefix (rc g)) x <> k
           /\ ends_percent (get (rc g) (target (varprefix (rc g)) x))
              = false) ->
        16 <= m ->
        exists g', resolve_delayed_recurse (S m) k g = Returned g'
          /\ get (rc g') k
             = (if istrue
                     (Str.c_str (get (rc g) (target (varprefix (rc g)) P)))
                then (if istrue
                           (Str.c_str
                              (get (rc g) (target (varprefix (rc g)) Q)))
                      then a else b) ++ c
                else d) ++ e).
Proof.
  intros HX HY HA Hok Hin Hnv Hval Hcall1 Htrue Hcall2 Hfalse.
  split_and!.
  - exact (nested_block_resolves X Y A key f n F1 F2 HX HY HA Hok Hin Hnv Hval
             Hcall1 Htrue Hcall2 Hfalse).
  - intros. by apply skip_loop_counter.
  - intros. by apply skip_pass.
  - intros. by apply cond_kept.
  - intros. by apply cond_dropped.
  - intros. by apply nested_branches_resolve.
Qed.

Lemma nested_conditional_resolves_to_empty_witness :
  (exists f',
     resolve_delayed_recurse 6 "K"
       (example_frame "" [("K", "%{?X}%{?Y}A%{}%{}"); ("X", "on"); ("Y", "off")]
          ["K"])
     = Returned f'
     /\ get (rc f') "K" = "")
  /\ (exists f',
        resolve_delayed_recurse 17 "K"
          (example_frame ""
             [("K", "%{?X}%{?Y}A%{else}B%{}C%{else}D%{}E"); ("X", "on");
              ("Y", "off")] ["K"])
        = Returned f'
        /\ get (rc f') "K" = "BCE")
  /\ (exists f',
        resolve_delayed_recurse 17 "K"
          (example_frame ""
             [("K", "%{?X}%{?Y}A%{else}B%{}C%{else}D%{}E"); ("X", "off");
              ("Y", "on")] ["K"])
        = Returned f'
        /\ get (rc f') "K" = "DE").
Proof.
  set (f := example_frame ""
              [("K", "%{?X}%{?Y}A%{}%{}"); ("X", "on"); ("Y", "off")] ["K"]).
  set (G := calling "K" (with_rc f (touch (rc f) "K"))).
  set (F1 := with_rc G (touch (rc G) "X")).
  set (H := calling "K"
              (with_rc (with_visited F1 (visited F1 ∖ {["K"]}))
                 (set (rc F1) "K" ("%{?" ++ "Y" ++ "}" ++ "A" ++ "%{}")))).
  destruct (nested_conditional_resolves_to_empty "X" "Y" "A" "K" f 1 F1
              (with_rc H (touch (rc H) "Y")))
    as (Hres & _ & _ & _ & _ & Hnest).
  - reflexivity.
  - reflexivity.
  - reflexivity.
  - intros k Hk. by apply not_elem_of_empty in Hk.
  - vm_compute. reflexivity.
  - apply not_elem_of_empty.
  - reflexivity.
  - reflexivity.
  - reflexivity.
  - reflexivity.
  - reflexivity.
  - split_and!.
    + apply Hres. lia.
    + destruct (Hnest "X" "Y" "A" "B" "C" "D" "E" "K"
                  (example_frame ""
                     [("K", "%{?X}%{?Y}A%{else}B%{}C%{else}D%{}E");
                      ("X", "on"); ("Y", "off")] ["K"]) 16)
        as (f' & Hf & Hget); try reflexivity.
      * intros k Hk. by apply not_elem_of_empty in Hk.
      * apply not_elem_of_empty.
      * intros x [-> | ->];
          (split_and!; [by vm_compute|done|reflexivity]).
      * exists f'. split; [exact Hf|]. rewrite Hget. reflexivity.
    + destruct (Hnest "X" "Y" "A" "B" "C" "D" "E" "K"
                  (example_frame ""
                     [("K", "%{?X}%{?Y}A%{else}B%{}C%{else}D%{}E");
                      ("X", "off"); ("Y", "on")] ["K"]) 16)
        as (f' & Hf & Hget); try reflexivity.
      * intros k Hk. by apply not_elem_of_empty in Hk.
      * apply not_elem_of_empty.
      * intros x [-> | ->];
          (split_and!; [by vm_compute|done|reflexivity]).
      * exists f'. split; [exact Hf|]. rewrite Hget. reflexivity.
Defined.

(** * Further properties of the scanner and of the resolver *)

Lemma steady_refl (f : Frame) : steady f f.
Proof. by unfold steady. Qed.

Lemma steady_trans (f g h : Frame) : steady f g -> steady g h -> steady f h.
Proof.
  intros (A1 & A2 & A3) (B1 & B2 & B3). unfold steady. split_and!.
  - set_solver.
  - intros k Hk. rewrite B2, A2; [done|done|set_solver].
  - set_solver.
Qed.

Lemma dom_set (r : EixRc) (k v : string) :
  dom (this (set r k v)) = {[k]} ∪ dom (this r).
Proof. unfold set. simpl. by rewrite dom_insert_L. Qed.

Lemma steady_touch (f : Frame) (k : string) :
  steady f (with_rc f (touch (rc f) k)).
Proof.
  unfold steady. split_and!; [done| |].
  - intros. apply get_touch.
  - cbn [rc with_rc]. unfold touch. rewrite dom_set. set_solver.
Qed.

(** One round for [key]: whatever it hands on differs from the frame it
    got at most at [key] and at keys of [has_reference]. *)
Lemma round_steady (recurse : string -> Frame -> Outcome) (fuel : nat)
    (key : string) (pos : nat) (f : Frame) :
  keeps_steady recurse ->
  match resolve_delayed_round recurse fuel key pos f with
  | Again _ f1 =>
      has_reference f1 ⊆ has_reference f
      /\ (forall k, k ∉ has_reference f -> k <> key ->
            get (rc f1) k = get (rc f) k)
      /\ dom (this (rc f)) ⊆ dom (this (rc f1))
  | Done (Returned f1) =>
      f1 = with_has_reference f (has_reference f ∖ {[key]})
  | _ => True
  end.
Proof.
  intros Hrec.
  destruct (find_next_delayed (get (rc f) key) pos) as [[ty p] len] eqn:Hscan.
  rewrite (resolve_delayed_round_unfold _ _ _ _ _ _ _ _ Hscan).
  assert (Hbody : forall name,
    match
      match recurse name (with_visited f ({[key]} ∪ visited f)) with
      | Returned f1 => after_call fuel key ty p len name f1
      | Null errtext errvar => Done (Null errtext errvar)
      | Thrown => Done Thrown
      | NoFuel => Done NoFuel
      end
    with
    | Again _ f1 =>
        has_reference f1 ⊆ has_reference f
        /\ (forall k, k ∉ has_reference f -> k <> key ->
              get (rc f1) k = get (rc f) k)
        /\ dom (this (rc f)) ⊆ dom (this (rc f1))
    | Done (Returned f1) =>
        f1 = with_has_reference f (has_reference f ∖ {[key]})
    | _ => True
    end).
  { intros name.
    destruct (recurse name _) as [F'| | |] eqn:Hcall; try done.
    destruct (Hrec _ _ _ Hcall) as [(H1 & H2 & H3) _].
    cbn [rc visited has_reference with_visited] in H1, H2, H3.
    assert (Hset : forall v',
      let f1 := with_rc (with_visited F' (visited F' ∖ {[key]}))
                  (set (rc F') key v') in
      has_reference f1 ⊆ has_reference f
      /\ (forall k, k ∉ has_reference f -> k <> key ->
            get (rc f1) k = get (rc f) k)
      /\ dom (this (rc f)) ⊆ dom (this (rc f1))).
    { intros v'. cbn [rc visited has_reference with_visited with_rc].
      split_and!; [done| |].
      - intros k Hk Hne. rewrite get_set_ne by done. by apply H2.
      - rewrite dom_set. set_solver. }
    unfold after_call. cbn [rc visited has_reference with_visited with_rc].
    destruct (negb _).
    - apply Hset.
    - destruct (if istrue _ then _ else _).
      all: match goal with
           | |- context [skip_loop ?a ?b ?c ?d ?g ?h ?i] =>
               destruct (skip_loop a b c d g h i) as [v'| | |]; try done
           end.
      all: apply Hset. }
  destruct ty; try done.
  all: case_decide; [done|]; apply Hbody.
Qed.

Lemma loop_steady (recurse : string -> Frame -> Outcome) (fuel : nat)
    (key : string) (a : nat) (pos : nat) (f f' : Frame) :
  keeps_steady recurse ->
  resolve_delayed_loop a (resolve_delayed_round recurse fuel key) pos f
  = Returned f' ->
  has_reference f' ⊆ has_reference f
  /\ (forall k, k ∉ has_reference f -> k <> key ->
        get (rc f') k = get (rc f) k)
  /\ dom (this (rc f)) ⊆ dom (this (rc f'))
  /\ (key ∉ has_reference f').
Proof.
  intros Hrec. revert pos f. induction a as [|a IH]; intros pos f; [done|].
  cbn [resolve_delayed_loop].
  pose proof (round_steady recurse fuel key pos f Hrec) as Hround.
  destruct (resolve_delayed_round recurse fuel key pos f) as [pos1 f1|o].
  - intros Hloop. destruct Hround as (A1 & A2 & A3).
    destruct (IH _ _ Hloop) as (B1 & B2 & B3 & B4). split_and!.
    + set_solver.
    + intros k Hk Hne. rewrite B2, A2; [done|done|done|set_solver|done].
    + set_solver.
    + done.
  - intros ->. subst f'. cbn [rc has_reference with_has_reference].
    split_and!; [set_solver|done|done|set_solver].
Qed.

(** A call that returns has added no key to [has_reference], has changed
    no value of a key outside [has_reference], and has left an entry for
    its key; the key itself is then outside [has_reference]. *)
Lemma resolve_steady (n : nat) :
  keeps_steady (resolve_delayed_recurse n)
  /\ forall key f f', resolve_delayed_recurse n key f = Returned f' ->
       key ∉ has_reference f'.
Proof.
  induction n as [|n [IH _]]; [split; [intros ???|intros ???]; done|].
  assert (forall key f f',
    resolve_delayed_recurse (S n) key f = Returned f' ->
    (steady f f' /\ key ∈ dom (this (rc f'))) /\ (key ∉ has_reference f'))
    as H.
  { intros key f f'. cbn [resolve_delayed_recurse].
    set (f0 := with_rc f (touch (rc f) key)).
    assert (key ∈ dom (this (rc f0))) as Hdom.
    { unfold f0. cbn [rc with_rc]. unfold touch. rewrite dom_set. set_solver. }
    pose proof (steady_touch f key) as H0. fold f0 in H0.
    case_decide as Hin.
    - intros Hloop. apply loop_steady in Hloop as (A1 & A2 & A3 & A4); [|done].
      split; [|done]. split; [|set_solver].
      eapply steady_trans; [exact H0|]. unfold steady. split_and!; try done.
      intros k Hk. apply A2; [done|]. intros ->. done.
    - intros [= <-]. done. }
  split.
  - intros key f f' Hcall. by destruct (H key f f' Hcall).
  - intros key f f' Hcall. by destruct (H key f f' Hcall).
Qed.

(** A character of a name, or one that may start a name, is none of
    [}], [%] and [{]. *)
Lemma name_char_plain (c : ascii) :
  not_name_char c = false \/ not_name_start c = false ->
  c <> "}"%char /\ c <> "%"%char /\ c <> "{"%char.
Proof.
  intros H. split_and!; intros ->; by destruct H.
Qed.

(** The span that the body of the scanner's loop accepts at [p]: it ends
    with the first [}] after the opener, and between the two there is
    neither a [%] nor a [{]; the span is three characters long exactly
    when the type is [DelayedFi]. *)
Lemma delayed_at_shape (str : string) (p : nat) (ty : DelayedType) (len : nat) :
  delayed_at str p = Some (ty, len) ->
  Str.at_ str (p + len - 1) = "}"%char
  /\ (ty = DelayedFi <-> len = 3)
  /\ forall k, p + 2 <= k < p + len - 1 ->
       Str.at_ str k <> "}"%char /\ Str.at_ str k <> "%"%char
       /\ Str.at_ str k <> "{"%char.
Proof.
  unfold delayed_at. intros H.
  destruct (Ascii.eqb (Str.at_ str (p + 2)) "}") eqn:Hfi.
  { injection H as <- <-. apply Ascii.eqb_eq in Hfi. split_and!.
    - by replace (p + (S (p + 2) - p) - 1) with (p + 2) by lia.
    - split; [lia|done].
    - intros k Hk. lia. }
  assert (Hcase :
    exists ty0 i0, p + 3 <= i0 <= p + 4 /\ ty0 <> DelayedFi
      /\ (forall k, p + 2 <= k < i0 ->
            not_name_start (Str.at_ str (i0 - 1)) = false ->
            Str.at_ str k <> "}"%char /\ Str.at_ str k <> "%"%char
            /\ Str.at_ str k <> "{"%char)
      /\ (if Ascii.eqb (Str.at_ str (p + 2)) "?"
          then (DelayedIf, Str.at_ str (S (p + 2)), S (S (p + 2)))
          else if Ascii.eqb (Str.at_ str (p + 2)) "!"
               then (DelayedNotif, Str.at_ str (S (p + 2)), S (S (p + 2)))
               else (DelayedVariable, Str.at_ str (p + 2), S (p + 2)))
         = (ty0, Str.at_ str (i0 - 1), i0)).
  { destruct (Ascii.eqb _ "?") eqn:Hq;
      [|destruct (Ascii.eqb _ "!") eqn:Hb].
    - exists DelayedIf, (S (S (p + 2))). apply Ascii.eqb_eq in Hq.
      split_and!; [lia|lia|done| |f_equal; f_equal; f_equal; lia].
      intros k Hk Hs. destruct (decide (k = p + 2)) as [->|].
      + rewrite Hq. done.
      + replace k with (S (S (p + 2)) - 1) by lia.
        apply name_char_plain. by right.
    - exists DelayedNotif, (S (S (p + 2))). apply Ascii.eqb_eq in Hb.
      split_and!; [lia|lia|done| |f_equal; f_equal; f_equal; lia].
      intros k Hk Hs. destruct (decide (k = p + 2)) as [->|].
      + rewrite Hb. done.
      + replace k with (S (S (p + 2)) - 1) by lia.
        apply name_char_plain. by right.
    - exists DelayedVariable, (S (p + 2)).
      split_and!; [lia|lia|done| |f_equal; f_equal; f_equal; lia].
      intros k Hk Hs. replace k with (S (p + 2) - 1) by lia.
      apply name_char_plain. by right. }
  destruct Hcase as (ty0 & i0 & Hi & Hty0 & Hhead & Heq).
  rewrite Heq in H. clear Heq.
  destruct (not_name_start (Str.at_ str (i0 - 1))) eqn:Hstart; [done|].
  destruct (name_loop (Str.substr_from str i0) i0) as [c j] eqn:Hloop.
  apply name_loop_spec in Hloop as (Hij & Hc & _ & Hname).
  destruct (Ascii.eqb c "}") eqn:Hc'; [|done]. cbn [negb] in H.
  apply Ascii.eqb_eq in Hc'. subst c.
  assert (ty <> DelayedFi /\ len = j - p) as [Hty ->].
  { case_match; injection H as <- <-; done. }
  split_and!.
  - replace (p + (j - p) - 1) with (j - 1) by lia. done.
  - split; [done|lia].
  - intros k Hk. destruct (decide (k < i0)) as [Hlt|Hge].
    + apply Hhead; [lia|done].
    + apply name_char_plain. left. apply Hname. lia.
Qed.

(** X1: the span that the scanner reports is a whole directive inside the
    string, at or after the start position: it begins with [%{] that no [%]
    precedes, it ends with the first [}] after the opener, nothing between
    the two is a [%] or a [{], and it is [%{}] exactly when the type is
    [DelayedFi]. *)
Theorem scanner_reports_whole_directive (str : string) (pos : nat)
    (ty : DelayedType) (p len : nat) :
  find_next_delayed str pos = (ty, p, len) -> ty <> DelayedNotFound ->
  pos <= p /\ 3 <= len /\ p + len <= String.length str
  /\ Str.at_ str p = "%"%char /\ Str.at_ str (S p) = "{"%char
  /\ (0 < p -> Str.at_ str (p - 1) <> "%"%char)
  /\ Str.at_ str (p + len - 1) = "}"%char
  /\ (forall k, p + 2 <= k < p + len - 1 ->
        Str.at_ str k <> "}"%char /\ Str.at_ str k <> "%"%char
        /\ Str.at_ str k <> "{"%char)
  /\ (ty = DelayedFi <-> len = 3).
Proof.
  intros Hscan Hty.
  destruct (find_next_delayed_cases str pos)
    as [[H _]|(ty' & p' & len' & H & _ & Hle & Hd & _)]; [congruence|].
  rewrite Hscan in H. injection H as <- <- <-.
  destruct (directive_at_span _ _ _ _ Hd) as [Hlen Hend].
  unfold directive_at in Hd. case_decide as Ho; [|done].
  apply occurs_opener in Ho as (Ha & Hb & _).
  destruct (escaped str p) eqn:Hesc; [done|].
  apply delayed_at_shape in Hd as (Hclose & Hfi & Hin).
  split_and!; try done.
  intros Hp Hpct. unfold escaped in Hesc.
  apply andb_false_iff in Hesc as [Hesc|Hesc].
  - apply Nat.ltb_ge in Hesc. lia.
  - rewrite Hpct in Hesc. done.
Qed.

Lemma scanner_reports_whole_directive_witness :
  2 <= 7 /\ 3 <= 5 /\ 7 + 5 <= String.length "a %%{b}%{?c}d%{}"
  /\ Str.at_ "a %%{b}%{?c}d%{}" 7 = "%"%char
  /\ Str.at_ "a %%{b}%{?c}d%{}" 8 = "{"%char
  /\ (0 < 7 -> Str.at_ "a %%{b}%{?c}d%{}" (7 - 1) <> "%"%char)
  /\ Str.at_ "a %%{b}%{?c}d%{}" (7 + 5 - 1) = "}"%char
  /\ (forall k, 7 + 2 <= k < 7 + 5 - 1 ->
        Str.at_ "a %%{b}%{?c}d%{}" k <> "}"%char
        /\ Str.at_ "a %%{b}%{?c}d%{}" k <> "%"%char
        /\ Str.at_ "a %%{b}%{?c}d%{}" k <> "{"%char)
  /\ (DelayedIf = DelayedFi <-> 5 = 3).
Proof.
  apply (scanner_reports_whole_directive "a %%{b}%{?c}d%{}" 2 DelayedIf 7 5).
  - vm_compute. reflexivity.
  - discriminate.
Defined.

(** X2: the scanner reports the first position at or after the start at
    which an opener [%{] that no [%] precedes begins a directive, together
    with the type and the length that the loop body finds there; it reports
    [DelayedNotFound] exactly when there is no such position.  Moving on by
    two characters after a rejected opener passes over no directive. *)
Theorem scanner_finds_first_directive (str : string) (pos : nat) :
  (forall ty p len, ty <> DelayedNotFound ->
     (find_next_delayed str pos = (ty, p, len) <->
      pos <= p /\ directive_at str p = Some (ty, len)
      /\ forall q, pos <= q < p -> directive_at str q = None))
  /\ ((find_next_delayed str pos).1.1 = DelayedNotFound <->
      forall q, pos <= q -> directive_at str q = None).
Proof.
  split.
  - intros ty p len Hty. split.
    + intros Hscan.
      destruct (find_next_delayed_cases str pos)
        as [[H _]|(ty' & p' & len' & H & _ & Hle & Hd & Hmin)]; [congruence|].
      rewrite Hscan in H. by injection H as <- <- <-.
    + intros (Hle & Hd & Hmin). by apply find_next_delayed_found.
  - split.
    + intros Hnf.
      destruct (find_next_delayed_cases str pos)
        as [[_ H]|(ty' & p' & len' & H & Hty & _)]; [done|].
      rewrite H in Hnf. done.
    + intros Hnone. by rewrite find_next_delayed_not_found.
Qed.

Lemma scanner_finds_first_directive_witness :
  (find_next_delayed "a %%{b}%{?c}d%{}" 2 = (DelayedIf, 7, 5) <->
   2 <= 7 /\ directive_at "a %%{b}%{?c}d%{}" 7 = Some (DelayedIf, 5)
   /\ forall q, 2 <= q < 7 -> directive_at "a %%{b}%{?c}d%{}" q = None).
Proof.
  apply (scanner_finds_first_directive "a %%{b}%{?c}d%{}" 2).
  discriminate.
Defined.

(** The map entry of a key that is present is its own value. *)
Lemma touch_present (r : EixRc) (k : string) :
  k ∈ dom (this r) -> touch r k = r.
Proof.
  intros Hk. apply elem_of_dom in Hk as [v Hv].
  unfold touch, set, get, with_this. rewrite Hv. cbn [default from_option id].
  rewrite insert_id by done. by destruct r.
Qed.

(** X3: a call that returns has resolved its key for good: the key is no
    longer in [has_reference], it has an entry in the map, and any later
    call for it returns the frame as it is. *)
Theorem resolved_key_stays_resolved (n : nat) (key : string) (f f' : Frame) :
  resolve_delayed_recurse n key f = Returned f' ->
  (key ∉ has_reference f') /\ key ∈ dom (this (rc f'))
  /\ forall m, resolve_delayed_recurse (S m) key f' = Returned f'.
Proof.
  intros Hcall. destruct (resolve_steady n) as [Hs Hk].
  destruct (Hs _ _ _ Hcall) as [_ Hdom]. pose proof (Hk _ _ _ Hcall) as Hnot.
  split_and!; [done|done|].
  intros m. cbn [resolve_delayed_recurse].
  rewrite touch_present by done.
  replace (with_rc f' (rc f')) with f' by (by destruct f').
  by rewrite decide_False.
Qed.

Lemma resolved_key_stays_resolved_witness :
  let f' := {| rc := set (set (example_rc "" [("K", "a%{X}"); ("X", "b")])
                             "X" "b") "K" "ab";
               visited := ∅; has_reference := ∅ |} in
  ("K" ∉ has_reference f') /\ "K" ∈ dom (this (rc f'))
  /\ forall m, resolve_delayed_recurse (S m) "K" f' = Returned f'.
Proof.
  apply (resolved_key_stays_resolved 5 "K"
           (example_frame "" [("K", "a%{X}"); ("X", "b")] ["K"])).
  vm_compute. reflexivity.
Defined.

(** X4: a call that returns adds no key to [has_reference], removes no
    entry of the map, and leaves the value of every key that was not in
    [has_reference] as it was: a value that has been resolved is never
    written again. *)
Theorem resolved_values_are_final (n : nat) (key : string) (f f' : Frame) :
  resolve_delayed_recurse n key f = Returned f' ->
  has_reference f' ⊆ has_reference f
  /\ (forall k, k ∉ has_reference f -> get (rc f') k = get (rc f) k)
  /\ dom (this (rc f)) ⊆ dom (this (rc f')).
Proof.
  intros Hcall. destruct (resolve_steady n) as [Hs _].
  by destruct (Hs _ _ _ Hcall) as [H _].
Qed.

Lemma resolved_values_are_final_witness :
  let f := example_frame "" [("K", "a%{X}"); ("X", "b")] ["K"] in
  let f' := {| rc := set (set (rc f) "X" "b") "K" "ab";
               visited := ∅; has_reference := ∅ |} in
  has_reference f' ⊆ has_reference f
  /\ (forall k, k ∉ has_reference f -> get (rc f') k = get (rc f) k)
  /\ dom (this (rc f)) ⊆ dom (this (rc f')).
Proof.
  apply (resolved_values_are_final 5 "K").
  vm_compute. reflexivity.
Defined.

(** * The redundancy flags *)

Lemma getRedundantFlagAtom_parts (s : string) (t : Redundant) (r : RedAtom) :
  getRedundantFlagAtom (Some s) t r
  = atom_word (atom_sign s t (atom_start t r)).1 t
              (atom_sign s t (atom_start t r)).2.
Proof.
  unfold getRedundantFlagAtom. fold (atom_start t r).
  change (match s with
          | String "+" s' =>
              (s', {| red := red (atom_start t r); all := all (atom_start t r);
                      spc := spc (atom_start t r); ins := ins (atom_start t r);
                      only := N.lor (only (atom_start t r)) t;
                      oins := N.lor (oins (atom_start t r)) t |})
          | String "-" s' =>
              (s', {| red := red (atom_start t r); all := all (atom_start t r);
                      spc := spc (atom_start t r); ins := ins (atom_start t r);
                      only := N.lor (only (atom_start t r)) t;
                      oins := N.ldiff (oins (atom_start t r)) t |})
          | _ => (s, atom_start t r)
          end) with (atom_sign s t (atom_start t r)).
  by destruct (atom_sign s t (atom_start t r)).
Qed.

Lemma atom_sign_cases (s : string) :
  (exists s', s = String "+" s') \/ (exists s', s = String "-" s')
  \/ (forall t r, atom_sign s t r = (s, r)).
Proof.
  destruct s as [|c s']; [by right; right|].
  destruct (decide (c = "+"%char)) as [->|Hp]; [left; by eexists|].
  destruct (decide (c = "-"%char)) as [->|Hm]; [right; left; by eexists|].
  right; right. intros t r.
  destruct c as [[] [] [] [] [] [] [] []]; done.
Qed.

Ltac bits :=
  apply N.bits_inj; intros ?i;
  rewrite ?N.lor_spec, ?N.ldiff_spec, ?N.lor_spec, ?N.ldiff_spec;
  repeat match goal with
         | |- context [N.testbit ?a ?i] => destruct (N.testbit a i) eqn:?
         end;
  try done.

Lemma apply_then_op (o1 o2 : BitOp) (t a : Redundant) :
  apply_op o2 t (apply_op o1 t a) = apply_op (then_op o1 o2) t a.
Proof. destruct o1, o2; cbn [apply_op then_op]; try done; bits. Qed.

Lemma apply_then_ops (o1 o2 : AtomOps) (t : Redundant) (r : RedAtom) :
  apply_ops o2 t (apply_ops o1 t r) = apply_ops (then_ops o1 o2) t r.
Proof.
  unfold apply_ops.
  cbn [red all spc ins only oins then_ops o_red o_all o_spc o_ins o_only o_oins].
  by rewrite !apply_then_op.
Qed.

Lemma atom_start_ops (t : Redundant) (r : RedAtom) :
  atom_start t r
  = apply_ops {| o_red := Keep; o_all := Keep; o_spc := Keep; o_ins := Keep;
                 o_only := ClearBits; o_oins := Keep |} t r.
Proof. reflexivity. Qed.

Lemma atom_sign_ops (s : string) :
  exists s' o, forall t r, atom_sign s t r = (s', apply_ops o t r).
Proof.
  destruct (atom_sign_cases s) as [(s' & ->)|[(s' & ->)|E]].
  - exists s', {| o_red := Keep; o_all := Keep; o_spc := Keep; o_ins := Keep;
                  o_only := SetBits; o_oins := SetBits |}. done.
  - exists s', {| o_red := Keep; o_all := Keep; o_spc := Keep; o_ins := Keep;
                  o_only := SetBits; o_oins := ClearBits |}. done.
  - exists s, {| o_red := Keep; o_all := Keep; o_spc := Keep; o_ins := Keep;
                 o_only := Keep; o_oins := Keep |}.
    intros t r. rewrite E. by destruct r.
Qed.

Lemma atom_word_ops (s : string) :
  exists ok o, forall t r, atom_word s t r = (ok, apply_ops o t r).
Proof.
  unfold atom_word.
  destruct (_ || _)%bool;
    [exists true, {| o_red := ClearBits; o_all := Keep; o_spc := Keep;
                     o_ins := Keep; o_only := Keep; o_oins := Keep |}; done|].
  destruct (_ =? 0)%Z;
    [exists true, {| o_red := SetBits; o_all := ClearBits; o_spc := ClearBits;
                     o_ins := Keep; o_only := Keep; o_oins := Keep |}; done|].
  destruct (_ =? 0)%Z;
    [exists true, {| o_red := SetBits; o_all := ClearBits; o_spc := SetBits;
                     o_ins := SetBits; o_only := Keep; o_oins := Keep |}; done|].
  destruct (_ =? 0)%Z;
    [exists true, {| o_red := SetBits; o_all := ClearBits; o_spc := SetBits;
                     o_ins := ClearBits; o_only := Keep; o_oins := Keep |}; done|].
  destruct (_ =? 0)%Z;
    [exists true, {| o_red := SetBits; o_all := SetBits; o_spc := ClearBits;
                     o_ins := Keep; o_only := Keep; o_oins := Keep |}; done|].
  destruct (_ =? 0)%Z;
    [exists true, {| o_red := SetBits; o_all := SetBits; o_spc := SetBits;
                     o_ins := SetBits; o_only := Keep; o_oins := Keep |}; done|].
  destruct (_ =? 0)%Z;
    [exists true, {| o_red := SetBits; o_all := SetBits; o_spc := SetBits;
                     o_ins := ClearBits; o_only := Keep; o_oins := Keep |}; done|].
  exists false, {| o_red := Keep; o_all := Keep; o_spc := Keep;
                   o_ins := Keep; o_only := Keep; o_oins := Keep |}.
  intros t r. by destruct r.
Qed.

(** What a call does, read off the atom alone: whether it is accepted, and
    for each field whether the bits of the mask are set, cleared or left. *)
Lemma atom_ops (s : option string) :
  exists ok o, forall t r, getRedundantFlagAtom s t r = (ok, apply_ops o t r).
Proof.
  destruct s as [s|].
  - destruct (atom_sign_ops s) as (s' & o1 & H1).
    destruct (atom_word_ops s') as (ok & o2 & H2).
    eexists ok, _. intros t r.
    rewrite getRedundantFlagAtom_parts, H1. cbn [fst snd].
    rewrite H2, atom_start_ops, !apply_then_ops. reflexivity.
  - exists true, {| o_red := ClearBits; o_all := Keep; o_spc := Keep;
                    o_ins := Keep; o_only := ClearBits; o_oins := Keep |}.
    intros t r. cbn [getRedundantFlagAtom]. unfold apply_ops.
    cbn [red all spc ins only oins o_red o_all o_spc o_ins o_only o_oins apply_op].
    reflexivity.
Qed.

Lemma apply_op_off (o : BitOp) (t a : Redundant) (i : N) :
  N.testbit t i = false -> N.testbit (apply_op o t a) i = N.testbit a i.
Proof.
  intros Hi. destruct o; cbn [apply_op];
    rewrite ?N.lor_spec, ?N.ldiff_spec, ?Hi, ?orb_false_r, ?andb_true_r; done.
Qed.

Lemma apply_op_idem (o : BitOp) (t a : Redundant) :
  apply_op o t (apply_op o t a) = apply_op o t a.
Proof. destruct o; cbn [apply_op]; try done; bits. Qed.

Lemma apply_op_comm (o1 o2 : BitOp) (t1 t2 a : Redundant) :
  N.land t1 t2 = 0%N ->
  apply_op o1 t1 (apply_op o2 t2 a) = apply_op o2 t2 (apply_op o1 t1 a).
Proof.
  intros Hd.
  assert (forall i, N.testbit t1 i && N.testbit t2 i = false) as Hi.
  { intros i. by rewrite <- N.land_spec, Hd, N.bits_0. }
  destruct o1, o2; cbn [apply_op]; try done.
  all: apply N.bits_inj; intros i; specialize (Hi i);
    rewrite ?N.lor_spec, ?N.ldiff_spec, ?N.lor_spec, ?N.ldiff_spec;
    destruct (N.testbit a i), (N.testbit t1 i), (N.testbit t2 i); done.
Qed.

Lemma atom_same_off (s : option string) (t : Redundant) (r : RedAtom) :
  same_off t r (getRedundantFlagAtom s t r).2.
Proof.
  destruct (atom_ops s) as (ok & o & H). rewrite H. intros i Hi.
  cbn [snd apply_ops red all spc ins only oins].
  by rewrite !apply_op_off.
Qed.

(** X6: [getRedundantFlagAtom] changes no bit outside the mask [type]:
    in each of the six fields every bit that is not set in [type] is after
    the call what it was before, whether the atom is accepted, rejected or
    [NULL]. *)
Theorem atom_changes_only_bits_of_type (s : option string) (t : Redundant)
    (r : RedAtom) :
  same_off t r (getRedundantFlagAtom s t r).2.
Proof. apply atom_same_off. Qed.

(** X7: applying the same atom for the same mask a second time changes
    nothing: the call gives the same answer and leaves the rule as the
    first call left it. *)
Theorem atom_is_idempotent (s : option string) (t : Redundant) (r : RedAtom) :
  getRedundantFlagAtom s t (getRedundantFlagAtom s t r).2
  = getRedundantFlagAtom s t r.
Proof.
  destruct (atom_ops s) as (ok & o & H). rewrite !H. cbn [snd].
  f_equal. unfold apply_ops. cbn [red all spc ins only oins].
  by rewrite !apply_op_idem.
Qed.

(** X8: settings for masks that share no bit do not interfere: two calls
    for disjoint masks leave the same rule in either order, and each gives
    the answer it gives alone. *)
Theorem atoms_of_disjoint_masks_commute (s1 s2 : option string)
    (t1 t2 : Redundant) (r : RedAtom) :
  N.land t1 t2 = 0%N ->
  (getRedundantFlagAtom s1 t1 (getRedundantFlagAtom s2 t2 r).2).2
  = (getRedundantFlagAtom s2 t2 (getRedundantFlagAtom s1 t1 r).2).2
  /\ (getRedundantFlagAtom s1 t1 (getRedundantFlagAtom s2 t2 r).2).1
     = (getRedundantFlagAtom s1 t1 r).1.
Proof.
  intros Hd.
  destruct (atom_ops s1) as (ok1 & o1 & H1).
  destruct (atom_ops s2) as (ok2 & o2 & H2).
  rewrite ?H1, ?H2, ?H1, ?H2. cbn [fst snd]. split; [|done].
  unfold apply_ops. cbn [red all spc ins only oins].
  f_equal; by apply apply_op_comm.
Qed.

Lemma atoms_of_disjoint_masks_commute_witness :
  (getRedundantFlagAtom (Some "+some-installed") 1%N
     (getRedundantFlagAtom (Some "all") 6%N no_flags).2).2
  = (getRedundantFlagAtom (Some "all") 6%N
       (getRedundantFlagAtom (Some "+some-installed") 1%N no_flags).2).2
  /\ (getRedundantFlagAtom (Some "+some-installed") 1%N
        (getRedundantFlagAtom (Some "all") 6%N no_flags).2).1
     = (getRedundantFlagAtom (Some "+some-installed") 1%N no_flags).1.
Proof.
  apply (atoms_of_disjoint_masks_commute (Some "+some-installed") (Some "all")
           1%N 6%N no_flags).
  reflexivity.
Defined.

Lemma same_off_refl (t : Redundant) (a : RedAtom) : same_off t a a.
Proof. by intros i Hi. Qed.

Lemma same_off_trans (t : Redundant) (a b c : RedAtom) :
  same_off t a b -> same_off t b c -> same_off t a c.
Proof.
  intros H1 H2 i Hi. destruct (H1 i Hi) as (?&?&?&?&?&?).
  destruct (H2 i Hi) as (?&?&?&?&?&?). split_and!; congruence.
Qed.

Lemma all_installed_atom (t : Redundant) (r : RedAtom) :
  getRedundantFlagAtom (Some "all-installed") t r
  = (true, {| red := N.lor (red r) t; all := N.lor (all r) t;
              spc := N.lor (spc r) t; ins := N.lor (ins r) t;
              only := N.ldiff (only r) t; oins := oins r |}).
Proof. reflexivity. Qed.

(** The two ways [getRedundantFlags] ends: with the warning and the
    fallback applied to what the atoms read so far have left, or without a
    warning. *)
Lemma getRedundantFlags_ends (r : EixRc) (key : string) (t : Redundant)
    (p : RedPair) :
  let res := getRedundantFlags r key t p in
  res.1.1 = touch r key
  /\ ((exists first, same_off t p.1 first
        /\ res.1.2 = ((getRedundantFlagAtom (Some "all-installed") t first).2,
                      (getRedundantFlagAtom None t p.2).2)
        /\ length res.2 = 1)
      \/ (res.2 = [] /\ same_off t p.1 res.1.2.1
          /\ (res.1.2.2 = p.2
              \/ res.1.2.2 = (getRedundantFlagAtom None t p.2).2))).
Proof.
  unfold getRedundantFlags. cbv zeta.
  destruct (split_string _) as [|it a].
  { split; [done|]. left. exists p.1. split; [apply same_off_refl|done]. }
  pose proof (atom_same_off (Some (Str.c_str it)) t p.1) as H1.
  destruct (getRedundantFlagAtom (Some (Str.c_str it)) t p.1) as [ok first].
  cbn [fst snd] in *.
  destruct ok; cbn [negb].
  2:{ split; [done|]. left. by exists first. }
  destruct a as [|it2 a].
  { split; [done|]. right. split_and!; [done|done|by right]. }
  assert (Hsecond : forall (s : string) (a : list string),
    let res :=
      let '(ok, first0) := getRedundantFlagAtom (Some s) t first in
      if negb ok
      then (touch r key,
            ((getRedundantFlagAtom (Some "all-installed") t first0).2,
             (getRedundantFlagAtom None t p.2).2),
            [key ++ " has unknown value " ++ dquote
             ++ Str.c_str (get (touch r key) key) ++ dquote ++ ";"
             ++ String (ascii_of_nat 10) (String (ascii_of_nat 9) "")
             ++ "assuming value " ++ dquote ++ "all-installed" ++ dquote
             ++ " instead."])
      else match a with
           | [] => (touch r key, (first0, p.2), [])
           | _ :: _ =>
               (touch r key,
                ((getRedundantFlagAtom (Some "all-installed") t first0).2,
                 (getRedundantFlagAtom None t p.2).2),
                [key ++ " has unknown value " ++ dquote
                 ++ Str.c_str (get (touch r key) key) ++ dquote ++ ";"
                 ++ String (ascii_of_nat 10) (String (ascii_of_nat 9) "")
                 ++ "assuming value " ++ dquote ++ "all-installed" ++ dquote
                 ++ " instead."])
           end in
    res.1.1 = touch r key
    /\ ((exists first, same_off t p.1 first
          /\ res.1.2 = ((getRedundantFlagAtom (Some "all-installed") t first).2,
                        (getRedundantFlagAtom None t p.2).2)
          /\ length res.2 = 1)
        \/ (res.2 = [] /\ same_off t p.1 res.1.2.1
            /\ (res.1.2.2 = p.2
                \/ res.1.2.2 = (getRedundantFlagAtom None t p.2).2)))).
  { intros s a'. cbv zeta.
    pose proof (atom_same_off (Some s) t first) as H2.
    destruct (getRedundantFlagAtom (Some s) t first) as [ok first0].
    cbn [snd] in H2.
    assert (same_off t p.1 first0) as H3 by (by eapply same_off_trans).
    destruct ok; cbn [negb].
    - destruct a' as [|x a'].
      + split; [done|]. right. split_and!; [done|done|by left].
      + split; [done|]. left. by exists first0.
    - split; [done|]. left. by exists first0. }
  destruct (_ || _)%bool.
  - destruct a as [|it3 a].
    + split; [done|]. left. by exists first.
    + apply (Hsecond (Str.c_str it3) a).
  - apply (Hsecond (Str.c_str it2) a).
Qed.

(** X9: [getRedundantFlags] changes no bit outside [type] in either rule,
    and in the map it does no more than create the entry of [key]; when it
    warns, the first rule ends as [all-installed] for [type] whatever the
    rejected value has set before: the bits of [type] are set in [red],
    [all], [spc] and [ins] and cleared in [only], and they are cleared in
    [red] of the second rule. *)
Theorem redundant_flags_stay_in_type (r : EixRc) (key : string)
    (t : Redundant) (p : RedPair) :
  let res := getRedundantFlags r key t p in
  res.1.1 = touch r key
  /\ same_off t p.1 res.1.2.1 /\ same_off t p.2 res.1.2.2
  /\ (res.2 <> [] -> forall i, N.testbit t i = true ->
        N.testbit (red res.1.2.1) i = true
        /\ N.testbit (all res.1.2.1) i = true
        /\ N.testbit (spc res.1.2.1) i = true
        /\ N.testbit (ins res.1.2.1) i = true
        /\ N.testbit (only res.1.2.1) i = false
        /\ N.testbit (red res.1.2.2) i = false).
Proof.
  intros res. pose proof (getRedundantFlags_ends r key t p) as H.
  cbv zeta in H. fold res in H.
  destruct H as [Hrc [(first & Hf & Hres & Hw)|(Hw & Hf & Hs)]].
  - split; [done|]. rewrite Hres. cbn [fst snd]. split_and!.
    + eapply same_off_trans; [exact Hf|apply atom_same_off].
    + apply atom_same_off.
    + intros _ i Hi. rewrite all_installed_atom.
      cbn [getRedundantFlagAtom snd red all spc ins only oins].
      rewrite !N.lor_spec, !N.ldiff_spec, Hi, !orb_true_r, !andb_false_r.
      done.
  - split; [done|]. split_and!; [done| |by rewrite Hw].
    destruct Hs as [->| ->]; [apply same_off_refl|apply atom_same_off].
Qed.

Lemma redundant_flags_stay_in_type_witness :
  let res := getRedundantFlags (example_rc "" [("K", "+some bogus")]) "K" 2%N
               (no_flags, no_flags) in
  N.testbit (red res.1.2.1) 1 = true
  /\ N.testbit (all res.1.2.1) 1 = true
  /\ N.testbit (spc res.1.2.1) 1 = true
  /\ N.testbit (ins res.1.2.1) 1 = true
  /\ N.testbit (only res.1.2.1) 1 = false
  /\ N.testbit (red res.1.2.2) 1 = false.
Proof.
  intros res.
  apply (redundant_flags_stay_in_type (example_rc "" [("K", "+some bogus")])
           "K" 2%N (no_flags, no_flags)).
  - vm_compute. discriminate.
  - reflexivity.
Defined.

(** * Splitting and joining *)

Lemma find_first_of_app (pre s at_ : string) (i : nat) :
  find_first_of (pre ++ s) at_ (String.length pre + i)
  = (fun q => String.length pre + q) <$> find_first_of s at_ i.
Proof.
  induction pre as [|c pre IH].
  - rewrite app_empty_l. cbn [String.length Nat.add].
    by destruct (find_first_of s at_ i).
  - change (String c pre ++ s) with (String c (pre ++ s)).
    cbn [String.length Nat.add find_first_of]. rewrite IH.
    by destruct (find_first_of s at_ i).
Qed.

Lemma free_of_app (at_ a b : string) :
  free_of at_ (a ++ b) = (free_of at_ a && free_of at_ b)%bool.
Proof.
  unfold free_of. change list_ascii_of_string with chars.
  by rewrite chars_app, forallb_app.
Qed.

Lemma made_of_app (at_ a b : string) :
  made_of at_ (a ++ b) = (made_of at_ a && made_of at_ b)%bool.
Proof.
  unfold made_of. change list_ascii_of_string with chars.
  by rewrite chars_app, forallb_app.
Qed.

(** What [find_first_of] finds from the start: the string is a word free
    of delimiters, then a delimiter; or it is free of delimiters. *)
Lemma find_first_of_0 (s at_ : string) :
  match find_first_of s at_ 0 with
  | Some q =>
      exists w c rest, s = w ++ String c rest /\ String.length w = q
        /\ free_of at_ w = true /\ strchr at_ c = true
  | None => free_of at_ s = true
  end.
Proof.
  induction s as [|c s IH]; [done|]. simpl.
  destruct (strchr at_ c) eqn:Hc.
  - by exists "", c, s.
  - destruct (find_first_of s at_ 0) as [q|]; simpl.
    + destruct IH as (w & d & rest & -> & <- & Hw & Hd).
      exists (String c w), d, rest. split_and!; try done.
      unfold free_of. simpl. by rewrite Hc.
    + unfold free_of. simpl. by rewrite Hc.
Qed.

Lemma words_free (at_ : string) (ie : bool) (cur w s : string) :
  free_of at_ w = true ->
  words at_ ie cur (w ++ s) = words at_ ie (cur ++ w) s.
Proof.
  revert cur. induction w as [|c w IH]; intros cur Hw.
  - by rewrite app_empty_r.
  - unfold free_of in Hw. simpl in Hw. apply andb_true_iff in Hw as [Hc Hw].
    apply negb_true_iff in Hc. change (String c w ++ s) with (String c (w ++ s)).
    cbn [words]. rewrite Hc, IH by done. f_equal.
    by rewrite app_assoc_str.
Qed.

Lemma words_free_end (at_ : string) (ie : bool) (cur w : string) :
  free_of at_ w = true -> words at_ ie cur w = emit ie (cur ++ w).
Proof.
  intros Hw. rewrite <- (app_empty_r w) at 1. by rewrite words_free.
Qed.

(** The loop, from the start of a word, gives the words of the rest. *)
Lemma split_string_loop_words (fuel : nat) (pre s at_ : string) (ie : bool)
    (vec : list string) :
  String.length s < fuel ->
  split_string_loop fuel (pre ++ s) at_ ie (String.length pre)
    (String.length pre) vec
  = (vec ++ words at_ ie "" s)%list.
Proof.
  revert pre s vec. induction fuel as [|fuel IH]; intros pre s vec Hfuel; [lia|].
  cbn [split_string_loop].
  replace (String.length pre) with (String.length pre + 0) at 1 by lia.
  rewrite find_first_of_app.
  pose proof (find_first_of_0 s at_) as Hfind.
  destruct (find_first_of s at_ 0) as [q|]; cbn [fmap option_fmap option_map].
  - destruct Hfind as (w & c & rest & -> & <- & Hw & Hc).
    rewrite words_free by done. cbn [words]. rewrite Hc, app_empty_l.
    replace (S (String.length pre + String.length w))
      with (String.length (pre ++ w ++ String c "")).
    2:{ rewrite !str_length_app. simpl. lia. }
    replace (pre ++ w ++ String c rest) with ((pre ++ w ++ String c "") ++ rest).
    2:{ by rewrite !app_assoc_str. }
    rewrite IH.
    2:{ rewrite str_length_app in Hfuel. simpl in Hfuel. lia. }
    rewrite app_assoc. f_equal. unfold emit.
    replace (String.length (pre ++ w ++ String c "") - 1 - String.length pre)
      with (String.length w) by (rewrite !str_length_app; simpl; lia).
    replace (String.length pre <? String.length pre + String.length w)%nat
      with (0 <? String.length w)%nat.
    2:{ destruct (Nat.ltb_spec 0 (String.length w)),
          (Nat.ltb_spec (String.length pre)
             (String.length pre + String.length w)); done || lia. }
    replace (String.length pre + String.length w - String.length pre)
      with (String.length w) by lia.
    destruct (_ || _)%bool; [|by rewrite app_nil_r]. f_equal. f_equal.
    rewrite !app_assoc_str.
    replace (String.length pre) with (String.length pre + 0) by lia.
    rewrite substr_app_r. apply substr_prefix.
  - rewrite words_free_end, app_empty_l by done. unfold emit.
    rewrite str_length_app.
    replace (String.length pre <? String.length pre + String.length s)%nat
      with (0 <? String.length s)%nat.
    2:{ destruct (Nat.ltb_spec 0 (String.length s)),
          (Nat.ltb_spec (String.length pre)
             (String.length pre + String.length s)); done || lia. }
    destruct (_ || _)%bool; [|by rewrite app_nil_r]. f_equal. f_equal.
    replace (String.length pre) with (String.length pre + 0) by lia.
    rewrite substr_from_app_r. apply substr_from_0.
Qed.

Lemma emit_props (at_ : string) (ie : bool) (cur : string) :
  free_of at_ cur = true ->
  (forall w, w ∈ emit ie cur ->
     free_of at_ w = true /\ (ie = true -> w <> ""))
  /\ String.concat "" (emit ie cur) = cur
  /\ (ie = false -> length (emit ie cur) = 1).
Proof.
  intros Hcur. unfold emit.
  destruct (Nat.ltb_spec 0 (String.length cur)) as [Hlen|Hlen]; cbn [orb].
  - split_and!; [|done|done].
    intros w ->%list_elem_of_singleton. split; [done|]. intros _ ->. simpl in Hlen. lia.
  - destruct ie; cbn [negb].
    + split_and!; [|by destruct cur; [|simpl in Hlen; lia]|done].
      intros w Hw. by apply elem_of_nil in Hw.
    + split_and!; [|done|done].
      intros w ->%list_elem_of_singleton. done.
Qed.

Lemma concat_cons_str (x : string) (l : list string) :
  String.concat "" (x :: l) = x ++ String.concat "" l.
Proof.
  destruct l as [|y l]; [by rewrite app_empty_r|].
  change (String.concat "" (x :: y :: l))
    with (x ++ "" ++ String.concat "" (y :: l)).
  by rewrite app_empty_l.
Qed.

Lemma concat_app_str (a b : list string) :
  String.concat "" (a ++ b) = String.concat "" a ++ String.concat "" b.
Proof.
  induction a as [|x a IH]; [by rewrite app_empty_l|].
  change ((x :: a) ++ b)%list with (x :: (a ++ b))%list.
  by rewrite !concat_cons_str, IH, app_assoc_str.
Qed.

(** The words character by character: each is free of delimiters, none is
    empty when empty words are ignored, together they are the string
    without its delimiters, and when empty words are kept there is one
    more word than there are delimiters. *)
Lemma words_props (at_ : string) (ie : bool) (s cur : string) :
  free_of at_ cur = true ->
  (forall w, w ∈ words at_ ie cur s ->
     free_of at_ w = true /\ (ie = true -> w <> ""))
  /\ String.concat "" (words at_ ie cur s) = cur ++ without at_ s
  /\ (ie = false -> length (words at_ ie cur s) = S (count_of at_ s)).
Proof.
  revert cur. induction s as [|c s IH]; intros cur Hcur.
  - cbn [words without count_of]. rewrite app_empty_r. by apply emit_props.
  - cbn [words without count_of]. destruct (strchr at_ c) eqn:Hc.
    + destruct (emit_props at_ ie cur Hcur) as (E1 & E2 & E3).
      destruct (IH "" eq_refl) as (I1 & I2 & I3). split_and!.
      * intros w [Hw|Hw]%elem_of_app; [by apply E1|by apply I1].
      * by rewrite concat_app_str, E2, I2, app_empty_l.
      * intros Hie. rewrite length_app, E3, I3 by done. lia.
    + assert (free_of at_ (cur ++ String c "") = true) as Hnext.
      { rewrite free_of_app, Hcur. unfold free_of. simpl. by rewrite Hc. }
      destruct (IH _ Hnext) as (I1 & I2 & I3). split_and!; [done| |done].
      by rewrite I2, app_assoc_str.
Qed.

Lemma split_string_at_words (str at_ : string) (ie : bool) :
  split_string_at str at_ ie = words at_ ie "" str.
Proof.
  unfold split_string_at.
  pose proof (split_string_loop_words (S (String.length str)) "" str at_ ie [])
    as H.
  rewrite app_empty_l in H. apply H. lia.
Qed.

(** X10: the words that [split_string] gives when escapes are not handled:
    no word contains a delimiter, no word is empty when empty words are
    ignored, the words in their order make up the string without its
    delimiters, and when empty words are kept there is one more word than
    there are delimiters.  The loop ends: any fuel above the length of the
    string gives the same vector. *)
Theorem split_string_gives_the_words (str at_ : string) (ie : bool) :
  (forall w, w ∈ split_string_at str at_ ie ->
     free_of at_ w = true /\ (ie = true -> w <> ""))
  /\ String.concat "" (split_string_at str at_ ie) = without at_ str
  /\ (ie = false ->
      length (split_string_at str at_ ie) = S (count_of at_ str))
  /\ (forall fuel, String.length str < fuel ->
        split_string_loop fuel str at_ ie 0 0 [] = split_string_at str at_ ie)
  /\ split_string str = split_string_at str spaces true.
Proof.
  rewrite split_string_at_words.
  destruct (words_props at_ ie str "" eq_refl) as (H1 & H2 & H3).
  split_and!; [done|by rewrite H2, app_empty_l|done| |].
  - intros fuel Hfuel.
    pose proof (split_string_loop_words fuel "" str at_ ie []) as H.
    rewrite app_empty_l in H. by apply H.
  - reflexivity.
Qed.

Lemma split_string_gives_the_words_witness :
  split_string_loop 20 " a  bc " spaces true 0 0 []
  = split_string_at " a  bc " spaces true.
Proof.
  destruct (split_string_gives_the_words " a  bc " spaces true)
    as (_ & _ & _ & H & _).
  apply H. simpl. lia.
Defined.

Lemma join_to_string_nonempty (s : string) (vec : list string) (glue : string) :
  s <> "" ->
  join_to_string s vec glue
  = s ++ String.concat "" ((fun it => glue ++ it) <$> vec).
Proof.
  revert s. induction vec as [|it vec IH]; intros s Hs.
  - by rewrite app_empty_r.
  - cbn [join_to_string fold_left]. fold (join_to_string
      (match s with EmptyString => s | String _ _ => s ++ glue end ++ it)
      vec glue).
    destruct s as [|c s]; [done|].
    rewrite IH by done.
    change ((fun it0 => glue ++ it0) <$> it :: vec)
      with ((glue ++ it) :: ((fun it0 => glue ++ it0) <$> vec)).
    by rewrite concat_cons_str, !app_assoc_str.
Qed.

Lemma join_to_string_cons (w : string) (vec : list string) (glue : string) :
  w <> "" ->
  join_to_string "" (w :: vec) glue
  = w ++ String.concat "" ((fun it => glue ++ it) <$> vec).
Proof.
  intros Hw. cbn [join_to_string fold_left].
  fold (join_to_string ("" ++ w) vec glue). rewrite app_empty_l.
  by apply join_to_string_nonempty.
Qed.

Lemma words_glue (at_ cur glue s : string) :
  made_of at_ glue = true -> glue <> "" -> cur <> "" ->
  words at_ true cur (glue ++ s) = cur :: words at_ true "" s.
Proof.
  intros Hg Hne Hcur.
  assert (Hskip : forall g, made_of at_ g = true ->
            words at_ true "" (g ++ s) = words at_ true "" s).
  { induction g as [|c g IHg]; intros Hm; [by rewrite app_empty_l|].
    unfold made_of in Hm. simpl in Hm. apply andb_true_iff in Hm as [Hc Hm].
    change (String c g ++ s) with (String c (g ++ s)). cbn [words].
    rewrite Hc. cbn [emit String.length Nat.ltb Nat.leb orb negb app].
    by apply IHg. }
  destruct glue as [|c g]; [done|].
  unfold made_of in Hg. simpl in Hg. apply andb_true_iff in Hg as [Hc Hm].
  change (String c g ++ s) with (String c (g ++ s)). cbn [words].
  rewrite Hc, Hskip by done. unfold emit.
  destruct cur as [|d cur]; [done|]. done.
Qed.

Lemma words_joined (at_ glue : string) (vec : list string) (w : string) :
  made_of at_ glue = true -> glue <> "" ->
  (forall x, x ∈ w :: vec -> free_of at_ x = true /\ x <> "") ->
  words at_ true ""
    (w ++ String.concat "" ((fun it => glue ++ it) <$> vec))
  = w :: vec.
Proof.
  intros Hg Hne. revert w. induction vec as [|v vec IH]; intros w Hall.
  - destruct (Hall w) as [Hw Hw']; [set_solver|].
    simpl String.concat. rewrite app_empty_r, words_free_end by done.
    rewrite app_empty_l. unfold emit. by destruct w.
  - destruct (Hall w) as [Hw Hw']; [set_solver|].
    rewrite words_free, app_empty_l by done.
    change ((fun it => glue ++ it) <$> v :: vec)
      with ((glue ++ v) :: ((fun it => glue ++ it) <$> vec)).
    rewrite concat_cons_str, app_assoc_str.
    rewrite words_glue by done. f_equal. apply IH.
    intros x Hx. apply Hall. set_solver.
Qed.

Lemma split_join_words (at_ glue : string) (vec : list string) :
  made_of at_ glue = true -> glue <> "" ->
  (forall x, x ∈ vec -> free_of at_ x = true /\ x <> "") ->
  split_string_at (join_to_string "" vec glue) at_ true = vec.
Proof.
  intros Hg Hne Hall. rewrite split_string_at_words.
  destruct vec as [|w vec]; [done|].
  rewrite join_to_string_cons by (by destruct (Hall w); [set_solver|]).
  by apply words_joined.
Qed.

(** X11: splitting what has been joined gives the words back: for words
    that are not empty and contain no delimiter, joined with a glue that is
    not empty and consists of delimiters, [split_string] (ignoring empty
    words) of [join_to_string] is the vector of the words. *)
Theorem split_of_join_is_identity (at_ glue : string) (vec : list string) :
  made_of at_ glue = true -> glue <> "" ->
  (forall x, x ∈ vec -> free_of at_ x = true /\ x <> "") ->
  split_string_at (join_to_string "" vec glue) at_ true = vec.
Proof. apply split_join_words. Qed.

Lemma split_of_join_is_identity_witness :
  split_string_at (join_to_string "" ["ab"; "c"; "def"] ", ") " ," true
  = ["ab"; "c"; "def"].
Proof.
  apply (split_of_join_is_identity " ," ", " ["ab"; "c"; "def"]).
  - reflexivity.
  - discriminate.
  - intros x Hx.
    assert (x = "ab" \/ x = "c" \/ x = "def") as [->|[->| ->]] by set_solver;
      by split.
Defined.

(** X12: [split_and_join_string] normalises: applied to its own result it
    changes nothing, when empty words are ignored and the glue is not empty
    and consists of delimiters. *)
Theorem split_and_join_is_idempotent (source glue at_ : string) :
  made_of at_ glue = true -> glue <> "" ->
  split_and_join_string (split_and_join_string source glue at_ true)
    glue at_ true
  = split_and_join_string source glue at_ true.
Proof.
  intros Hg Hne. unfold split_and_join_string at 1 3.
  f_equal. unfold split_and_join_string.
  apply split_join_words; try done.
  intros x Hx. rewrite split_string_at_words in Hx.
  destruct (words_props at_ true source "" eq_refl) as (H1 & _).
  destruct (H1 x Hx) as [? Hn]. split; [done|by apply Hn].
Qed.

Lemma split_and_join_is_idempotent_witness :
  split_and_join_string (split_and_join_string "  a b   c " " " spaces true)
    " " spaces true
  = split_and_join_string "  a b   c " " " spaces true.
Proof.
  apply (split_and_join_is_idempotent "  a b   c " " " spaces).
  - reflexivity.
  - discriminate.
Defined.

(** * Trimming *)

Lemma made_of_cons (at_ : string) (c : ascii) (s : string) :
  made_of at_ (String c s) = (strchr at_ c && made_of at_ s)%bool.
Proof. reflexivity. Qed.

Lemma find_first_not_of_0 (s at_ : string) :
  match find_first_not_of s at_ 0 with
  | Some q =>
      exists w c rest, s = w ++ String c rest /\ String.length w = q
        /\ made_of at_ w = true /\ strchr at_ c = false
  | None => made_of at_ s = true
  end.
Proof.
  induction s as [|c s IH]; [done|]. simpl.
  destruct (strchr at_ c) eqn:Hc.
  - destruct (find_first_not_of s at_ 0) as [q|]; simpl.
    + destruct IH as (w & d & rest & -> & <- & Hw & Hd).
      exists (String c w), d, rest. split_and!; try done.
      by rewrite made_of_cons, Hc.
    + by rewrite made_of_cons, Hc.
  - by exists "", c, s.
Qed.

Lemma find_last_not_of_spec (s at_ : string) :
  match find_last_not_of s at_ with
  | Some i =>
      exists w c b, s = w ++ String c b /\ String.length w = i
        /\ strchr at_ c = false /\ made_of at_ b = true
  | None => made_of at_ s = true
  end.
Proof.
  induction s as [|c s IH]; [done|]. simpl.
  destruct (find_last_not_of s at_) as [i|].
  - destruct IH as (w & d & b & -> & <- & Hd & Hb).
    by exists (String c w), d, b.
  - destruct (strchr at_ c) eqn:Hc.
    + by rewrite made_of_cons, Hc.
    + by exists "", c, s.
Qed.

Lemma find_first_not_of_made (a x at_ : string) :
  made_of at_ a = true ->
  find_first_not_of (a ++ x) at_ 0
  = (fun q => String.length a + q) <$> find_first_not_of x at_ 0.
Proof.
  intros Ha. induction a as [|c a IH].
  - rewrite app_empty_l. by destruct (find_first_not_of x at_ 0).
  - rewrite made_of_cons in Ha. apply andb_true_iff in Ha as [Hc Ha].
    change (String c a ++ x) with (String c (a ++ x)).
    cbn [find_first_not_of]. rewrite Hc, IH by done.
    by destruct (find_first_not_of x at_ 0).
Qed.

Lemma find_last_not_of_made (b at_ : string) :
  made_of at_ b = true -> find_last_not_of b at_ = None.
Proof.
  induction b as [|c b IH]; [done|]. rewrite made_of_cons.
  intros [Hc Hb]%andb_true_iff. cbn [find_last_not_of].
  by rewrite IH, Hc.
Qed.

Lemma find_last_not_of_app (w : string) (c : ascii) (b at_ : string) :
  strchr at_ c = false -> made_of at_ b = true ->
  find_last_not_of (w ++ String c b) at_ = Some (String.length w).
Proof.
  intros Hc Hb. induction w as [|d w IH].
  - rewrite app_empty_l. cbn [find_last_not_of].
    by rewrite find_last_not_of_made, Hc.
  - change (String d w ++ String c b) with (String d (w ++ String c b)).
    cbn [find_last_not_of]. by rewrite IH.
Qed.

(** What is left of delimiters followed by a string that does not begin
    with one. *)
Lemma ltrim_app (a x delims : string) :
  made_of delims a = true -> starts_clean delims x = true ->
  ltrim (a ++ x) delims = x.
Proof.
  intros Ha Hx. unfold ltrim. rewrite find_first_not_of_made by done.
  destruct x as [|c x].
  - done.
  - cbn [find_first_not_of]. cbn [starts_clean] in Hx.
    apply negb_true_iff in Hx. rewrite Hx. cbn [fmap option_fmap option_map].
    rewrite Nat.add_0_r. apply erase_prefix.
Qed.

Lemma ends_clean_snoc (at_ w : string) (c : ascii) :
  ends_clean at_ (w ++ String c "") = negb (strchr at_ c).
Proof.
  assert (Str.at_ (w ++ String c "") (String.length (w ++ String c "") - 1) = c)
    as Hlast.
  { rewrite str_length_app. simpl String.length.
    replace (String.length w + 1 - 1) with (String.length w + 0) by lia.
    by rewrite at_app_r. }
  destruct w as [|d w]; [done|].
  change (String d w ++ String c "") with (String d (w ++ String c "")) in *.
  cbn [ends_clean]. by rewrite Hlast.
Qed.

Lemma ends_clean_cases (at_ x : string) :
  ends_clean at_ x = true ->
  x = "" \/ exists w c, x = w ++ String c "" /\ strchr at_ c = false.
Proof.
  intros Hx. destruct x as [|d x]; [by left|]. right.
  assert (exists w c, String d x = w ++ String c "") as (w & c & E).
  { clear. revert d. induction x as [|e x IH]; intros d.
    - by exists "", d.
    - destruct (IH e) as (w & c & ->). by exists (String d w), c. }
  exists w, c. split; [done|]. rewrite E, ends_clean_snoc in Hx.
  by apply negb_true_iff.
Qed.

(** What is left of a string that does not end with a delimiter, followed
    by delimiters. *)
Lemma rtrim_app (x b delims : string) :
  ends_clean delims x = true -> made_of delims b = true ->
  rtrim (x ++ b) delims = x.
Proof.
  intros Hx Hb. unfold rtrim.
  destruct (ends_clean_cases _ _ Hx) as [->|(w & c & -> & Hc)].
  - rewrite app_empty_l. by rewrite find_last_not_of_made.
  - rewrite app_assoc_str. change (String c "" ++ b) with (String c b).
    rewrite find_last_not_of_app by done. unfold erase_from.
    replace (w ++ String c b) with ((w ++ String c "") ++ b)
      by (by rewrite app_assoc_str).
    replace (String.length w + 1) with (String.length (w ++ String c ""))
      by (rewrite str_length_app; simpl; lia).
    apply substr_prefix.
Qed.

(** What [ltrim] removes and what it leaves. *)
Lemma ltrim_parts (str delims : string) :
  exists a, str = a ++ ltrim str delims /\ made_of delims a = true
    /\ starts_clean delims (ltrim str delims) = true.
Proof.
  pose proof (find_first_not_of_0 str delims) as H. unfold ltrim.
  destruct (find_first_not_of str delims 0) as [q|].
  - destruct H as (w & c & rest & -> & <- & Hw & Hc).
    exists w. rewrite erase_prefix. split_and!; [done|done|].
    cbn [starts_clean]. by rewrite Hc.
  - exists str. by rewrite app_empty_r.
Qed.

(** What [rtrim] removes and what it leaves. *)
Lemma rtrim_parts (str delims : string) :
  exists b, str = rtrim str delims ++ b /\ made_of delims b = true
    /\ ends_clean delims (rtrim str delims) = true.
Proof.
  pose proof (find_last_not_of_spec str delims) as H. unfold rtrim.
  destruct (find_last_not_of str delims) as [i|].
  - destruct H as (w & c & b & -> & <- & Hc & Hb).
    exists b. unfold erase_from.
    replace (w ++ String c b) with ((w ++ String c "") ++ b)
      by (by rewrite app_assoc_str).
    replace (String.length w + 1) with (String.length (w ++ String c ""))
      by (rewrite str_length_app; simpl; lia).
    rewrite substr_prefix. split_and!; [done|done|].
    by rewrite ends_clean_snoc, Hc.
  - by exists str.
Qed.

(** X13: [ltrim] removes the longest prefix made of delimiters and nothing
    else: the string is delimiters followed by the result, which is empty
    or begins with a character that is no delimiter; a string that is all
    delimiters, the empty one included, becomes empty. *)
Theorem ltrim_removes_leading_delimiters (str delims : string) :
  (exists a, str = a ++ ltrim str delims /\ made_of delims a = true)
  /\ starts_clean delims (ltrim str delims) = true
  /\ (made_of delims str = true -> ltrim str delims = "")
  /\ (starts_clean delims str = true -> ltrim str delims = str).
Proof.
  destruct (ltrim_parts str delims) as (a & E & Ha & Hs).
  split_and!; [by exists a|done| |].
  - intros Hm. rewrite <- (app_empty_r str). by apply ltrim_app.
  - intros Hc. rewrite <- (app_empty_l str) at 1. by apply ltrim_app.
Qed.

Lemma ltrim_removes_leading_delimiters_witness :
  ltrim "a b " spaces = "a b ".
Proof.
  apply (ltrim_removes_leading_delimiters "a b " spaces). reflexivity.
Defined.

(** X14: [rtrim] removes the longest suffix made of delimiters and nothing
    else: the string is the result followed by delimiters, and the result
    is empty or ends with a character that is no delimiter; a string that
    is all delimiters becomes empty. *)
Theorem rtrim_removes_trailing_delimiters (str delims : string) :
  (exists b, str = rtrim str delims ++ b /\ made_of delims b = true)
  /\ ends_clean delims (rtrim str delims) = true
  /\ (made_of delims str = true -> rtrim str delims = "")
  /\ (ends_clean delims str = true -> rtrim str delims = str).
Proof.
  destruct (rtrim_parts str delims) as (b & E & Hb & He).
  split_and!; [by exists b|done| |].
  - intros Hm. rewrite <- (app_empty_l str). by apply rtrim_app.
  - intros Hc. rewrite <- (app_empty_r str) at 1. by apply rtrim_app.
Qed.

Lemma rtrim_removes_trailing_delimiters_witness :
  rtrim " a b" spaces = " a b".
Proof.
  apply (rtrim_removes_trailing_delimiters " a b" spaces). reflexivity.
Defined.

Lemma starts_clean_prefix (at_ x b : string) :
  starts_clean at_ (x ++ b) = true -> x <> "" -> starts_clean at_ x = true.
Proof. intros H Hx. by destruct x. Qed.

(** X15: [trim] leaves the middle of the string: the string is delimiters,
    the result, delimiters; the result is empty or neither begins nor ends
    with a delimiter; trimming the right side first gives the same; and
    trimming twice is trimming once. *)
Theorem trim_leaves_the_middle (str delims : string) :
  (exists a b, str = a ++ trim str delims ++ b
     /\ made_of delims a = true /\ made_of delims b = true)
  /\ starts_clean delims (trim str delims) = true
  /\ ends_clean delims (trim str delims) = true
  /\ trim str delims = ltrim (rtrim str delims) delims
  /\ trim (trim str delims) delims = trim str delims.
Proof.
  unfold trim.
  destruct (ltrim_parts str delims) as (a & E & Ha & Hs).
  remember (ltrim str delims) as m eqn:Em.
  destruct (rtrim_parts m delims) as (b & E' & Hb & He).
  remember (rtrim m delims) as t eqn:Et. clear Em Et.
  assert (starts_clean delims t = true) as Hst.
  { destruct (decide (t = "")) as [->|Hne]; [done|].
    rewrite E' in Hs. by eapply starts_clean_prefix. }
  split_and!; [|done|done| |].
  - exists a, b. by subst.
  - subst str m. destruct (decide (t = "")) as [->|Hne].
    + rewrite app_empty_l.
      assert (rtrim (a ++ b) delims = "") as ->; [|done].
      rewrite <- (app_empty_l (a ++ b)). apply rtrim_app; [done|].
      by rewrite made_of_app, Ha, Hb.
    + replace (a ++ t ++ b) with ((a ++ t) ++ b) by (by rewrite app_assoc_str).
      assert (rtrim ((a ++ t) ++ b) delims = a ++ t) as ->.
      { apply rtrim_app; [|done].
        destruct (ends_clean_cases _ _ He) as [?|(w & c & Et & Hc)]; [done|].
        rewrite Et, <- app_assoc_str. by rewrite ends_clean_snoc, Hc. }
      symmetry. by apply ltrim_app.
  - rewrite <- (app_empty_l t) at 1. rewrite ltrim_app by done.
    rewrite <- (app_empty_r t) at 1. by apply rtrim_app.
Qed.

(** * Escaping and unescaping *)

Lemma free_of_cons (at_ : string) (c : ascii) (s : string) :
  free_of at_ (String c s) = (negb (strchr at_ c) && free_of at_ s)%bool.
Proof. reflexivity. Qed.

Lemma escape_chars_free (my_at w s : string) :
  free_of my_at w = true ->
  escape_chars my_at (w ++ s) = w ++ escape_chars my_at s.
Proof.
  intros Hw. induction w as [|c w IH]; [by rewrite !app_empty_l|].
  rewrite free_of_cons in Hw. apply andb_true_iff in Hw as [Hc Hw].
  apply negb_true_iff in Hc.
  change (String c w ++ s) with (String c (w ++ s)).
  cbn [escape_chars]. rewrite Hc, IH by done. done.
Qed.

Lemma insert_app (a b r : string) :
  insert (a ++ b) (String.length a) r = a ++ r ++ b.
Proof.
  unfold insert. rewrite substr_prefix.
  replace (String.length a) with (String.length a + 0) by lia.
  by rewrite substr_from_app_r, substr_from_0.
Qed.

(** The loop of [escape_string], from the end of what is done. *)
Lemma escape_string_loop_told (fuel : nat) (pre s my_at : string) :
  String.length s <= fuel ->
  escape_string_loop fuel (pre ++ s) my_at (String.length pre)
  = pre ++ escape_chars my_at s.
Proof.
  revert pre s. induction fuel as [|fuel IH]; intros pre s Hfuel.
  { destruct s; [done|simpl in Hfuel; lia]. }
  cbn [escape_string_loop].
  replace (String.length pre) with (String.length pre + 0) at 1 by lia.
  rewrite find_first_of_app.
  pose proof (find_first_of_0 s my_at) as Hfind.
  destruct (find_first_of s my_at 0) as [q|]; cbn [fmap option_fmap option_map].
  - destruct Hfind as (w & c & rest & -> & <- & Hw & Hc).
    rewrite escape_chars_free by done. cbn [escape_chars]. rewrite Hc.
    replace (pre ++ w ++ String c rest) with ((pre ++ w) ++ String c rest)
      by (by rewrite app_assoc_str).
    replace (String.length pre + String.length w)
      with (String.length (pre ++ w)) by (by rewrite str_length_app).
    rewrite insert_app.
    replace ((pre ++ w) ++ "\" ++ String c rest)
      with ((pre ++ w ++ String "\" (String c "")) ++ rest)
      by (by rewrite !app_assoc_str).
    replace (String.length (pre ++ w) + 2)
      with (String.length (pre ++ w ++ String "\" (String c "")))
      by (rewrite !str_length_app; simpl; lia).
    rewrite IH.
    2:{ rewrite str_length_app in Hfuel. simpl in Hfuel. lia. }
    by rewrite !app_assoc_str.
  - f_equal. symmetry. rewrite <- (app_empty_r s) at 1.
    rewrite escape_chars_free by done. by rewrite app_empty_r.
Qed.

(** X16: [escape_string] puts one backslash before every backslash and
    before every character of [at], and changes nothing else; the loop
    ends, and any fuel from the length of the string on gives the same. *)
Theorem escape_string_marks_each_special (str at_ : string) :
  escape_string str at_ = escape_chars (at_ ++ "\") str
  /\ forall fuel, String.length str <= fuel ->
       escape_string_loop fuel str (at_ ++ "\") 0 = escape_string str at_.
Proof.
  assert (forall fuel, String.length str <= fuel ->
            escape_string_loop fuel str (at_ ++ "\") 0
            = escape_chars (at_ ++ "\") str) as H.
  { intros fuel Hfuel.
    pose proof (escape_string_loop_told fuel "" str (at_ ++ "\") Hfuel) as H.
    by rewrite !app_empty_l in H. }
  split.
  - apply H. done.
  - intros fuel Hfuel. unfold escape_string. by rewrite !H.
Qed.

Lemma escape_string_marks_each_special_witness :
  escape_string_loop 9 "a b\c" (" " ++ "\") 0 = escape_string "a b\c" " ".
Proof.
  apply (escape_string_marks_each_special "a b\c" " "). simpl. lia.
Defined.

Lemma find_char_app (pre s : string) (c : ascii) :
  find_char (pre ++ s) c (String.length pre)
  = (fun q => String.length pre + q) <$> find_char s c 0.
Proof.
  unfold find_char.
  replace (String.length pre) with (String.length pre + 0) at 1 by lia.
  apply find_first_of_app.
Qed.

Lemma strchr_single (c d : ascii) :
  strchr (String c "") d = Ascii.eqb d c.
Proof. simpl. by rewrite orb_false_r. Qed.

Lemma unescape_from_plain (c : ascii) (r : string) :
  Ascii.eqb c "\" = false ->
  unescape_from c r = String c (unescape_told r).
Proof. intros Hc. destruct r; simpl; by rewrite Hc. Qed.

Lemma unescape_told_free (w s : string) :
  free_of "\" w = true -> unescape_told (w ++ s) = w ++ unescape_told s.
Proof.
  intros Hw. induction w as [|c w IH]; [by rewrite !app_empty_l|].
  rewrite free_of_cons in Hw. apply andb_true_iff in Hw as [Hc Hw].
  apply negb_true_iff in Hc. rewrite strchr_single in Hc.
  change (String c w ++ s) with (String c (w ++ s)).
  cbn [unescape_told]. rewrite unescape_from_plain, IH by done. done.
Qed.

(** The loop of [unescape_string], from the end of what is done. *)
Lemma unescape_string_loop_told (fuel : nat) (pre s : string) :
  String.length s <= fuel ->
  unescape_string_loop fuel (pre ++ s) (String.length pre)
  = pre ++ unescape_told s.
Proof.
  revert pre s. induction fuel as [|fuel IH]; intros pre s Hfuel.
  { destruct s; [done|simpl in Hfuel; lia]. }
  cbn [unescape_string_loop]. rewrite find_char_app.
  pose proof (find_first_of_0 s "\") as Hfind. unfold find_char.
  destruct (find_first_of s "\" 0) as [q|]; cbn [fmap option_fmap option_map].
  - destruct Hfind as (w & c & rest & -> & <- & Hw & Hc).
    rewrite strchr_single in Hc. apply Ascii.eqb_eq in Hc as ->.
    rewrite unescape_told_free by done.
    destruct rest as [|d r].
    + replace (String.length pre + String.length w + 1 =? String.length (pre ++ w ++ "\"))%nat
        with true.
      2:{ symmetry. apply Nat.eqb_eq. rewrite !str_length_app. simpl. lia. }
      done.
    + replace (String.length pre + String.length w + 1
               =? String.length (pre ++ w ++ String "\" (String d r)))%nat
        with false.
      2:{ symmetry. apply Nat.eqb_neq. rewrite !str_length_app. simpl. lia. }
      replace (Str.at_ (pre ++ w ++ String "\" (String d r))
                 (String.length pre + String.length w + 1)) with d.
      2:{ replace (pre ++ w ++ String "\" (String d r))
            with ((pre ++ w ++ "\") ++ String d r)
            by (by rewrite !app_assoc_str).
          replace (String.length pre + String.length w + 1)
            with (String.length (pre ++ w ++ "\") + 0)
            by (rewrite !str_length_app; simpl; lia).
          by rewrite at_app_r. }
      replace (pre ++ w ++ String "\" (String d r))
        with ((pre ++ w) ++ String "\" (String d "") ++ r)
        by (by rewrite !app_assoc_str).
      replace (String.length pre + String.length w)
        with (String.length (pre ++ w)) by (by rewrite str_length_app).
      rewrite replace_mid by done.
      change (String (get_escape d) "" ++ r) with (String (get_escape d) r).
      rewrite IH.
      2:{ rewrite str_length_app in Hfuel. simpl in *. lia. }
      by rewrite app_assoc_str.
  - f_equal. symmetry. rewrite <- (app_empty_r s) at 1.
    rewrite unescape_told_free by done. by rewrite app_empty_r.
Qed.

Lemma unescape_string_told (str : string) :
  unescape_string str = unescape_told str.
Proof.
  pose proof (unescape_string_loop_told (String.length str) "" str) as H.
  rewrite !app_empty_l in H. by apply H.
Qed.

(** What escaping and then unescaping gives, character by character. *)
Lemma unescape_escape_chars (at_ s : string) :
  (forall c, strchr at_ c = true -> get_escape c = c) ->
  free_of "\" s = true ->
  unescape_told (escape_chars (at_ ++ "\") s) = s
  /\ unescape_told (escape_chars (at_ ++ "\") (s ++ "\")) = s ++ "\".
Proof.
  intros Hat Hs.
  assert (Hbs : strchr (at_ ++ "\") "\" = true).
  { clear. induction at_ as [|c a IH]; [done|].
    change (String c a ++ "\") with (String c (a ++ "\")). simpl.
    by rewrite IH, orb_true_r. }
  assert (Hin : forall c, Ascii.eqb c "\" = false ->
            strchr (at_ ++ "\") c = strchr at_ c).
  { clear. intros c Hc. induction at_ as [|d a IH].
    - simpl. by rewrite Hc.
    - change (String d a ++ "\") with (String d (a ++ "\")). simpl.
      by rewrite IH. }
  induction s as [|c s IH].
  - split; [done|]. rewrite app_empty_l. cbn [escape_chars]. by rewrite Hbs.
  - rewrite free_of_cons in Hs. apply andb_true_iff in Hs as [Hc Hs].
    apply negb_true_iff in Hc. rewrite strchr_single in Hc.
    destruct (IH Hs) as [IH1 IH2].
    change (String c s ++ "\") with (String c (s ++ "\")).
    cbn [escape_chars]. rewrite Hin by done.
    destruct (strchr at_ c) eqn:Hc'.
    + cbn [unescape_told unescape_from]. rewrite Ascii.eqb_refl.
      rewrite (Hat c Hc'), !unescape_from_plain by done.
      by rewrite IH1, IH2.
    + cbn [unescape_told]. rewrite !unescape_from_plain by done.
      by rewrite IH1, IH2.
Qed.

(** X17: unescaping what has been escaped gives the string back, for a
    string that holds no backslash except perhaps as its last character,
    when [get_escape] leaves every character of [at] as it is (none of
    them is one of [n r t b a] or NUL). *)
Theorem unescape_of_escape_is_identity (at_ s : string) :
  (forall c, strchr at_ c = true -> get_escape c = c) ->
  free_of "\" s = true ->
  unescape_string (escape_string s at_) = s
  /\ unescape_string (escape_string (s ++ "\") at_) = s ++ "\".
Proof.
  intros Hat Hs. rewrite !unescape_string_told.
  assert (forall x, escape_string x at_ = escape_chars (at_ ++ "\") x) as H.
  { intros x.
    pose proof (escape_string_loop_told (String.length x) "" x (at_ ++ "\")) as H.
    rewrite !app_empty_l in H. by apply H. }
  rewrite !H. by apply unescape_escape_chars.
Qed.

Lemma unescape_of_escape_is_identity_witness :
  unescape_string (escape_string "x y,z" " ,") = "x y,z"
  /\ unescape_string (escape_string ("x y,z" ++ "\") " ,") = "x y,z" ++ "\".
Proof.
  apply (unescape_of_escape_is_identity " ," "x y,z").
  - intros c Hc. cbn [strchr] in Hc.
    apply orb_true_iff in Hc as [Hc|Hc]; [by apply Ascii.eqb_eq in Hc as ->|].
    apply orb_true_iff in Hc as [Hc|Hc]; [by apply Ascii.eqb_eq in Hc as ->|].
    done.
  - reflexivity.
Defined.

(** X18: a doubled backslash does not protect what follows it: the
    backslash that replaces the pair is read again as the start of the next
    pair, so the string unescapes as if it had one backslash there. *)
Theorem doubled_backslash_is_read_again (w rest : string) :
  free_of "\" w = true ->
  unescape_string (w ++ String "\" (String "\" rest))
  = unescape_string (w ++ String "\" rest).
Proof.
  intros Hw. rewrite !unescape_string_told, !unescape_told_free by done.
  f_equal.
Qed.

Lemma doubled_backslash_is_read_again_witness :
  unescape_string ("a" ++ String "\" (String "\" "n"))
  = unescape_string ("a" ++ String "\" "n").
Proof. apply (doubled_backslash_is_read_again "a" "n"). reflexivity. Defined.

(** * Slots and versions *)

Lemma find_char_0 (s : string) (c : ascii) :
  match find_char s c 0 with
  | Some q =>
      exists w rest, s = w ++ String c rest /\ String.length w = q
        /\ free_of (String c "") w = true
  | None => free_of (String c "") s = true
  end.
Proof.
  unfold find_char. pose proof (find_first_of_0 s (String c "")) as H.
  destruct (find_first_of s (String c "") 0) as [q|]; [|done].
  destruct H as (w & d & rest & -> & <- & Hw & Hd).
  rewrite strchr_single in Hd. apply Ascii.eqb_eq in Hd as ->.
  by exists w, rest.
Qed.

(** X19: the two overloads of [slot_subslot] give the same slot, subslot
    and result.  With a [/] in the string the result is true, the string
    is what stands before the first [/], then [/], then the subslot; with
    none the result is false and the subslot is empty.  The slot has no
    [/], and it is empty where the part before the [/] is [0]. *)
Theorem slot_subslot_splits_at_first_slash (full : string) :
  slot_subslot_full full = slot_subslot full
  /\ exists s0,
       free_of "/" s0 = true
       /\ (slot_subslot full).1.1 = (if String.eqb s0 "0" then "" else s0)
       /\ (slot_subslot full).1.1 <> "0"
       /\ if (slot_subslot full).2
          then full = s0 ++ "/" ++ (slot_subslot full).1.2
          else full = s0 /\ (slot_subslot full).1.2 = "".
Proof.
  unfold slot_subslot_full, slot_subslot.
  pose proof (find_char_0 full "/") as H.
  destruct (find_char full "/" 0) as [sep|].
  - destruct H as (w & rest & -> & <- & Hw). split; [done|].
    exists w. cbn [fst snd]. rewrite substr_prefix.
    replace (w ++ String "/" rest) with ((w ++ "/") ++ rest)
      by (by rewrite app_assoc_str).
    replace (String.length w + 1) with (String.length (w ++ "/") + 0)
      by (rewrite str_length_app; simpl; lia).
    rewrite substr_from_app_r, substr_from_0.
    split_and!; [done|done| |by rewrite app_assoc_str].
    destruct (String.eqb_spec w "0"); done.
  - split; [by destruct (String.eqb full "0")|].
    exists full. cbn [fst snd]. split_and!; [done|done| |done|done].
    destruct (String.eqb_spec full "0"); done.
Qed.

Lemma isdigit_not_nul (c : ascii) : isdigit c = true -> c <> Ascii.zero.
Proof. by intros H ->. Qed.

Lemma at_drop (s : string) (i : nat) :
  Str.at_ (Str.substr_from s i) 0 = Str.at_ s i.
Proof. rewrite at_substr_from. f_equal. lia. Qed.

(** The candidate that the loop keeps: behind it stands a [-], at it a
    digit, and there is no NUL before it. *)
Lemma version_loop_good (rest pre : string) (x : option nat) (k : nat) :
  1 <= String.length pre -> Str.c_str pre = pre ->
  (forall k, x = Some k -> version_at (pre ++ rest) k) ->
  version_loop false rest (String.length pre) x = Some k ->
  version_at (pre ++ rest) k.
Proof.
  revert pre x.
  induction rest as [|c rest IH]; intros pre x Hpre Hc Hx Hloop.
  { by apply Hx. }
  cbn [version_loop] in Hloop.
  destruct (Ascii.eqb c Ascii.zero || Ascii.eqb c ":")%bool eqn:Hend;
    [by apply Hx|].
  apply orb_false_iff in Hend as [Hnul Hcolon].
  assert (Str.c_str (pre ++ String c "") = pre ++ String c "") as Hc'.
  { clear -Hc Hnul. revert Hc. induction pre as [|d pre IHp]; intros Hc.
    - simpl. by rewrite Hnul.
    - change (String d pre ++ String c "") with (String d (pre ++ String c "")).
      simpl in *. destruct (Ascii.eqb d Ascii.zero); [done|].
      f_equal. apply IHp. congruence. }
  assert (forall x', (forall k, x' = Some k ->
            version_at (pre ++ String c rest) k) ->
          version_loop false rest (S (String.length pre)) x' = Some k ->
          version_at (pre ++ String c rest) k) as Hnext.
  { intros x' Hx' Hl.
    specialize (IH (pre ++ String c "") x').
    replace (String.length (pre ++ String c "")) with (S (String.length pre))
      in IH by (rewrite str_length_app; simpl; lia).
    replace ((pre ++ String c "") ++ rest) with (pre ++ String c rest) in IH
      by (by rewrite app_assoc_str).
    apply IH; [lia|done|done|done]. }
  destruct (Ascii.eqb c "-") eqn:Hdash.
  - apply Ascii.eqb_eq in Hdash as ->. cbn [andb orb] in Hloop.
    rewrite orb_false_r in Hloop.
    destruct (isdigit (Str.at_ rest 0)) eqn:Hd.
    + apply (Hnext (Some (S (String.length pre)))); [|done].
      intros k' [= <-]. unfold version_at. split_and!.
      * lia.
      * replace (S (String.length pre) - 1) with (String.length pre + 0) by lia.
        by rewrite at_app_r.
      * replace (pre ++ String "-" rest) with ((pre ++ "-") ++ rest)
          by (by rewrite app_assoc_str).
        replace (S (String.length pre)) with (String.length (pre ++ "-") + 0)
          by (rewrite str_length_app; simpl; lia).
        by rewrite at_app_r.
      * replace (pre ++ String "-" rest) with ((pre ++ "-") ++ rest)
          by (by rewrite app_assoc_str).
        replace (S (String.length pre)) with (String.length (pre ++ "-"))
          by (rewrite str_length_app; simpl; lia).
        by rewrite substr_prefix.
    + by apply (Hnext x).
  - by apply (Hnext x).
Qed.

Lemma c_str_prefix (a b : string) :
  Str.c_str (a ++ b) = a ++ b -> Str.c_str b = b.
Proof.
  induction a as [|c a IH]; [by rewrite !app_empty_l|].
  change (String c a ++ b) with (String c (a ++ b)). simpl.
  destruct (Ascii.eqb c Ascii.zero); [done|]. intros [= H]. by apply IH.
Qed.

(** X20: when [ExplodeAtom::split] succeeds on a C string, the string is
    the name, a [-], and the version; the name is not empty and the version
    begins with a digit; [split_name] and [split_version] give the same two
    parts. *)
Theorem split_gives_name_and_version (str name version : string) :
  Str.c_str str = str ->
  split str = Some (name, version) ->
  str = name ++ "-" ++ version /\ name <> ""
  /\ isdigit (Str.at_ version 0) = true
  /\ split_name str = Some name /\ split_version str = Some version.
Proof.
  intros Hc. unfold split, split_name, split_version.
  destruct (get_start_of_version str false) as [x|] eqn:Hx; [|done].
  intros [= <- <-].
  unfold get_start_of_version in Hx. destruct str as [|c rest]; [done|].
  destruct (Ascii.eqb c Ascii.zero) eqn:Hnul; [done|].
  pose proof (version_loop_good rest (String c "") None x) as H.
  change (String c "" ++ rest) with (String c rest) in H.
  destruct H as (H2 & Hdash & Hdig & Hpre); try done.
  { simpl. by rewrite Hnul. }
  set (s := String c rest) in *. clearbody s. clear Hx.
  assert (x < String.length s) as Hlt.
  { apply at_nonzero_lt. by apply isdigit_not_nul. }
  assert (s = Str.substr s 0 (x - 1) ++ "-" ++ Str.substr_from s x) as Hs.
  { apply chars_inj. rewrite !chars_app, substr_chars, substr_from_chars.
    rewrite drop_0.
    assert (chars s !! (x - 1) = Some "-"%char) as Hl.
    { rewrite at_chars in Hdash.
      destruct (chars s !! (x - 1)) as [d|] eqn:E; [by simpl in Hdash; subst|].
      simpl in Hdash. done. }
    rewrite <- (take_drop (x - 1) (chars s)) at 1. f_equal.
    rewrite (drop_S _ _ _ Hl). simpl. f_equal. f_equal. lia. }
  assert (Str.c_str (Str.substr_from s x) = Str.substr_from s x) as Hver.
  { apply (c_str_prefix (Str.substr s 0 (x - 1) ++ "-")).
    rewrite app_assoc_str. by rewrite <- Hs. }
  assert (Str.c_str (Str.substr s 0 (x - 1)) = Str.substr s 0 (x - 1)) as Hname.
  { rewrite Hs in Hc. clear -Hc.
    revert Hc. generalize (Str.substr s 0 (x - 1)) as a.
    generalize ("-" ++ Str.substr_from s x) as b.
    intros b a. induction a as [|d a IH]; [done|].
    change (String d a ++ b) with (String d (a ++ b)). simpl.
    destruct (Ascii.eqb d Ascii.zero); [done|]. intros [= H]. f_equal.
    by apply IH. }
  unfold strndup, strdup. rewrite Nat.sub_0_r, Hver, Hname.
  split_and!; try done.
  - intros Hempty.
    assert (String.length (Str.substr s 0 (x - 1)) = x - 1) as Hlen.
    { rewrite <- chars_length, substr_chars, drop_0, length_take, chars_length.
      lia. }
    rewrite Hempty in Hlen. simpl in Hlen. lia.
  - by rewrite at_drop.
Qed.

Lemma split_gives_name_and_version_witness :
  "app-misc-1.2-r1" = "app-misc" ++ "-" ++ "1.2-r1" /\ "app-misc" <> ""
  /\ isdigit (Str.at_ "1.2-r1" 0) = true
  /\ split_name "app-misc-1.2-r1" = Some "app-misc"
  /\ split_version "app-misc-1.2-r1" = Some "1.2-r1".
Proof.
  apply (split_gives_name_and_version "app-misc-1.2-r1" "app-misc" "1.2-r1");
    reflexivity.
Defined.

(** * Reading a configuration without references *)

Section Plain.

Variables EIX_VARS_PREFIX DIFF_EIX_VARS_PREFIX : string.
Variable full : nat -> bool.
Variable w : World.
Variable tm : gmap string string.

Lemma join_scan_plain (fuel : nat) (k str : string)
    (st : EixRc * gset string) (hr : gset string) :
  no_percent str = true ->
  join_scan EIX_VARS_PREFIX DIFF_EIX_VARS_PREFIX full (S fuel) w tm k str 0
    st hr
  = JoinDone (st, hr).
Proof.
  intros Hstr. cbn [join_scan]. by rewrite scan_plain_only.
Qed.

Lemma join_loop_plain (fuel : nat) (i : nat) (st : EixRc * gset string)
    (hr : gset string) :
  (forall o, o ∈ defaults st.1 -> no_percent (local_value o) = true) ->
  length (defaults st.1) - i < fuel ->
  join_loop EIX_VARS_PREFIX DIFF_EIX_VARS_PREFIX full fuel w tm i st hr
  = JoinDone (st.1, hr).
Proof.
  intros Hplain. revert i. induction fuel as [|fuel IH]; intros i Hfuel; [lia|].
  cbn [join_loop]. destruct (defaults st.1 !! i) as [o|] eqn:Eo; [|done].
  pose proof (lookup_lt_Some _ _ _ Eo).
  rewrite join_scan_plain by (apply Hplain; by eapply list_elem_of_lookup_2).
  apply IH. lia.
Qed.

End Plain.

Lemma read_undelayed_plain (P1 P2 : string) (full : nat -> bool) (fuel : nat)
    (w : World) (r : EixRc) (hr : gset string) :
  (forall o, o ∈ defaults r ->
     no_percent (layered_value w r (key o)) = true) ->
  length (defaults r) < fuel ->
  read_undelayed P1 P2 full fuel w r hr
  = JoinDone (set_new_values (layered_tempmap w r).1 r, hr,
              (layered_tempmap w r).2).
Proof.
  intros Hplain Hfuel. unfold read_undelayed.
  rewrite (surjective_pairing (layered_tempmap w r)). cbv beta iota.
  rewrite join_loop_plain; [done| |].
  - cbn [fst]. intros o Ho.
    rewrite (set_new_values_local _ _ _ Ho).
    assert (key o ∈ key <$> defaults r) as Hk.
    { rewrite <- (set_new_values_keys (layered_tempmap w r).1 r).
      apply list_elem_of_fmap. by exists o. }
    rewrite layered_tempmap_default_key by done. cbn [default from_option id].
    apply list_elem_of_fmap in Hk as (o' & -> & Ho'). by apply Hplain.
  - cbn [fst].
    assert (length (defaults (set_new_values (layered_tempmap w r).1 r))
            = length (defaults r)) as ->; [|lia].
    rewrite <- (length_fmap key), set_new_values_keys. apply length_fmap.
Qed.

(** With nothing in [has_reference] the loop over the options only reads
    each entry. *)
Lemma resolve_all_settled (n : nat) (keys : list string) (r : EixRc) :
  exists r', resolve_all (S n) keys r ∅
             = Returned {| rc := r'; visited := ∅; has_reference := ∅ |}
    /\ (forall k, get r' k = get r k) /\ defaults r' = defaults r
    /\ varprefix r' = varprefix r.
Proof.
  revert r. induction keys as [|k keys IH]; intros r.
  - by exists r.
  - cbn [resolve_all resolve_delayed_recurse with_rc has_reference].
    rewrite decide_False by set_solver.
    cbn [rc with_rc has_reference].
    destruct (IH (touch r k)) as (r' & -> & Hget & Hd & Hp).
    exists r'. split_and!; try done.
    intros k'. by rewrite Hget, get_touch.
Qed.

Lemma get_unescaped (r : EixRc) (k : string) :
  get (with_this r (unescape <$> this r)) k = unescape (get r k).
Proof.
  unfold get. cbn [this with_this]. rewrite lookup_fmap.
  by destruct (this r !! k).
Qed.

(** X21: a configuration in which no layered value of an option contains
    a [%] is read to the end: with more fuel than there are options [read]
    returns, no option is added, and every option has the value by
    precedence (environment, user file, system file, default) in the map;
    [m_eprefix] is the final value of [EPREFIX].  Nothing is appended to
    [defaults], so this holds whether the vector is full or not. *)
Theorem read_without_references (P1 P2 : string) (full : nat -> bool)
    (w : World) (r : EixRc) (fuel : nat) :
  let r0 := {| this := this r; defaults := defaults r;
               varprefix := varprefix r;
               m_eprefix := default "" (getenv w "EPREFIX");
               m_eprefixconf :=
                 match getenv w "PORTAGE_CONFIGROOT" with
                 | Some configroot =>
                     default "" (getenv w "EPREFIX") ++ configroot
                 | None => default "" (getenv w "EPREFIX")
                 end |} in
  (forall o, o ∈ defaults r ->
     no_percent (layered_value w r0 (key o)) = true) ->
  length (defaults r) < fuel ->
  exists r' warnings,
    read P1 P2 full fuel w r = ReadDone r' warnings
    /\ (forall o, o ∈ defaults r ->
          get r' (key o) = layered_value w r0 (key o))
    /\ key <$> defaults r' = key <$> defaults r
    /\ m_eprefix r' = get r' "EPREFIX".
Proof.
  intros r0 Hplain Hfuel. unfold read. fold r0.
  rewrite (read_undelayed_plain P1 P2 full fuel w r0 ∅) by done.
  destruct fuel as [|n]; [lia|].
  set (r1 := set_new_values (layered_tempmap w r0).1 r0).
  destruct (resolve_all_settled n (key <$> defaults r1) r1)
    as (r2 & -> & Hget & Hd & Hp).
  cbn [rc]. eexists _, _. split; [reflexivity|].
  assert (forall k, get (touch (touch (with_this r2 (unescape <$> this r2))
                                 "EPREFIX") "PORTAGE_CONFIGROOT") k
                    = unescape (get r1 k)) as Hfinal.
  { intros k. by rewrite !get_touch, get_unescaped, Hget. }
  split_and!.
  - intros o Ho.
    change (get _ (key o))
      with (get (touch (touch (with_this r2 (unescape <$> this r2))
                          "EPREFIX") "PORTAGE_CONFIGROOT") (key o)).
    rewrite Hfinal. unfold r1. rewrite set_new_values_get.
    assert (key o ∈ key <$> defaults r0) as Hk.
    { apply list_elem_of_fmap. by exists o. }
    rewrite decide_True by done.
    rewrite layered_tempmap_default_key by done. cbn [default from_option id].
    apply (unescape_glue _ []); [by apply Hplain|constructor].
  - cbn [defaults touch set with_this]. rewrite Hd. unfold r1.
    by rewrite set_new_values_keys.
  - cbn [m_eprefix]. symmetry.
    etransitivity; [|apply (get_touch _ "PORTAGE_CONFIGROOT")]. reflexivity.
Qed.

Lemma read_without_references_witness :
  exists r' warnings,
    read "EIX_" "DIFF_" always_full 5 example_world
      (example_config [("K", "dfl"); ("D", "dfl")])
    = ReadDone r' warnings
    /\ m_eprefix r' = get r' "EPREFIX".
Proof.
  destruct (read_without_references "EIX_" "DIFF_" always_full example_world
              (example_config [("K", "dfl"); ("D", "dfl")]) 5)
    as (r' & ws & H1 & _ & _ & H4).
  - intros o Ho.
    assert (o = mkOption STRING "K" "dfl" "" \/ o = mkOption STRING "D" "dfl" "")
      as [->| ->] by set_solver; reflexivity.
  - simpl. lia.
  - by exists r', ws.
Defined.

(** * Comments in the dump *)

(** [find] for a pattern of one character is the search for the
    character. *)
Lemma find_single (s : string) (c : ascii) (pos : nat) :
  Str.find s (String c "") pos = find_char s c pos.
Proof.
  unfold Str.find, find_char. revert pos.
  induction s as [|d s IH]; intros pos.
  - by destruct pos.
  - destruct pos as [|pos].
    + cbn [String.index find_first_of String.prefix strchr].
      rewrite IH. destruct (ascii_dec c d) as [->|Hne].
      * rewrite Ascii.eqb_refl. cbn [orb]. by destruct s.
      * assert (Ascii.eqb d c = false) as ->.
        { apply Ascii.eqb_neq. congruence. }
        cbn [orb]. by destruct (find_first_of s (String c "") 0).
    + cbn [String.index find_first_of]. rewrite IH.
      by destruct (find_first_of s (String c "") pos).
Qed.

Lemma comment_lines_free (w s : string) :
  free_of newline w = true ->
  comment_lines (w ++ s) = w ++ comment_lines s.
Proof.
  intros Hw. induction w as [|c w IH]; [by rewrite !app_empty_l|].
  rewrite free_of_cons in Hw. apply andb_true_iff in Hw as [Hc Hw].
  apply negb_true_iff in Hc. unfold newline in Hc. rewrite strchr_single in Hc.
  change (String c w ++ s) with (String c (w ++ s)).
  cbn [comment_lines]. rewrite Hc, IH by done. done.
Qed.

Lemma count_of_app (at_ a b : string) :
  count_of at_ (a ++ b) = count_of at_ a + count_of at_ b.
Proof.
  induction a as [|c a IH]; [by rewrite app_empty_l|].
  change (String c a ++ b) with (String c (a ++ b)). cbn [count_of].
  rewrite IH. lia.
Qed.

(** The loop of [as_comment], from the end of what is done. *)
Lemma as_comment_loop_told (fuel : nat) (pre s : string) :
  count_of newline s <= fuel ->
  as_comment_loop fuel (pre ++ s) (String.length pre)
  = pre ++ comment_lines s.
Proof.
  revert pre s. induction fuel as [|fuel IH]; intros pre s Hfuel.
  { cbn [as_comment_loop]. f_equal.
    assert (free_of newline s = true) as Hs.
    { clear -Hfuel. induction s as [|c s IHs]; [done|].
      cbn [count_of] in Hfuel. rewrite free_of_cons.
      destruct (strchr newline c); [simpl in Hfuel; lia|].
      apply IHs. simpl in Hfuel. lia. }
    rewrite <- (app_empty_r s) at 2.
    by rewrite comment_lines_free, app_empty_r. }
  cbn [as_comment_loop]. unfold newline at 1. rewrite find_single, find_char_app.
  pose proof (find_char_0 s (ascii_of_nat 10)) as Hfind.
  destruct (find_char s (ascii_of_nat 10) 0) as [q|];
    cbn [fmap option_fmap option_map].
  - destruct Hfind as (w & rest & -> & <- & Hw).
    rewrite comment_lines_free by done. cbn [comment_lines].
    rewrite Ascii.eqb_refl.
    replace (pre ++ w ++ String (ascii_of_nat 10) rest)
      with ((pre ++ w ++ newline) ++ rest) by (by rewrite !app_assoc_str).
    replace (String.length pre + String.length w + 1)
      with (String.length (pre ++ w ++ newline))
      by (rewrite !str_length_app; simpl; lia).
    rewrite insert_app.
    replace ((pre ++ w ++ newline) ++ "# " ++ rest)
      with ((pre ++ w ++ newline ++ "#") ++ String " " rest)
      by (by rewrite !app_assoc_str).
    replace (String.length pre + String.length w + 2)
      with (String.length (pre ++ w ++ newline ++ "#"))
      by (rewrite !str_length_app; simpl; lia).
    rewrite IH.
    2:{ rewrite count_of_app in Hfuel. cbn [count_of] in *.
        unfold newline in *. rewrite strchr_single, Ascii.eqb_refl in Hfuel.
        rewrite strchr_single. simpl. simpl in Hfuel. lia. }
    cbn [comment_lines]. change (Ascii.eqb " " (ascii_of_nat 10)) with false.
    cbv iota. by rewrite !app_assoc_str.
  - f_equal. symmetry. rewrite <- (app_empty_r s) at 1.
    rewrite comment_lines_free by done. by rewrite app_empty_r.
Qed.

Lemma count_of_le (at_ s : string) : count_of at_ s <= String.length s.
Proof.
  induction s as [|c s IH]; [done|]. cbn [count_of String.length].
  destruct (strchr at_ c); lia.
Qed.

Lemma c_str_length (s : string) : String.length (Str.c_str s) <= String.length s.
Proof.
  induction s as [|c s IH]; [done|]. simpl.
  destruct (Ascii.eqb c Ascii.zero); simpl; lia.
Qed.

Lemma comment_lines_newline (t : string) (p : nat) :
  Str.at_ (comment_lines t) p = ascii_of_nat 10 ->
  Str.substr (comment_lines t) (p + 1) 2 = "# ".
Proof.
  revert p. induction t as [|c t IH]; intros p Hp.
  - by destruct p.
  - cbn [comment_lines] in *.
    destruct (Ascii.eqb c (ascii_of_nat 10)) eqn:Hc.
    + destruct p as [|[|[|p]]].
      * replace (0 + 1) with 1 by lia. rewrite substr_cons.
        change ("# " ++ comment_lines t)
          with (String "#" (String " " (comment_lines t))).
        by destruct (comment_lines t).
      * rewrite at_S in Hp. by change ("# " ++ comment_lines t)
          with (String "#" (String " " (comment_lines t))) in Hp.
      * rewrite at_S in Hp. by change ("# " ++ comment_lines t)
          with (String "#" (String " " (comment_lines t))) in Hp.
      * change ("# " ++ comment_lines t)
          with (String "#" (String " " (comment_lines t))) in *.
        rewrite !at_S in Hp. replace (S (S (S p)) + 1) with (S (S (S (p + 1))))
          by lia.
        rewrite !substr_cons. by apply IH.
    + destruct p as [|p].
      * rewrite at_0 in Hp. subst c. done.
      * rewrite at_S in Hp. replace (S p + 1) with (S (p + 1)) by lia.
        rewrite substr_cons. by apply IH.
Qed.

(** X22: [as_comment] puts [# ] after every newline of the C string and
    changes nothing else, so in its result every newline is followed by
    [# ]: a text of several lines stays a comment line by line.  The loop
    ends, and any fuel from the length of the string on gives the same. *)
Theorem as_comment_keeps_lines_commented (s : string) :
  as_comment s = comment_lines (Str.c_str s)
  /\ (forall p, Str.at_ (as_comment s) p = ascii_of_nat 10 ->
        Str.substr (as_comment s) (p + 1) 2 = "# ")
  /\ forall fuel, String.length s <= fuel ->
       as_comment_loop fuel (Str.c_str s) 0 = as_comment s.
Proof.
  assert (forall fuel, String.length s <= fuel ->
            as_comment_loop fuel (Str.c_str s) 0
            = comment_lines (Str.c_str s)) as H.
  { intros fuel Hfuel.
    pose proof (as_comment_loop_told fuel "" (Str.c_str s)) as H.
    rewrite !app_empty_l in H. apply H.
    pose proof (count_of_le newline (Str.c_str s)).
    pose proof (c_str_length s). lia. }
  assert (as_comment s = comment_lines (Str.c_str s)) as E by (by apply H).
  split_and!; [done| |].
  - rewrite E. apply comment_lines_newline.
  - intros fuel Hfuel. rewrite E. by apply H.
Qed.

Lemma as_comment_keeps_lines_commented_witness :
  as_comment_loop 20 (Str.c_str ("one" ++ newline ++ "two")) 0
  = as_comment ("one" ++ newline ++ "two").
Proof.
  destruct (as_comment_keeps_lines_commented ("one" ++ newline ++ "two"))
    as (_ & _ & H).
  apply H. simpl. lia.
Defined.

(** * Collapsing runs of white space *)

Lemma find_first_not_of_app (a b at_ : string) (i : nat) :
  find_first_not_of (a ++ b) at_ (String.length a + i)
  = (fun q => String.length a + q) <$> find_first_not_of b at_ i.
Proof.
  induction a as [|c a IH].
  - rewrite app_empty_l. cbn [String.length Nat.add].
    by destruct (find_first_not_of b at_ i).
  - change (String c a ++ b) with (String c (a ++ b)).
    cbn [String.length Nat.add find_first_not_of]. rewrite IH.
    by destruct (find_first_not_of b at_ i).
Qed.

Lemma words_made (at_ g s : string) :
  made_of at_ g = true ->
  words at_ true "" (g ++ s) = words at_ true "" s.
Proof.
  induction g as [|c g IH]; intros Hm; [by rewrite app_empty_l|].
  rewrite made_of_cons in Hm. apply andb_true_iff in Hm as [Hc Hm].
  change (String c g ++ s) with (String c (g ++ s)). cbn [words].
  rewrite Hc. cbn [emit String.length Nat.ltb Nat.leb orb negb app].
  by apply IH.
Qed.

(** The words of a string that begins with a character that is no
    delimiter: the word being read is continued by the first of them. *)
Lemma words_continue (at_ : string) (d : ascii) (s : string) :
  strchr at_ d = false ->
  exists x tl, words at_ true "" (String d s) = x :: tl /\ x <> ""
    /\ forall cur, words at_ true cur (String d s) = (cur ++ x) :: tl.
Proof.
  intros Hd.
  assert (Hgen : forall s pre, pre <> "" ->
    exists x tl, words at_ true pre s = x :: tl /\ x <> ""
      /\ forall cur, words at_ true (cur ++ pre) s = (cur ++ x) :: tl).
  { clear. induction s as [|c s IH]; intros pre Hpre.
    - exists pre, []. cbn [words]. unfold emit. split_and!; [|done|].
      + by destruct pre.
      + intros cur. rewrite str_length_app.
        destruct pre; [done|]. simpl String.length.
        replace (0 <? String.length cur + S (String.length pre))%nat
          with true by (symmetry; apply Nat.ltb_lt; lia).
        done.
    - cbn [words]. destruct (strchr at_ c).
      + exists pre, (words at_ true "" s). unfold emit. split_and!; [|done|].
        * by destruct pre.
        * intros cur. rewrite str_length_app. destruct pre; [done|].
          simpl String.length.
          replace (0 <? String.length cur + S (String.length pre))%nat
            with true by (symmetry; apply Nat.ltb_lt; lia).
          done.
      + destruct (IH (pre ++ String c "")) as (x & tl & E & Hx & Hall).
        { by destruct pre. }
        exists x, tl. split_and!; [done|done|].
        intros cur. rewrite app_assoc_str. apply Hall. }
  cbn [words]. rewrite Hd.
  destruct (Hgen s (String d "") ltac:(done)) as (x & tl & E & Hx & Hall).
  exists x, tl. rewrite app_empty_l. split_and!; [done|done|].
  intros cur. apply Hall.
Qed.

Lemma join_single (x : string) (glue : string) :
  join_to_string "" [x] glue = x.
Proof. cbn [join_to_string fold_left]. by rewrite app_empty_l. Qed.

Lemma join_emit (x glue : string) :
  join_to_string "" (emit true x) glue = x.
Proof.
  unfold emit. destruct x as [|c x]; [done|]. apply join_single.
Qed.

(** The loop of [trimall] with the white space as delimiters, from the end
    of what is done: the words are joined by [c]. *)
Lemma trimall_loop_told (fuel : nat) (pre s : string) (c : ascii) :
  String.length s <= fuel ->
  trimall_loop fuel (pre ++ s) spaces c (String.length pre)
  = join_to_string "" (words spaces true pre s) (String c "").
Proof.
  revert pre s. induction fuel as [|fuel IH]; intros pre s Hfuel.
  { destruct s; [|simpl in Hfuel; lia]. cbn [trimall_loop words].
    by rewrite join_emit, app_empty_r. }
  cbn [trimall_loop].
  replace (String.length pre) with (String.length pre + 0) at 1 by lia.
  rewrite find_first_of_app.
  pose proof (find_first_of_0 s spaces) as Hfind.
  destruct (find_first_of s spaces 0) as [q|];
    cbn [fmap option_fmap option_map].
  2:{ rewrite words_free_end by done. by rewrite join_emit. }
  destruct Hfind as (w & dl & s' & -> & <- & Hw & Hdl).
  rewrite words_free by done. cbn [words]. rewrite Hdl.
  replace (pre ++ w ++ String dl s') with ((pre ++ w ++ String dl "") ++ s')
    by (by rewrite !app_assoc_str).
  replace (String.length pre + String.length w + 1)
    with (String.length (pre ++ w ++ String dl "") + 0)
    by (rewrite !str_length_app; simpl; lia).
  rewrite find_first_not_of_app.
  pose proof (find_first_not_of_0 s' spaces) as Hend.
  destruct (find_first_not_of s' spaces 0) as [e|];
    cbn [fmap option_fmap option_map].
  2:{ rewrite <- (app_empty_r s') at 2. rewrite words_made by done.
      cbn [words emit String.length Nat.ltb Nat.leb orb negb].
      rewrite app_nil_r, join_emit. unfold erase_from.
      replace ((pre ++ w ++ String dl "") ++ s')
        with ((pre ++ w) ++ String dl s') by (by rewrite !app_assoc_str).
      replace (String.length pre + String.length w)
        with (String.length (pre ++ w)) by (by rewrite str_length_app).
      apply substr_prefix. }
  destruct Hend as (g & d & s3 & -> & <- & Hg & Hd).
  rewrite words_made by done.
  destruct (words_continue spaces d s3 Hd) as (x & tl & Ex & Hx & Hall).
  assert (String.length (String d s3) <= fuel) as Hfuel'.
  { rewrite str_length_app in Hfuel. cbn [String.length] in Hfuel.
    rewrite str_length_app in Hfuel. cbn [String.length] in *. lia. }
  destruct (Nat.eqb_spec (String.length pre + String.length w) 0) as [H0|H0];
    cbn [negb].
  - assert (pre = "" /\ w = "") as [-> ->].
    { destruct pre, w; simpl in H0; done || lia. }
    cbn [emit String.length Nat.ltb Nat.leb orb negb app].
    rewrite !app_empty_l.
    replace (String.length (String dl "") + String.length g - 0)
      with (String.length (String dl g)) by (simpl; lia).
    change (String dl "" ++ g ++ String d s3)
      with (String dl g ++ String d s3).
    rewrite erase_prefix.
    pose proof (IH "" (String d s3) Hfuel') as H.
    rewrite app_empty_l in H. exact H.
  - assert (emit true (pre ++ w) = [pre ++ w]) as ->.
    { unfold emit. rewrite str_length_app.
      replace (0 <? String.length pre + String.length w)%nat with true
        by (symmetry; apply Nat.ltb_lt; lia).
      done. }
    assert (set_at ((pre ++ w ++ String dl "") ++ g ++ String d s3)
              (String.length pre + String.length w) c
            = (pre ++ w ++ String c "") ++ g ++ String d s3) as ->.
    { unfold set_at.
      replace ((pre ++ w ++ String dl "") ++ g ++ String d s3)
        with ((pre ++ w) ++ String dl "" ++ g ++ String d s3)
        by (by rewrite !app_assoc_str).
      rewrite replace_mid; [|by rewrite str_length_app|done].
      by rewrite !app_assoc_str. }
    assert (trimall_loop fuel ((pre ++ w ++ String c "") ++ String d s3)
              spaces c (S (String.length pre + String.length w))
            = join_to_string "" ((pre ++ w) :: words spaces true "" (String d s3))
                (String c "")) as Hnext.
    { replace (S (String.length pre + String.length w))
        with (String.length (pre ++ w ++ String c ""))
        by (rewrite !str_length_app; simpl; lia).
      rewrite IH by done. rewrite Hall, Ex.
      rewrite !join_to_string_cons.
      - change ((fun it => String c "" ++ it) <$> x :: tl)
          with ((String c "" ++ x) :: ((fun it => String c "" ++ it) <$> tl)).
        rewrite concat_cons_str. by rewrite !app_assoc_str.
      - intros E. apply (f_equal String.length) in E.
        rewrite str_length_app in E. simpl in E. lia.
      - intros E. apply (f_equal String.length) in E.
        rewrite !str_length_app in E. simpl in E.
        destruct x; [done|]. simpl in E. lia. }
    cbn [app].
    destruct (Nat.eqb_spec (S (String.length pre + String.length w))
                (String.length (pre ++ w ++ String dl "") + String.length g))
      as [He|He].
    + assert (g = "") as ->.
      { rewrite !str_length_app in He. simpl in He.
        destruct g; [done|simpl in He; lia]. }
      rewrite app_empty_l. exact Hnext.
    + replace ((pre ++ w ++ String c "") ++ g ++ String d s3)
        with ((pre ++ w ++ String c "") ++ g ++ String d s3) by done.
      rewrite erase_mid.
      * exact Hnext.
      * rewrite !str_length_app. simpl. lia.
      * rewrite !str_length_app. simpl. lia.
Qed.

(** X23: with the white space as delimiters [trimall] gives the words of
    the string joined by [c]: leading and trailing white space is removed
    and every run of white space between two words becomes one [c]; it is
    what [split_and_join_string] gives with [c] as glue. *)
Theorem trimall_joins_the_words (str : string) (c : ascii) :
  trimall str spaces c
  = join_to_string "" (split_string str) (String c "")
  /\ trimall str spaces c
     = split_and_join_string str (String c "") spaces true.
Proof.
  assert (trimall str spaces c
          = join_to_string "" (split_string_at str spaces true) (String c ""))
    as H.
  { rewrite split_string_at_words. unfold trimall.
    pose proof (trimall_loop_told (String.length str) "" str c) as H.
    rewrite app_empty_l in H. by apply H. }
  by split.
Qed.

(** * The options are closed under references *)

(** No directive starts inside another one. *)
Lemma directives_apart (str : string) (p q : nat) (ty ty' : DelayedType)
    (len len' : nat) :
  directive_at str p = Some (ty, len) ->
  directive_at str q = Some (ty', len') ->
  p < q -> p + len <= q.
Proof.
  intros Hp Hq Hlt.
  destruct (directive_at_span _ _ _ _ Hp) as [Hlen _].
  unfold directive_at in Hp, Hq.
  destruct (decide (occurs "%{" str p)) as [Ho|]; [|done].
  destruct (decide (occurs "%{" str q)) as [Ho'|]; [|done].
  apply occurs_opener in Ho as (_ & Hb & _).
  apply occurs_opener in Ho' as (Hq1 & _ & _).
  destruct (escaped str p); [done|].
  apply delayed_at_shape in Hp as (Hclose & _ & Hin).
  destruct (decide (p + len <= q)) as [|Hn]; [done|]. exfalso.
  destruct (decide (q = S p)) as [->|]; [by rewrite Hb in Hq1|].
  destruct (decide (q = p + len - 1)) as [->|]; [by rewrite Hclose in Hq1|].
  destruct (Hin q) as (_ & H & _); [lia|done].
Qed.

Lemma join_delayed_keys (w : World) (tm : gmap string string) (k : string)
    (st : EixRc * gset string) :
  keys_ok st ->
  keys_ok (join_delayed w k st tm) /\ k ∈ (join_delayed w k st tm).2
  /\ varprefix (join_delayed w k st tm).1 = varprefix st.1.
Proof.
  unfold keys_ok, join_delayed. destruct st as [r dk]. cbn [fst snd].
  intros ->. case_decide as Hk; [done|]. cbn [fst snd].
  split_and!; [|set_solver|done].
  cbn [defaults set with_this with_defaults].
  rewrite fmap_app, list_to_set_app_L. cbn [fmap list_fmap].
  assert (key (mkOption LOCAL k
            match tm !! k with Some v => v | None => default "" (getenv w k) end
            "") = k) as -> by done.
  set_solver.
Qed.

Lemma join_delayed_varprefix (w : World) (tm : gmap string string)
    (k : string) (st : EixRc * gset string) :
  varprefix (join_delayed w k st tm).1 = varprefix st.1.
Proof.
  unfold join_delayed. destruct st as [r dk]. by case_decide.
Qed.

Section Closure.

Variables EIX_VARS_PREFIX DIFF_EIX_VARS_PREFIX : string.
Variable full : nat -> bool.
Variables (w : World) (tm : gmap string string).

(** The calls at a directive join the keys that the directive names. *)
Lemma join_names_joined (str : string) (ty : DelayedType) (q len : nat)
    (st : EixRc * gset string) (skip : nat) :
  skip = (if bool_decide (ty = DelayedVariable) then 2 else 3) ->
  keys_ok st ->
  forall n,
    n ∈ joined_names EIX_VARS_PREFIX DIFF_EIX_VARS_PREFIX str ty q len ->
    n ∈ (join_names EIX_VARS_PREFIX DIFF_EIX_VARS_PREFIX full w tm str
           (q + skip) (len - skip) st).1.2.
Proof.
  intros Hskip Hkeys n Hn. unfold joined_names in Hn. rewrite <- Hskip in Hn.
  unfold join_names.
  destruct (Ascii.eqb (Str.at_ str (q + skip)) "*"); cbn [fst].
  - apply elem_of_cons in Hn as [->|Hn].
    + destruct (join_delayed_keys w tm
                  (EIX_VARS_PREFIX
                   ++ Str.substr str (q + skip + 1) (len - skip - 2))
                  st Hkeys) as (Hk1 & Hin1 & _).
      pose proof (join_delayed_more w tm
                    (DIFF_EIX_VARS_PREFIX
                     ++ Str.substr str (q + skip + 1) (len - skip - 2))
                    _ _ (joined_more_refl
                           (join_delayed w
                              (EIX_VARS_PREFIX
                               ++ Str.substr str (q + skip + 1)
                                    (len - skip - 2))
                              st tm))) as [Hsub _].
      by apply Hsub.
    + apply list_elem_of_singleton in Hn as ->.
      apply join_delayed_keys. by apply join_delayed_keys.
  - apply list_elem_of_singleton in Hn as ->.
    by apply join_delayed_keys.
Qed.

Lemma join_scan_grows (fuel : nat) (k str : string) (pos : nat)
    (st st' : EixRc * gset string) (hr hr' : gset string) :
  join_scan EIX_VARS_PREFIX DIFF_EIX_VARS_PREFIX full fuel w tm k str pos st
    hr = JoinDone (st', hr') ->
  hr ⊆ hr'.
Proof.
  revert pos st hr.
  induction fuel as [|fuel IH]; intros pos st hr; [discriminate|].
  cbn [join_scan]. destruct (find_next_delayed str pos) as [[ty p] len].
  destruct ty; try (by apply IH);
    try (cbv zeta; destruct (join_names _ _ _ _ _ _ _ _ _) as [st1 valid];
         destruct valid; [|discriminate];
         intros H; apply IH in H; set_solver).
  intros H. by injection H as <- <-.
Qed.

(** A scan that comes to its end has reached every directive that refers
    to a key: it has put the option's key into [has_reference] and joined
    the keys that the directive names. *)
Lemma join_scan_closure (fuel : nat) (k str : string) (pos : nat)
    (st st' : EixRc * gset string) (hr hr' : gset string)
    (q : nat) (ty : DelayedType) (len : nat) :
  join_scan EIX_VARS_PREFIX DIFF_EIX_VARS_PREFIX full fuel w tm k str pos st
    hr = JoinDone (st', hr') ->
  keys_ok st -> pos <= q ->
  directive_at str q = Some (ty, len) -> refers ty ->
  k ∈ hr'
  /\ forall n,
       n ∈ joined_names EIX_VARS_PREFIX DIFF_EIX_VARS_PREFIX str ty q len ->
       n ∈ st'.2.
Proof.
  intros Hscan Hkeys Hle Hd Hrefers. revert pos st hr Hscan Hkeys Hle.
  induction fuel as [|fuel IH]; intros pos st hr Hscan Hkeys Hle;
    [discriminate|].
  cbn [join_scan] in Hscan.
  destruct (find_next_delayed_cases str pos)
    as [[_ Hnone]|(ty0 & p & len0 & E & Hty0 & Hp & Hd0 & Hmin)].
  { rewrite Hnone in Hd by done. done. }
  rewrite E in Hscan.
  assert (p <= q) as Hpq.
  { destruct (decide (p <= q)) as [|Hn]; [done|].
    rewrite Hmin in Hd by lia. done. }
  destruct (directive_at_span _ _ _ _ Hd0) as [Hlen0 _].
  assert (Hjoin : forall k' st0, keys_ok st0 ->
            keys_ok (join_delayed w k' st0 tm)).
  { intros k' st0 H0. by apply join_delayed_keys. }
  assert (Hmore : forall st1 hr1 n,
    join_scan EIX_VARS_PREFIX DIFF_EIX_VARS_PREFIX full fuel w tm k str
      (p + len0) st1 hr1 = JoinDone (st', hr') ->
    n ∈ st1.2 -> n ∈ st'.2).
  { intros st1 hr1 n H Hn.
    apply (join_scan_inv _ _ _ _ _ (joined_more st1)) in H as [Hsub _];
      [by apply Hsub| |apply joined_more_refl].
    intros k' st0 H0. by apply join_delayed_more. }
  destruct (decide (p = q)) as [->|Hne].
  - rewrite Hd in Hd0. injection Hd0 as <- <-.
    assert (Hstep : forall skip,
      skip = (if bool_decide (ty = DelayedVariable) then 2 else 3) ->
      (let '(st0, valid) :=
         join_names EIX_VARS_PREFIX DIFF_EIX_VARS_PREFIX full w tm str
           (q + skip) (len - skip) st in
       if valid
       then join_scan EIX_VARS_PREFIX DIFF_EIX_VARS_PREFIX full fuel w tm k
              str (q + skip + (len - skip)) st0 ({[k]} ∪ hr)
       else JoinDangling) = JoinDone (st', hr') ->
      k ∈ hr'
      /\ forall n,
           n ∈ joined_names EIX_VARS_PREFIX DIFF_EIX_VARS_PREFIX str ty q len ->
           n ∈ st'.2).
    { clear Hscan. intros skip Hskip Hnext.
      pose proof (join_names_joined str ty q len st skip Hskip Hkeys) as Hj.
      destruct (join_names _ _ _ _ _ _ _ _ _) as [st1 valid].
      cbv beta iota in Hnext.
      destruct valid; [|discriminate]. cbn [fst] in Hj.
      assert (q + skip + (len - skip) = q + len) as Epos.
      { subst skip. destruct (bool_decide _); lia. }
      rewrite Epos in Hnext. split.
      - apply join_scan_grows in Hnext. set_solver.
      - intros n Hn. eapply Hmore; [exact Hnext|]. by apply Hj. }
    destruct Hrefers as [->|[->| ->]].
    + apply (Hstep 2); [done|exact Hscan].
    + apply (Hstep 3); [done|exact Hscan].
    + apply (Hstep 3); [done|exact Hscan].
  - assert (p + len0 <= q) as Hapart.
    { eapply directives_apart; [exact Hd0|exact Hd|lia]. }
    assert (Hgo : forall st1 hr1, keys_ok st1 ->
      join_scan EIX_VARS_PREFIX DIFF_EIX_VARS_PREFIX full fuel w tm k str
        (p + len0) st1 hr1 = JoinDone (st', hr') ->
      k ∈ hr'
      /\ forall n,
           n ∈ joined_names EIX_VARS_PREFIX DIFF_EIX_VARS_PREFIX str ty q len ->
           n ∈ st'.2).
    { intros st1 hr1 H1 Hnext. by eapply IH. }
    assert (Hpass : forall skip, skip <= len0 ->
      (let '(st0, valid) :=
         join_names EIX_VARS_PREFIX DIFF_EIX_VARS_PREFIX full w tm str
           (p + skip) (len0 - skip) st in
       if valid
       then join_scan EIX_VARS_PREFIX DIFF_EIX_VARS_PREFIX full fuel w tm k
              str (p + skip + (len0 - skip)) st0 ({[k]} ∪ hr)
       else JoinDangling) = JoinDone (st', hr') ->
      k ∈ hr'
      /\ forall n,
           n ∈ joined_names EIX_VARS_PREFIX DIFF_EIX_VARS_PREFIX str ty q len ->
           n ∈ st'.2).
    { clear Hscan. intros skip Hskip Hnext.
      pose proof (join_names_inv EIX_VARS_PREFIX DIFF_EIX_VARS_PREFIX full w
                    tm keys_ok str (p + skip) (len0 - skip) st Hjoin Hkeys)
        as Hk1.
      destruct (join_names _ _ _ _ _ _ _ _ _) as [st1 valid].
      cbv beta iota in Hnext.
      destruct valid; [|discriminate]. cbn [fst] in Hk1.
      replace (p + skip + (len0 - skip)) with (p + len0) in Hnext by lia.
      by eapply Hgo. }
    destruct ty0; try done.
    + apply (Hpass 2); [lia|exact Hscan].
    + apply (Hpass 3); [lia|exact Hscan].
    + apply (Hpass 3); [lia|exact Hscan].
    + by eapply Hgo.
    + by eapply Hgo.
Qed.

(** A directive that names a key which is not known, met while the vector
    is full: [join_delayed] appends, the options are moved, and the next
    round reads [str], which dangles. *)
Lemma join_scan_dangles (fuel : nat) (k str : string) (pos : nat)
    (st : EixRc * gset string) (hr : gset string)
    (ty : DelayedType) (p len : nat) :
  find_next_delayed str pos = (ty, p, len) -> refers ty ->
  full (length (defaults st.1)) = true ->
  (exists n,
     n ∈ joined_names EIX_VARS_PREFIX DIFF_EIX_VARS_PREFIX str ty p len
     /\ (n ∉ st.2)) ->
  join_scan EIX_VARS_PREFIX DIFF_EIX_VARS_PREFIX full (S fuel) w tm k str pos
    st hr = JoinDangling.
Proof.
  intros E Hr Hfull (n & Hn & Hnew). cbn [join_scan]. rewrite E.
  assert (Hstep : forall skip,
    skip = (if bool_decide (ty = DelayedVariable) then 2 else 3) ->
    (join_names EIX_VARS_PREFIX DIFF_EIX_VARS_PREFIX full w tm str
       (p + skip) (len - skip) st).2 = false).
  { intros skip Hskip. unfold joined_names in Hn. rewrite <- Hskip in Hn.
    unfold join_names, keeps_references.
    destruct (Ascii.eqb (Str.at_ str (p + skip)) "*"); cbn [snd].
    - rewrite Hfull. cbn [negb]. rewrite !orb_false_r.
      destruct (decide (EIX_VARS_PREFIX
                        ++ Str.substr str (p + skip + 1) (len - skip - 2)
                        ∈ st.2)) as [Hin|Hin].
      + rewrite (bool_decide_eq_true_2 _ Hin). cbn [andb].
        assert (join_delayed w
                  (EIX_VARS_PREFIX
                   ++ Str.substr str (p + skip + 1) (len - skip - 2)) st tm
                = st) as ->.
        { unfold join_delayed. destruct st as [r0 dk]. cbn [snd] in Hin.
          by rewrite decide_True. }
        rewrite Hfull. cbn [negb]. rewrite orb_false_r.
        apply bool_decide_eq_false_2.
        apply elem_of_cons in Hn as [->|Hn]; [done|].
        by apply list_elem_of_singleton in Hn as ->.
      + by rewrite (bool_decide_eq_false_2 _ Hin).
    - rewrite Hfull. cbn [negb]. rewrite orb_false_r.
      apply bool_decide_eq_false_2.
      by apply list_elem_of_singleton in Hn as ->. }
  destruct Hr as [->|[->| ->]].
  - change (bool_decide (DelayedVariable = DelayedVariable)) with true.
    cbv iota zeta. specialize (Hstep 2 eq_refl).
    destruct (join_names _ _ _ _ _ _ _ _ _) as [st1 valid].
    cbn [snd] in Hstep. by subst valid.
  - change (bool_decide (DelayedIf = DelayedVariable)) with false.
    cbv iota zeta. specialize (Hstep 3 eq_refl).
    destruct (join_names _ _ _ _ _ _ _ _ _) as [st1 valid].
    cbn [snd] in Hstep. by subst valid.
  - change (bool_decide (DelayedNotif = DelayedVariable)) with false.
    cbv iota zeta. specialize (Hstep 3 eq_refl).
    destruct (join_names _ _ _ _ _ _ _ _ _) as [st1 valid].
    cbn [snd] in Hstep. by subst valid.
Qed.

Lemma join_loop_grows (fuel : nat) (i : nat)
    (st : EixRc * gset string) (hr : gset string)
    (r' : EixRc) (hr' : gset string) :
  join_loop EIX_VARS_PREFIX DIFF_EIX_VARS_PREFIX full fuel w tm i st hr
    = JoinDone (r', hr') ->
  hr ⊆ hr'.
Proof.
  revert i st hr.
  induction fuel as [|fuel IH]; intros i st hr; [discriminate|].
  cbn [join_loop]. destruct (defaults st.1 !! i) as [o|].
  - destruct (join_scan _ _ _ _ _ _ _ _ _ _ _) as [[st1 hr1]| |] eqn:E;
      [|discriminate..].
    intros H. apply IH in H. apply join_scan_grows in E. set_solver.
  - intros H. by injection H as <- <-.
Qed.

(** The loop over the options reaches every referring directive of every
    option from [i] on, those that it adds included. *)
Lemma join_loop_closure (fuel : nat) (i : nat)
    (st : EixRc * gset string) (hr : gset string)
    (r' : EixRc) (hr' : gset string) :
  join_loop EIX_VARS_PREFIX DIFF_EIX_VARS_PREFIX full fuel w tm i st hr
    = JoinDone (r', hr') ->
  keys_ok st ->
  forall j o q ty len, i <= j -> defaults r' !! j = Some o ->
    directive_at (local_value o) q = Some (ty, len) -> refers ty ->
    key o ∈ hr'
    /\ forall n,
         n ∈ joined_names EIX_VARS_PREFIX DIFF_EIX_VARS_PREFIX
               (local_value o) ty q len ->
         n ∈ key <$> defaults r'.
Proof.
  revert i st hr.
  induction fuel as [|fuel IH]; intros i st hr Hloop Hkeys; [discriminate|].
  cbn [join_loop] in Hloop.
  destruct (defaults st.1 !! i) as [o|] eqn:Eo.
  - destruct (join_scan _ _ _ _ _ _ _ _ _ _ _) as [[st1 hr1]| |] eqn:E;
      [|discriminate..].
    assert (keys_ok st1) as Hkeys1.
    { apply (join_scan_inv _ _ _ _ _ keys_ok) in E; [done| |done].
      intros k' st0 H0. by apply join_delayed_keys. }
    intros j o' q ty len Hj Ho' Hd Hr.
    destruct (decide (j = i)) as [->|Hne].
    + pose proof Hloop as Hloop'.
      apply (join_loop_inv _ _ _ _ _
               (fun s => joined_more st s /\ keys_ok s)) in Hloop'
        as (dk' & [_ Hpre] & Hk');
        [| |split; [|done]].
      2:{ intros k' st0 [H0 H1]. split; [|by apply join_delayed_keys].
          by apply join_delayed_more. }
      2:{ apply (join_scan_inv _ _ _ _ _ (joined_more st)) in E;
            [done| |apply joined_more_refl].
          intros k' st0 H0. by apply join_delayed_more. }
      cbn [fst snd] in Hpre, Hk'.
      assert (o' = o) as ->.
      { pose proof (prefix_lookup_Some _ _ _ _ Eo Hpre) as H.
        rewrite Ho' in H. by injection H. }
      destruct (join_scan_closure _ _ _ _ _ _ _ _ _ _ _ E Hkeys
                  ltac:(lia) Hd Hr) as [Hin Hnames].
      split.
      * apply join_loop_grows in Hloop. set_solver.
      * intros n Hn. specialize (Hnames n Hn).
        apply (join_loop_inv _ _ _ _ _
                 (fun s => joined_more st1 s /\ keys_ok s)) in Hloop
          as (dk2 & [[Hsub _] Hk2]);
          [| |split; [apply joined_more_refl|done]].
        2:{ intros k' st0 [H0 H1]. split; [|by apply join_delayed_keys].
            by apply join_delayed_more. }
        cbn [fst snd] in Hsub, Hk2. unfold keys_ok in Hk2. cbn [fst snd] in Hk2.
        apply Hsub in Hnames. rewrite Hk2 in Hnames.
        by apply elem_of_list_to_set in Hnames.
    + eapply (IH (S i)); [exact Hloop|done| |exact Ho'|exact Hd|exact Hr]. lia.
  - injection Hloop as <- <-.
    intros j o' q ty len Hj Ho'.
    pose proof (lookup_lt_Some _ _ _ Ho').
    pose proof (lookup_ge_None_1 _ _ Eo). lia.
Qed.

End Closure.

Lemma set_new_values_varprefix (tm : gmap string string) (r : EixRc) :
  varprefix (set_new_values tm r) = varprefix r.
Proof.
  unfold set_new_values. cbn [varprefix with_defaults].
  generalize ((fun o => with_local_value o (default "" (tm !! key o)))
                <$> defaults r) as d.
  intros d. revert r. induction d as [|o d IH]; intros r; [done|].
  cbn [foldl]. by rewrite IH.
Qed.

(** The key that the resolver asks for at a directive is one of those that
    [read_undelayed] joins there, when the prefix is the same. *)
Lemma referenced_name_joined (P1 P2 : string) (r : EixRc) (v : string)
    (ty : DelayedType) (p len : nat) :
  refers ty -> varprefix r = P1 ->
  referenced_name r v ty p len ∈ joined_names P1 P2 v ty p len.
Proof.
  intros Hr <-. unfold referenced_name, joined_names.
  destruct Hr as [->|[->| ->]]; cbn [bool_decide decide_rel orb].
  - change (bool_decide (DelayedVariable = DelayedIf)) with false.
    change (bool_decide (DelayedVariable = DelayedNotif)) with false.
    change (bool_decide (DelayedVariable = DelayedVariable)) with true.
    cbv iota. cbn [orb].
    replace (p + 2 + 1) with (S (p + 2)) by lia.
    replace (len - 2 - 2) with (len - 3 - 1) by lia.
    replace (len - 2 - 1) with (len - 3) by lia.
    destruct (Ascii.eqb _ _); set_solver.
  - change (bool_decide (DelayedIf = DelayedIf)) with true.
    change (bool_decide (DelayedIf = DelayedVariable)) with false.
    cbv iota. cbn [orb].
    replace (p + 3) with (S (p + 2)) by lia.
    replace (S (p + 2) + 1) with (S (S (p + 2))) by lia.
    replace (len - 3 - 2) with (len - 3 - 1 - 1) by lia.
    destruct (Ascii.eqb _ _); set_solver.
  - change (bool_decide (DelayedNotif = DelayedIf)) with false.
    change (bool_decide (DelayedNotif = DelayedNotif)) with true.
    change (bool_decide (DelayedNotif = DelayedVariable)) with false.
    cbv iota. cbn [orb].
    replace (p + 3) with (S (p + 2)) by lia.
    replace (S (p + 2) + 1) with (S (S (p + 2))) by lia.
    replace (len - 3 - 2) with (len - 3 - 1 - 1) by lia.
    destruct (Ascii.eqb _ _); set_solver.
Qed.

(** X24: a [read_undelayed] that returns leaves the options closed under
    references: for every option, those added by [join_delayed] included,
    the stored local value is the value in the map, and at every directive
    of it that refers to a key the option's key is in [has_reference] and
    the keys that the directive names have been joined, so that they are
    keys of options; with [varprefix] equal to the first prefix the key
    that [resolve_delayed_recurse] will ask for at that directive is one of
    them.  It does not return when a directive names a key that is not
    known while the vector is full: the scan of that value ends at the read
    of the reference that dangles. *)
Theorem options_closed_under_references (P1 P2 : string) (full : nat -> bool)
    (fuel : nat) (w : World) (r : EixRc) (hr : gset string)
    (r' : EixRc) (hr' : gset string) (warnings : list string) :
  read_undelayed P1 P2 full fuel w r hr = JoinDone (r', hr', warnings) ->
  varprefix r' = varprefix r
  /\ (forall o, o ∈ defaults r' ->
        local_value o = get r' (key o)
        /\ forall q ty len,
             directive_at (local_value o) q = Some (ty, len) -> refers ty ->
             key o ∈ hr'
             /\ (forall n, n ∈ joined_names P1 P2 (local_value o) ty q len ->
                   n ∈ key <$> defaults r')
             /\ (varprefix r = P1 ->
                 referenced_name r' (local_value o) ty q len
                 ∈ key <$> defaults r'))
  /\ (forall tm m k str pos st hr0 ty p len,
        find_next_delayed str pos = (ty, p, len) -> refers ty ->
        full (length (defaults st.1)) = true ->
        (exists n, n ∈ joined_names P1 P2 str ty p len /\ (n ∉ st.2)) ->
        join_scan P1 P2 full (S m) w tm k str pos st hr0 = JoinDangling).
Proof.
  unfold read_undelayed.
  rewrite (surjective_pairing (layered_tempmap w r)). cbv beta iota.
  destruct (join_loop _ _ _ _ _ _ _ _ _) as [[r2 hr2]| |] eqn:E;
    [|discriminate..].
  intros H. injection H as <- <- <-.
  assert (keys_ok (set_new_values (layered_tempmap w r).1 r,
                   list_to_set (key <$> defaults r))) as Hkeys.
  { unfold keys_ok. cbn [fst snd]. by rewrite set_new_values_keys. }
  pose proof E as E1.
  apply (join_loop_inv _ _ _ _ _
           (fun st => varprefix st.1 = varprefix r)) in E1 as [dk0 Hp].
  2:{ intros k st Hst. by rewrite join_delayed_varprefix. }
  2:{ apply set_new_values_varprefix. }
  cbn [fst] in Hp. split_and!; [done| |].
  - intros o Ho. split.
    + pose proof E as E2.
      apply (join_loop_inv _ _ _ _ _ (joined_ok w (layered_tempmap w r).1))
        in E2 as (dk' & Hget & Hk).
      * destruct (Hk o Ho) as [Hin Hl]. cbn [fst snd] in *.
        by rewrite (Hget _ Hin), <- Hl.
      * intros. by apply join_delayed_ok.
      * apply set_new_values_ok.
    + intros q ty len Hd Hr.
      apply list_elem_of_lookup_1 in Ho as [j Hj].
      destruct (join_loop_closure _ _ _ _ _ _ _ _ _ _ _ E Hkeys j o q ty len
                  ltac:(lia) Hj Hd Hr) as [Hin Hnames].
      split_and!; [done|done|].
      intros Hpre. apply Hnames. apply referenced_name_joined; [done|].
      by rewrite Hp.
  - intros tm m k str pos st hr0 ty p len Hfind Hr Hfull Hn.
    by apply (join_scan_dangles P1 P2 full w tm m k str pos st hr0 ty p len).
Qed.

Lemma options_closed_under_references_witness :
  exists r' hr' warnings,
    read_undelayed "EIX_" "DIFF_" (full_at 4) 5 empty_world
      (example_config [("K", "%{A}%{B}")]) ∅
    = JoinDone (r', hr', warnings)
    /\ varprefix r' = "EIX_"
    /\ key <$> defaults r' = ["K"; "A"; "B"]
    /\ read_undelayed "EIX_" "DIFF_" (full_at 1) 5 empty_world
         (example_config [("K", "%{A}%{B}")]) ∅
       = JoinDangling.
Proof.
  destruct (read_undelayed "EIX_" "DIFF_" (full_at 4) 5 empty_world
              (example_config [("K", "%{A}%{B}")]) ∅)
    as [[[r' hr'] ws]| |] eqn:E; [|vm_compute in E; discriminate..].
  exists r', hr', ws. split; [done|].
  destruct (options_closed_under_references _ _ _ _ _ _ _ _ _ _ E)
    as [H _].
  split; [exact H|].
  split; [|vm_compute; reflexivity].
  vm_compute in E. injection E as <- _ _. reflexivity.
Defined.

(** * Keyword lists *)

(** The loop takes the items in turn: a list in two parts is the second
    part run on what the first part leaves. *)
Lemma resolve_plus_minus_app (l1 l2 : list string) (s : gset string)
    (wi : option (gset string)) (m : bool) (cerr : list string) :
  resolve_plus_minus_loop s (l1 ++ l2) wi m cerr
  = let '(s1, m1, c1) := resolve_plus_minus_loop s l1 wi m cerr in
    resolve_plus_minus_loop s1 l2 wi m1 c1.
Proof.
  revert s m cerr. induction l1 as [|it l1 IH]; intros s m cerr.
  - cbn [app resolve_plus_minus_loop]. done.
  - cbn [app resolve_plus_minus_loop].
    destruct (String.eqb it ""); [apply IH|].
    destruct (Ascii.eqb (Str.at_ it 0) "+"); [apply IH|].
    destruct (Ascii.eqb (Str.at_ it 0) "-"); [|apply IH].
    destruct (String.eqb it "-*"); [apply IH|].
    destruct (decide _); apply IH.
Qed.

(** The set that the loop leaves does not depend on the flag or on the
    lines written so far. *)
Lemma resolve_plus_minus_set (l : list string) (s : gset string)
    (wi : option (gset string)) (m m' : bool) (cerr cerr' : list string) :
  (resolve_plus_minus_loop s l wi m cerr).1.1
  = (resolve_plus_minus_loop s l wi m' cerr').1.1.
Proof.
  revert s m m' cerr cerr'. induction l as [|it l IH]; intros s m m' cerr cerr'.
  - done.
  - cbn [resolve_plus_minus_loop].
    destruct (String.eqb it ""); [apply IH|].
    destruct (Ascii.eqb (Str.at_ it 0) "+"); [apply IH|].
    destruct (Ascii.eqb (Str.at_ it 0) "-"); [|apply IH].
    destruct (String.eqb it "-*"); [apply IH|].
    destruct (decide _); apply IH.
Qed.

(** The flag only rises. *)
Lemma resolve_plus_minus_flag (l : list string) (s : gset string)
    (wi : option (gset string)) (cerr : list string) :
  (resolve_plus_minus_loop s l wi true cerr).1.2 = true.
Proof.
  revert s cerr. induction l as [|it l IH]; intros s cerr.
  - done.
  - cbn [resolve_plus_minus_loop].
    destruct (String.eqb it ""); [apply IH|].
    destruct (Ascii.eqb (Str.at_ it 0) "+"); [apply IH|].
    destruct (Ascii.eqb (Str.at_ it 0) "-"); [|apply IH].
    destruct (String.eqb it "-*"); [apply IH|].
    destruct (decide _); [apply IH|].
    destruct wi as [ig|]; [|apply IH].
    destruct (decide _); apply IH.
Qed.

(** X25: [-*] starts afresh: the set that [resolve_plus_minus] leaves is
    the one that the items after the last [-*] give on the empty set,
    whatever the set held before and whatever the items before say; the
    result is still true if an item before has made it true. *)
Theorem star_forgets_what_came_before (s : gset string) (l1 l2 : list string)
    (wi : option (gset string)) :
  (resolve_plus_minus s (l1 ++ "-*" :: l2) wi).1.1
  = (resolve_plus_minus ∅ l2 wi).1.1
  /\ ((resolve_plus_minus s l1 wi).1.2 = true ->
      (resolve_plus_minus s (l1 ++ "-*" :: l2) wi).1.2 = true).
Proof.
  unfold resolve_plus_minus. rewrite resolve_plus_minus_app.
  destruct (resolve_plus_minus_loop s l1 wi false []) as [[s1 m1] c1].
  cbn [resolve_plus_minus_loop String.eqb Ascii.eqb Str.at_ fst snd].
  change (String.eqb "-*" "") with false.
  change (Ascii.eqb (Str.at_ "-*" 0) "+") with false.
  change (Ascii.eqb (Str.at_ "-*" 0) "-") with true.
  change (String.eqb "-*" "-*") with true. cbv iota.
  split.
  - apply resolve_plus_minus_set.
  - intros ->. apply resolve_plus_minus_flag.
Qed.

Lemma star_forgets_what_came_before_witness :
  (resolve_plus_minus {["x86"]} (["-arm"] ++ "-*" :: ["amd64"]) None).1.2
  = true.
Proof.
  apply (star_forgets_what_came_before {["x86"]} ["-arm"] ["amd64"] None).
  reflexivity.
Defined.

Lemma plain_loop (l : list string) (s : gset string)
    (wi : option (gset string)) (m : bool) (cerr : list string) :
  Forall (fun it => plain_keyword it = true) l ->
  resolve_plus_minus_loop s l wi m cerr = (list_to_set l ∪ s, m, cerr).
Proof.
  intros Hl. revert s. induction Hl as [|it l Hit Hl IH]; intros s.
  - cbn [resolve_plus_minus_loop list_to_set]. f_equal. f_equal. set_solver.
  - cbn [resolve_plus_minus_loop list_to_set].
    unfold plain_keyword in Hit.
    apply andb_true_iff in Hit as [[H1 H2]%andb_true_iff H3].
    apply negb_true_iff in H1, H2, H3. rewrite H1, H2, H3, IH.
    f_equal. f_equal. set_solver.
Qed.

(** X26: a keyword and its removal: after plain keywords (not empty, not
    beginning with [+] or [-]) have been added, [-key] for one of them
    removes it and does not make the result true, while [-key] for a key
    that is not in the set adds the item [-key] itself and makes the result
    true unless the key is in [warnignore]. *)
Theorem minus_removes_or_is_kept (s : gset string) (l : list string)
    (key : string) (wi : option (gset string)) :
  Forall (fun it => plain_keyword it = true) l ->
  String.append "-" key <> "-*" -> String.append "-" key <> "-~*" ->
  let res := resolve_plus_minus s (l ++ [String.append "-" key]) wi in
  if decide (key ∈ list_to_set l ∪ s)
  then res = ((list_to_set l ∪ s) ∖ {[key]}, false, [])
  else res = ({[String.append "-" key]} ∪ (list_to_set l ∪ s),
              match wi with
              | Some ig => if decide (key ∈ ig) then false else true
              | None => true
              end, []).
Proof.
  intros Hl Hstar Htilde res. unfold res, resolve_plus_minus.
  rewrite resolve_plus_minus_app, plain_loop by done.
  cbn [resolve_plus_minus_loop].
  change (String.append "-" key) with (String "-" key) in *.
  change (String.eqb (String "-" key) "") with false.
  change (Ascii.eqb (Str.at_ (String "-" key) 0) "+") with false.
  change (Ascii.eqb (Str.at_ (String "-" key) 0) "-") with true.
  cbv iota.
  destruct (String.eqb_spec (String "-" key) "-*") as [|_]; [done|].
  destruct (String.eqb_spec (String "-" key) "-~*") as [|_]; [done|].
  change (Str.substr_from (String "-" key) 1) with (Str.substr_from (String "-" key) 1).
  rewrite substr_from_cons, substr_from_0.
  by destruct (decide (key ∈ list_to_set l ∪ s)).
Qed.

Lemma minus_removes_or_is_kept_witness :
  resolve_plus_minus ∅ (["x86"; "amd64"] ++ [String.append "-" "x86"]) None
  = ((list_to_set ["x86"; "amd64"] ∪ ∅) ∖ {["x86"]}, false, []).
Proof.
  pose proof (minus_removes_or_is_kept ∅ ["x86"; "amd64"] "x86" None) as H.
  cbv zeta in H. rewrite decide_True in H by set_solver.
  apply H.
  - repeat constructor.
  - discriminate.
  - discriminate.
Defined.

(** * The string hash *)

Lemma insert_sorted_perm (k : string) (l : list string) :
  insert_sorted k l ≡ₚ k :: l.
Proof.
  induction l as [|x l IH]; [done|]. cbn [insert_sorted].
  destruct (String.leb k x); [done|]. rewrite IH. apply Permutation_swap.
Qed.

Lemma sorted_keys_perm (m : gmap string nat) :
  sorted_keys m ≡ₚ elements (dom m).
Proof.
  unfold sorted_keys. induction (elements (dom m)) as [|x l IH]; [done|].
  cbn [foldr]. by rewrite insert_sorted_perm, IH.
Qed.

Lemma sorted_keys_NoDup (m : gmap string nat) : NoDup (sorted_keys m).
Proof. rewrite sorted_keys_perm. apply NoDup_elements. Qed.

Lemma sorted_keys_elem (m : gmap string nat) (k : string) :
  k ∈ sorted_keys m <-> k ∈ dom m.
Proof. rewrite sorted_keys_perm. apply elem_of_elements. Qed.

(** The loop of [finalize] over keys without repetition: the vector is
    the keys in their order, and the map gives each key its index. *)
Lemma finalize_loop (keys : list string) (h : StringHash) :
  NoDup keys -> strings h = [] ->
  let h' := foldl finalize_step h keys in
  strings h' = keys /\ hashing h' = hashing h /\ finalized h' = finalized h
  /\ dom (str_map h') = dom (str_map h) ∪ list_to_set keys
  /\ forall i k, keys !! i = Some k -> str_map h' !! k = Some i.
Proof.
  intros Hnd Hempty. induction keys as [|k keys IH] using rev_ind.
  - cbn [foldl]. split_and!; try done. set_solver.
  - apply NoDup_app in Hnd as (Hnd & Hnot & _).
    destruct (IH Hnd) as (Hs & Hh & Hf & Hdom & Hidx).
    rewrite foldl_app. cbn [foldl].
    cbn [finalize_step strings hashing finalized str_map].
    split_and!; try done.
    + by rewrite Hs.
    + rewrite dom_insert_L, Hdom, list_to_set_app_L. set_solver.
    + intros i k' Hi. rewrite Hs.
      destruct (decide (i < length keys)) as [Hlt|Hge].
      * rewrite lookup_app_l in Hi by done.
        rewrite lookup_insert_ne; [by apply Hidx|].
        intros ->. apply (Hnot k'); [by eapply list_elem_of_lookup_2|set_solver].
      * rewrite lookup_app_r in Hi by lia.
        destruct (i - length keys) as [|n] eqn:E; [|by destruct n].
        injection Hi as <-. replace i with (length keys) by lia.
        by rewrite lookup_insert_eq.
Qed.

Lemma hashed_strings_final (h : StringHash) :
  finalized h = false -> hashing h = true -> finalized (finalize h) = true.
Proof.
  intros Hf Hh. unfold finalize. rewrite Hf. cbn [hashing negb].
  rewrite Hh. cbn [negb finalized str_map].
  by destruct (finalize_loop (sorted_keys (str_map h))
                 {| strings := []; hashing := true; finalized := true;
                    str_map := str_map h |}
                 (sorted_keys_NoDup _) eq_refl) as (_ & _ & ? & _).
Qed.

(** X27: the round trip of the string hash: after [finalize] of a hash
    that is in hash mode, the vector holds the hashed strings, each once;
    [get_index] of a hashed string gives the index at which [operator[]]
    gives the string back, and [operator[]] at an index below the size
    gives a string whose index is that one; an index from the size on and a
    string that was not hashed end the program; finalizing again changes
    nothing. *)
Theorem hashed_strings_round_trip (h : StringHash) :
  finalized h = false -> hashing h = true ->
  let h' := finalize h in
  NoDup (strings h')
  /\ (forall s, s ∈ strings h' <-> s ∈ dom (str_map h))
  /\ (forall s, s ∈ dom (str_map h) ->
        exists i, get_index h' s = Ok i /\ hash_at h' i = Ok s)
  /\ (forall i, i < length (strings h') ->
        exists s, hash_at h' i = Ok s /\ get_index h' s = Ok i)
  /\ (forall i, length (strings h') <= i ->
        hash_at h' i = Exited "Database corrupt: Nonexistent hash required")
  /\ (forall s, s ∉ dom (str_map h) ->
        get_index h' s
        = Exited "Internal error: Trying to shortcut non-hashed string.")
  /\ finalize h' = h'.
Proof.
  intros Hf Hh h'. unfold h', finalize. rewrite Hf. cbn [hashing negb].
  rewrite Hh. cbn [negb finalized str_map].
  pose proof (finalize_loop (sorted_keys (str_map h))
                {| strings := []; hashing := true; finalized := true;
                   str_map := str_map h |}
                (sorted_keys_NoDup _) eq_refl) as H.
  cbv zeta in H. cbn [strings hashing finalized str_map] in H.
  destruct H as (Hs & _ & Hfin & Hdom & Hidx).
  set (g := foldl finalize_step _ _) in *.
  split_and!.
  - rewrite Hs. apply sorted_keys_NoDup.
  - intros s. rewrite Hs. apply sorted_keys_elem.
  - intros s Hin. apply sorted_keys_elem in Hin.
    apply list_elem_of_lookup_1 in Hin as [i Hi].
    exists i. unfold get_index, hash_at. rewrite Hfin. cbn [negb].
    by rewrite (Hidx _ _ Hi), Hs, Hi.
  - intros i Hi. rewrite Hs in Hi.
    destruct (lookup_lt_is_Some_2 _ _ Hi) as [s Hsi].
    exists s. unfold get_index, hash_at. rewrite Hfin. cbn [negb].
    by rewrite (Hidx _ _ Hsi), Hs, Hsi.
  - intros i Hi. unfold hash_at. by rewrite lookup_ge_None_2.
  - intros s Hnot. unfold get_index. rewrite Hfin. cbn [negb].
    assert (str_map g !! s = None) as ->; [|done].
    apply not_elem_of_dom. rewrite Hdom.
    intros [?|Hin%elem_of_list_to_set]%elem_of_union; [done|].
    by apply sorted_keys_elem in Hin.
  - by rewrite Hfin.
Qed.

Lemma hashed_strings_round_trip_witness :
  let h := {| strings := ["x"]; hashing := true; finalized := false;
              str_map := {["b" := 0; "a" := 0]} |} in
  NoDup (strings (finalize h)) /\ finalize (finalize h) = finalize h.
Proof.
  intros h.
  destruct (hashed_strings_round_trip h) as (H1 & _ & _ & _ & _ & _ & H7);
    [reflexivity|reflexivity|].
  by split.
Defined.

(** X28: before [finalize], in hash mode, [hash_words] does not end the
    program: it adds the words to the hashed strings, each once however
    often it occurs, and leaves the vector alone; after [finalize] both
    [hash_string] and [store_string] end the program, and before it
    [get_index] does. *)
Theorem hashing_only_before_finalize (h : StringHash) (v : list string) :
  finalized h = false -> hashing h = true ->
  (exists h1, hash_words h v = Ok h1
     /\ dom (str_map h1) = dom (str_map h) ∪ list_to_set v
     /\ finalized h1 = false /\ hashing h1 = true
     /\ strings h1 = strings h)
  /\ (forall s,
        hash_string (finalize h) s
        = Exited "Internal error: Hashing required after finalizing"
        /\ store_string (finalize h) s
           = Exited "Internal error: Storing required after finalizing"
        /\ get_index h s
           = Exited "Internal error: Index required before sorting.").
Proof.
  intros Hf Hh. split.
  - revert h Hf Hh. induction v as [|s v IH]; intros h Hf Hh.
    + exists h. split_and!; try done. set_solver.
    + destruct h as [st hs fn sm]. cbn [finalized hashing] in Hf, Hh. subst.
      cbn [hash_words]. unfold hash_string.
      cbn [finalized hashing str_map strings negb].
      destruct (sm !! s) as [i|] eqn:E.
      * destruct (IH {| strings := st; hashing := true; finalized := false;
                        str_map := sm |} eq_refl eq_refl)
          as (h1 & -> & Hdom & ? & ? & ?).
        exists h1. split_and!; try done.
        apply elem_of_dom_2 in E. rewrite Hdom. cbn [str_map]. set_solver.
      * destruct (IH {| strings := st; hashing := true; finalized := false;
                        str_map := <[s := 0]> sm |} eq_refl eq_refl)
          as (h1 & -> & Hdom & ? & ? & ?).
        exists h1. split_and!; try done.
        rewrite Hdom. cbn [str_map]. rewrite dom_insert_L. set_solver.
  - intros s.
    assert (finalized (finalize h) = true) as Hfin.
    { pose proof (hashed_strings_final h Hf Hh) as H. exact H. }
    unfold hash_string, store_string, get_index. by rewrite Hfin, Hf.
Qed.

Lemma hashing_only_before_finalize_witness :
  let h := {| strings := []; hashing := true; finalized := false;
              str_map := ∅ |} in
  exists h1, hash_words h ["b"; "a"; "b"] = Ok h1
    /\ dom (str_map h1) = dom (str_map h) ∪ list_to_set ["b"; "a"; "b"]
    /\ finalized h1 = false /\ hashing h1 = true
    /\ strings h1 = strings h.
Proof.
  intros h.
  destruct (hashing_only_before_finalize h ["b"; "a"; "b"]) as [H _];
    [reflexivity|reflexivity|].
  exact H.
Defined.

(** * Splitting with escapes *)

Lemma strchr_app (a b : string) (c : ascii) :
  strchr (a ++ b) c = (strchr a c || strchr b c)%bool.
Proof.
  induction a as [|d a IH]; [by rewrite app_empty_l|].
  change (String d a ++ b) with (String d (a ++ b)). cbn [strchr].
  by rewrite IH, orb_assoc.
Qed.

Lemma strchr_special (at_ : string) (c : ascii) :
  strchr (at_ ++ "\") c = (strchr at_ c || Ascii.eqb c "\")%bool.
Proof. by rewrite strchr_app, strchr_single. Qed.

Lemma escape_chars_app (my_at a b : string) :
  escape_chars my_at (a ++ b) = escape_chars my_at a ++ escape_chars my_at b.
Proof.
  induction a as [|c a IH]; [by rewrite !app_empty_l|].
  change (String c a ++ b) with (String c (a ++ b)). cbn [escape_chars].
  rewrite IH. by destruct (strchr my_at c).
Qed.

Lemma unescaped_free (at_ w s : string) :
  free_of "\" w = true -> unescaped at_ (w ++ s) = w ++ unescaped at_ s.
Proof.
  intros Hw. induction w as [|c w IH]; [by rewrite !app_empty_l|].
  rewrite free_of_cons in Hw. apply andb_true_iff in Hw as [Hc Hw].
  apply negb_true_iff in Hc. rewrite strchr_single in Hc.
  change (String c w ++ s) with (String c (w ++ s)).
  cbn [unescaped]. rewrite Hc, IH by done. done.
Qed.

(** The loop of [erase_escapes], from the end of what is done. *)
Lemma erase_escapes_loop_told (fuel : nat) (pre s at_ : string) :
  String.length s <= fuel ->
  erase_escapes_loop fuel (pre ++ s) at_ (String.length pre)
  = pre ++ unescaped at_ s.
Proof.
  revert pre s. induction fuel as [|fuel IH]; intros pre s Hfuel.
  { destruct s; [done|simpl in Hfuel; lia]. }
  cbn [erase_escapes_loop]. rewrite find_char_app.
  pose proof (find_char_0 s "\") as Hfind.
  destruct (find_char s "\" 0) as [q|]; cbn [fmap option_fmap option_map].
  2:{ f_equal. rewrite <- (app_empty_r s) at 2.
      by rewrite unescaped_free, app_empty_r. }
  destruct Hfind as (w & rest & -> & <- & Hw).
  rewrite unescaped_free by done.
  destruct rest as [|d r].
  - replace (String.length pre + String.length w + 1
             =? String.length (pre ++ w ++ "\"))%nat with true.
    2:{ symmetry. apply Nat.eqb_eq. rewrite !str_length_app. simpl. lia. }
    cbn [unescaped]. rewrite app_empty_r.
    replace (pre ++ w ++ "\") with ((pre ++ w) ++ "\")
      by (by rewrite app_assoc_str).
    apply erase_tail; [|done]. rewrite str_length_app. lia.
  - replace (String.length pre + String.length w + 1
             =? String.length (pre ++ w ++ String "\" (String d r)))%nat
      with false.
    2:{ symmetry. apply Nat.eqb_neq. rewrite !str_length_app. simpl. lia. }
    replace (Str.at_ (pre ++ w ++ String "\" (String d r))
               (String.length pre + String.length w + 1)) with d.
    2:{ replace (pre ++ w ++ String "\" (String d r))
          with ((pre ++ w ++ "\") ++ String d r)
          by (by rewrite !app_assoc_str).
        replace (String.length pre + String.length w + 1)
          with (String.length (pre ++ w ++ "\") + 0)
          by (rewrite !str_length_app; simpl; lia).
        by rewrite at_app_r. }
    cbn [unescaped]. rewrite Ascii.eqb_refl.
    destruct (Ascii.eqb d "\" || c_strchr at_ d)%bool.
    + replace (pre ++ w ++ String "\" (String d r))
        with ((pre ++ w) ++ "\" ++ String d r)
        by (by rewrite !app_assoc_str).
      rewrite erase_mid; [|rewrite str_length_app; lia|done].
      replace ((pre ++ w) ++ String d r) with ((pre ++ w ++ String d "") ++ r)
        by (by rewrite !app_assoc_str).
      replace (String.length pre + String.length w + 1)
        with (String.length (pre ++ w ++ String d ""))
        by (rewrite !str_length_app; simpl; lia).
      rewrite IH.
      2:{ rewrite str_length_app in Hfuel. simpl in Hfuel. lia. }
      by rewrite !app_assoc_str.
    + replace (pre ++ w ++ String "\" (String d r))
        with ((pre ++ w ++ "\") ++ String d r)
        by (by rewrite !app_assoc_str).
      replace (String.length pre + String.length w + 1)
        with (String.length (pre ++ w ++ "\"))
        by (rewrite !str_length_app; simpl; lia).
      rewrite IH.
      2:{ rewrite str_length_app in Hfuel. simpl in Hfuel. simpl. lia. }
      by rewrite !app_assoc_str.
Qed.

Lemma erase_escapes_told (s at_ : string) :
  erase_escapes s at_ = unescaped at_ s.
Proof.
  pose proof (erase_escapes_loop_told (String.length s) "" s at_) as H.
  rewrite !app_empty_l in H. by apply H.
Qed.

Lemma unescaped_escape_chars (at_ t : string) :
  unescaped at_ (escape_chars (at_ ++ "\") t) = t.
Proof.
  induction t as [|c t IH]; [done|]. cbn [escape_chars].
  rewrite strchr_special.
  destruct (Ascii.eqb c "\") eqn:Hb.
  - rewrite orb_true_r. cbn [unescaped]. rewrite Ascii.eqb_refl, Hb.
    cbn [orb]. by rewrite IH.
  - rewrite orb_false_r. destruct (strchr at_ c) eqn:Hc.
    + cbn [unescaped]. rewrite Ascii.eqb_refl. unfold c_strchr.
      rewrite Hc, !orb_true_r. by rewrite IH.
    + cbn [unescaped]. rewrite Hb. by rewrite IH.
Qed.

(** X29: [erase_escapes] undoes [escape_string]: whatever the string and
    the characters of [at], erasing the escapes from the escaped string
    gives the string back. *)
Theorem erase_escapes_undoes_escape_string (s at_ : string) :
  erase_escapes (escape_string s at_) at_ = s.
Proof.
  rewrite erase_escapes_told.
  assert (escape_string s at_ = escape_chars (at_ ++ "\") s) as ->.
  { pose proof (escape_string_loop_told (String.length s) "" s (at_ ++ "\")) as H.
    rewrite !app_empty_l in H. by apply H. }
  apply unescaped_escape_chars.
Qed.

(** ** Which delimiters are escaped *)

Lemma escaped_before_prefix (a rest : string) (n : nat) (e : bool) :
  n <= String.length a ->
  escaped_before (a ++ rest) n e = escaped_before a n e.
Proof.
  revert e. induction n as [|n IH]; intros e Hn; [done|].
  cbn [escaped_before]. rewrite at_app_l by lia.
  destruct (Ascii.eqb (Str.at_ a n) "\"); [|done]. apply IH. lia.
Qed.

Lemma escaped_before_negb (a : string) (n : nat) (e : bool) :
  escaped_before a n (negb e) = negb (escaped_before a n e).
Proof.
  revert e. induction n as [|n IH]; intros e; [done|].
  cbn [escaped_before]. destruct (Ascii.eqb (Str.at_ a n) "\"); [|done].
  apply IH.
Qed.

(** Whether an odd number of backslashes ends [a]. *)
Lemma escaped_before_snoc (a : string) (c : ascii) :
  escaped_before (a ++ String c "") (String.length (a ++ String c "")) false
  = if Ascii.eqb c "\"
    then negb (escaped_before a (String.length a) false)
    else false.
Proof.
  rewrite str_length_app. cbn [String.length]. rewrite Nat.add_1_r.
  cbn [escaped_before].
  replace (String.length a) with (String.length a + 0) at 1 by lia.
  rewrite at_app_r, at_0.
  destruct (Ascii.eqb c "\"); [|done].
  rewrite escaped_before_prefix by done.
  apply (escaped_before_negb a (String.length a) false).
Qed.

(** An escaped string ends what stands before it evenly. *)
Lemma escaped_before_escape_chars (at_ t pre : string) :
  escaped_before pre (String.length pre) false = false ->
  escaped_before (pre ++ escape_chars (at_ ++ "\") t)
    (String.length (pre ++ escape_chars (at_ ++ "\") t)) false = false.
Proof.
  revert pre. induction t as [|c t IH]; intros pre Hpre.
  - cbn [escape_chars]. by rewrite app_empty_r.
  - cbn [escape_chars]. rewrite strchr_special.
    destruct (strchr at_ c || Ascii.eqb c "\")%bool eqn:Hs.
    + replace (pre ++ String "\" (String c (escape_chars (at_ ++ "\") t)))
        with (((pre ++ "\") ++ String c "") ++ escape_chars (at_ ++ "\") t)
        by (by rewrite !app_assoc_str).
      apply IH. rewrite escaped_before_snoc.
      destruct (Ascii.eqb c "\"); [|done].
      by rewrite escaped_before_snoc, Hpre.
    + apply orb_false_iff in Hs as [_ Hb].
      replace (pre ++ String c (escape_chars (at_ ++ "\") t))
        with ((pre ++ String c "") ++ escape_chars (at_ ++ "\") t)
        by (by rewrite !app_assoc_str).
      apply IH. by rewrite escaped_before_snoc, Hb.
Qed.

Lemma find_first_of_free (x y at_ : string) :
  free_of at_ x = true ->
  find_first_of (x ++ y) at_ 0
  = (fun q => String.length x + q) <$> find_first_of y at_ 0.
Proof.
  intros Hx. induction x as [|c x IH].
  - rewrite app_empty_l. by destruct (find_first_of y at_ 0).
  - rewrite free_of_cons in Hx. apply andb_true_iff in Hx as [Hc Hx].
    apply negb_true_iff in Hc.
    change (String c x ++ y) with (String c (x ++ y)).
    cbn [find_first_of]. rewrite Hc, IH by done.
    by destruct (find_first_of y at_ 0).
Qed.

Lemma escape_chars_free_of (at_ w : string) :
  strchr at_ "\" = false -> free_of at_ w = true ->
  free_of at_ (escape_chars (at_ ++ "\") w) = true.
Proof.
  intros Hb Hw. induction w as [|c w IH]; [done|].
  rewrite free_of_cons in Hw. apply andb_true_iff in Hw as [Hc Hw].
  cbn [escape_chars]. destruct (strchr (at_ ++ "\") c).
  - rewrite !free_of_cons, Hb, Hc. by apply IH.
  - rewrite free_of_cons, Hc. by apply IH.
Qed.

Lemma find_first_of_at (x : string) (c : ascii) (y at_ : string) :
  free_of at_ x = true -> strchr at_ c = true ->
  find_first_of (x ++ String c y) at_ 0 = Some (String.length x).
Proof.
  intros Hx Hc. rewrite find_first_of_free by done.
  cbn [find_first_of]. rewrite Hc. cbn [fmap option_fmap option_map].
  f_equal. lia.
Qed.

Lemma find_first_of_none (x at_ : string) :
  free_of at_ x = true -> find_first_of x at_ 0 = None.
Proof.
  intros Hx. rewrite <- (app_empty_r x), find_first_of_free by done. done.
Qed.

Lemma escape_string_told (s at_ : string) :
  escape_string s at_ = escape_chars (at_ ++ "\") s.
Proof.
  pose proof (escape_string_loop_told (String.length s) "" s (at_ ++ "\")) as H.
  rewrite !app_empty_l in H. by apply H.
Qed.

(** The escaped loop on escaped words with a delimiter between them, from
    inside a word: [t1] has been passed, [t2] is to come. *)
Lemma split_escaped_told (at_ : string) (d : ascii) (ie : bool) (fuel : nat) :
  strchr at_ d = true -> strchr at_ "\" = false ->
  forall (ts : list string) (t1 t2 pre : string) (vec : list string),
    escaped_before pre (String.length pre) false = false ->
    String.length
      (escape_chars (at_ ++ "\") t2
       ++ String.concat ""
            ((fun u => String d "" ++ escape_chars (at_ ++ "\") u) <$> ts))
    < fuel ->
    split_string_escaped_loop fuel
      (pre ++ escape_chars (at_ ++ "\") (t1 ++ t2)
       ++ String.concat ""
            ((fun u => String d "" ++ escape_chars (at_ ++ "\") u) <$> ts))
      at_ ie (String.length pre)
      (String.length (pre ++ escape_chars (at_ ++ "\") t1)) vec
    = (vec ++ emit ie (t1 ++ t2) ++ concat (emit ie <$> ts))%list.
Proof.
  intros Hd Hbs.
  assert (Ascii.eqb d "\" = false) as Hdb.
  { destruct (Ascii.eqb_spec d "\") as [->|]; [congruence|done]. }
  set (E := escape_chars (at_ ++ "\")).
  set (T := fun ts : list string =>
              String.concat "" ((fun u => String d "" ++ E u) <$> ts)).
  induction fuel as [|fuel IH]; intros ts t1 t2 pre vec Hpre Hfuel; [lia|].
  fold (T ts) in Hfuel |- *.
  cbn [split_string_escaped_loop].
  assert (pre ++ E (t1 ++ t2) ++ T ts = (pre ++ E t1) ++ E t2 ++ T ts) as Hstr.
  { unfold E. by rewrite escape_chars_app, !app_assoc_str. }
  rewrite Hstr.
  replace (String.length (pre ++ E t1))
    with (String.length (pre ++ E t1) + 0) at 1 by lia.
  rewrite find_first_of_app.
  assert (escaped_before (pre ++ E t1) (String.length (pre ++ E t1)) false
          = false) as Hpre1.
  { by apply escaped_before_escape_chars. }
  pose proof (find_first_of_0 t2 at_) as Hcase.
  destruct (find_first_of t2 at_ 0) as [q|].
  - (* a delimiter inside the word: it is escaped *)
    destruct Hcase as (w & c & t3 & -> & _ & Hw & Hc).
    assert (E (w ++ String c t3) = (E w ++ "\") ++ String c (E t3)) as HE.
    { unfold E. rewrite escape_chars_app. cbn [escape_chars].
      rewrite strchr_special, Hc. cbn [orb]. by rewrite !app_assoc_str. }
    rewrite HE.
    assert (free_of at_ (E w ++ "\") = true) as Hfree.
    { rewrite free_of_app. unfold E. rewrite escape_chars_free_of by done.
      unfold free_of. simpl. by rewrite Hbs. }
    replace (((E w ++ "\") ++ String c (E t3)) ++ T ts)
      with ((E w ++ "\") ++ String c (E t3 ++ T ts))
      by (by rewrite !app_assoc_str).
    rewrite find_first_of_at by done.
    cbn [fmap option_fmap option_map].
    replace (String.length (pre ++ E t1) + String.length (E w ++ "\"))
      with (String.length ((pre ++ E t1) ++ E w ++ "\"))
      by (by rewrite !str_length_app).
    replace ((pre ++ E t1) ++ (E w ++ "\") ++ String c (E t3 ++ T ts))
      with (((pre ++ E t1) ++ E w ++ "\") ++ String c (E t3 ++ T ts))
      by (by rewrite !app_assoc_str).
    rewrite escaped_before_prefix by done.
    assert (escaped_before ((pre ++ E t1) ++ E w ++ "\")
              (String.length ((pre ++ E t1) ++ E w ++ "\")) false = true)
      as ->.
    { replace ((pre ++ E t1) ++ E w ++ "\")
        with (((pre ++ E t1) ++ E w) ++ "\") by (by rewrite !app_assoc_str).
      rewrite escaped_before_snoc. cbn [Ascii.eqb Bool.eqb andb].
      change (Ascii.eqb "\" "\") with true. cbv iota.
      unfold E. by rewrite escaped_before_escape_chars. }
    specialize (IH ts (t1 ++ w ++ String c "") t3 pre vec Hpre).
    fold (T ts) in IH.
    replace (S (String.length ((pre ++ E t1) ++ E w ++ "\")))
      with (String.length (pre ++ E (t1 ++ w ++ String c ""))).
    2:{ unfold E. rewrite !escape_chars_app. cbn [escape_chars].
        rewrite strchr_special, Hc. cbn [orb].
        rewrite !str_length_app. simpl. lia. }
    replace (((pre ++ E t1) ++ E w ++ "\") ++ String c (E t3 ++ T ts))
      with (pre ++ E ((t1 ++ w ++ String c "") ++ t3) ++ T ts).
    2:{ unfold E. rewrite !escape_chars_app. cbn [escape_chars].
        rewrite strchr_special, Hc. cbn [orb]. by rewrite !app_assoc_str. }
    rewrite IH.
    + by rewrite !app_assoc_str.
    + rewrite HE in Hfuel. rewrite !str_length_app in Hfuel.
      rewrite str_length_app. cbn [String.length] in Hfuel. lia.
  - (* the word is passed *)
    assert (free_of at_ (E t2) = true) as Hfree.
    { unfold E. by apply escape_chars_free_of. }
    destruct ts as [|u ts].
    + (* the last word *)
      replace (T []) with "" by done. rewrite !app_empty_r.
      rewrite find_first_of_none by done.
      cbn [fmap option_fmap option_map].
      replace ((pre ++ E t1) ++ E t2) with (pre ++ E (t1 ++ t2))
        by (unfold E; by rewrite escape_chars_app, app_assoc_str).
      replace (String.length pre) with (String.length pre + 0) by lia.
      rewrite substr_from_app_r, substr_from_0.
      rewrite erase_escapes_told.
      assert (unescaped at_ (E (t1 ++ t2)) = t1 ++ t2) as ->
        by apply unescaped_escape_chars.
      cbn [fmap list_fmap concat].
      rewrite app_nil_r. unfold emit.
      destruct (_ || _)%bool; [done|by rewrite app_nil_r].
    + (* the delimiter after the word *)
      assert (T (u :: ts) = String d (E u ++ T ts)) as HT.
      { unfold T.
        change ((fun u0 => String d "" ++ E u0) <$> u :: ts)
          with ((String d "" ++ E u) :: ((fun u0 => String d "" ++ E u0) <$> ts)).
        by rewrite concat_cons_str, app_assoc_str. }
      rewrite HT in Hfuel |- *.
      rewrite find_first_of_at by done.
      cbn [fmap option_fmap option_map].
      replace (String.length (pre ++ E t1) + String.length (E t2))
        with (String.length (pre ++ E (t1 ++ t2)))
        by (unfold E; rewrite escape_chars_app, !str_length_app; lia).
      replace ((pre ++ E t1) ++ E t2 ++ String d (E u ++ T ts))
        with ((pre ++ E (t1 ++ t2)) ++ String d (E u ++ T ts))
        by (unfold E; by rewrite escape_chars_app, !app_assoc_str).
      rewrite escaped_before_prefix by done.
      assert (escaped_before (pre ++ E (t1 ++ t2))
                (String.length (pre ++ E (t1 ++ t2))) false = false) as ->.
      { unfold E. by apply escaped_before_escape_chars. }
      replace (String.length (pre ++ E (t1 ++ t2)) - String.length pre)
        with (String.length (E (t1 ++ t2))) by (rewrite str_length_app; lia).
      assert (Str.substr ((pre ++ E (t1 ++ t2)) ++ String d (E u ++ T ts))
                (String.length pre) (String.length (E (t1 ++ t2)))
              = E (t1 ++ t2)) as ->.
      { rewrite !app_assoc_str.
        replace (String.length pre) with (String.length pre + 0) at 1 by lia.
        rewrite substr_app_r. apply substr_prefix. }
      rewrite erase_escapes_told.
      assert (unescaped at_ (E (t1 ++ t2)) = t1 ++ t2) as ->
        by apply unescaped_escape_chars.
      specialize (IH ts "" u (pre ++ E (t1 ++ t2) ++ String d "")).
      fold (T ts) in IH. rewrite app_empty_l in IH.
      cbn [escape_chars] in IH. fold E in IH. rewrite app_empty_r in IH.
      replace (S (String.length (pre ++ E (t1 ++ t2))))
        with (String.length (pre ++ E (t1 ++ t2) ++ String d ""))
        by (rewrite !str_length_app; simpl; lia).
      replace ((pre ++ E (t1 ++ t2)) ++ String d (E u ++ T ts))
        with ((pre ++ E (t1 ++ t2) ++ String d "") ++ E u ++ T ts)
        by (by rewrite !app_assoc_str).
      rewrite IH.
      * assert (forall (v : list string) (x : string),
                  (if ((0 <? String.length x)%nat || negb ie)%bool
                   then (v ++ [x])%list else v) = (v ++ emit ie x)%list)
          as Hemit.
        { intros v x. unfold emit.
          destruct (_ || _)%bool; [done|by rewrite app_nil_r]. }
        rewrite Hemit. cbn [fmap list_fmap concat].
        by rewrite <- !app_assoc.
      * replace (pre ++ E (t1 ++ t2) ++ String d "")
          with ((pre ++ E (t1 ++ t2)) ++ String d "")
          by (by rewrite !app_assoc_str).
        rewrite escaped_before_snoc. by rewrite Hdb.
      * rewrite str_length_app in Hfuel. cbn [String.length] in Hfuel. lia.
Qed.

Lemma concat_emit (ie : bool) (ts : list string) :
  (ie = true -> Forall (fun u => u <> "") ts) ->
  concat (emit ie <$> ts) = ts.
Proof.
  intros Hne. induction ts as [|u ts IH]; [done|].
  cbn [fmap list_fmap concat].
  assert (emit ie u = [u]) as ->.
  { unfold emit. destruct ie; cbn [negb]; [|by rewrite orb_true_r].
    destruct u as [|c u]; [|done].
    specialize (Hne eq_refl). by apply Forall_cons_1 in Hne as [? _]. }
  cbn [app]. f_equal. apply IH. intros ->. specialize (Hne eq_refl).
  by apply Forall_cons_1 in Hne as [_ ?].
Qed.

(** X30: escaping, joining and splitting with escape handling is a round
    trip: words escaped with [escape_string] and joined with a delimiter
    [d] of [at] are given back by [split_string] when it handles escapes,
    whatever the words hold (delimiters and backslashes included), as long
    as the first word is not empty, the backslash is not itself one of
    [at], and no word is empty when empty words are ignored. *)
Theorem escaped_split_round_trip (at_ : string) (d : ascii) (ie : bool)
    (t : string) (ts : list string) :
  strchr at_ d = true -> strchr at_ "\" = false -> t <> "" ->
  (ie = true -> Forall (fun u => u <> "") ts) ->
  split_string_template
    (join_to_string "" ((fun u => escape_string u at_) <$> t :: ts)
       (String d ""))
    true at_ ie
  = t :: ts.
Proof.
  intros Hd Hbs Ht Hne.
  change ((fun u => escape_string u at_) <$> t :: ts)
    with (escape_string t at_ :: ((fun u => escape_string u at_) <$> ts)).
  rewrite join_to_string_cons.
  2:{ rewrite escape_string_told. destruct t as [|c t]; [done|].
      cbn [escape_chars]. by destruct (strchr _ c). }
  assert ((fun it => String d "" ++ it)
            <$> ((fun u => escape_string u at_) <$> ts)
          = (fun u => String d "" ++ escape_chars (at_ ++ "\") u) <$> ts)
    as ->.
  { rewrite <- list_fmap_compose. apply list_fmap_ext.
    intros i u _. cbn. by rewrite escape_string_told. }
  rewrite escape_string_told.
  unfold split_string_template.
  pose proof (split_escaped_told at_ d ie
                (S (String.length
                      (escape_chars (at_ ++ "\") t
                       ++ String.concat ""
                            ((fun u => String d ""
                                       ++ escape_chars (at_ ++ "\") u) <$> ts))))
                Hd Hbs ts "" t "" [] eq_refl) as H.
  rewrite !app_empty_l in H. cbn [escape_chars String.length] in H.
  rewrite H by lia. cbn [app].
  assert (emit ie t = [t]) as ->.
  { unfold emit. destruct t; [done|]. done. }
  cbn [app]. f_equal. by apply concat_emit.
Qed.

Lemma escaped_split_round_trip_witness :
  split_string_template
    (join_to_string ""
       ((fun u => escape_string u ", ") <$> ["a, b"; ""; "c\"])
       (String "," ""))
    true ", " false
  = ["a, b"; ""; "c\"].
Proof.
  apply (escaped_split_round_trip ", " "," false "a, b" [""; "c\"]).
  - reflexivity.
  - reflexivity.
  - discriminate.
  - discriminate.
Defined.
